(** * A shallow embedding of the [logging] package

    The package is a process-local structured logger: leveled filtering,
    a JSON and a text rendering, destinations selected by a [+]-joined
    specification, and a variadic argument model that is classified into
    message / fields / raw JSON data / trailing error / leftovers.

    Go strings are byte strings; they are modelled by [string] (a list of
    8-bit characters).  Go maps are modelled by stdpp's [gmap].  *)

From Stdlib Require Import ZArith Ascii String List Lia.
From Stdlib Require DecimalString DecimalPos Reals Lra.
From stdpp Require Import base option list gmap strings sorting.

Local Open Scope string_scope.
Local Open Scope Z_scope.

(* ===================================================================== *)
(** ** Dynamic values                                                    *)
(* ===================================================================== *)

(** A finite [float64]: [(-1)^neg * mant * 2^exp].  The values built by
    [strconv.ParseFloat] have [mant < 2^53] and [-1074 <= exp <= 971], with
    [2^52 <= mant] unless [exp = -1074]; zero is [mant = 0], [exp = -1074]. *)
Record float64 := Float64 { f_neg : bool; f_mant : Z; f_exp : Z }.

(** What an [any] can hold, as far as the package tells values apart: it
    asserts [string], [error] and [map[string]any]; the other constructors
    are the types [json.Unmarshal] stores into an [any], Go's [int], and
    everything else.  [VMap] lists the entries of a map in the order in
    which [range] visits them; the keys of a map are pairwise distinct. *)
#[local] Unset Elimination Schemes.
Inductive value :=
| VNil
| VBool (b : bool)
| VInt (n : Z)
| VFloat (f : float64)
| VString (s : string)
| VError (msg : string)
| VSlice (l : list value)
| VMap (m : list (string * value))
| VOther (tag : string).
#[local] Set Elimination Schemes.

(* ===================================================================== *)
(** ** The part of the standard library the package calls                *)
(* ===================================================================== *)

(** Functions of the Go standard library whose result depends on Unicode
    tables, on formatting verbs or on the dynamic type of a value.  The
    development is parametric in them: every theorem below holds for all
    their instances. *)
Record golib := GoLib {
  (** [strings.Map(unicode.ToUpper, s)], used by [strings.ToUpper] when [s]
      holds a byte outside ASCII. *)
  unicode_upper : string → string;
  (** [strings.Map(unicode.ToLower, s)], same for [strings.ToLower]. *)
  unicode_lower : string → string;
  (** [strconv.Quote], the [%q] verb of [fmt]. *)
  strconv_Quote : string → string;
  (** [fmt.Sprint] of one value. *)
  fmt_Sprint : value → string;
  (** The shortest decimal text of a [float64], as the encoder of
      [encoding/json] writes it. *)
  format_float : float64 → string;
  (** [json.Marshal] of an error value or of a value of another type;
      [None] when the encoder reports an error. *)
  marshal_other : value → option string;
  (** The text of the error [json.Marshal] reports for a value it cannot
      encode. *)
  marshal_error_text : value → string;
  (** The order in which [range] visits the entries of a map; the language
      leaves it unspecified. *)
  map_range : gmap string value → list (string * value)
}.

Module strings.

Definition byte (n : N) : ascii := ascii_of_N n.
Definition code (c : ascii) : N := N_of_ascii c.

(** [utf8.RuneSelf]: bytes below it are single-byte runes. *)
Definition isASCII (c : ascii) : bool := (code c <? 128)%N.

(** The table [asciiSpace] of package strings. *)
Definition asciiSpace (c : ascii) : bool :=
  match code c with
  | 9 | 10 | 11 | 12 | 13 | 32 => true
  | _ => false
  end%N.

(** Width in bytes of the white-space rune (as [unicode.IsSpace] has it)
    encoded at the head of [s], 0 when [s] does not start with one.
    White space is U+0009..U+000D, U+0020, U+0085, U+00A0, U+1680,
    U+2000..U+200A, U+2028, U+2029, U+202F, U+205F and U+3000. *)
Definition spaceWidth (s : string) : nat :=
  match s with
  | "" => 0%nat
  | String c r =>
    if asciiSpace c then 1%nat else
    match code c, r with
    | 194, String d _ =>
        if ((code d =? 133) || (code d =? 160))%N then 2%nat else 0%nat
    | 225, String d1 (String d2 _) =>
        if ((code d1 =? 154) && (code d2 =? 128))%N then 3%nat else 0%nat
    | 226, String d1 (String d2 _) =>
        if (code d1 =? 128)%N then
          if (((128 <=? code d2) && (code d2 <=? 138))
              || (code d2 =? 168) || (code d2 =? 169) || (code d2 =? 175))%N
          then 3%nat else 0%nat
        else if ((code d1 =? 129) && (code d2 =? 159))%N then 3%nat
        else 0%nat
    | 227, String d1 (String d2 _) =>
        if ((code d1 =? 128) && (code d2 =? 128))%N then 3%nat else 0%nat
    | _, _ => 0%nat
    end%N
  end.

Fixpoint drop (n : nat) (s : string) : string :=
  match n, s with
  | O, _ => s
  | S n', String _ r => drop n' r
  | S _, "" => ""
  end.

(** [strings.TrimLeftFunc(s, unicode.IsSpace)].  The fuel bounds the
    number of runes removed; [TrimLeft] runs it with the length of [s]. *)
Fixpoint trimLeft_go (fuel : nat) (s : string) : string :=
  match fuel with
  | O => s
  | S fuel' =>
    match spaceWidth s with
    | O => s
    | w => trimLeft_go fuel' (drop w s)
    end
  end.

Definition TrimLeft (s : string) : string :=
  trimLeft_go (String.length s) s.

(** Same as [spaceWidth] for the rune that ends the string, on the
    reversed string: [utf8.DecodeLastRuneInString] walks back to the
    first byte that starts a rune. *)
Definition spaceWidthRev (r : string) : nat :=
  match r with
  | "" => 0%nat
  | String c _ =>
    if asciiSpace c then 1%nat else
    match r with
    | String d2 (String d1 rest) =>
        if (spaceWidth (String d1 (String d2 "")) =? 2)%nat then 2%nat
        else match rest with
             | String d0 _ =>
                 if (spaceWidth (String d0 (String d1 (String d2 ""))) =? 3)%nat
                 then 3%nat else 0%nat
             | "" => 0%nat
             end
    | _ => 0%nat
    end
  end.

Fixpoint trimRight_go (fuel : nat) (r : string) : string :=
  match fuel with
  | O => r
  | S fuel' =>
    match spaceWidthRev r with
    | O => r
    | w => trimRight_go fuel' (drop w r)
    end
  end.

(** [strings.TrimRightFunc(s, unicode.IsSpace)]. *)
Definition TrimRight (s : string) : string :=
  String.rev (trimRight_go (String.length s) (String.rev s)).

(** [strings.TrimSpace]: leading white space goes first, then trailing. *)
Definition TrimSpace (s : string) : string := TrimRight (TrimLeft s).

(** [strings.TrimSuffix]: [s] without the trailing [suffix], or [s]. *)
Fixpoint TrimSuffix (s suffix : string) : string :=
  match s with
  | "" => ""
  | String c r =>
    if String.eqb s suffix then "" else String c (TrimSuffix r suffix)
  end.

(** [strings.Split(s, sep)] for a separator of one byte. *)
Fixpoint Split (s : string) (sep : ascii) : list string :=
  match s with
  | "" => [""]
  | String c r =>
    if Ascii.eqb c sep then "" :: Split r sep
    else match Split r sep with
         | h :: t => String c h :: t
         | [] => [String c ""]
         end
  end.

Fixpoint allASCII (s : string) : bool :=
  match s with
  | "" => true
  | String c r => isASCII c && allASCII r
  end.

Definition upperByte (c : ascii) : ascii :=
  if ((97 <=? code c) && (code c <=? 122))%N then byte (code c - 32) else c.
Definition lowerByte (c : ascii) : ascii :=
  if ((65 <=? code c) && (code c <=? 90))%N then byte (code c + 32) else c.

Fixpoint mapBytes (f : ascii → ascii) (s : string) : string :=
  match s with
  | "" => ""
  | String c r => String (f c) (mapBytes f r)
  end.

(** [strings.ToUpper]: the ASCII path of the source, and the Unicode
    tables for a string with a byte outside ASCII. *)
Definition ToUpper (lib : golib) (s : string) : string :=
  if allASCII s then mapBytes upperByte s else unicode_upper lib s.

Definition ToLower (lib : golib) (s : string) : string :=
  if allASCII s then mapBytes lowerByte s else unicode_lower lib s.

(** [strings.HasPrefix]. *)
Definition HasPrefix (s prefix : string) : bool := String.prefix prefix s.

(** [strings.HasSuffix]. *)
Definition HasSuffix (s suffix : string) : bool :=
  (String.length suffix <=? String.length s)%nat
  && String.eqb (drop (String.length s - String.length suffix) s) suffix.

(** [strings.Contains]: [substr] starts at some index of [s]. *)
Fixpoint Contains (s substr : string) : bool :=
  String.prefix substr s
  || match s with
     | "" => false
     | String _ r => Contains r substr
     end.

End strings.

(** The full-width colon U+FF1A, in UTF-8. *)
Definition fullwidth_colon : string :=
  String (strings.byte 239) (String (strings.byte 188) (String (strings.byte 154) "")).

(* ===================================================================== *)
(** ** Levels, formats, destinations                                     *)
(* ===================================================================== *)

(** [type Level int] with the constants [DEBUG], [INFO], [WARN], [ERROR]
    numbered by [iota]. *)
Inductive Level := DEBUG | INFO | WARN | ERROR.

Definition rank (l : Level) : Z :=
  match l with DEBUG => 0 | INFO => 1 | WARN => 2 | ERROR => 3 end.

Definition Level_String (l : Level) : string :=
  match l with
  | DEBUG => "DEBUG" | INFO => "INFO" | WARN => "WARN" | ERROR => "ERROR"
  end.

Inductive Format := JSON | TEXT.

Inductive outputDest := outStdout | outStderr | outFile.

Global Instance Level_eq_dec : EqDecision Level.
Proof. solve_decision. Defined.
Global Instance Format_eq_dec : EqDecision Format.
Proof. solve_decision. Defined.
Global Instance outputDest_eq_dec : EqDecision outputDest.
Proof. solve_decision. Defined.
Global Instance outputDest_countable : Countable outputDest.
Proof.
  refine (inj_countable'
    (λ d, match d with outStdout => 0%nat | outStderr => 1%nat | outFile => 2%nat end)
    (λ n, match n with 0%nat => outStdout | 1%nat => outStderr | _ => outFile end) _).
  by intros [].
Defined.

(** A Go [error] is carried by its message; [None] is the nil error. *)
Definition error := option string.

(** Reading a [map[outputDest]bool]: a missing key reads as [false]. *)
Definition selected (out : gmap outputDest bool) (d : outputDest) : bool :=
  default false (out !! d).

Section Parsers.
Context (lib : golib).

Definition parseLevel (s : string) : Level * error :=
  let u := strings.ToUpper lib (strings.TrimSpace s) in
  if String.eqb u "DEBUG" then (DEBUG, None)
  else if String.eqb u "INFO" || String.eqb u "" then (INFO, None)
  else if String.eqb u "WARN" || String.eqb u "WARNING" then (WARN, None)
  else if String.eqb u "ERROR" then (ERROR, None)
  else (INFO, Some ("unknown log level: " ++ strconv_Quote lib s)).

Definition parseFormat (s : string) : Format * error :=
  let u := strings.ToLower lib (strings.TrimSpace s) in
  if String.eqb u "" || String.eqb u "json" then (JSON, None)
  else if String.eqb u "text" || String.eqb u "plain" then (TEXT, None)
  else (JSON, Some ("unknown log fmt: " ++ strconv_Quote lib s)).

(** The loop of [parseOutput] over the [+]-separated parts.  [inl out] is
    the map after the last part; [inr r] is the early [return] taken at an
    unknown part. *)
Fixpoint parseOutput_parts (parts : list string) (out : gmap outputDest bool)
  : gmap outputDest bool + (gmap outputDest bool * error) :=
  match parts with
  | [] => inl out
  | p :: parts' =>
    let t := strings.ToLower lib (strings.TrimSpace p) in
    if String.eqb t "stdout" then parseOutput_parts parts' (<[outStdout := true]> out)
    else if String.eqb t "stderr" then parseOutput_parts parts' (<[outStderr := true]> out)
    else if String.eqb t "file" then parseOutput_parts parts' (<[outFile := true]> out)
    else if String.eqb t "" then parseOutput_parts parts' out
    else inr ({[ outStderr := true ]},
              Some ("unknown GOLOG_OUTPUT part: " ++ strconv_Quote lib p))
  end.

Definition parseOutput (outputEnv fileEnv : string)
  : gmap outputDest bool * error :=
  let s := strings.TrimSpace outputEnv in
  if String.eqb s "" then
    if negb (String.eqb (strings.TrimSpace fileEnv) "")
    then ({[ outFile := true ]}, None)
    else ({[ outStderr := true ]}, None)
  else
    match parseOutput_parts (strings.Split s "+") ∅ with
    | inr r => r
    | inl out =>
      if selected out outFile && String.eqb (strings.TrimSpace fileEnv) ""
      then (out, Some "GOLOG_OUTPUT includes 'file' but GOLOG_FILE is empty")
      else (out, None)
    end.
End Parsers.

(* ===================================================================== *)
(** ** Configuration and sink assembly                                   *)
(* ===================================================================== *)

(** The members of the fan-out writer. *)
Inductive io_Writer := Stdout | Stderr | File (path : string).

Global Instance io_Writer_eq_dec : EqDecision io_Writer.
Proof. solve_decision. Defined.

(** [type config struct]: [writer] is the list handed to
    [io.MultiWriter]; [closer] names the file whose handle the closure
    closes. *)
Record config := Config {
  level : Level;
  fmt : Format;
  output : gmap outputDest bool;
  file : string;
  writer : list io_Writer;
  closer : option string
}.

(** A logger: its configuration and the output of its [*log.Logger].
    The package-level functions act on the pair [(cfg, stdLogger)]; the
    methods of [*Logger] act on [(l.cfg, l.lg)] with the same code. *)
Record Logger := MkLogger {
  cfg : config;
  lg : list io_Writer
}.

(** The package-level variables as they are initialised. *)
Definition initial : Logger :=
  {| cfg := {| level := INFO; fmt := JSON; output := {[ outStderr := true ]};
               file := ""; writer := []; closer := None |};
     lg := [Stderr] |}.

Section Sink.
(** [fs path] tells whether [os.MkdirAll] of the parent followed by
    [os.OpenFile(path, O_APPEND|O_CREATE|O_WRONLY)] gives a handle. *)
Context (fs : string → bool).

(** The writers collected by [rebuildWriterLocked] before the fallback,
    with the closer registered for the file. *)
Definition usableWriters (c : config) : list io_Writer * option string :=
  let w1 := if selected (output c) outStdout then [Stdout] else [] in
  let w2 := if selected (output c) outStderr then (w1 ++ [Stderr])%list else w1 in
  if selected (output c) outFile
     && negb (String.eqb (strings.TrimSpace (file c)) "")
  then if fs (file c) then ((w2 ++ [File (file c)])%list, Some (file c))
       else (w2, None)
  else (w2, None).

Definition rebuildWriterLocked (l : Logger) : Logger :=
  let c := cfg l in
  let '(writers, cl) := usableWriters c in
  let writers := match writers with [] => [Stderr] | _ => writers end in
  {| cfg := {| level := level c; fmt := fmt c; output := output c;
               file := file c; writer := writers; closer := cl |};
     lg := writers |}.
End Sink.

Definition set_level (lv : Level) (l : Logger) : Logger :=
  let c := cfg l in
  {| cfg := {| level := lv; fmt := fmt c; output := output c; file := file c;
               writer := writer c; closer := closer c |};
     lg := lg l |}.

Definition set_fmt (fm : Format) (l : Logger) : Logger :=
  let c := cfg l in
  {| cfg := {| level := level c; fmt := fm; output := output c; file := file c;
               writer := writer c; closer := closer c |};
     lg := lg l |}.

Definition set_output (out : gmap outputDest bool) (l : Logger) : Logger :=
  let c := cfg l in
  {| cfg := {| level := level c; fmt := fmt c; output := out; file := file c;
               writer := writer c; closer := closer c |};
     lg := lg l |}.

Definition set_file (f : string) (l : Logger) : Logger :=
  let c := cfg l in
  {| cfg := {| level := level c; fmt := fmt c; output := output c; file := f;
               writer := writer c; closer := closer c |};
     lg := lg l |}.

Section Setters.
Context (lib : golib) (fs : string → bool).

Definition SetLogLevel (lvl : string) (l : Logger) : Logger * error :=
  match parseLevel lib lvl with
  | (_, Some e) => (l, Some e)
  | (lv, None) => (set_level lv l, None)
  end.

Definition SetLogFmt (fmtStr : string) (l : Logger) : Logger * error :=
  match parseFormat lib fmtStr with
  | (_, Some e) => (l, Some e)
  | (fm, None) => (set_fmt fm l, None)
  end.

Definition SetOutput (outputStr : string) (l : Logger) : Logger * error :=
  let '(outs, err) := parseOutput lib outputStr (file (cfg l)) in
  (rebuildWriterLocked fs (set_output outs l), err).

Definition SetLogFile (path : string) (l : Logger) : Logger * error :=
  let l1 := set_file (strings.TrimSpace path) l in
  if selected (output (cfg l1)) outFile && String.eqb (file (cfg l1)) ""
  then (rebuildWriterLocked fs l1,
        Some "SetLogFile: output includes file but path is empty")
  else (rebuildWriterLocked fs l1, None).

(** [ReloadFromEnv], on the values of the four environment variables. *)
Definition ReloadFromEnv (envLevel envFmt envOut envFile : string)
           (l : Logger) : Logger * error :=
  let '(lv, err1) := parseLevel lib envLevel in
  let lv := if err1 is Some _ then INFO else lv in
  let '(fm, err2) := parseFormat lib envFmt in
  let fm := if err2 is Some _ then JSON else fm in
  let '(outs, err3) := parseOutput lib envOut envFile in
  let l1 := set_output outs
              (set_file (strings.TrimSpace envFile) (set_fmt fm (set_level lv l))) in
  (rebuildWriterLocked fs l1,
   match err1, err2, err3 with
   | Some e1, _, Some e3 => Some (e1 ++ "; " ++ e3)
   | Some e1, _, None => Some e1
   | None, Some e2, _ => Some e2
   | None, None, e3 => e3
   end).
End Setters.

(* ===================================================================== *)
(** ** UTF-8, as package [unicode/utf8] decodes and encodes it           *)
(* ===================================================================== *)

Module utf8.
Import strings.

Definition RuneError : N := 65533.

(** A continuation byte, [0x80..0xBF]. *)
Definition cont (c : ascii) : bool := ((128 <=? code c) && (code c <=? 191))%N.

Definition between (lo hi : N) (c : ascii) : bool :=
  ((lo <=? code c) && (code c <=? hi))%N.

(** [utf8.DecodeRuneInString]: the rune at the head of [s] and its width;
    [(RuneError, 1)] for an encoding that is not valid, [(RuneError, 0)]
    for the empty string. *)
Definition DecodeRune (s : string) : N * nat :=
  match s with
  | "" => (RuneError, 0%nat)
  | String c0 r =>
    let b0 := code c0 in
    if (b0 <? 128)%N then (b0, 1%nat)
    else if (b0 <? 194)%N then (RuneError, 1%nat)
    else if (b0 <? 224)%N then
      match r with
      | String c1 _ =>
        if cont c1 then (((b0 - 192) * 64 + (code c1 - 128))%N, 2%nat)
        else (RuneError, 1%nat)
      | _ => (RuneError, 1%nat)
      end
    else if (b0 <? 240)%N then
      match r with
      | String c1 (String c2 _) =>
        let lo := if (b0 =? 224)%N then 160%N else 128%N in
        let hi := if (b0 =? 237)%N then 159%N else 191%N in
        if between lo hi c1 && cont c2
        then ((((b0 - 224) * 64 + (code c1 - 128)) * 64 + (code c2 - 128))%N, 3%nat)
        else (RuneError, 1%nat)
      | _ => (RuneError, 1%nat)
      end
    else if (b0 <? 245)%N then
      match r with
      | String c1 (String c2 (String c3 _)) =>
        let lo := if (b0 =? 240)%N then 144%N else 128%N in
        let hi := if (b0 =? 244)%N then 143%N else 191%N in
        if between lo hi c1 && cont c2 && cont c3
        then (((((b0 - 240) * 64 + (code c1 - 128)) * 64 + (code c2 - 128)) * 64
               + (code c3 - 128))%N, 4%nat)
        else (RuneError, 1%nat)
      | _ => (RuneError, 1%nat)
      end
    else (RuneError, 1%nat)
  end.

Definition bytes3 (r : N) : string :=
  String (byte (224 + r / 4096))
    (String (byte (128 + (r / 64) mod 64)) (String (byte (128 + r mod 64)) ""))%N.

(** [utf8.AppendRune]: surrogates and runes above U+10FFFF are written as
    [RuneError]. *)
Definition EncodeRune (r : N) : string :=
  if (r <? 128)%N then String (byte r) ""
  else if (r <? 2048)%N then
    String (byte (192 + r / 64)) (String (byte (128 + r mod 64)) "")%N
  else if ((1114111 <? r) || ((55296 <=? r) && (r <=? 57343)))%N then bytes3 RuneError
  else if (r <? 65536)%N then bytes3 r
  else
    String (byte (240 + r / 262144))
      (String (byte (128 + (r / 4096) mod 64))
        (String (byte (128 + (r / 64) mod 64)) (String (byte (128 + r mod 64)) "")))%N.
End utf8.

(* ===================================================================== *)
(** ** Package [encoding/json]: scanner, decoder, encoder                *)
(* ===================================================================== *)

(** A number literal of a JSON text: [(-1)^n_neg * n_digits * 10^n_exp10],
    with the digits of the integer and fraction parts read as one integer. *)
Record number := Number { n_neg : bool; n_digits : Z; n_exp10 : Z }.

(** The syntax tree of a JSON text.  String contents are unquoted; an object
    keeps its members in source order, duplicates included. *)
#[local] Unset Elimination Schemes.
Inductive jtree :=
| JNull
| JBool (b : bool)
| JNumber (n : number)
| JString (s : string)
| JArray (l : list jtree)
| JObject (m : list (string * jtree)).
#[local] Set Elimination Schemes.

Module json.
Import strings.

(** The scanner's [isSpace]. *)
Definition isSpace (c : ascii) : bool :=
  match code c with
  | 32 | 9 | 13 | 10 => true
  | _ => false
  end%N.

Fixpoint skip_ws (s : string) : string :=
  match s with
  | String c r => if isSpace c then skip_ws r else s
  | "" => ""
  end.

(** The double quote. *)
Definition dquote : ascii := byte 34.

Definition isDigit (c : ascii) : bool := ((48 <=? code c) && (code c <=? 57))%N.
Definition digitVal (c : ascii) : Z := Z.of_N (code c) - 48.

(** A run of digits: its value on top of [acc], how many there are, and
    the rest of the input. *)
Fixpoint digits (s : string) (acc : Z) (n : Z) : Z * Z * string :=
  match s with
  | String c r => if isDigit c then digits r (acc * 10 + digitVal c) (n + 1) else (acc, n, s)
  | "" => (acc, n, "")
  end.

(** The digits of an exponent, accumulated as [strconv] does: once the
    value has reached 10000 further digits are skipped. *)
Fixpoint expDigits (s : string) (e : Z) (n : Z) : Z * Z * string :=
  match s with
  | String c r =>
    if isDigit c
    then expDigits r (if e <? 10000 then e * 10 + digitVal c else e) (n + 1)
    else (e, n, s)
  | "" => (e, n, "")
  end.

Definition hexVal (c : ascii) : option N :=
  let b := code c in
  if ((48 <=? b) && (b <=? 57))%N then Some (b - 48)%N
  else if ((97 <=? b) && (b <=? 102))%N then Some (b - 87)%N
  else if ((65 <=? b) && (b <=? 70))%N then Some (b - 55)%N
  else None.

(** Four hexadecimal digits at the head of [s]. *)
Definition hex4 (s : string) : option (N * string) :=
  match s with
  | String h1 (String h2 (String h3 (String h4 r))) =>
    match hexVal h1, hexVal h2, hexVal h3, hexVal h4 with
    | Some a, Some b, Some c, Some d => Some (((a * 16 + b) * 16 + c) * 16 + d, r)%N
    | _, _, _, _ => None
    end
  | _ => None
  end.

(** The integer part of a number literal: 0, or a run of digits that
    starts with a non-zero digit. *)
Definition scan_int (s : string) : option (Z * string) :=
  match s with
  | String c r =>
    if isDigit c then
      if Ascii.eqb c "0" then Some (0, r)
      else let '(ip, _, s2) := digits s 0 0 in Some (ip, s2)
    else None
  | "" => None
  end.

(** The optional fraction: a dot and one digit at least.  The digits go on
    top of the integer part; their number is returned with them. *)
Definition scan_frac (ip : Z) (s : string) : option (Z * Z * string) :=
  match s with
  | String "." r =>
    let '(d, n, s3) := digits r ip 0 in
    if n =? 0 then None else Some (d, n, s3)
  | _ => Some (ip, 0, s)
  end.

(** The optional exponent: e or E, an optional sign, one digit at least. *)
Definition scan_exp (s : string) : option (Z * string) :=
  match s with
  | String x r =>
    if Ascii.eqb x "e" || Ascii.eqb x "E" then
      let '(esign, r') :=
        match r with
        | String "+" r4 => (1, r4)
        | String "-" r4 => (-1, r4)
        | _ => (1, r)
        end in
      let '(e, n, s5) := expDigits r' 0 0 in
      if n =? 0 then None else Some (esign * e, s5)
    else Some (0, s)
  | "" => Some (0, "")
  end.

(** The number literal at the head of the input: an optional minus sign,
    the integer part, the optional fraction, the optional exponent. *)
Definition scan_number (s : string) : option (number * string) :=
  let '(neg, s1) :=
    match s with
    | String "-" r => (true, r)
    | _ => (false, s)
    end in
  match scan_int s1 with
  | None => None
  | Some (ip, s2) =>
    match scan_frac ip s2 with
    | None => None
    | Some (d, nfrac, s3) =>
      match scan_exp s3 with
      | None => None
      | Some (e, rest) => Some (Number neg d (e - nfrac), rest)
      end
    end
  end.

Definition strip_prefix (p s : string) : option string :=
  if String.prefix p s then Some (drop (String.length p) s) else None.

(** The body of a string literal, after the opening quote: the unquoted
    contents (as [unquote] of the decoder builds them) and the input after
    the closing quote.  [fuel] bounds the number of steps; each consumes a
    byte at least. *)
Fixpoint scan_string (fuel : nat) (s : string) : option (string * string) :=
  match fuel with
  | O => None
  | S fuel' =>
    let emit (piece rest : string) :=
      match scan_string fuel' rest with
      | Some (t, r) => Some (piece ++ t, r)
      | None => None
      end in
    match s with
    | "" => None
    | String c r =>
      if Ascii.eqb c dquote then Some ("", r)
      else if Ascii.eqb c "\" then
        match r with
        | "" => None
        | String e r2 =>
          if Ascii.eqb e dquote || Ascii.eqb e "\" || Ascii.eqb e "/"
          then emit (String e "") r2
          else if Ascii.eqb e "b" then emit (String (byte 8) "") r2
          else if Ascii.eqb e "f" then emit (String (byte 12) "") r2
          else if Ascii.eqb e "n" then emit (String (byte 10) "") r2
          else if Ascii.eqb e "r" then emit (String (byte 13) "") r2
          else if Ascii.eqb e "t" then emit (String (byte 9) "") r2
          else if Ascii.eqb e "u" then
            match hex4 r2 with
            | None => None
            | Some (rr, r3) =>
              if ((55296 <=? rr) && (rr <? 57344))%N then
                (* a surrogate: paired with a following low surrogate *)
                let pair :=
                  match r3 with
                  | String "\" (String "u" r4) =>
                    match hex4 r4 with
                    | Some (rr1, r5) =>
                      if ((rr <? 56320) && (56320 <=? rr1) && (rr1 <? 57344))%N
                      then Some (((rr - 55296) * 1024 + (rr1 - 56320) + 65536)%N, r5)
                      else None
                    | None => None
                    end
                  | _ => None
                  end in
                match pair with
                | Some (dec, r5) => emit (utf8.EncodeRune dec) r5
                | None => emit (utf8.EncodeRune utf8.RuneError) r3
                end
              else emit (utf8.EncodeRune rr) r3
            end
          else None
        end
      else if (code c <? 32)%N then None
      else if (code c <? 128)%N then emit (String c "") r
      else
        let '(rr, size) := utf8.DecodeRune s in
        emit (utf8.EncodeRune rr) (drop size s)
    end
  end.

(** [maxNestingDepth] of the scanner. *)
Definition maxNestingDepth : Z := 10000.

(** The value at the head of the input (white space skipped) and the rest
    of the input.  [depth] counts the arrays and objects that are open.
    [array_rest] reads what follows an element of an array, [object_rest]
    a member of an object, starting at its key. *)
Fixpoint scan_value (fuel : nat) (depth : Z) (s : string) {struct fuel}
  : option (jtree * string) :=
  match fuel with
  | O => None
  | S fuel' =>
    match skip_ws s with
    | "" => None
    | String c r =>
      if Ascii.eqb c "{" then
        if maxNestingDepth <? depth + 1 then None else
        match skip_ws r with
        | String "}" r' => Some (JObject [], r')
        | _ =>
          match object_rest fuel' (depth + 1) r [] with
          | Some (m, r') => Some (JObject m, r')
          | None => None
          end
        end
      else if Ascii.eqb c "[" then
        if maxNestingDepth <? depth + 1 then None else
        match skip_ws r with
        | String "]" r' => Some (JArray [], r')
        | _ =>
          match scan_value fuel' (depth + 1) r with
          | Some (v, r1) =>
            match array_rest fuel' (depth + 1) r1 [v] with
            | Some (l, r') => Some (JArray l, r')
            | None => None
            end
          | None => None
          end
        end
      else if Ascii.eqb c dquote then
        match scan_string (String.length r) r with
        | Some (t, r') => Some (JString t, r')
        | None => None
        end
      else if Ascii.eqb c "-" || isDigit c then
        match scan_number (String c r) with
        | Some (n, r') => Some (JNumber n, r')
        | None => None
        end
      else
        match strip_prefix "true" (String c r) with
        | Some r' => Some (JBool true, r')
        | None =>
          match strip_prefix "false" (String c r) with
          | Some r' => Some (JBool false, r')
          | None =>
            match strip_prefix "null" (String c r) with
            | Some r' => Some (JNull, r')
            | None => None
            end
          end
        end
    end
  end
with array_rest (fuel : nat) (depth : Z) (s : string) (acc : list jtree) {struct fuel}
  : option (list jtree * string) :=
  match fuel with
  | O => None
  | S fuel' =>
    match skip_ws s with
    | String "]" r => Some (acc, r)
    | String "," r =>
      match scan_value fuel' depth r with
      | Some (v, r1) => array_rest fuel' depth r1 (acc ++ [v])%list
      | None => None
      end
    | _ => None
    end
  end
with object_rest (fuel : nat) (depth : Z) (s : string) (acc : list (string * jtree))
     {struct fuel} : option (list (string * jtree) * string) :=
  match fuel with
  | O => None
  | S fuel' =>
    match skip_ws s with
    | String c r =>
      if negb (Ascii.eqb c dquote) then None else
      match scan_string (String.length r) r with
      | Some (k, r1) =>
        match skip_ws r1 with
        | String ":" r2 =>
          match scan_value fuel' depth r2 with
          | Some (v, r3) =>
            match skip_ws r3 with
            | String "}" r' => Some ((acc ++ [(k, v)])%list, r')
            | String "," r4 => object_rest fuel' depth r4 (acc ++ [(k, v)])%list
            | _ => None
            end
          | None => None
          end
        | _ => None
        end
      | None => None
      end
    | "" => None
    end
  end.

(** The syntax tree of a whole text: one value, white space around it. *)
Definition parse (data : string) : option jtree :=
  match scan_value (S (String.length data)) 0 data with
  | Some (t, rest) => if String.eqb (skip_ws rest) "" then Some t else None
  | None => None
  end.

(** [json.Valid]. *)
Definition Valid (data : string) : bool :=
  match parse data with Some _ => true | None => false end.
End json.

Module strconv.
(** The binary64 value nearest to [n / d] (ties to the even mantissa), as
    a mantissa and an exponent of 2, for [0 <= n] and [0 < d]; [None] when
    it is out of range, where [strconv.ParseFloat] reports [ErrRange]. *)
Definition roundFloat64 (n d : Z) : option (Z * Z) :=
  if n =? 0 then Some (0, -1074) else
  let e0 := Z.log2 n - Z.log2 d in
  let ge := if 0 <=? e0 then d * 2 ^ e0 <=? n else d <=? n * 2 ^ (- e0) in
  let e := if ge then e0 else e0 - 1 in
  let q := Z.max (e - 52) (-1074) in
  let num := if q <? 0 then n * 2 ^ (- q) else n in
  let den := if q <? 0 then d else d * 2 ^ q in
  let m := num / den in
  let r := num mod den in
  let m := if (den <? 2 * r) || ((2 * r =? den) && Z.odd m) then m + 1 else m in
  let '(m, q) := if m =? 2 ^ 53 then (2 ^ 52, q + 1) else (m, q) in
  if 971 <? q then None else Some (m, q).

(** [strconv.ParseFloat(s, 64)] on a number literal of a JSON text. *)
Definition ParseFloat (x : number) : option float64 :=
  let '(n, d) :=
    if 0 <=? n_exp10 x then (n_digits x * 10 ^ n_exp10 x, 1)
    else (n_digits x, 10 ^ (- n_exp10 x)) in
  match roundFloat64 n d with
  | Some (m, q) => Some (Float64 (n_neg x) m q)
  | None => None
  end.

(** [strconv.Itoa]. *)
Definition Itoa (n : Z) : string :=
  DecimalString.NilZero.string_of_int (Z.to_int n).

(** *** [strconv.FormatFloat] with the precision -1

    The digits are the fewest with which [strconv.ParseFloat] returns the
    float again, as the documentation of [FormatFloat] has it; of the
    decimals with that many digits, the one nearest to the float is taken. *)

(** The quotient [m * 2^q / 10^e], as a numerator and a denominator. *)
Definition scaled (m q e : Z) : Z * Z :=
  (m * 2 ^ Z.max q 0 * 10 ^ Z.max (- e) 0, 2 ^ Z.max (- q) 0 * 10 ^ Z.max e 0).

(** The position of the decimal point of [m * 2^q]: the least [k], from
    the start value on, with [m * 2^q < 10^k]. *)
Fixpoint decimalPoint_from (fuel : nat) (m q k : Z) : Z :=
  match fuel with
  | O => k
  | S fuel' =>
    let '(n, d) := scaled m q k in
    if n <? d then k else decimalPoint_from fuel' m q (k + 1)
  end.

Definition decimalPoint (m q : Z) : Z := decimalPoint_from 640 m q (-323).

(** The decimal [c * 10^e] without trailing zeros in [c]. *)
Fixpoint trimZeros (fuel : nat) (c e : Z) : Z * Z :=
  match fuel with
  | O => (c, e)
  | S fuel' =>
    if (0 <? c) && (c mod 10 =? 0) then trimZeros fuel' (c / 10) (e + 1) else (c, e)
  end.

Definition float_eqb (f g : float64) : bool :=
  Bool.eqb (f_neg f) (f_neg g) && (f_mant f =? f_mant g) && (f_exp f =? f_exp g).

(** [strconv.ParseFloat] reads the decimal [c * 10^e], with the sign of
    [f], as [f]. *)
Definition parsesTo (f : float64) (ce : Z * Z) : bool :=
  match ParseFloat (Number (f_neg f) ce.1 ce.2) with
  | Some g => float_eqb g f
  | None => false
  end.

(** The two decimals of [n] digits next to [m * 2^q], whose decimal point
    is at [k]: the nearer one first, the even one of two equally near. *)
Definition roundedTo (m q k n : Z) : (Z * Z) * (Z * Z) :=
  let e := k - n in
  let '(num, den) := scaled m q e in
  let lo := num / den in
  let r := num mod den in
  let up := (den <? 2 * r) || ((2 * r =? den) && Z.odd lo) in
  (trimZeros 18 (if up then lo + 1 else lo) e,
   trimZeros 18 (if up then lo else lo + 1) e).

(** The shortest decimal that [strconv.ParseFloat] reads as [f], the
    nearest to [f] among the shortest: decimals of [n], [n + 1], ... digits
    are tried; one of 17 digits is not tested any more. *)
Fixpoint shortest_from (fuel : nat) (f : float64) (k n : Z) : Z * Z :=
  let '(near, other) := roundedTo (f_mant f) (f_exp f) k n in
  match fuel with
  | O => near
  | S fuel' =>
    if parsesTo f near then near
    else if parsesTo f other then other
    else shortest_from fuel' f k (n + 1)
  end.

(** The digits of [strconv.FormatFloat(f, fmt, -1, 64)], as the integer
    they spell and a power of ten. *)
Definition shortest (f : float64) : Z * Z :=
  if f_mant f =? 0 then (0, 0)
  else shortest_from 16 f (decimalPoint (f_mant f) (f_exp f)) 1.

Definition digitChar (d : Z) : ascii := strings.byte (Z.to_N (48 + d)).

(** The decimal digits of a positive integer; none for zero. *)
Fixpoint digitsOf (fuel : nat) (c : Z) : string :=
  match fuel with
  | O => ""
  | S fuel' =>
    if c <=? 0 then "" else digitsOf fuel' (c / 10) ++ String (digitChar (c mod 10)) ""
  end.

Definition decimalDigits (c : Z) : string := digitsOf (S (Z.to_nat (Z.log2 c))) c.

Fixpoint zeros (n : nat) : string :=
  match n with
  | O => ""
  | S n' => String "0" (zeros n')
  end.

(** The format [%e] of [strconv], with as many digits as [ds] has: [ds]
    are the digits and [dp] is the position of the decimal point. *)
Definition fmtE (neg : bool) (ds : string) (dp : Z) : string :=
  let x := if ds is "" then 0 else dp - 1 in
  let a := Z.abs x in
  (if neg then "-" else "")
  ++ match ds with
     | "" => "0"
     | String d "" => String d ""
     | String d r => String d ("." ++ r)
     end
  ++ "e" ++ (if x <? 0 then "-" else "+")
  ++ (if a <? 10 then String "0" (String (digitChar a) "")
      else if a <? 100
      then String (digitChar (a / 10)) (String (digitChar (a mod 10)) "")
      else String (digitChar (a / 100))
             (String (digitChar (a / 10 mod 10)) (String (digitChar (a mod 10)) ""))).

(** The format [%f] of [strconv], with as many digits after the point as
    [ds] needs. *)
Definition fmtF (neg : bool) (ds : string) (dp : Z) : string :=
  let nd := Z.of_nat (String.length ds) in
  (if neg then "-" else "")
  ++ (if 0 <? dp
      then String.substring 0 (Z.to_nat (Z.min nd dp)) ds ++ zeros (Z.to_nat (dp - nd))
      else "0")
  ++ (if dp <? nd
      then "." ++ zeros (Z.to_nat (- dp)) ++ strings.drop (Z.to_nat dp) ds
      else "").
End strconv.

Module json_codec.
Import strings.

(** Storing a member into the [map[string]any] an object decodes to: a
    later member replaces an earlier one with the same key.  The entries
    are kept in ascending key order. *)
Fixpoint map_store (k : string) (v : value) (m : list (string * value))
  : list (string * value) :=
  match m with
  | [] => [(k, v)]
  | (k', v') :: m' =>
    if String.eqb k k' then (k, v) :: m'
    else if String.ltb k k' then (k, v) :: m
    else (k', v') :: map_store k v m'
  end.

(** The value the decoder stores into an [any] for a syntax tree, [None]
    when a number is out of the range of [float64].  The members of an
    object are stored into the map in source order. *)
Fixpoint to_value (t : jtree) : option value :=
  match t with
  | JNull => Some VNil
  | JBool b => Some (VBool b)
  | JNumber n =>
    match strconv.ParseFloat n with
    | Some f => Some (VFloat f)
    | None => None
    end
  | JString s => Some (VString s)
  | JArray l =>
    let fix go (l : list jtree) : option (list value) :=
      match l with
      | [] => Some []
      | t :: l' =>
        match to_value t, go l' with
        | Some v, Some vs => Some (v :: vs)
        | _, _ => None
        end
      end in
    match go l with
    | Some vs => Some (VSlice vs)
    | None => None
    end
  | JObject m =>
    let fix go (m : list (string * jtree)) (acc : list (string * value))
      : option (list (string * value)) :=
      match m with
      | [] => Some acc
      | kt :: m' =>
        match to_value kt.2 with
        | Some v => go m' (map_store kt.1 v acc)
        | None => None
        end
      end in
    match go m [] with
    | Some vs => Some (VMap vs)
    | None => None
    end
  end.

(** The two inner loops of [to_value], on their own. *)
Fixpoint to_values (l : list jtree) : option (list value) :=
  match l with
  | [] => Some []
  | t :: l' =>
    match to_value t, to_values l' with
    | Some v, Some vs => Some (v :: vs)
    | _, _ => None
    end
  end.

Fixpoint to_members (m : list (string * jtree)) (acc : list (string * value))
  : option (list (string * value)) :=
  match m with
  | [] => Some acc
  | kt :: m' =>
    match to_value kt.2 with
    | Some v => to_members m' (map_store kt.1 v acc)
    | None => None
    end
  end.

(** [json.Unmarshal(data, &x)] for [x] of type [any]: the value stored,
    [None] when an error is returned. *)
Definition Unmarshal (data : string) : option value :=
  match json.parse data with
  | Some t => to_value t
  | None => None
  end.

Definition hexDigit (n : N) : ascii :=
  if (n <? 10)%N then byte (48 + n) else byte (87 + n).

(** [htmlSafeSet]: the ASCII bytes the encoder copies as they are. *)
Definition htmlSafe (c : ascii) : bool :=
  let b := code c in
  ((32 <=? b) && negb (b =? 34) && negb (b =? 92)
   && negb (b =? 60) && negb (b =? 62) && negb (b =? 38))%N.

(** What [appendString] writes for an ASCII byte, with HTML escaping on. *)
Definition escapeByte (c : ascii) : string :=
  let b := code c in
  if htmlSafe c then String c ""
  else if (b =? 92)%N || (b =? 34)%N then String "\" (String c "")
  else if (b =? 8)%N then "\b"
  else if (b =? 12)%N then "\f"
  else if (b =? 10)%N then "\n"
  else if (b =? 13)%N then "\r"
  else if (b =? 9)%N then "\t"
  else "\u00" ++ String (hexDigit (b / 16)) (String (hexDigit (b mod 16)) "").

(** The contents of a string literal as [appendString] writes them.  [fuel]
    bounds the number of runes; [encodeString] runs it with the length of the
    string. *)
Fixpoint encodeBody (fuel : nat) (s : string) : string :=
  match fuel with
  | O => ""
  | S fuel' =>
    match s with
    | "" => ""
    | String c r =>
      if (code c <? 128)%N then escapeByte c ++ encodeBody fuel' r
      else
        let '(rr, size) := utf8.DecodeRune s in
        if (rr =? utf8.RuneError)%N && (size =? 1)%nat
        then "\ufffd" ++ encodeBody fuel' (drop size s)
        else if (rr =? 8232)%N || (rr =? 8233)%N
        then "\u202" ++ String (hexDigit (rr mod 16)) "" ++ encodeBody fuel' (drop size s)
        else String.substring 0 size s ++ encodeBody fuel' (drop size s)
    end
  end.

Definition encodeString (s : string) : string :=
  String json.dquote (encodeBody (String.length s) s ++ String json.dquote "").

Fixpoint join (sep : string) (l : list string) : string :=
  match l with
  | [] => ""
  | [x] => x
  | x :: l' => x ++ sep ++ join sep l'
  end.

Definition key_le (a b : string * option string) : Prop := String.le (fst a) (fst b).

Global Instance key_le_dec : RelDecision key_le.
Proof. intros a b. unfold key_le. apply _. Defined.

(** All the encodings of a list, [None] if one is an error. *)
Fixpoint all_some {A} (l : list (option A)) : option (list A) :=
  match l with
  | [] => Some []
  | Some x :: l' =>
    match all_some l' with Some xs => Some (x :: xs) | None => None end
  | None :: _ => None
  end.

Section Marshal.
Context (lib : golib).

(** [json.Marshal(v)]: the text, or [None] for an error.  A map is
    written with its keys sorted. *)
Fixpoint Marshal (v : value) : option string :=
  match v with
  | VNil => Some "null"
  | VBool true => Some "true"
  | VBool false => Some "false"
  | VInt n => Some (strconv.Itoa n)
  | VFloat f => Some (format_float lib f)
  | VString s => Some (encodeString s)
  | VSlice l =>
    match all_some (List.map Marshal l) with
    | Some xs => Some ("[" ++ join "," xs ++ "]")
    | None => None
    end
  | VMap m =>
    let enc := List.map (λ kv : string * value, (fst kv, Marshal (snd kv))) m in
    let sorted := merge_sort key_le enc in
    match all_some (List.map snd sorted) with
    | Some xs =>
      Some ("{" ++ join ","
              (List.map (λ kx : string * string, encodeString (fst kx) ++ ":" ++ snd kx)
                 (zip (List.map fst sorted) xs)) ++ "}")
    | None => None
    end
  | VError _ | VOther _ => marshal_other lib v
  end.
End Marshal.

(** *** The encoder of a [float64] *)

(** The magnitude of [f] is below the magnitude of [g]. *)
Definition abs_lt (f g : float64) : bool :=
  let q := Z.min (f_exp f) (f_exp g) in
  f_mant f * 2 ^ (f_exp f - q) <? f_mant g * 2 ^ (f_exp g - q).

(** The constants [1e-6] and [1e21] of type [float64]. *)
Definition float_1e_6 : float64 :=
  Eval vm_compute in default (Float64 false 0 (-1074)) (strconv.ParseFloat (Number false 1 (-6))).

Definition float_1e21 : float64 :=
  Eval vm_compute in default (Float64 false 0 (-1074)) (strconv.ParseFloat (Number false 1 21)).

(** The encoder's clean-up of an exponent of two digits: [e-09] becomes
    [e-9]. *)
Fixpoint cleanExp (s : string) : string :=
  match s with
  | String "e" (String sg (String "0" (String d ""))) =>
    if Ascii.eqb sg "-" || Ascii.eqb sg "+"
    then String "e" (String sg (String d ""))
    else s
  | String c r => String c (cleanExp r)
  | "" => ""
  end.

(** The text of a [float64], as the [floatEncoder] of [encoding/json]
    writes it: the shortest digits, in the format [%e] for magnitudes
    below [1e-6] and from [1e21] on, in the format [%f] otherwise. *)
Definition floatText (f : float64) : string :=
  let '(c, e) := strconv.shortest f in
  let ds := strconv.decimalDigits c in
  let dp := Z.of_nat (String.length ds) + e in
  if negb (f_mant f =? 0) && (abs_lt f float_1e_6 || negb (abs_lt f float_1e21))
  then cleanExp (strconv.fmtE (f_neg f) ds dp)
  else strconv.fmtF (f_neg f) ds dp.
End json_codec.

(* ===================================================================== *)
(** ** Argument classification                                           *)
(* ===================================================================== *)

Definition normalizeKey (k : string) : string :=
  let k := strings.TrimSpace k in
  let k := strings.TrimSuffix k ":" in
  strings.TrimSuffix k fullwidth_colon.

Definition mustUnmarshalAny (s : string) : value :=
  match json_codec.Unmarshal s with
  | Some x => x
  | None => VString s
  end.

Definition parseJSONIfString (v : value) : value :=
  match v with
  | VString s =>
    let s := strings.TrimSpace s in
    if json.Valid s then mustUnmarshalAny s else VString s
  | _ => v
  end.

(** The five results of [parseArgs]. *)
Record parsedArgs := ParsedArgs {
  msg : value;
  fields : gmap string value;
  dataJSON : list string;
  errField : error;
  extra : list value
}.

(** The single-map shortcut: [for k, v := range m { fields[normalizeKey(k)] = v }]. *)
Definition copyMap (m : list (string * value)) (fields : gmap string value)
  : gmap string value :=
  fold_left (λ f kv, <[normalizeKey (fst kv) := snd kv]> f) m fields.

(** The first loop of [parseArgs]: the strings whose trimmed text is valid
    JSON go to [dataJSON] (trimmed), the other elements to [kv]. *)
Fixpoint splitData (rest : list value) : list string * list value :=
  match rest with
  | [] => ([], [])
  | v :: rest' =>
    let '(data, kv) := splitData rest' in
    match v with
    | VString s =>
      let ss := strings.TrimSpace s in
      if json.Valid ss then (ss :: data, kv) else (data, v :: kv)
    | _ => (data, v :: kv)
    end
  end.

(** The trailing error: the last element of a [kv] of odd length, when it is
    an error. *)
Definition trailingError (kv : list value) : error * list value :=
  match last kv with
  | Some (VError e) =>
    if Nat.odd (length kv) then (Some e, removelast kv) else (None, kv)
  | _ => (None, kv)
  end.

(** The loop [for i := 0; i+1 < len(kv); i += 2]. *)
Fixpoint pairKV (kv : list value) (fields : gmap string value) (extra : list value)
  : gmap string value * list value :=
  match kv with
  | k :: v :: kv' =>
    match k with
    | VString key => pairKV kv' (<[normalizeKey key := v]> fields) extra
    | _ => pairKV kv' fields (extra ++ [k; v])%list
    end
  | _ => (fields, extra)
  end.

Definition parseArgs (args : list value) : parsedArgs :=
  match args with
  | [] => ParsedArgs (VString "") ∅ [] None []
  | msg :: rest =>
    match rest with
    | [VMap m] => ParsedArgs msg (copyMap m ∅) [] None []
    | _ =>
      let '(dataJSON, kv) := splitData rest in
      let '(errField, kv) := trailingError kv in
      let '(fields, extra) := pairKV kv ∅ [] in
      let extra :=
        if Nat.odd (length kv)
        then (extra ++ option_list (last kv))%list else extra in
      ParsedArgs msg fields dataJSON errField extra
    end
  end.

(* ===================================================================== *)
(** ** The JSON rendering                                                *)
(* ===================================================================== *)

Record orderedEntry := OrderedEntry {
  Ts : string;
  Lv : string;
  Caller : string;
  Msg : value;
  Extra : gmap string value;
  Err : option string
}.

(** The keys [MarshalJSON] keeps out of [Extra]. *)
Definition reserved (k : string) : bool :=
  String.eqb k "ts" || String.eqb k "lv" || String.eqb k "caller"
  || String.eqb k "msg" || String.eqb k "err".

(** [sort.Strings]. *)
Definition sort_Strings (l : list string) : list string := merge_sort String.le l.

(** The keys of [Extra] that [MarshalJSON] writes, in the order it writes
    them. *)
Definition extraKeys (e : orderedEntry) : list string :=
  sort_Strings (List.filter (λ k, negb (reserved k)) (List.map fst (map_to_list (Extra e)))).

(** The calls of [writeKV] made by [MarshalJSON], in order. *)
Definition entryPairs (e : orderedEntry) : list (string * value) :=
  ([("ts", VString (Ts e)); ("lv", VString (Lv e));
    ("caller", VString (Caller e)); ("msg", Msg e)]
   ++ List.map (λ k, (k, default VNil (Extra e !! k))) (extraKeys e)
   ++ match Err e with Some s => [("err", VString s)] | None => [] end)%list.

Definition buildJSONEntry (ts : string) (lv : Level) (caller : string)
           (args : list value) : orderedEntry :=
  let p := parseArgs args in
  let extraMap : gmap string value := parseJSONIfString <$> fields p in
  let extraMap :=
    match dataJSON p with
    | [] => extraMap
    | [d] => <["data" := mustUnmarshalAny d]> extraMap
    | ds => <["data" := VSlice (List.map mustUnmarshalAny ds)]> extraMap
    end in
  let extraMap :=
    match extra p with
    | [] => extraMap
    | xs => <["args" := VSlice xs]> extraMap
    end in
  {| Ts := ts; Lv := Level_String lv; Caller := caller;
     Msg := parseJSONIfString (msg p); Extra := extraMap; Err := errField p |}.

Section Render.
Context (lib : golib).

(** A run of [writeKV] calls on the builder [b]; [inr] carries the text of
    the error that stops it. *)
Fixpoint writeKVs (kvs : list (string * value)) (first : bool) (b : string)
  : string + string :=
  match kvs with
  | [] => inl b
  | (k, v) :: kvs' =>
    let b := if first then b else b ++ "," in
    match json_codec.Marshal lib v with
    | None => inr (marshal_error_text lib v)
    | Some vv => writeKVs kvs' false (b ++ json_codec.encodeString k ++ ":" ++ vv)
    end
  end.

Definition MarshalJSON (e : orderedEntry) : string + string :=
  match writeKVs (entryPairs e) true "{" with
  | inl b => inl (b ++ "}")
  | inr err => inr err
  end.

(* ------------------------------------------------------------------- *)
(** *** The text rendering *)

Definition mustQuote (s : string) : string := json_codec.encodeString s.

Definition formatTextValue (v : value) : string :=
  match v with
  | VString x => if json.Valid (strings.TrimSpace x) then x else mustQuote x
  | VError e => mustQuote e
  | _ => fmt_Sprint lib v
  end.

Definition buildTextLine (ts : string) (lv : Level) (caller : string)
           (args : list value) : string :=
  let p := parseArgs args in
  ts ++ " " ++ Level_String lv ++ " " ++ caller ++ " " ++ fmt_Sprint lib (msg p)
  ++ String.concat ""
       (List.map (λ kv : string * value, " " ++ fst kv ++ "=" ++ formatTextValue (snd kv))
          (map_range lib (fields p)))
  ++ match errField p with
     | Some e => " err=" ++ formatTextValue (VString e)
     | None => ""
     end
  ++ String.concat "" (List.map (λ s, " data=" ++ s) (dataJSON p))
  ++ match extra p with
     | [] => ""
     | xs => " args=" ++ formatTextValue (VSlice xs)
     end.
End Render.

(* ===================================================================== *)
(** ** The logging calls                                                 *)
(* ===================================================================== *)

Definition enabled (lv min : Level) : bool := rank min <=? rank lv.

(** What one log call reads from its surroundings: the caller found by
    [resolveCaller] on the stack, and the clock at the two places where
    [time.Now()] is formatted. *)
Record callEnv := CallEnv {
  env_caller : string;
  env_now : string;
  env_now_failure : string
}.

(** The calls made by the body of [logWithCaller], in order. *)
Inductive call :=
| call_resolveCaller
| call_buildJSONEntry (args : list value)
| call_Marshal (e : orderedEntry)
| call_buildTextLine (args : list value)
| call_Println (w : list io_Writer) (line : string).

Section Log.
Context (lib : golib) (env : callEnv).

Definition q : string := String json.dquote "".

(** The line written when the entry cannot be encoded. *)
Definition failureLine (caller err : string) : string :=
  "{" ++ q ++ "ts" ++ q ++ ":" ++ q ++ env_now_failure env ++ q ++ ","
  ++ q ++ "lv" ++ q ++ ":" ++ q ++ "ERROR" ++ q ++ ","
  ++ q ++ "caller" ++ q ++ ":" ++ q ++ caller ++ q ++ ","
  ++ q ++ "msg" ++ q ++ ":" ++ q ++ "marshal log failed" ++ q ++ ","
  ++ q ++ "err" ++ q ++ ":" ++ mustQuote err ++ "}".

Definition logWithCaller (l : Logger) (lv : Level) (args : list value) : list call :=
  let min := level (cfg l) in
  let fmtMode := fmt (cfg l) in
  if negb (enabled lv min) then [] else
  let caller := env_caller env in
  match fmtMode with
  | JSON =>
    let entry := buildJSONEntry (env_now env) lv caller args in
    match MarshalJSON lib entry with
    | inr err =>
      [call_resolveCaller; call_buildJSONEntry args; call_Marshal entry;
       call_Println (lg l)
         (failureLine caller
            ("json: error calling MarshalJSON for type logging.orderedEntry: " ++ err))]
    | inl b =>
      [call_resolveCaller; call_buildJSONEntry args; call_Marshal entry;
       call_Println (lg l) b]
    end
  | TEXT =>
    [call_resolveCaller; call_buildTextLine args;
     call_Println (lg l) (buildTextLine lib (env_now env) lv caller args)]
  end.

Definition Debug (l : Logger) (args : list value) := logWithCaller l DEBUG args.
Definition Info (l : Logger) (args : list value) := logWithCaller l INFO args.
Definition Warn (l : Logger) (args : list value) := logWithCaller l WARN args.
Definition Error (l : Logger) (args : list value) := logWithCaller l ERROR args.

Definition Log (l : Logger) (lvStr : string) (args : list value) : list call :=
  match parseLevel lib lvStr with
  | (_, Some _) => logWithCaller l INFO args
  | (lv, None) => logWithCaller l lv args
  end.
End Log.

(* ===================================================================== *)
(** ** Construction of a logger                                          *)
(* ===================================================================== *)

Record Options := MkOptions {
  opt_Level : string;
  opt_Fmt : string;
  opt_Output : string;
  opt_File : string
}.

Definition New (lib : golib) (fs : string → bool) (opts : Options) : Logger * error :=
  let lvl := if String.eqb (strings.TrimSpace (opt_Level opts)) "" then "INFO"
             else opt_Level opts in
  let fmtStr := if String.eqb (strings.TrimSpace (opt_Fmt opts)) "" then "json"
                else opt_Fmt opts in
  let '(lv, err1) := parseLevel lib lvl in
  let '(fm, err2) := parseFormat lib fmtStr in
  let '(outs, err3) := parseOutput lib (opt_Output opts) (opt_File opts) in
  let l := {| cfg := {| level := lv; fmt := fm; output := outs;
                        file := strings.TrimSpace (opt_File opts);
                        writer := []; closer := None |};
              lg := [Stderr] |} in
  (rebuildWriterLocked fs l,
   match err1, err2 with
   | Some e1, _ => Some e1
   | None, Some e2 => Some e2
   | None, None => err3
   end).

(* ===================================================================== *)
(** ** The other methods of a logger                                     *)
(* ===================================================================== *)

(** The method [IsDebug] of a logger. *)
Definition IsDebug (l : Logger) : bool := bool_decide (level (cfg l) = DEBUG).


(* ===================================================================== *)
(** ** The caller of a log call                                          *)
(* ===================================================================== *)

(** A [runtime.Frame], as far as [resolveCaller] reads it. *)
Record Frame := MkFrame {
  fr_Function : string;
  fr_File : string;
  fr_Line : Z
}.

(** [frames.Next()]: the next frame and whether more follow; past the end,
    the zero frame. *)
Definition Frames_Next (frames : list Frame) : Frame * bool * list Frame :=
  match frames with
  | [] => (MkFrame "" "" 0, false, [])
  | f :: rest => (f, match rest with [] => false | _ => true end, rest)
  end.

(** The three tests of [resolveCaller] on the name of a function: frames of
    the runtime, of package log and of this package are skipped. *)
Definition skippedFrame (fn : string) : bool :=
  (strings.HasPrefix fn "runtime." || strings.HasPrefix fn "log.")
  || (strings.Contains fn "github.com/Brian44913/logging."
      || strings.HasSuffix fn "/logging.Info")
  || strings.Contains fn "/logging.".

Section Caller.
(** [filepath.Base], which depends on the operating system. *)
Context (filepath_Base : string → string).

(** The loop of [resolveCaller] over the frames; [fuel] bounds the number
    of calls of [Next]. *)
Fixpoint resolveCaller_loop (fuel : nat) (frames : list Frame) : string :=
  match fuel with
  | O => "???:0"
  | S fuel' =>
    let '(f, more, frames') := Frames_Next frames in
    if skippedFrame (fr_Function f)
    then if more then resolveCaller_loop fuel' frames' else "???:0"
    else filepath_Base (fr_File f) ++ ":" ++ strconv.Itoa (fr_Line f)
  end.

(** [resolveCaller], on the frames that [runtime.CallersFrames] yields. *)
Definition resolveCaller (frames : list Frame) : string :=
  resolveCaller_loop (S (length frames)) frames.
End Caller.

(* ===================================================================== *)
(** ** Instances used to evaluate the model                              *)
(* ===================================================================== *)

(** The encoder's text of a float that is an integer below [2^53]: its
    decimal digits, as [strconv] writes it.  Other floats are outside the
    examples. *)
Definition sample_format_float (f : float64) : string :=
  let k := - f_exp f in
  if (0 <=? k) && (f_mant f mod 2 ^ k =? 0)
  then (if f_neg f then "-" else "") ++ strconv.Itoa (f_mant f / 2 ^ k)
  else "0".

(** An instance of the library parameters.  The examples evaluated with it
    are ASCII texts, on which [strings.ToUpper] and [strings.ToLower] do
    not consult the instance, with integers as their only numbers. *)
Definition sample_lib : golib :=
  {| unicode_upper := id;
     unicode_lower := id;
     strconv_Quote := λ s, q ++ s ++ q;
     fmt_Sprint := λ _, "";
     format_float := sample_format_float;
     marshal_other := λ _, Some "{}";
     marshal_error_text := λ _, "json: unsupported type";
     map_range := map_to_list |}.

(** The same instance with the float text of [encoding/json]. *)
Definition json_lib : golib :=
  {| unicode_upper := unicode_upper sample_lib;
     unicode_lower := unicode_lower sample_lib;
     strconv_Quote := strconv_Quote sample_lib;
     fmt_Sprint := fmt_Sprint sample_lib;
     format_float := json_codec.floatText;
     marshal_other := marshal_other sample_lib;
     marshal_error_text := marshal_error_text sample_lib;
     map_range := map_range sample_lib |}.

Definition sample_env : callEnv :=
  {| env_caller := "main.go:10";
     env_now := "2026-01-01 00:00:00";
     env_now_failure := "2026-01-01 00:00:00" |}.

(** The lines a trace of calls writes. *)
Definition printed (tr : list call) : list string :=
  omap (λ c, match c with call_Println _ line => Some line | _ => None end) tr.

(* ===================================================================== *)
(** ** Notions used in the statements                                    *)
(* ===================================================================== *)

(** A string argument whose trimmed text is valid JSON. *)
Definition jsonText (v : value) : bool :=
  match v with
  | VString s => json.Valid (strings.TrimSpace s)
  | _ => false
  end.

(** The arguments after the message are one [map[string]any]. *)
Definition isSingleMap (rest : list value) : bool :=
  match rest with
  | [VMap _] => true
  | _ => false
  end.

(** The list [kv] that the pairing loop of [parseArgs] runs on: the
    arguments after the message without the JSON texts and without the
    trailing error. *)
Definition pairingInput (rest : list value) : list value :=
  (trailingError (splitData rest).2).2.

(** The value [buildJSONEntry] stores under ["data"]. *)
Definition dataValue (ds : list string) : value :=
  match ds with
  | [d] => mustUnmarshalAny d
  | _ => VSlice (List.map mustUnmarshalAny ds)
  end.

(** The order of keys as the specification words it: the four fixed keys,
    the field keys in ascending order, then [data], then [args], then
    [err]. *)
Definition claimed_key_order (p : parsedArgs) : list string :=
  (["ts"; "lv"; "caller"; "msg"]
   ++ sort_Strings (List.map fst (map_to_list (fields p)))
   ++ (if dataJSON p is [] then [] else ["data"])
   ++ (if extra p is [] then [] else ["args"])
   ++ (if errField p is Some _ then ["err"] else []))%list.

(** What one call of [writeKV] adds to the builder, after the comma. *)
Definition member (kv : string * value) (vv : string) : string :=
  json_codec.encodeString kv.1 ++ ":" ++ vv.

(** The names [parseLevel] is said to accept. *)
Definition level_names : list string := ["DEBUG"; "INFO"; "WARN"; "WARNING"; "ERROR"].

(** *** Notions of the round trip through the codec *)

(** A Unicode scalar value: a code point that is not a surrogate. *)
Definition scalar (r : N) : Prop :=
  (r < 55296 ∨ (57344 ≤ r ∧ r ≤ 1114111))%N.

(** Valid UTF-8: a sequence of encoded runes. *)
Inductive clean : string → Prop :=
| clean_nil : clean ""
| clean_rune (r : N) (s : string) : clean s → clean (utf8.EncodeRune r ++ s).

(** What may follow a value inside a text: nothing, or the separator or
    closing bracket of the enclosing array or object. *)
Definition terminated (rest : string) : Prop :=
  match rest with
  | "" => True
  | String c _ => c = ","%char ∨ c = "]"%char ∨ c = "}"%char
  end.

(** The head of a remainder does not continue a number. *)
Definition stops (t : string) : Prop :=
  match t with
  | "" => True
  | String c _ =>
    json.isDigit c = false ∧ c ≠ "."%char ∧ c ≠ "e"%char ∧ c ≠ "E"%char
  end.

(** The strict order of [sort.Strings]. *)
Definition key_lt : relation string := strict String.le.

(** The number a text is, when the whole text is one number literal. *)
Definition number_text (s : string) : option number :=
  match json.scan_number s with
  | Some (n, "") => Some n
  | _ => None
  end.

(** The encoder's text for the float [f] is a number literal that
    [strconv.ParseFloat] reads back as [f]: the guarantee of the shortest
    formatting of [strconv], stated for one float. *)
Definition float_ok (lib : golib) (f : float64) : Prop :=
  ∃ n, number_text (format_float lib f) = Some n ∧ strconv.ParseFloat n = Some f.

(** The values the decoder produces: no integers, errors or foreign types,
    only valid UTF-8 in strings and keys, the members of a map in strictly
    ascending key order, and every float satisfying [okf]. *)
Fixpoint decoded_form (okf : float64 → Prop) (v : value) {struct v} : Prop :=
  match v with
  | VNil | VBool _ => True
  | VFloat f => okf f
  | VString s => clean s
  | VSlice l =>
    (fix go (l : list value) : Prop :=
       match l with
       | [] => True
       | x :: l' => decoded_form okf x ∧ go l'
       end) l
  | VMap m =>
    StronglySorted key_lt (List.map fst m)
    ∧ (fix go (m : list (string * value)) : Prop :=
         match m with
         | [] => True
         | kv :: m' => clean kv.1 ∧ decoded_form okf kv.2 ∧ go m'
         end) m
  | VInt _ | VError _ | VOther _ => False
  end.

(** The nesting depth of a value: the number of arrays and objects around
    its innermost part. *)
Fixpoint vdepth (v : value) : Z :=
  match v with
  | VSlice l =>
    1 + (fix go (l : list value) : Z :=
           match l with
           | [] => 0
           | x :: l' => Z.max (vdepth x) (go l')
           end) l
  | VMap m =>
    1 + (fix go (m : list (string * value)) : Z :=
           match m with
           | [] => 0
           | kv :: m' => Z.max (vdepth kv.2) (go m')
           end) m
  | _ => 0
  end.

(** The deepest nesting among the values of a list. *)
Definition vdepths (l : list value) : Z :=
  fold_right (λ x d, Z.max (vdepth x) d) 0 l.

(** What the decoder makes of a tree scanned at depth [d]: a value in
    decoded form whose nesting fits under the limit. *)
Definition sound (d : Z) (t : jtree) : Prop :=
  ∀ x, json_codec.to_value t = Some x →
       decoded_form (λ _, True) x ∧ d + vdepth x ≤ json.maxNestingDepth.

Definition sound_member (d : Z) (kt : string * jtree) : Prop :=
  clean kt.1 ∧ sound d kt.2.

Definition sound_map (d : Z) (m : list (string * value)) : Prop :=
  StronglySorted key_lt (List.map fst m)
  ∧ Forall (λ kv, clean kv.1 ∧ decoded_form (λ _, True) kv.2
                  ∧ d + vdepth kv.2 ≤ json.maxNestingDepth) m.

(** The text of a value starts with a byte that is neither white space nor
    a closing bracket. *)
Definition starts_value (out : string) : Prop :=
  ∃ c r, out = String c r ∧ json.isSpace c = false ∧ c ≠ "]"%char ∧ c ≠ "}"%char.

(** Scanning the text [out], at depth [d] and followed by a terminated
    rest, gives a tree that decodes to [x]. *)
Definition reads_back (d : Z) (x : value) (out : string) : Prop :=
  starts_value out
  ∧ ∀ fuel rest, (String.length out < fuel)%nat → terminated rest →
      ∃ t, json.scan_value fuel d (out ++ rest) = Some (t, rest)
           ∧ json_codec.to_value t = Some x.

(** The [float64] values inside a value. *)
Fixpoint floats (v : value) : list float64 :=
  match v with
  | VFloat f => [f]
  | VSlice l =>
    (fix go (l : list value) : list float64 :=
       match l with
       | [] => []
       | x :: l' => floats x ++ go l'
       end)%list l
  | VMap m =>
    (fix go (m : list (string * value)) : list float64 :=
       match m with
       | [] => []
       | kv :: m' => floats kv.2 ++ go m'
       end)%list m
  | _ => []
  end.

(** *** Notions of the configuration *)

(** The name of a destination in an output specification. *)
Definition dest_name (d : outputDest) : string :=
  match d with
  | outStdout => "stdout"
  | outStderr => "stderr"
  | outFile => "file"
  end.

(** A part of an output specification that [parseOutput] accepts: the name
    of a destination, or nothing. *)
Definition known_part (lib : golib) (p : string) : bool :=
  let t := strings.ToLower lib (strings.TrimSpace p) in
  String.eqb t "stdout" || String.eqb t "stderr" || String.eqb t "file"
  || String.eqb t "".

(** The file of a configuration is selected, has a path that is not blank
    and can be opened. *)
Definition fileUsable (fs : string → bool) (c : config) : bool :=
  selected (output c) outFile
  && negb (String.eqb (strings.TrimSpace (file c)) "")
  && fs (file c).

(** A function of the runtime, of package log, or of a package whose import
    path ends with [/logging]. *)
Definition inLogging (fn : string) : bool :=
  strings.HasPrefix fn "runtime." || strings.HasPrefix fn "log."
  || strings.Contains fn "/logging.".

(** *** Notions of the texts the encoder writes *)

(** Every byte is outside ASCII. *)
Fixpoint highs (s : string) : bool :=
  match s with
  | "" => true
  | String c r => (128 <=? strings.code c)%N && highs r
  end.

(** The text [out] is scanned as one value, at depth [d] and before a
    terminated rest. *)
Definition scans (d : Z) (out : string) : Prop :=
  starts_value out
  ∧ ∀ fuel rest, (String.length out < fuel)%nat → terminated rest →
      ∃ t, json.scan_value fuel d (out ++ rest) = Some (t, rest).

(** The values whose encoding does not depend on the library: nil,
    booleans, integers, strings of any bytes, floats whose text is a number
    literal, and the slices and maps of such values. *)
Fixpoint encodable (lib : golib) (v : value) {struct v} : Prop :=
  match v with
  | VNil | VBool _ | VInt _ | VString _ => True
  | VFloat f => is_Some (number_text (format_float lib f))
  | VSlice l =>
    (fix go (l : list value) : Prop :=
       match l with
       | [] => True
       | x :: l' => encodable lib x ∧ go l'
       end) l
  | VMap m =>
    (fix go (m : list (string * value)) : Prop :=
       match m with
       | [] => True
       | kv :: m' => encodable lib kv.2 ∧ go m'
       end) m
  | VError _ | VOther _ => False
  end.

(** A member of an object, from its key and the text of its value. *)
Definition memberText (ko : string * string) : string :=
  json_codec.encodeString ko.1 ++ ":" ++ ko.2.

(** A byte that a string literal of a JSON text may hold as it is: not a
    control character, a double quote or a backslash. *)
Definition plainByte (c : ascii) : bool :=
  negb (strings.code c <? 32)%N && negb (Ascii.eqb c json.dquote) && negb (Ascii.eqb c "\").

Fixpoint plain (s : string) : bool :=
  match s with
  | "" => true
  | String c r => plainByte c && plain r
  end.

(** No byte of the text is a control character: the text holds no line
    break. *)
Fixpoint printable (s : string) : bool :=
  match s with
  | "" => true
  | String c r => (32 <=? strings.code c)%N && printable r
  end.

(** The values whose encoding has no control character as far as the
    library decides it: the texts of the floats and of the values of other
    types come from the library. *)
Fixpoint oneLine (lib : golib) (v : value) {struct v} : Prop :=
  match v with
  | VNil | VBool _ | VInt _ | VString _ => True
  | VFloat f => printable (format_float lib f) = true
  | VSlice l =>
    (fix go (l : list value) : Prop :=
       match l with
       | [] => True
       | x :: l' => oneLine lib x ∧ go l'
       end) l
  | VMap m =>
    (fix go (m : list (string * value)) : Prop :=
       match m with
       | [] => True
       | kv :: m' => oneLine lib kv.2 ∧ go m'
       end) m
  | VError _ | VOther _ => ∀ out, marshal_other lib v = Some out → printable out = true
  end.

(** *** Notions of the range of the decoder *)

(** The number literals of a syntax tree, in source order. *)
Fixpoint numbers (t : jtree) {struct t} : list number :=
  match t with
  | JNumber n => [n]
  | JArray l =>
    (fix go (l : list jtree) : list number :=
       match l with
       | [] => []
       | t :: l' => (numbers t ++ go l')%list
       end) l
  | JObject m =>
    (fix go (m : list (string * jtree)) : list number :=
       match m with
       | [] => []
       | kt :: m' => (numbers kt.2 ++ go m')%list
       end) m
  | _ => []
  end.

(** The magnitude of a number literal is below [2 ^ 1023]. *)
Definition below_2_1023 (x : number) : Prop :=
  if 0 <=? n_exp10 x then n_digits x * 10 ^ n_exp10 x < 2 ^ 1023
  else n_digits x < 2 ^ 1023 * 10 ^ (- n_exp10 x).

(** *** Notions of the text of a float *)

(** A [float64] as [strconv.ParseFloat] builds it. *)
Definition canonical (f : float64) : Prop :=
  0 ≤ f_mant f < 2 ^ 53 ∧ -1074 ≤ f_exp f ≤ 971
  ∧ (-1074 < f_exp f → 2 ^ 52 ≤ f_mant f)
  ∧ (f_mant f = 0 → f_exp f = -1074).

(** The library writes a [float64] as the encoder of [encoding/json]
    does. *)
Definition json_floats (lib : golib) : Prop :=
  ∀ f, format_float lib f = json_codec.floatText f.

(** A run of decimal digits, and the integer it spells on top of [acc]. *)
Fixpoint allDigits (s : string) : bool :=
  match s with
  | "" => true
  | String c r => json.isDigit c && allDigits r
  end.

Fixpoint dval (acc : Z) (s : string) : Z :=
  match s with
  | "" => acc
  | String c r => dval (acc * 10 + json.digitVal c) r
  end.

(** The text does not go on with a digit. *)
Definition noDigitAhead (rest : string) : Prop :=
  match rest with
  | "" => True
  | String c _ => json.isDigit c = false
  end.

(** No byte of the text is the letter e. *)
Fixpoint noE (s : string) : bool :=
  match s with
  | "" => true
  | String c r => negb (Ascii.eqb c "e") && noE r
  end.

(** The digits of an exponent, after the clean-up of the encoder. *)
Definition expText (a : Z) : string :=
  if a <? 10 then String (strconv.digitChar a) ""
  else if a <? 100
  then String (strconv.digitChar (a / 10)) (String (strconv.digitChar (a mod 10)) "")
  else String (strconv.digitChar (a / 100))
         (String (strconv.digitChar (a / 10 mod 10))
            (String (strconv.digitChar (a mod 10)) "")).

(** The numbers of a scanned tree have digits that spell a natural
    number. *)
Definition natural_numbers (t : jtree) : Prop :=
  Forall (λ n, 0 ≤ n_digits n) (numbers t).

(* ===================================================================== *)
(** * Properties                                                         *)
(* ===================================================================== *)

(** ** Sink assembly *)

Lemma rebuild_writer_nonempty fs l :
  writer (cfg (rebuildWriterLocked fs l)) ≠ [].
Proof.
  unfold rebuildWriterLocked.
  destruct (usableWriters fs (cfg l)) as [[|w ws] cl]; simpl; discriminate.
Qed.

Lemma rebuild_lg fs l :
  lg (rebuildWriterLocked fs l) = writer (cfg (rebuildWriterLocked fs l)).
Proof.
  unfold rebuildWriterLocked.
  by destruct (usableWriters fs (cfg l)) as [[|w ws] cl].
Qed.

Lemma rebuild_fallback fs l :
  (usableWriters fs (cfg l)).1 = [] →
  writer (cfg (rebuildWriterLocked fs l)) = [Stderr].
Proof.
  unfold rebuildWriterLocked.
  destruct (usableWriters fs (cfg l)) as [ws cl]; simpl. by intros ->.
Qed.

Lemma rebuild_keeps fs l :
  let c := cfg (rebuildWriterLocked fs l) in
  level c = level (cfg l) ∧ fmt c = fmt (cfg l)
  ∧ output c = output (cfg l) ∧ file c = file (cfg l).
Proof.
  unfold rebuildWriterLocked.
  by destruct (usableWriters fs (cfg l)) as [[|w ws] cl].
Qed.

(** A configuration that selects the file only has no usable writer when
    the path is blank or the file cannot be opened. *)
Lemma usable_file_only fs c :
  output c = {[ outFile := true ]} →
  String.eqb (strings.TrimSpace (file c)) "" = true ∨ fs (file c) = false →
  (usableWriters fs c).1 = [].
Proof.
  intros Hout Hbad. unfold usableWriters. rewrite Hout.
  replace (selected {[outFile := true]} outStdout) with false by done.
  replace (selected {[outFile := true]} outStderr) with false by done.
  replace (selected {[outFile := true]} outFile) with true by done.
  destruct Hbad as [-> | Hfs]; [done|].
  rewrite Hfs. by destruct (negb _).
Qed.

Lemma parseOutput_file lib :
  parseOutput lib "file" "" =
  ({[ outFile := true ]}, Some "GOLOG_OUTPUT includes 'file' but GOLOG_FILE is empty").
Proof. reflexivity. Qed.

(** C3.  Every rebuild of the sink leaves a writer: the rebuild itself, and
    so each mutator that runs it ([SetOutput], [SetLogFile],
    [ReloadFromEnv], [New]), ends with a non-empty writer list, installed
    as the output of the logger; when no destination yields a usable writer,
    as when only the file is selected and its path is blank or it cannot be
    opened, the list is stderr alone.  Scenario D: with an empty file path,
    [SetOutput "file"] returns an error and the writer is stderr alone. *)
Theorem C3_fallback_to_stderr (lib : golib) (fs : string → bool) (l : Logger) :
  (writer (cfg (rebuildWriterLocked fs l)) ≠ []
   ∧ lg (rebuildWriterLocked fs l) = writer (cfg (rebuildWriterLocked fs l)))
  ∧ ((usableWriters fs (cfg l)).1 = [] →
     writer (cfg (rebuildWriterLocked fs l)) = [Stderr])
  ∧ (output (cfg l) = {[ outFile := true ]} →
     String.eqb (strings.TrimSpace (file (cfg l))) "" = true ∨ fs (file (cfg l)) = false →
     writer (cfg (rebuildWriterLocked fs l)) = [Stderr])
  ∧ (∀ s, writer (cfg (SetOutput lib fs s l).1) ≠ [])
  ∧ (∀ p, writer (cfg (SetLogFile fs p l).1) ≠ [])
  ∧ (∀ a b c d, writer (cfg (ReloadFromEnv lib fs a b c d l).1) ≠ [])
  ∧ (∀ opts, writer (cfg (New lib fs opts).1) ≠ [])
  ∧ (file (cfg l) = "" →
     ∃ l' e, SetOutput lib fs "file" l = (l', Some e)
             ∧ output (cfg l') = {[ outFile := true ]}
             ∧ writer (cfg l') = [Stderr] ∧ lg l' = [Stderr]).
Proof.
  repeat split.
  - apply rebuild_writer_nonempty.
  - apply rebuild_lg.
  - apply rebuild_fallback.
  - intros Hout Hbad. apply rebuild_fallback. by apply usable_file_only.
  - intros s. unfold SetOutput.
    destruct (parseOutput lib s (file (cfg l))) as [outs err]. simpl.
    apply rebuild_writer_nonempty.
  - intros p. unfold SetLogFile.
    destruct (_ && _); simpl; apply rebuild_writer_nonempty.
  - intros a b c d. unfold ReloadFromEnv.
    destruct (parseLevel lib a) as [lv e1], (parseFormat lib b) as [fm e2],
      (parseOutput lib c d) as [outs e3]. simpl.
    apply rebuild_writer_nonempty.
  - intros opts. unfold New.
    destruct (parseLevel lib _) as [lv e1], (parseFormat lib _) as [fm e2],
      (parseOutput lib _ _) as [outs e3]. simpl.
    apply rebuild_writer_nonempty.
  - intros Hfile. unfold SetOutput. rewrite Hfile, parseOutput_file.
    eexists _, _. split; [reflexivity|].
    assert (Hw : writer (cfg (rebuildWriterLocked fs (set_output {[outFile := true]} l)))
                 = [Stderr]).
    { apply rebuild_fallback, usable_file_only; [done|].
      left. simpl. by rewrite Hfile. }
    split; [apply rebuild_keeps|]. split; [done|]. by rewrite rebuild_lg.
Qed.

Lemma C3_fallback_to_stderr_witness :
  (usableWriters (λ _, false) (cfg (set_output {[ outFile := true ]} initial))).1 = []
  ∧ writer (cfg (rebuildWriterLocked (λ _, false)
                   (set_output {[ outFile := true ]} initial))) = [Stderr]
  ∧ file (cfg initial) = ""
  ∧ ∃ l' e, SetOutput sample_lib (λ _, true) "file" initial = (l', Some e)
            ∧ output (cfg l') = {[ outFile := true ]}
            ∧ writer (cfg l') = [Stderr] ∧ lg l' = [Stderr].
Proof.
  pose proof (C3_fallback_to_stderr sample_lib (λ _, false)
                (set_output {[ outFile := true ]} initial)) as (_ & H2 & _).
  pose proof (C3_fallback_to_stderr sample_lib (λ _, true) initial)
    as (_ & _ & _ & _ & _ & _ & _ & H8).
  split; [reflexivity|]. split; [apply H2; reflexivity|].
  split; [reflexivity|]. apply H8. reflexivity.
Defined.

(** ** The destination specification *)

(** C4, as stated, fails: a file path that is not empty but blank gives
    stderr, not the file. *)
Lemma C4_blank_path_counterexample :
  strings.TrimSpace "" = "" ∧ " " ≠ ""
  ∧ parseOutput sample_lib "" " " = ({[ outStderr := true ]}, None)
  ∧ parseOutput sample_lib "" " " ≠ ({[ outFile := true ]}, None).
Proof. repeat split; done. Qed.

(** C4, amended.  For a specification that is empty or all white space,
    [parseOutput] looks at the file path with its white space trimmed: when
    something is left the destinations are the file alone, without stderr
    and without an error; when nothing is left they are stderr alone,
    without an error. *)
Theorem C4_empty_spec (lib : golib) (spec fileEnv : string) :
  strings.TrimSpace spec = "" →
  (strings.TrimSpace fileEnv ≠ "" →
   parseOutput lib spec fileEnv = ({[ outFile := true ]}, None))
  ∧ (strings.TrimSpace fileEnv = "" →
     parseOutput lib spec fileEnv = ({[ outStderr := true ]}, None)).
Proof.
  intros Hspec. unfold parseOutput. rewrite Hspec. simpl. split.
  - intros Hne. apply String.eqb_neq in Hne. by rewrite Hne.
  - by intros ->.
Qed.

Lemma C4_empty_spec_witness :
  (strings.TrimSpace "  " = "" ∧ strings.TrimSpace "/tmp/app.log" ≠ ""
   ∧ parseOutput sample_lib "  " "/tmp/app.log" = ({[ outFile := true ]}, None))
  ∧ (strings.TrimSpace "" = "" ∧ strings.TrimSpace " " = ""
     ∧ parseOutput sample_lib "" " " = ({[ outStderr := true ]}, None)).
Proof.
  split.
  - split; [reflexivity|]. split; [discriminate|].
    apply (C4_empty_spec sample_lib "  " "/tmp/app.log"); [reflexivity|discriminate].
  - split; [reflexivity|]. split; [reflexivity|].
    apply (C4_empty_spec sample_lib "" " "); reflexivity.
Defined.

(** ** The level filter *)

Lemma enabled_rank lv min : enabled lv min = true ↔ rank min ≤ rank lv.
Proof. unfold enabled. apply Z.leb_le. Qed.

Lemma logWithCaller_disabled lib env l lv args :
  enabled lv (level (cfg l)) = false → logWithCaller lib env l lv args = [].
Proof. intros H. unfold logWithCaller. by rewrite H. Qed.

Lemma logWithCaller_enabled lib env l lv args :
  enabled lv (level (cfg l)) = true →
  ∃ pre line,
    logWithCaller lib env l lv args = (pre ++ [call_Println (lg l) line])%list
    ∧ head pre = Some call_resolveCaller ∧ printed pre = [].
Proof.
  intros H. unfold logWithCaller. rewrite H. simpl.
  destruct (fmt (cfg l)).
  - destruct (MarshalJSON lib _) as [b|err].
    + by exists [call_resolveCaller; call_buildJSONEntry args;
                 call_Marshal (buildJSONEntry (env_now env) lv (env_caller env) args)], b.
    + by eexists [call_resolveCaller; call_buildJSONEntry args;
                  call_Marshal (buildJSONEntry (env_now env) lv (env_caller env) args)], _.
  - by eexists [call_resolveCaller; call_buildTextLine args], _.
Qed.

(** C7.  A call at level [lv] against the threshold [T] writes a line if and
    only if [rank lv >= rank T].  Below the threshold the body of
    [logWithCaller] makes no call at all after reading the level: no caller
    resolution, no classification, no encoding, no write.  At or above it,
    the caller is resolved first and exactly one line is written, last, to
    the output of the logger.  With the threshold INFO, [Debug] writes
    nothing and [Info], [Warn], [Error] each write a line. *)
Theorem C7_level_filter (lib : golib) (env : callEnv) (l : Logger)
        (lv : Level) (args : list value) :
  (enabled lv (level (cfg l)) = true ↔ rank (level (cfg l)) ≤ rank lv)
  ∧ (rank lv < rank (level (cfg l)) → logWithCaller lib env l lv args = [])
  ∧ (rank (level (cfg l)) ≤ rank lv →
     ∃ pre line,
       logWithCaller lib env l lv args = (pre ++ [call_Println (lg l) line])%list
       ∧ head pre = Some call_resolveCaller ∧ printed pre = [])
  ∧ (length (printed (logWithCaller lib env l lv args)) = 1%nat
     ↔ rank (level (cfg l)) ≤ rank lv)
  ∧ (level (cfg l) = INFO →
     Debug lib env l args = []
     ∧ length (printed (Info lib env l args)) = 1%nat
     ∧ length (printed (Warn lib env l args)) = 1%nat
     ∧ length (printed (Error lib env l args)) = 1%nat).
Proof.
  assert (Hone : ∀ lv', enabled lv' (level (cfg l)) = true →
                 length (printed (logWithCaller lib env l lv' args)) = 1%nat).
  { intros lv' H. destruct (logWithCaller_enabled lib env l lv' args H)
      as (pre & line & -> & _ & Hpre).
    unfold printed in *. rewrite omap_app, Hpre. done. }
  split; [apply enabled_rank|].
  split.
  { intros Hlt. apply logWithCaller_disabled.
    destruct (enabled lv _) eqn:E; [|done]. apply enabled_rank in E. lia. }
  split.
  { intros Hle. by apply logWithCaller_enabled, enabled_rank. }
  split.
  { split.
    - intros Hlen. destruct (enabled lv (level (cfg l))) eqn:E.
      + by apply enabled_rank.
      + rewrite (logWithCaller_disabled _ _ _ _ _ E) in Hlen. done.
    - intros Hle. by apply Hone, enabled_rank. }
  intros HT. unfold Debug, Info, Warn, Error.
  split; [apply logWithCaller_disabled; by rewrite HT|].
  repeat split; apply Hone; by rewrite HT.
Qed.

Lemma C7_level_filter_witness :
  (rank DEBUG < rank (level (cfg initial))
   ∧ logWithCaller sample_lib sample_env initial DEBUG [VString "hidden"] = [])
  ∧ (rank (level (cfg initial)) ≤ rank WARN
     ∧ ∃ pre line,
       logWithCaller sample_lib sample_env initial WARN [VString "shown"]
       = (pre ++ [call_Println (lg initial) line])%list
       ∧ head pre = Some call_resolveCaller ∧ printed pre = [])
  ∧ (level (cfg initial) = INFO
     ∧ Debug sample_lib sample_env initial [VString "shown"] = []
     ∧ length (printed (Info sample_lib sample_env initial [VString "shown"])) = 1%nat
     ∧ length (printed (Warn sample_lib sample_env initial [VString "shown"])) = 1%nat
     ∧ length (printed (Error sample_lib sample_env initial [VString "shown"])) = 1%nat).
Proof.
  split.
  - split; [reflexivity|].
    apply (C7_level_filter sample_lib sample_env initial DEBUG [VString "hidden"]).
    reflexivity.
  - split.
    + split; [discriminate|].
      apply (C7_level_filter sample_lib sample_env initial WARN [VString "shown"]).
      discriminate.
    + split; [reflexivity|].
      apply (C7_level_filter sample_lib sample_env initial WARN [VString "shown"]).
      reflexivity.
Defined.

(** ** The level setter *)

(** C8, as stated, fails: the empty string is none of the level names, yet
    [SetLogLevel] accepts it, returns no error and sets the level to INFO. *)
Lemma C8_empty_name_counterexample :
  (strings.ToUpper sample_lib (strings.TrimSpace "") ∉ level_names)
  ∧ SetLogLevel sample_lib "" (set_level DEBUG initial) = (set_level INFO initial, None)
  ∧ level (cfg (set_level DEBUG initial)) = DEBUG
  ∧ level (cfg (SetLogLevel sample_lib "" (set_level DEBUG initial)).1) = INFO.
Proof.
  split; [|by repeat split].
  vm_compute. intros H. repeat (apply elem_of_cons in H as [H|H]; [discriminate|]).
  by apply elem_of_nil in H.
Qed.

(** C8, amended.  For every input whose trimmed, upper-cased text is neither
    one of DEBUG, INFO, WARN, WARNING, ERROR nor empty, [SetLogLevel] returns
    the error [unknown log level: ] followed by the quoted input and leaves
    the whole logger (level, format, destinations, file path, writer) as it
    was.  An input that is empty or all white space is accepted as INFO. *)
Theorem C8_invalid_level (lib : golib) (lvl : string) (l : Logger) :
  (strings.ToUpper lib (strings.TrimSpace lvl) ∉ ("" :: level_names) →
   SetLogLevel lib lvl l = (l, Some ("unknown log level: " ++ strconv_Quote lib lvl)))
  ∧ (strings.TrimSpace lvl = "" →
     SetLogLevel lib lvl l = (set_level INFO l, None)).
Proof.
  unfold SetLogLevel, parseLevel. split.
  - intros Hnot.
    set (u := strings.ToUpper lib (strings.TrimSpace lvl)) in *.
    assert (Hne : ∀ n, n ∈ "" :: level_names → String.eqb u n = false).
    { intros n Hn. apply String.eqb_neq. intros ->. done. }
    rewrite !Hne; [done|unfold level_names; set_solver..].
  - intros ->. reflexivity.
Qed.

Lemma C8_invalid_level_witness :
  ((strings.ToUpper sample_lib (strings.TrimSpace "verbose") ∉ ("" :: level_names))
   ∧ SetLogLevel sample_lib "verbose" initial
     = (initial, Some ("unknown log level: " ++ strconv_Quote sample_lib "verbose")))
  ∧ (strings.TrimSpace "  " = ""
     ∧ SetLogLevel sample_lib "  " initial = (set_level INFO initial, None)).
Proof.
  assert (Hnot : strings.ToUpper sample_lib (strings.TrimSpace "verbose")
                 ∉ ("" :: level_names)).
  { intros H. repeat (apply elem_of_cons in H as [H|H]; [discriminate|]).
    by apply elem_of_nil in H. }
  split.
  - split; [exact Hnot|].
    apply (C8_invalid_level sample_lib "verbose" initial). exact Hnot.
  - split; [reflexivity|].
    apply (C8_invalid_level sample_lib "  " initial). reflexivity.
Defined.

(** ** Strings *)

Lemma string_app_nil_l (t : string) : "" ++ t = t.
Proof. reflexivity. Qed.

Lemma string_app_cons (a : ascii) (s t : string) : String a s ++ t = String a (s ++ t).
Proof. reflexivity. Qed.

Lemma string_app_length (s t : string) :
  String.length (s ++ t) = (String.length s + String.length t)%nat.
Proof.
  induction s as [|a s IH]; [done|].
  rewrite string_app_cons. simpl. by rewrite IH.
Qed.

Lemma string_app_assoc (s t u : string) : (s ++ t) ++ u = s ++ (t ++ u).
Proof.
  induction s as [|a s IH]; [done|].
  rewrite !string_app_cons. by rewrite IH.
Qed.

Lemma TrimSuffix_cons (c : ascii) (r suffix : string) :
  strings.TrimSuffix (String c r) suffix =
  if String.eqb (String c r) suffix then "" else String c (strings.TrimSuffix r suffix).
Proof. reflexivity. Qed.

Lemma TrimSuffix_app (u suffix : string) :
  suffix ≠ "" → strings.TrimSuffix (u ++ suffix) suffix = u.
Proof.
  intros Hne. induction u as [|a u IH].
  - rewrite string_app_nil_l. destruct suffix as [|c r]; [done|].
    by rewrite TrimSuffix_cons, String.eqb_refl.
  - rewrite string_app_cons, TrimSuffix_cons.
    destruct (String.eqb_spec (String a (u ++ suffix)) suffix) as [Heq|_].
    + apply (f_equal String.length) in Heq. simpl in Heq.
      rewrite string_app_length in Heq. lia.
    + by rewrite IH.
Qed.

Lemma TrimSuffix_none (s suffix : string) :
  (∀ u, s ≠ u ++ suffix) → strings.TrimSuffix s suffix = s.
Proof.
  induction s as [|a s IH]; intros Hno; [done|].
  rewrite TrimSuffix_cons. destruct (String.eqb_spec (String a s) suffix) as [Heq|_].
  - by destruct (Hno "").
  - rewrite IH; [done|]. intros u ->. by destruct (Hno (String a u)).
Qed.

(** A text that ends with the full-width colon does not end with [:]. *)
Lemma fullwidth_not_ascii (u w : string) : u ++ fullwidth_colon ≠ w ++ ":".
Proof.
  revert w. induction u as [|a u IH]; intros w Heq.
  - rewrite string_app_nil_l in Heq.
    destruct w as [|b1 [|b2 [|b3 [|b4 w]]]]; discriminate.
  - destruct w as [|b w].
    + rewrite string_app_cons, string_app_nil_l in Heq.
      injection Heq as _ Heq. apply (f_equal String.length) in Heq.
      rewrite string_app_length in Heq. simpl in Heq. lia.
    + rewrite !string_app_cons in Heq. injection Heq as _ Heq. by apply IH in Heq.
Qed.

(** ** Key normalisation *)

Lemma normalizeKey_both (k u : string) :
  strings.TrimSpace k = u ++ fullwidth_colon ++ ":" → normalizeKey k = u.
Proof.
  intros Ht. unfold normalizeKey. rewrite Ht.
  rewrite <- string_app_assoc, TrimSuffix_app by done.
  by rewrite TrimSuffix_app.
Qed.

Lemma normalizeKey_ascii (k u : string) :
  strings.TrimSpace k = u ++ ":" → (∀ w, u ≠ w ++ fullwidth_colon) →
  normalizeKey k = u.
Proof.
  intros Ht Hno. unfold normalizeKey. rewrite Ht, TrimSuffix_app by done.
  by apply TrimSuffix_none.
Qed.

Lemma normalizeKey_fullwidth (k u : string) :
  strings.TrimSpace k = u ++ fullwidth_colon → normalizeKey k = u.
Proof.
  intros Ht. unfold normalizeKey. rewrite Ht.
  rewrite (TrimSuffix_none _ ":") by (intros w; apply fullwidth_not_ascii).
  by rewrite TrimSuffix_app.
Qed.

Lemma normalizeKey_plain (k : string) :
  (∀ u, strings.TrimSpace k ≠ u ++ ":") →
  (∀ u, strings.TrimSpace k ≠ u ++ fullwidth_colon) →
  normalizeKey k = strings.TrimSpace k.
Proof.
  intros H1 H2. unfold normalizeKey.
  rewrite (TrimSuffix_none _ ":") by done. by apply TrimSuffix_none.
Qed.

(** ** Classification: the general branch *)

Lemma list_pair_ind {A} (P : list A → Prop) :
  P [] → (∀ x, P [x]) → (∀ x y l, P l → P (x :: y :: l)) → ∀ l, P l.
Proof.
  intros H0 H1 H2.
  assert (H : ∀ l, P l ∧ ∀ x, P (x :: l)).
  { induction l as [|y l [IH1 IH2]]; [by split|].
    split; [apply IH2|]. intros x. by apply H2. }
  intros l. apply H.
Qed.

Lemma parseArgs_general (m : value) (rest : list value) :
  isSingleMap rest = false →
  parseArgs (m :: rest) =
  let kv := pairingInput rest in
  let r := pairKV kv ∅ [] in
  {| msg := m; fields := r.1; dataJSON := (splitData rest).1;
     errField := (trailingError (splitData rest).2).1;
     extra := if Nat.odd (length kv)
              then (r.2 ++ option_list (last kv))%list else r.2 |}.
Proof.
  intros Hno. unfold pairingInput.
  assert (Hgen :
    (let '(dataJSON, kv) := splitData rest in
     let '(errField, kv) := trailingError kv in
     let '(fields, extra) := pairKV kv ∅ [] in
     let extra :=
       if Nat.odd (length kv)
       then (extra ++ option_list (last kv))%list else extra in
     ParsedArgs m fields dataJSON errField extra) =
    (let kv := (trailingError (splitData rest).2).2 in
     let r := pairKV kv ∅ [] in
     {| msg := m; fields := r.1; dataJSON := (splitData rest).1;
        errField := (trailingError (splitData rest).2).1;
        extra := if Nat.odd (length kv)
                 then (r.2 ++ option_list (last kv))%list else r.2 |})).
  { destruct (splitData rest) as [data kv]. simpl.
    destruct (trailingError kv) as [e kv']. simpl.
    by destruct (pairKV kv' ∅ []) as [f x]. }
  destruct rest as [|v [|v' rest']]; [exact Hgen|..];
    destruct v; try discriminate Hno; exact Hgen.
Qed.

Lemma splitData_kv (rest : list value) :
  (splitData rest).2 = List.filter (λ v, negb (jsonText v)) rest.
Proof.
  induction rest as [|v rest IH]; [done|].
  simpl. destruct (splitData rest) as [data kv]. simpl in IH.
  destruct v; simpl; try by rewrite IH.
  destruct (json.Valid _); simpl; by rewrite IH.
Qed.

Lemma splitData_data (rest : list value) :
  (splitData rest).1 =
  omap (λ v, match v with
             | VString s => if jsonText v then Some (strings.TrimSpace s) else None
             | _ => None
             end) rest.
Proof.
  induction rest as [|v rest IH]; [done|].
  simpl. destruct (splitData rest) as [data kv]. simpl in IH.
  destruct v; simpl; try by rewrite IH.
  destruct (json.Valid _); simpl; by rewrite IH.
Qed.

Lemma pairKV_lookup (kv : list value) :
  ∀ (f : gmap string value) (x : list value) (k' : string) (v' : value),
    (pairKV kv f x).1 !! k' = Some v' →
    f !! k' = Some v'
    ∨ ∃ i key, kv !! (2 * i)%nat = Some (VString key)
               ∧ kv !! (2 * i + 1)%nat = Some v' ∧ k' = normalizeKey key.
Proof.
  induction kv as [|y|k v kv IH] using list_pair_ind; intros f x k' v' H;
    [by left..|].
  assert (Hshift : (∃ i key, kv !! (2 * i)%nat = Some (VString key)
                     ∧ kv !! (2 * i + 1)%nat = Some v' ∧ k' = normalizeKey key) →
                   ∃ i key, (k :: v :: kv) !! (2 * i)%nat = Some (VString key)
                     ∧ (k :: v :: kv) !! (2 * i + 1)%nat = Some v' ∧ k' = normalizeKey key).
  { intros (i & key & H1 & H2 & H3). exists (S i), key.
    replace (2 * S i)%nat with (S (S (2 * i))) by lia.
    replace (S (S (2 * i)) + 1)%nat with (S (S (2 * i + 1))) by lia. done. }
  destruct k; simpl in H; try (apply IH in H as [H|H]; [by left|right; by apply Hshift]).
  apply IH in H as [H|H]; [|right; by apply Hshift].
  destruct (decide (normalizeKey s = k')) as [<-|Hne].
  - rewrite lookup_insert_eq in H. injection H as ->.
    right. by exists 0%nat, s.
  - rewrite lookup_insert_ne in H by done. by left.
Qed.

Lemma pairKV_keeps (kv : list value) :
  ∀ (f : gmap string value) (x : list value) (k' : string),
    is_Some (f !! k') → is_Some ((pairKV kv f x).1 !! k').
Proof.
  induction kv as [|y|k v kv IH] using list_pair_ind; intros f x k' H; [done..|].
  destruct k; simpl; try by apply IH.
  apply IH. destruct (decide (normalizeKey s = k')) as [<-|Hne].
  - rewrite lookup_insert_eq. by eexists.
  - by rewrite lookup_insert_ne.
Qed.

Lemma pairKV_stored (kv : list value) :
  ∀ (f : gmap string value) (x : list value) (i : nat) (key : string),
    kv !! (2 * i)%nat = Some (VString key) →
    is_Some (kv !! (2 * i + 1)%nat) →
    is_Some ((pairKV kv f x).1 !! normalizeKey key).
Proof.
  induction kv as [|y|k v kv IH] using list_pair_ind; intros f x i key H1 H2.
  - done.
  - destruct i; simpl in *; [by destruct H2|done].
  - destruct i as [|i].
    + simpl in H1. injection H1 as ->. simpl.
      apply pairKV_keeps. rewrite lookup_insert_eq. by eexists.
    + replace (2 * S i)%nat with (S (S (2 * i))) in H1 by lia.
      replace (2 * S i + 1)%nat with (S (S (2 * i + 1))) in H2 by lia.
      simpl in H1, H2.
      destruct k; simpl; by apply (IH _ _ i).
Qed.

(** C6, as stated, fails: a key that ends with a full-width colon followed
    by an ASCII colon loses both. *)
Lemma C6_two_colons_counterexample :
  normalizeKey ("a" ++ fullwidth_colon ++ ":") = "a"
  ∧ normalizeKey ("a" ++ fullwidth_colon ++ ":") ≠ "a" ++ fullwidth_colon
  ∧ fields (parseArgs [VString "m"; VString ("a" ++ fullwidth_colon ++ ":"); VInt 1])
    = {[ "a" := VInt 1 ]}.
Proof. repeat split; done. Qed.

(** C6, amended.  The field key stored for a string key [k] of the pairing
    loop is [normalizeKey k]: the text of [k] with surrounding white space
    trimmed, then without one trailing ASCII colon if it ends with one, then
    without one trailing full-width colon if it ends with one.  So a
    trimmed key that ends with a full-width colon followed by an ASCII
    colon loses both; one that ends with an ASCII colon, or with a
    full-width colon, loses that one colon only; any other trimmed key is
    stored as it is.  Every field of the result comes from such a pair. *)
Theorem C6_normalized_keys (m : value) (rest : list value) (k : string) :
  ((∀ u, strings.TrimSpace k = u ++ fullwidth_colon ++ ":" → normalizeKey k = u)
   ∧ (∀ u, strings.TrimSpace k = u ++ ":" → (∀ w, u ≠ w ++ fullwidth_colon) →
      normalizeKey k = u)
   ∧ (∀ u, strings.TrimSpace k = u ++ fullwidth_colon → normalizeKey k = u)
   ∧ ((∀ u, strings.TrimSpace k ≠ u ++ ":") →
      (∀ u, strings.TrimSpace k ≠ u ++ fullwidth_colon) →
      normalizeKey k = strings.TrimSpace k))
  ∧ (isSingleMap rest = false →
     (∀ i, pairingInput rest !! (2 * i)%nat = Some (VString k) →
           is_Some (pairingInput rest !! (2 * i + 1)%nat) →
           is_Some (fields (parseArgs (m :: rest)) !! normalizeKey k))
     ∧ (∀ k' v', fields (parseArgs (m :: rest)) !! k' = Some v' →
          ∃ i key, pairingInput rest !! (2 * i)%nat = Some (VString key)
                   ∧ pairingInput rest !! (2 * i + 1)%nat = Some v'
                   ∧ k' = normalizeKey key)).
Proof.
  split.
  - split; [apply normalizeKey_both|]. split; [apply normalizeKey_ascii|].
    split; [apply normalizeKey_fullwidth|apply normalizeKey_plain].
  - intros Hno. rewrite (parseArgs_general _ _ Hno). simpl. split.
    + intros i H1 H2. by apply (pairKV_stored _ _ _ i).
    + intros k' v' H. apply pairKV_lookup in H as [H|H]; [|done].
      by rewrite lookup_empty in H.
Qed.

Lemma C6_normalized_keys_witness :
  (strings.TrimSpace " name: " = "name" ++ ":"
   ∧ (∀ w, "name" ≠ w ++ fullwidth_colon)
   ∧ normalizeKey " name: " = "name")
  ∧ (isSingleMap [VString " name: "; VString "Jack"] = false
     ∧ pairingInput [VString " name: "; VString "Jack"] !! (2 * 0)%nat
       = Some (VString " name: ")
     ∧ is_Some (pairingInput [VString " name: "; VString "Jack"] !! (2 * 0 + 1)%nat)
     ∧ is_Some (fields (parseArgs [VString "m"; VString " name: "; VString "Jack"])
                !! normalizeKey " name: ")).
Proof.
  assert (Hno : ∀ w, "name" ≠ w ++ fullwidth_colon).
  { intros w H.
    assert (Hlen : String.length w = 1%nat).
    { apply (f_equal String.length) in H.
      rewrite string_app_length in H. simpl in H. lia. }
    destruct w as [|a [|b w]]; try discriminate Hlen.
    cbv in H. discriminate H. }
  pose proof (C6_normalized_keys (VString "m") [VString " name: "; VString "Jack"]
                " name: ") as [(_ & H2 & _) H5].
  split.
  - split; [reflexivity|]. split; [exact Hno|]. apply (H2 "name"); [reflexivity|exact Hno].
  - split; [reflexivity|]. split; [reflexivity|]. split; [by eexists|].
    destruct (H5 eq_refl) as [H5a _].
    apply (H5a 0%nat); [reflexivity|by eexists].
Defined.

(** ** The single-map shortcut *)









(** ** The trailing error *)

Lemma trailingError_detached (kv : list value) (e : string) :
  last kv = Some (VError e) → Nat.odd (length kv) = true →
  trailingError kv = (Some e, removelast kv).
Proof. intros Hlast Hodd. unfold trailingError. by rewrite Hlast, Hodd. Qed.

Lemma trailingError_kept (kv : list value) :
  Nat.odd (length kv) = false ∨ (∀ e, last kv ≠ Some (VError e)) →
  trailingError kv = (None, kv).
Proof.
  intros H. unfold trailingError.
  destruct (last kv) as [[]|] eqn:Hlast; try done.
  destruct H as [->|H]; [done|]. by destruct (H msg0).
Qed.

Lemma filter_jsonText_all (js : list value) :
  Forall (λ v, jsonText v = true) js →
  List.filter (λ v, negb (jsonText v)) js = [].
Proof.
  induction 1 as [|v js Hv _ IH]; [done|]. simpl. by rewrite Hv.
Qed.

Lemma odd_succ_even (n : nat) : Nat.even n = true → Nat.odd (S n) = true.
Proof. intros H. by rewrite Nat.odd_succ. Qed.

(** C2.  Outside the single-map shortcut, [parseArgs] looks for the
    trailing error in the list [kv] left after every string whose trimmed
    text is valid JSON has been moved to the data: when [kv] is not empty,
    has odd length and ends with an error, that error is the trailing error
    (the entry carries its text as [Err]) and the pairing runs on [kv]
    without it, so that the error is neither a field nor a leftover;
    otherwise there is no trailing error.  An error followed only by JSON
    texts, after an even number of other arguments, is the trailing error. *)
Theorem C2_trailing_error (m : value) (rest : list value) :
  isSingleMap rest = false →
  let kv := List.filter (λ v, negb (jsonText v)) rest in
  let p := parseArgs (m :: rest) in
  (∀ e, kv ≠ [] → Nat.odd (length kv) = true → last kv = Some (VError e) →
     errField p = Some e
     ∧ (∀ ts lv caller, Err (buildJSONEntry ts lv caller (m :: rest)) = Some e)
     ∧ pairingInput rest = removelast kv
     ∧ fields p = (pairKV (removelast kv) ∅ []).1
     ∧ extra p = (pairKV (removelast kv) ∅ []).2)
  ∧ (kv = [] ∨ Nat.odd (length kv) = false ∨ (∀ e, last kv ≠ Some (VError e)) →
     errField p = None ∧ pairingInput rest = kv)
  ∧ (∀ pre e js, rest = (pre ++ VError e :: js)%list →
       Forall (λ v, jsonText v = true) js →
       Nat.even (length (List.filter (λ v, negb (jsonText v)) pre)) = true →
       errField p = Some e).
Proof.
  intros Hno kv p.
  assert (Hp : p = parseArgs (m :: rest)) by done.
  rewrite (parseArgs_general _ _ Hno) in Hp. simpl in Hp.
  assert (Hkv : (splitData rest).2 = kv) by apply splitData_kv.
  assert (Hdet : ∀ e, Nat.odd (length kv) = true → last kv = Some (VError e) →
            errField p = Some e ∧ pairingInput rest = removelast kv
            ∧ fields p = (pairKV (removelast kv) ∅ []).1
            ∧ extra p = (pairKV (removelast kv) ∅ []).2).
  { intros e Hodd Hlast.
    assert (Hpi : pairingInput rest = removelast kv).
    { unfold pairingInput. rewrite Hkv. by rewrite (trailingError_detached _ e). }
    assert (He : (trailingError (splitData rest).2).1 = Some e).
    { rewrite Hkv. by rewrite (trailingError_detached _ e). }
    assert (Heven : Nat.odd (length (removelast kv)) = false).
    { apply last_Some in Hlast as [l' Hl']. rewrite Hl' in *.
      rewrite removelast_last. rewrite length_app in Hodd. simpl in Hodd.
      replace (length l' + 1)%nat with (S (length l')) in Hodd by lia.
      rewrite Nat.odd_succ in Hodd. by rewrite <- Nat.negb_even, Hodd. }
    rewrite Hp. simpl. rewrite He, Hpi, Heven. done. }
  split.
  { intros e _ Hodd Hlast. destruct (Hdet e Hodd Hlast) as (H1 & H2 & H3 & H4).
    split; [done|]. split; [|done]. intros ts lv caller. exact H1. }
  split.
  { intros Hcase.
    assert (Hte : trailingError kv = (None, kv)).
    { destruct Hcase as [->|Hcase]; [done|]. by apply trailingError_kept. }
    rewrite Hp. unfold pairingInput. rewrite Hkv, Hte. done. }
  intros pre e js Hrest Hjs Heven.
  assert (Hkv' : kv = (List.filter (λ v, negb (jsonText v)) pre ++ [VError e])%list).
  { unfold kv. rewrite Hrest, List.filter_app. simpl.
    by rewrite (filter_jsonText_all js Hjs). }
  apply (Hdet e).
  - rewrite Hkv', length_app. simpl.
    replace (length _ + 1)%nat
      with (S (length (List.filter (λ v, negb (jsonText v)) pre))) by lia.
    by apply odd_succ_even.
  - rewrite Hkv'. apply last_snoc.
Qed.

Lemma C2_trailing_error_witness :
  let rest := [VString "name"; VString "Jack"; VString "age"; VInt 18;
               VError "boom"; VString " [true] "] in
  let kv := List.filter (λ v, negb (jsonText v)) rest in
  let p := parseArgs (VString "msg" :: rest) in
  isSingleMap rest = false
  ∧ (kv ≠ [] ∧ Nat.odd (length kv) = true ∧ last kv = Some (VError "boom")
     ∧ errField p = Some "boom" ∧ extra p = [] ∧ dataJSON p = ["[true]"])
  ∧ (rest = ([VString "name"; VString "Jack"; VString "age"; VInt 18]
             ++ VError "boom" :: [VString " [true] "])%list
     ∧ Forall (λ v, jsonText v = true) [VString " [true] "]
     ∧ errField p = Some "boom").
Proof.
  intros rest kv p.
  pose proof (C2_trailing_error (VString "msg") rest eq_refl) as (H1 & _ & H3).
  split; [reflexivity|]. split.
  - split; [discriminate|]. split; [reflexivity|]. split; [reflexivity|].
    split; [|split; reflexivity].
    apply (H1 "boom"); [discriminate|reflexivity|reflexivity].
  - split; [reflexivity|]. split; [by repeat constructor|].
    apply (H3 [VString "name"; VString "Jack"; VString "age"; VInt 18] "boom"
              [VString " [true] "]); [reflexivity|by repeat constructor|reflexivity].
Defined.

(** ** The entry and the order of its keys *)

Lemma sort_Strings_perm (l : list string) : sort_Strings l ≡ₚ l.
Proof. apply merge_sort_Permutation. Qed.

Lemma StronglySorted_strict {A} (R : relation A) `{!AntiSymm (=) R} (l : list A) :
  StronglySorted R l → NoDup l → StronglySorted (strict R) l.
Proof.
  induction 1 as [|x l Hs IH Hall]; intros Hnd; [constructor|].
  apply NoDup_cons in Hnd as [Hx Hnd].
  constructor; [by apply IH|].
  apply Forall_forall. intros y Hy. split.
  - by apply (proj1 (Forall_forall _ _) Hall).
  - intros Hyx. apply Hx.
    assert (x = y) as ->; [|done].
    apply (anti_symm R); [|done]. by apply (proj1 (Forall_forall _ _) Hall).
Qed.

Lemma NoDup_List_filter {A} (f : A → bool) (l : list A) :
  NoDup l → NoDup (List.filter f l).
Proof.
  induction 1 as [|x l Hx Hnd IH]; [constructor|].
  simpl. destruct (f x); [|done].
  constructor; [|done]. rewrite list_elem_of_In, filter_In, <- list_elem_of_In.
  by intros [? _].
Qed.

Lemma extraKeys_elem_of (e : orderedEntry) (k : string) :
  k ∈ extraKeys e ↔ is_Some (Extra e !! k) ∧ reserved k = false.
Proof.
  unfold extraKeys. rewrite sort_Strings_perm.
  rewrite list_elem_of_In, filter_In, <- list_elem_of_In.
  rewrite negb_true_iff.
  change (List.map fst (map_to_list (Extra e))) with (fst <$> map_to_list (Extra e)).
  rewrite list_elem_of_fmap. split.
  - intros [([k' v] & -> & Hin) Hres]. split; [|done].
    apply elem_of_map_to_list in Hin. by eexists.
  - intros [[v Hv] Hres]. split; [|done].
    exists (k, v). split; [done|]. by apply elem_of_map_to_list.
Qed.

Lemma extraKeys_NoDup (e : orderedEntry) : NoDup (extraKeys e).
Proof.
  unfold extraKeys. rewrite sort_Strings_perm.
  apply NoDup_List_filter.
  change (List.map fst (map_to_list (Extra e))) with (fst <$> map_to_list (Extra e)).
  apply NoDup_fst_map_to_list.
Qed.

Lemma extraKeys_sorted (e : orderedEntry) :
  StronglySorted (strict String.le) (extraKeys e).
Proof.
  apply StronglySorted_strict; [apply _| |apply extraKeys_NoDup].
  unfold extraKeys, sort_Strings. apply StronglySorted_merge_sort; apply _.
Qed.

Lemma entryPairs_keys (e : orderedEntry) :
  List.map fst (entryPairs e) =
  (["ts"; "lv"; "caller"; "msg"] ++ extraKeys e
   ++ (if Err e is Some _ then ["err"] else []))%list.
Proof.
  unfold entryPairs. rewrite !List.map_app, List.map_map. simpl.
  rewrite List.map_id. by destruct (Err e).
Qed.

Lemma buildJSONEntry_Extra (ts : string) (lv : Level) (caller : string)
      (args : list value) (k : string) :
  let p := parseArgs args in
  Extra (buildJSONEntry ts lv caller args) !! k =
  if decide (k = "args" ∧ extra p ≠ []) then Some (VSlice (extra p))
  else if decide (k = "data" ∧ dataJSON p ≠ []) then Some (dataValue (dataJSON p))
  else parseJSONIfString <$> fields p !! k.
Proof.
  simpl. unfold buildJSONEntry. simpl.
  set (p := parseArgs args).
  set (f := parseJSONIfString <$> fields p).
  assert (Hdata : ∀ k',
    (match dataJSON p with
     | [] => f
     | [d] => <["data" := mustUnmarshalAny d]> f
     | ds => <["data" := VSlice (List.map mustUnmarshalAny ds)]> f
     end) !! k' =
    if decide (k' = "data" ∧ dataJSON p ≠ []) then Some (dataValue (dataJSON p))
    else f !! k').
  { intros k'. destruct (dataJSON p) as [|d [|d' ds]].
    - case_decide as H; [by destruct H|done].
    - case_decide as H.
      + destruct H as [-> _]. by rewrite lookup_insert_eq.
      + rewrite lookup_insert_ne; [done|]. intros <-. by apply H.
    - case_decide as H.
      + destruct H as [-> _]. by rewrite lookup_insert_eq.
      + rewrite lookup_insert_ne; [done|]. intros <-. by apply H. }
  destruct (extra p) as [|x xs] eqn:Hx.
  - case_decide as H; [by destruct H|]. rewrite Hdata.
    unfold f. by rewrite lookup_fmap.
  - case_decide as H.
    + destruct H as [-> _]. by rewrite lookup_insert_eq.
    + rewrite lookup_insert_ne by (intros <-; by apply H).
      rewrite Hdata. unfold f. by rewrite lookup_fmap.
Qed.

Lemma buildJSONEntry_keys (ts : string) (lv : Level) (caller : string)
      (args : list value) (k : string) :
  let p := parseArgs args in
  k ∈ extraKeys (buildJSONEntry ts lv caller args) ↔
  reserved k = false
  ∧ (is_Some (fields p !! k) ∨ (k = "data" ∧ dataJSON p ≠ [])
     ∨ (k = "args" ∧ extra p ≠ [])).
Proof.
  simpl. rewrite extraKeys_elem_of, buildJSONEntry_Extra.
  split.
  - intros [Hsome Hres]. split; [done|].
    repeat case_decide; [by right; right|by right; left|].
    left. by apply fmap_is_Some in Hsome.
  - intros [Hres Hk]. split; [|done].
    repeat case_decide; [by eexists..|].
    destruct Hk as [Hk|[Hk|Hk]]; [by apply fmap_is_Some|done..].
Qed.

Lemma string_app_nil_r (s : string) : s ++ "" = s.
Proof. induction s as [|a s IH]; [done|]. by rewrite string_app_cons, IH. Qed.

Lemma writeKVs_rest (lib : golib) (kvs : list (string * value)) :
  ∀ b out, writeKVs lib kvs false b = inl out →
    ∃ vs, Forall2 (λ kv vv, json_codec.Marshal lib kv.2 = Some vv) kvs vs
          ∧ out = b ++ String.concat "" (List.map (λ x, "," ++ x) (zip_with member kvs vs)).
Proof.
  induction kvs as [|[k v] kvs IH]; intros b out H.
  - simpl in H. injection H as <-. exists []. split; [constructor|].
    simpl. by rewrite string_app_nil_r.
  - simpl in H. destruct (json_codec.Marshal lib v) as [vv|] eqn:Hv; [|done].
    apply IH in H as (vs & Hall & ->). exists (vv :: vs). split; [by constructor|].
    simpl. destruct (zip_with member kvs vs) as [|x xs] eqn:Hz; simpl.
    + unfold member. simpl. by rewrite !string_app_nil_r, !string_app_assoc.
    + unfold member. simpl. by rewrite !string_app_assoc.
Qed.

Lemma join_cons (x : string) (l : list string) :
  json_codec.join "," (x :: l) = x ++ String.concat "" (List.map (λ y, "," ++ y) l).
Proof.
  revert x. induction l as [|y l IH]; intros x.
  - simpl. by rewrite string_app_nil_r.
  - change (json_codec.join "," (x :: y :: l)) with (x ++ "," ++ json_codec.join "," (y :: l)).
    rewrite IH. simpl. destruct (List.map _ l) eqn:Hl.
    + simpl. by rewrite !string_app_nil_r.
    + simpl. by rewrite !string_app_assoc.
Qed.

Lemma MarshalJSON_text (lib : golib) (e : orderedEntry) (out : string) :
  MarshalJSON lib e = inl out →
  ∃ vs, Forall2 (λ kv vv, json_codec.Marshal lib kv.2 = Some vv) (entryPairs e) vs
        ∧ out = "{" ++ json_codec.join "," (zip_with member (entryPairs e) vs) ++ "}".
Proof.
  unfold MarshalJSON.
  destruct (writeKVs lib (entryPairs e) true "{") as [b|err] eqn:Hw; [|done].
  intros H. injection H as <-.
  destruct (entryPairs e) as [|[k v] kvs]; [by exists []; injection Hw as <-|].
  simpl in Hw. destruct (json_codec.Marshal lib v) as [vv|] eqn:Hv; [|done].
  apply writeKVs_rest in Hw as (vs & Hall & ->).
  exists (vv :: vs). split; [by constructor|].
  change (zip_with member ((k, v) :: kvs) (vv :: vs))
    with (member (k, v) vv :: zip_with member kvs vs).
  rewrite join_cons. unfold member.
  by rewrite !string_app_assoc.
Qed.

(** C1, as stated, fails: [data] and [args] are sorted with the other keys
    of [Extra], so [args] comes before [data], and [data] before a field
    named [name]. *)
Lemma C1_args_before_data_counterexample :
  let args := [VString "info"; VString "name"; VString "Jack";
               VString "[true]"; VInt 42] in
  List.map fst (entryPairs (buildJSONEntry "t" INFO "c" args))
  = ["ts"; "lv"; "caller"; "msg"; "args"; "data"; "name"]
  ∧ claimed_key_order (parseArgs args)
    = ["ts"; "lv"; "caller"; "msg"; "name"; "data"; "args"]
  ∧ List.map fst (entryPairs (buildJSONEntry "t" INFO "c" args))
    ≠ claimed_key_order (parseArgs args).
Proof. by vm_compute. Qed.

(** C1, amended.  The keys of the object written for a log call in JSON
    format appear in this order: [ts], [lv], [caller], [msg]; then the keys
    of [Extra] that are written, in ascending order without repetition,
    which are the field keys other than [ts], [lv], [caller], [msg] and
    [err], together with [data] when there are raw-data blobs and [args]
    when there are leftovers, sorted among them; then [err], last, when a
    trailing error was detected.  The text written is the members for these
    keys in that order, separated by commas, between braces. *)
Theorem C1_key_order (ts : string) (lv : Level) (caller : string)
        (args : list value) :
  let p := parseArgs args in
  let e := buildJSONEntry ts lv caller args in
  List.map fst (entryPairs e) =
    (["ts"; "lv"; "caller"; "msg"] ++ extraKeys e
     ++ (if errField p is Some _ then ["err"] else []))%list
  ∧ StronglySorted (strict String.le) (extraKeys e)
  ∧ (∀ k, k ∈ extraKeys e ↔
          reserved k = false
          ∧ (is_Some (fields p !! k) ∨ (k = "data" ∧ dataJSON p ≠ [])
             ∨ (k = "args" ∧ extra p ≠ [])))
  ∧ (∀ lib out, MarshalJSON lib e = inl out →
       ∃ vs, Forall2 (λ kv vv, json_codec.Marshal lib kv.2 = Some vv) (entryPairs e) vs
             ∧ out = "{" ++ json_codec.join "," (zip_with member (entryPairs e) vs) ++ "}").
Proof.
  intros p e. split; [apply entryPairs_keys|].
  split; [apply extraKeys_sorted|].
  split; [intros k; apply buildJSONEntry_keys|].
  intros lib out. apply MarshalJSON_text.
Qed.

Lemma C1_key_order_witness :
  let args := [VString "msg"; VString "name"; VString "Jack"; VString "age"; VInt 18;
               VError "boom"] in
  let e := buildJSONEntry "t" INFO "c" args in
  List.map fst (entryPairs e) = ["ts"; "lv"; "caller"; "msg"; "age"; "name"; "err"]
  ∧ ∃ out, MarshalJSON sample_lib e = inl out
      ∧ ∃ vs, Forall2 (λ kv vv, json_codec.Marshal sample_lib kv.2 = Some vv)
                (entryPairs e) vs
              ∧ out = "{" ++ json_codec.join "," (zip_with member (entryPairs e) vs) ++ "}".
Proof.
  intros args e.
  pose proof (C1_key_order "t" INFO "c" args) as (H1 & _ & _ & H4).
  split; [by vm_compute|].
  destruct (MarshalJSON sample_lib e) as [out|err] eqn:Hm; [|by vm_compute in Hm].
  exists out. split; [done|]. apply (H4 sample_lib out). exact Hm.
Defined.

(** ** Reserved and synthetic keys *)

(** C10.  In the object written for a log call in JSON format no key
    appears twice.  The keys [ts], [lv], [caller], [msg] and [err] carry the
    fixed values only (the time, the level name, the caller, the message,
    the trailing error): a field with one of these keys is not written, and
    [err] is absent when there is no trailing error whatever the fields
    are.  When there are raw-data blobs the value under [data] is the parsed
    blob (or the array of the parsed blobs), and when there are leftovers the
    value under [args] is the leftovers, whatever the fields [data] and
    [args] hold. *)
Theorem C10_reserved_and_synthetic_keys (ts : string) (lv : Level)
        (caller : string) (args : list value) :
  let p := parseArgs args in
  let e := buildJSONEntry ts lv caller args in
  NoDup (List.map fst (entryPairs e))
  ∧ (∀ k, reserved k = true → k ∉ extraKeys e)
  ∧ (∀ k v, reserved k = true → (k, v) ∈ entryPairs e →
       (k = "ts" ∧ v = VString ts) ∨ (k = "lv" ∧ v = VString (Level_String lv))
       ∨ (k = "caller" ∧ v = VString caller)
       ∨ (k = "msg" ∧ v = parseJSONIfString (msg p))
       ∨ (k = "err" ∧ ∃ s, errField p = Some s ∧ v = VString s))
  ∧ (dataJSON p ≠ [] →
     ∀ v, ("data", v) ∈ entryPairs e ↔ v = dataValue (dataJSON p))
  ∧ (extra p ≠ [] →
     ∀ v, ("args", v) ∈ entryPairs e ↔ v = VSlice (extra p)).
Proof.
  intros p e.
  assert (Hres : ∀ k, reserved k = true → k ∉ extraKeys e).
  { intros k Hk Hin. apply extraKeys_elem_of in Hin as [_ Hin]. congruence. }
  assert (Hmid : ∀ k v,
    (k, v) ∈ List.map (λ k, (k, default VNil (Extra e !! k))) (extraKeys e) ↔
    k ∈ extraKeys e ∧ v = default VNil (Extra e !! k)).
  { intros k v.
    change (List.map (λ k0, (k0, default VNil (Extra e !! k0))) (extraKeys e))
      with ((λ k0, (k0, default VNil (Extra e !! k0))) <$> extraKeys e).
    rewrite list_elem_of_fmap. split.
    - by intros (k0 & [= -> ->] & Hin).
    - intros [Hin ->]. by exists k. }
  assert (Hpairs : ∀ k v, (k, v) ∈ entryPairs e ↔
    (k, v) ∈ [("ts", VString ts); ("lv", VString (Level_String lv));
              ("caller", VString caller); ("msg", parseJSONIfString (msg p))]
    ∨ (k ∈ extraKeys e ∧ v = default VNil (Extra e !! k))
    ∨ (k = "err" ∧ ∃ s, errField p = Some s ∧ v = VString s)).
  { intros k v. unfold entryPairs. rewrite !elem_of_app, Hmid.
    apply or_iff_compat_l, or_iff_compat_l.
    change (Err e) with (errField p). destruct (errField p) as [s|].
    - rewrite list_elem_of_singleton. split.
      + intros [= -> ->]. split; [done|]. by exists s.
      + by intros [-> (s' & [= <-] & ->)].
    - split; [by intros ?%elem_of_nil|]. by intros [_ (s & ? & _)]. }
  split.
  { rewrite entryPairs_keys.
    apply NoDup_app. split; [apply (bool_decide_unpack _); by vm_compute|].
    split.
    - intros k Hk Hin. apply elem_of_app in Hin as [Hin|Hin].
      + apply (Hres k); [|done].
        repeat (apply elem_of_cons in Hk as [->|Hk]; [done|]).
        by apply elem_of_nil in Hk.
      + destruct (Err e); [|by apply elem_of_nil in Hin].
        apply list_elem_of_singleton in Hin as ->.
        repeat (apply elem_of_cons in Hk as [Hk|Hk]; [discriminate|]).
        by apply elem_of_nil in Hk.
    - apply NoDup_app. split; [apply extraKeys_NoDup|]. split.
      + intros k Hk Hin. destruct (Err e); [|by apply elem_of_nil in Hin].
        apply list_elem_of_singleton in Hin as ->. by apply (Hres "err").
      + destruct (Err e); [apply NoDup_singleton|constructor]. }
  split; [exact Hres|].
  split.
  { intros k v Hk Hin. apply Hpairs in Hin as [Hin|[[Hin _]|Hin]].
    - repeat (apply elem_of_cons in Hin as [[= -> ->]|Hin]; [tauto|]).
      by apply elem_of_nil in Hin.
    - by destruct (Hres k Hk).
    - tauto. }
  split.
  - intros Hdata v. rewrite Hpairs. split.
    + intros [Hin|[[_ ->]|[Hk _]]]; [| |discriminate].
      * repeat (apply elem_of_cons in Hin as [Hin|Hin]; [discriminate|]).
        by apply elem_of_nil in Hin.
      * unfold e. rewrite buildJSONEntry_Extra. fold p.
        rewrite decide_False by (intros [? _]; discriminate).
        by rewrite decide_True.
    + intros ->. right. left. split.
      * apply buildJSONEntry_keys. fold p. split; [done|]. right. by left.
      * unfold e. rewrite buildJSONEntry_Extra. fold p.
        rewrite decide_False by (intros [? _]; discriminate).
        by rewrite decide_True.
  - intros Hextra v. rewrite Hpairs. split.
    + intros [Hin|[[_ ->]|[Hk _]]]; [| |discriminate].
      * repeat (apply elem_of_cons in Hin as [Hin|Hin]; [discriminate|]).
        by apply elem_of_nil in Hin.
      * unfold e. rewrite buildJSONEntry_Extra. fold p.
        by rewrite decide_True.
    + intros ->. right. left. split.
      * apply buildJSONEntry_keys. fold p. split; [done|]. right. by right.
      * unfold e. rewrite buildJSONEntry_Extra. fold p.
        by rewrite decide_True.
Qed.

Lemma C10_reserved_and_synthetic_keys_witness :
  let args := [VString "m"; VString "data"; VInt 1; VString "err"; VInt 2;
               VString "[true]"] in
  let p := parseArgs args in
  let e := buildJSONEntry "t" INFO "c" args in
  (reserved "err" = true ∧ fields p !! "err" = Some (VInt 2) ∧ "err" ∉ extraKeys e)
  ∧ (dataJSON p ≠ [] ∧ fields p !! "data" = Some (VInt 1)
     ∧ dataValue (dataJSON p) = VSlice [VBool true]
     ∧ ∀ v, ("data", v) ∈ entryPairs e ↔ v = dataValue (dataJSON p)).
Proof.
  intros args p e.
  pose proof (C10_reserved_and_synthetic_keys "t" INFO "c" args)
    as (_ & H2 & _ & H4 & _).
  split.
  - split; [reflexivity|]. split; [reflexivity|]. by apply H2.
  - split; [discriminate|]. split; [reflexivity|]. split; [reflexivity|].
    apply H4. discriminate.
Defined.

(** ** The round trip through the codec *)

Import strings json json_codec.

(** *** UTF-8: decoding an encoded rune *)

Lemma code_byte (n : N) : (n < 256)%N → code (byte n) = n.
Proof. intros H. unfold code, byte. by apply N_ascii_embedding. Qed.

Lemma byte_code (c : ascii) : byte (code c) = c.
Proof. unfold code, byte. apply ascii_N_embedding. Qed.

Lemma code_bounded (c : ascii) : (code c < 256)%N.
Proof. apply N_ascii_bounded. Qed.

Ltac ntest :=
  repeat match goal with
  | |- context [N.eqb ?a ?b] => destruct (N.eqb_spec a b); try lia
  | |- context [N.ltb ?a ?b] => destruct (N.ltb_spec a b); try lia
  | |- context [N.leb ?a ?b] => destruct (N.leb_spec a b); try lia
  end.

Lemma EncodeRune_scalar (r : N) :
  ∃ r', scalar r' ∧ utf8.EncodeRune r = utf8.EncodeRune r'.
Proof.
  destruct (decide (scalar r)) as [H|H]; [by exists r|].
  exists utf8.RuneError. split; [right; unfold utf8.RuneError; lia|].
  unfold scalar in H. unfold utf8.EncodeRune, utf8.RuneError.
  ntest; simpl; try reflexivity; try lia.
Qed.

Lemma DecodeRune_EncodeRune (r : N) (s : string) :
  scalar r →
  utf8.DecodeRune (utf8.EncodeRune r ++ s) = (r, String.length (utf8.EncodeRune r)).
Proof.
  intros Hs. unfold scalar in Hs. unfold utf8.EncodeRune, utf8.bytes3.
  assert (H4096 : (r / 4096 = r / 64 / 64)%N) by (by rewrite N.Div0.div_div).
  assert (H262144 : (r / 262144 = r / 64 / 64 / 64)%N) by (by rewrite !N.Div0.div_div).
  rewrite ?H4096, ?H262144.
  pose proof (N.div_mod r 64 ltac:(lia)) as Hd1.
  pose proof (N.mod_lt r 64 ltac:(lia)) as Hm1.
  pose proof (N.div_mod (r / 64) 64 ltac:(lia)) as Hd2.
  pose proof (N.mod_lt (r / 64) 64 ltac:(lia)) as Hm2.
  pose proof (N.div_mod (r / 64 / 64) 64 ltac:(lia)) as Hd3.
  pose proof (N.mod_lt (r / 64 / 64) 64 ltac:(lia)) as Hm3.
  set (m1 := (r mod 64)%N) in *.
  set (m2 := ((r / 64) mod 64)%N) in *.
  set (m3 := ((r / 64 / 64) mod 64)%N) in *.
  set (d3 := (r / 64 / 64 / 64)%N) in *.
  set (d2 := (r / 64 / 64)%N) in *.
  set (d1 := (r / 64)%N) in *.
  clearbody m1 m2 m3 d3 d2 d1.
  destruct (N.ltb_spec r 128).
  { rewrite string_app_cons. unfold utf8.DecodeRune.
    rewrite code_byte by lia. ntest. done. }
  destruct (N.ltb_spec r 2048).
  { rewrite !string_app_cons. unfold utf8.DecodeRune, utf8.cont.
    rewrite !code_byte by lia. ntest. simpl. f_equal. lia. }
  assert (Hsurr : ((1114111 <? r) || (55296 <=? r) && (r <=? 57343))%N = false).
  { ntest; simpl; try done; lia. }
  rewrite Hsurr.
  destruct (N.ltb_spec r 65536).
  { rewrite !string_app_cons. unfold utf8.DecodeRune, utf8.cont, utf8.between.
    rewrite !code_byte by lia. ntest; simpl; f_equal; lia. }
  rewrite !string_app_cons. unfold utf8.DecodeRune, utf8.cont, utf8.between.
  rewrite !code_byte by lia. ntest; simpl; f_equal; lia.
Qed.

(** *** Strings: the scanner on the encoder's text *)

Lemma EncodeRune_ascii (c : ascii) :
  isASCII c = true → utf8.EncodeRune (code c) = String c "".
Proof.
  unfold isASCII. intros H. unfold utf8.EncodeRune. rewrite H. by rewrite byte_code.
Qed.

Lemma clean_ascii (c : ascii) (s : string) :
  isASCII c = true → clean s → clean (String c s).
Proof.
  intros Hc Hs. change (String c s) with (String c "" ++ s).
  rewrite <- (EncodeRune_ascii c Hc). by constructor.
Qed.

Lemma scan_string_clean (fuel : nat) :
  ∀ s t r, json.scan_string fuel s = Some (t, r) → clean t.
Proof.
  induction fuel as [|fuel IH]; intros s t r H; [done|].
  simpl in H.
  repeat (case_match; simplify_eq/=);
    try (by constructor);
    try (rewrite ?string_app_cons, ?string_app_nil_l; apply clean_ascii; [done|by eapply IH]);
    try (constructor; by eapply IH).
  all: rewrite ?string_app_cons, ?string_app_nil_l; apply clean_ascii; try (by eapply IH).
  all: unfold isASCII.
  all: repeat match goal with
       | H : (_ || _) = true |- _ => apply orb_true_iff in H as [H|H]
       | H : Ascii.eqb _ _ = true |- _ => apply Ascii.eqb_eq in H as ->
       end; try done.
  all: by apply N.ltb_lt.
Qed.

Lemma scan_escapeByte (c : ascii) :
  isASCII c = true →
  ∀ f tail, scan_string (S f) (escapeByte c ++ tail) =
            match scan_string f tail with
            | Some (t, r) => Some (String c t, r)
            | None => None
            end.
Proof.
  destruct c as [[] [] [] [] [] [] [] []]; intros H f tail;
    try discriminate H; reflexivity.
Qed.

Lemma escapeByte_length (c : ascii) : (1 ≤ String.length (escapeByte c))%nat.
Proof.
  unfold escapeByte. repeat case_match; simpl; lia.
Qed.

Lemma drop_app_length (p s : string) : drop (String.length p) (p ++ s) = s.
Proof. induction p as [|a p IH]; [done|]. rewrite string_app_cons. simpl. exact IH. Qed.

Lemma substring_app_length (p s : string) :
  String.substring 0 (String.length p) (p ++ s) = p.
Proof.
  induction p as [|a p IH]; [by destruct s|].
  rewrite string_app_cons. simpl. by rewrite IH.
Qed.

Lemma EncodeRune_multibyte (r : N) :
  scalar r → (128 ≤ r)%N →
  ∃ c0 p, utf8.EncodeRune r = String c0 p ∧ (128 ≤ code c0)%N.
Proof.
  intros Hs H. unfold scalar in Hs. unfold utf8.EncodeRune, utf8.bytes3, utf8.RuneError.
  assert (H4096 : (r / 4096 = r / 64 / 64)%N) by (by rewrite N.Div0.div_div).
  assert (H262144 : (r / 262144 = r / 64 / 64 / 64)%N) by (by rewrite !N.Div0.div_div).
  rewrite ?H4096, ?H262144.
  pose proof (N.div_mod r 64 ltac:(lia)) as Hd1.
  pose proof (N.mod_lt r 64 ltac:(lia)) as Hm1.
  pose proof (N.div_mod (r / 64) 64 ltac:(lia)) as Hd2.
  pose proof (N.mod_lt (r / 64) 64 ltac:(lia)) as Hm2.
  pose proof (N.div_mod (r / 64 / 64) 64 ltac:(lia)) as Hd3.
  pose proof (N.mod_lt (r / 64 / 64) 64 ltac:(lia)) as Hm3.
  set (m1 := (r mod 64)%N) in *.
  set (m2 := ((r / 64) mod 64)%N) in *.
  set (m3 := ((r / 64 / 64) mod 64)%N) in *.
  set (d3 := (r / 64 / 64 / 64)%N) in *.
  set (d2 := (r / 64 / 64)%N) in *.
  set (d1 := (r / 64)%N) in *.
  clearbody m1 m2 m3 d3 d2 d1.
  ntest; simpl; (eexists _, _; split; [reflexivity|]); rewrite code_byte; lia.
Qed.

(** The encoder and the scanner agree on every valid UTF-8 string. *)
Lemma scan_encodeBody (s : string) :
  clean s →
  ∀ n fuel rest,
    (String.length s ≤ n)%nat →
    (String.length (encodeBody n s) < fuel)%nat →
    scan_string fuel (encodeBody n s ++ String dquote rest) = Some (s, rest).
Proof.
  induction 1 as [|r s Hs IH]; intros n fuel rest Hn Hfuel.
  - destruct fuel as [|fuel]; [lia|]. by destruct n.
  - destruct (EncodeRune_scalar r) as (r' & Hr' & Heq). rewrite Heq in *. clear Heq.
    destruct (N.lt_ge_cases r' 128) as [Hlt|Hge].
    + (* an ASCII byte *)
      assert (Hc : isASCII (byte r') = true).
      { unfold isASCII. rewrite code_byte by lia. by apply N.ltb_lt. }
      assert (He : utf8.EncodeRune r' = String (byte r') "").
      { rewrite <- (EncodeRune_ascii _ Hc). by rewrite code_byte by lia. }
      rewrite He in *. rewrite string_app_cons, string_app_nil_l in *.
      destruct n as [|n]; [simpl in Hn; lia|].
      simpl in Hn. cbn [encodeBody] in *.
      unfold isASCII in Hc. rewrite Hc in *.
      pose proof (escapeByte_length (byte r')).
      rewrite string_app_length in Hfuel.
      destruct fuel as [|fuel]; [lia|].
      rewrite string_app_assoc, scan_escapeByte by done.
      rewrite IH by lia. done.
    + (* a rune of several bytes *)
      destruct (EncodeRune_multibyte r' Hr' Hge) as (c0 & p & He & Hc0).
      pose proof (DecodeRune_EncodeRune r' s Hr') as Hdec.
      pose proof (drop_app_length (utf8.EncodeRune r') s) as Hdrop.
      pose proof (substring_app_length (utf8.EncodeRune r') s) as Hsub.
      assert (Hlen : (1 ≤ String.length (utf8.EncodeRune r'))%nat)
        by (rewrite He; simpl; lia).
      rewrite string_app_length in Hn.
      destruct n as [|n]; [lia|].
      assert (Henc : encodeBody (S n) (utf8.EncodeRune r' ++ s) =
        (if (r' =? 8232)%N || (r' =? 8233)%N
         then "\u202" ++ String (hexDigit (r' mod 16)) ""
         else utf8.EncodeRune r') ++ encodeBody n s).
      { rewrite He in *. rewrite string_app_cons in *. cbn [encodeBody].
        assert (Hc : (code c0 <? 128)%N = false) by (apply N.ltb_ge; lia).
        rewrite Hc, Hdec, Hdrop, Hsub.
        assert (Hne : ((r' =? utf8.RuneError)%N && (String.length (String c0 p) =? 1)%nat)
                      = false).
        { destruct (N.eqb_spec r' utf8.RuneError) as [->|]; [|done].
          by vm_compute in He; injection He as <- <-. }
        rewrite Hne. destruct ((r' =? 8232)%N || (r' =? 8233)%N); [|done].
        by rewrite string_app_assoc. }
      rewrite Henc in *. clear Henc.
      destruct fuel as [|fuel]; [lia|].
      rewrite string_app_length in Hfuel.
      destruct ((r' =? 8232)%N || (r' =? 8233)%N) eqn:Hsep.
      * (* U+2028 and U+2029 are written as escapes *)
        assert (Hr : r' = 8232%N ∨ r' = 8233%N).
        { apply orb_true_iff in Hsep as [?%N.eqb_eq|?%N.eqb_eq]; auto. }
        assert (Hstep : ∀ tail, scan_string (S fuel)
                  (("\u202" ++ String (hexDigit (r' mod 16)) "") ++ tail) =
                  match scan_string fuel tail with
                  | Some (t, r0) => Some (utf8.EncodeRune r' ++ t, r0)
                  | None => None
                  end).
        { intros tail. by destruct Hr as [-> | ->]. }
        rewrite string_app_assoc, Hstep.
        rewrite IH; [done|lia|].
        destruct Hr as [-> | ->]; simpl in Hfuel; lia.
      * assert (Hstep : ∀ tail, scan_string (S fuel) (utf8.EncodeRune r' ++ tail) =
                  match scan_string fuel tail with
                  | Some (t, r0) => Some (utf8.EncodeRune r' ++ t, r0)
                  | None => None
                  end).
        { intros tail.
          pose proof (DecodeRune_EncodeRune r' tail Hr') as Hdec'.
          pose proof (drop_app_length (utf8.EncodeRune r') tail) as Hdrop'.
          rewrite He in *. rewrite string_app_cons in *.
          cbn [scan_string].
          assert (Hq : Ascii.eqb c0 dquote = false).
          { apply Ascii.eqb_neq. intros ->. vm_compute in Hc0. done. }
          assert (Hb : Ascii.eqb c0 "\" = false).
          { apply Ascii.eqb_neq. intros ->. vm_compute in Hc0. done. }
          assert (H32 : (code c0 <? 32)%N = false) by (apply N.ltb_ge; lia).
          assert (H128 : (code c0 <? 128)%N = false) by (apply N.ltb_ge; lia).
          rewrite Hq, Hb, H32, H128, Hdec', Hdrop'.
          destruct (scan_string fuel tail) as [[t r0]|]; by rewrite ?He. }
        rewrite string_app_assoc, Hstep, IH; [done|lia|lia].
Qed.

(** *** Numbers followed by more text *)

Lemma terminated_stops (rest : string) : terminated rest → stops rest.
Proof.
  destruct rest as [|c r]; [done|]. intros [-> | [-> | ->]]; by repeat split.
Qed.

Lemma digits_app (s : string) :
  ∀ acc k rest, stops rest →
    digits (s ++ rest) acc k =
    let '(a, k', s') := digits s acc k in (a, k', s' ++ rest).
Proof.
  induction s as [|c s IH]; intros acc k rest Hrest.
  - rewrite string_app_nil_l. destruct rest as [|c r]; [done|].
    simpl. destruct Hrest as [-> _]. done.
  - rewrite string_app_cons. simpl. destruct (isDigit c); [by apply IH|done].
Qed.

Lemma expDigits_app (s : string) :
  ∀ acc k rest, stops rest →
    expDigits (s ++ rest) acc k =
    let '(a, k', s') := expDigits s acc k in (a, k', s' ++ rest).
Proof.
  induction s as [|c s IH]; intros acc k rest Hrest.
  - rewrite string_app_nil_l. destruct rest as [|c r]; [done|].
    simpl. destruct Hrest as [-> _]. done.
  - rewrite string_app_cons. simpl. destruct (isDigit c); [by apply IH|done].
Qed.

Lemma digits_count (s : string) :
  ∀ acc k, k ≤ (digits s acc k).1.2.
Proof.
  induction s as [|c s IH]; intros acc k; simpl; [lia|].
  destruct (isDigit c); simpl; [|lia].
  specialize (IH (acc * 10 + digitVal c) (k + 1)). lia.
Qed.

Lemma scan_int_app (s : string) (ip : Z) (s2 rest : string) :
  scan_int s = Some (ip, s2) → stops rest →
  scan_int (s ++ rest) = Some (ip, s2 ++ rest).
Proof.
  intros H Hstop. destruct s as [|c r]; [done|].
  rewrite string_app_cons. unfold scan_int in *.
  destruct (isDigit c) eqn:Hd; [|done].
  destruct (Ascii.eqb c "0"); [by simplify_eq|].
  rewrite <- string_app_cons, (digits_app _ _ _ _ Hstop).
  destruct (digits (String c r) 0 0) as [[a k] s']. by simplify_eq.
Qed.

Lemma scan_frac_app (ip : Z) (s : string) (d n : Z) (s3 rest : string) :
  scan_frac ip s = Some (d, n, s3) → stops rest →
  scan_frac ip (s ++ rest) = Some (d, n, s3 ++ rest).
Proof.
  intros H Hstop. destruct s as [|c r].
  - rewrite string_app_nil_l. simpl in H. simplify_eq.
    destruct rest as [|c r]; [done|]. destruct Hstop as (_ & Hdot & _).
    unfold scan_frac. destruct c as [[] [] [] [] [] [] [] []]; done.
  - rewrite string_app_cons. unfold scan_frac in *.
    destruct (Ascii.eqb_spec c ".") as [->|Hne].
    + rewrite (digits_app _ _ _ _ Hstop).
      destruct (digits r ip 0) as [[a k] s']. destruct (k =? 0); by simplify_eq.
    + destruct c as [[] [] [] [] [] [] [] []]; by simplify_eq.
Qed.

Lemma scan_exp_app (s : string) (e : Z) (s5 rest : string) :
  scan_exp s = Some (e, s5) → stops rest →
  scan_exp (s ++ rest) = Some (e, s5 ++ rest).
Proof.
  intros H Hstop. destruct s as [|x r].
  - rewrite string_app_nil_l. simpl in H. simplify_eq.
    destruct rest as [|c r]; [done|]. destruct Hstop as (_ & _ & He & HE).
    unfold scan_exp.
    destruct (Ascii.eqb_spec c "e"); [done|].
    destruct (Ascii.eqb_spec c "E"); [done|]. done.
  - rewrite string_app_cons. unfold scan_exp in *.
    destruct (Ascii.eqb x "e" || Ascii.eqb x "E"); [|by simplify_eq].
    assert (Hgo : ∀ r' esign,
      (let '(e0, n, s6) := expDigits r' 0 0 in
       if n =? 0 then None else Some (esign * e0, s6)) = Some (e, s5) →
      (let '(e0, n, s6) := expDigits (r' ++ rest) 0 0 in
       if n =? 0 then None else Some (esign * e0, s6)) = Some (e, s5 ++ rest)).
    { intros r' esign Hr. rewrite (expDigits_app _ _ _ _ Hstop).
      destruct (expDigits r' 0 0) as [[a k] s']. destruct (k =? 0); by simplify_eq. }
    destruct r as [|y r4].
    + (* nothing after the e: no digit, not a number *)
      simpl in H. done.
    + rewrite string_app_cons.
      destruct (Ascii.eqb_spec y "+") as [->|Hp]; [by apply Hgo|].
      destruct (Ascii.eqb_spec y "-") as [->|Hm]; [by apply Hgo|].
      rewrite <- string_app_cons.
      destruct y as [[] [] [] [] [] [] [] []]; try done; by apply Hgo.
Qed.

Lemma scan_number_app (s : string) (n : number) (s' rest : string) :
  scan_number s = Some (n, s') → stops rest →
  scan_number (s ++ rest) = Some (n, s' ++ rest).
Proof.
  intros H Hstop. unfold scan_number in *.
  assert (Hgo : ∀ neg s1,
    match scan_int s1 with
    | None => None
    | Some (ip, s2) =>
      match scan_frac ip s2 with
      | None => None
      | Some (d, nfrac, s3) =>
        match scan_exp s3 with
        | None => None
        | Some (e, rest0) => Some (Number neg d (e - nfrac), rest0)
        end
      end
    end = Some (n, s') →
    match scan_int (s1 ++ rest) with
    | None => None
    | Some (ip, s2) =>
      match scan_frac ip s2 with
      | None => None
      | Some (d, nfrac, s3) =>
        match scan_exp s3 with
        | None => None
        | Some (e, rest0) => Some (Number neg d (e - nfrac), rest0)
        end
      end
    end = Some (n, s' ++ rest)).
  { intros neg s1 H1.
    destruct (scan_int s1) as [[ip s2]|] eqn:Hi; [|done].
    rewrite (scan_int_app _ _ _ _ Hi Hstop).
    destruct (scan_frac ip s2) as [[[d nfrac] s3]|] eqn:Hf; [|done].
    rewrite (scan_frac_app _ _ _ _ _ _ Hf Hstop).
    destruct (scan_exp s3) as [[e rest0]|] eqn:He; [|done].
    rewrite (scan_exp_app _ _ _ _ He Hstop). by simplify_eq. }
  destruct s as [|c r].
  - simpl in H. done.
  - rewrite string_app_cons.
    destruct (Ascii.eqb_spec c "-") as [->|Hne]; [by apply Hgo|].
    rewrite <- string_app_cons.
    destruct c as [[] [] [] [] [] [] [] []]; try done; by apply Hgo.
Qed.

(** *** Values in decoded form *)

Lemma value_ind' (P : value → Prop) :
  P VNil → (∀ b, P (VBool b)) → (∀ n, P (VInt n)) → (∀ f, P (VFloat f)) →
  (∀ s, P (VString s)) → (∀ e, P (VError e)) →
  (∀ l, Forall P l → P (VSlice l)) →
  (∀ m, Forall (λ kv, P kv.2) m → P (VMap m)) →
  (∀ o, P (VOther o)) →
  ∀ v, P v.
Proof.
  intros Hnil Hbool Hint Hfloat Hstr Herr Hslice Hmap Hother.
  fix IH 1. intros [ |b|n|f|s|e|l|m|o].
  - exact Hnil.
  - apply Hbool.
  - apply Hint.
  - apply Hfloat.
  - apply Hstr.
  - apply Herr.
  - apply Hslice. induction l as [|x l IHl]; constructor; [apply IH|exact IHl].
  - apply Hmap. induction m as [|[k x] m IHm]; constructor; [apply IH|exact IHm].
  - apply Hother.
Qed.

Lemma decoded_form_slice okf l :
  decoded_form okf (VSlice l) ↔ Forall (decoded_form okf) l.
Proof.
  simpl. induction l as [|x l IH].
  { split; [constructor|done]. }
  rewrite Forall_cons, <- IH. done.
Qed.

Lemma decoded_form_map okf m :
  decoded_form okf (VMap m) ↔
  StronglySorted key_lt (List.map fst m)
  ∧ Forall (λ kv, clean kv.1 ∧ decoded_form okf kv.2) m.
Proof.
  simpl. apply and_iff_compat_l.
  induction m as [|x m IH].
  { split; [constructor|done]. }
  rewrite Forall_cons, <- IH. tauto.
Qed.

Lemma vdepth_slice l : vdepth (VSlice l) = 1 + vdepths l.
Proof.
  cbn [vdepth]. apply (f_equal (Z.add 1)).
  induction l as [|x l IH]; [done|]. cbn [vdepths fold_right]. by rewrite IH.
Qed.

Lemma vdepth_map m : vdepth (VMap m) = 1 + vdepths (List.map snd m).
Proof.
  cbn [vdepth]. apply (f_equal (Z.add 1)).
  induction m as [|x m IH]; [done|]. cbn [vdepths fold_right List.map]. by rewrite IH.
Qed.

Lemma vdepths_nonneg l : 0 ≤ vdepths l.
Proof. induction l; simpl; lia. Qed.

Lemma vdepth_nonneg v : 0 ≤ vdepth v.
Proof.
  destruct v; try (simpl; lia).
  - rewrite vdepth_slice. pose proof (vdepths_nonneg l). lia.
  - rewrite vdepth_map. pose proof (vdepths_nonneg (List.map snd m)). lia.
Qed.

Lemma vdepths_le l D :
  0 ≤ D → (vdepths l ≤ D ↔ Forall (λ x, vdepth x ≤ D) l).
Proof.
  intros HD. induction l as [|x l IH]; simpl.
  - split; [constructor|lia].
  - rewrite Forall_cons, <- IH. lia.
Qed.

(** *** The order of keys *)

Lemma ltb_key_lt (k k' : string) : String.ltb k k' = true → key_lt k k'.
Proof.
  unfold String.ltb, key_lt. intros H.
  destruct (String.compare k k') eqn:Hc; try done.
  split.
  - unfold String.le, String.leb. by rewrite Hc.
  - unfold String.le, String.leb. rewrite String.compare_antisym, Hc. simpl. tauto.
Qed.

Lemma not_ltb_key_lt (k k' : string) :
  String.eqb k k' = false → String.ltb k k' = false → key_lt k' k.
Proof.
  unfold String.ltb, key_lt. intros He H.
  destruct (String.compare k k') eqn:Hc; try done.
  - apply String.compare_eq_iff in Hc. apply String.eqb_neq in He. done.
  - split.
    + unfold String.le, String.leb. rewrite String.compare_antisym, Hc. done.
    + unfold String.le, String.leb. rewrite Hc. tauto.
Qed.

Global Instance key_lt_strict : StrictOrder key_lt.
Proof. unfold key_lt. apply _. Qed.

Lemma map_store_keys k v m x :
  x ∈ List.map fst (map_store k v m) → x = k ∨ x ∈ List.map fst m.
Proof.
  induction m as [|[k' v'] m IH]; simpl.
  - intros ?%list_elem_of_singleton. by left.
  - destruct (String.eqb_spec k k') as [->|Hne].
    + simpl. intros [->|?]%elem_of_cons; [by left|right; by right].
    + destruct (String.ltb k k').
      * simpl. intros [->|?]%elem_of_cons; [by left|by right].
      * simpl. intros [->|H]%elem_of_cons; [right; by left|].
        destruct (IH H); [by left|right; by right].
Qed.

Lemma map_store_sorted k v m :
  StronglySorted key_lt (List.map fst m) →
  StronglySorted key_lt (List.map fst (map_store k v m)).
Proof.
  induction m as [|[k' v'] m IH]; simpl; intros Hs.
  - repeat constructor.
  - apply StronglySorted_inv in Hs as [Hs Hall].
    destruct (String.eqb_spec k k') as [->|Hne]; [by constructor|].
    destruct (String.ltb k k') eqn:Hlt.
    + simpl. constructor; [by constructor|].
      apply ltb_key_lt in Hlt. constructor; [done|].
      eapply Forall_impl; [exact Hall|]. intros y Hy. by etrans.
    + simpl. constructor; [by apply IH|].
      apply Forall_forall. intros x Hx.
      apply map_store_keys in Hx as [->|Hx].
      * apply not_ltb_key_lt; [|done]. by apply String.eqb_neq.
      * by apply (proj1 (Forall_forall _ _) Hall).
Qed.

Lemma map_store_Forall (P : string * value → Prop) k v m :
  P (k, v) → Forall P m → Forall P (map_store k v m).
Proof.
  intros Hkv. induction 1 as [|[k' v'] m Hx Hm IH]; simpl.
  - by repeat constructor.
  - destruct (String.eqb k k'); [by constructor|].
    destruct (String.ltb k k'); by repeat constructor.
Qed.

(** Storing a key above all the keys of the map appends the member. *)
Lemma map_store_last k v m :
  Forall (λ k', key_lt k' k) (List.map fst m) →
  map_store k v m = (m ++ [(k, v)])%list.
Proof.
  induction m as [|[k' v'] m IH]; simpl; intros Hall; [done|].
  apply Forall_cons in Hall as [Hk Hall].
  destruct (String.eqb_spec k k') as [->|Hne].
  { by destruct (irreflexivity key_lt k'). }
  destruct (String.ltb k k') eqn:Hlt.
  { apply ltb_key_lt in Hlt. destruct (irreflexivity key_lt k). by etrans. }
  by rewrite IH.
Qed.

(** *** What the decoder returns is in decoded form *)

Lemma to_value_array l :
  to_value (JArray l) =
  match to_values l with Some vs => Some (VSlice vs) | None => None end.
Proof. reflexivity. Qed.

Lemma to_value_object m :
  to_value (JObject m) =
  match to_members m [] with Some vs => Some (VMap vs) | None => None end.
Proof. reflexivity. Qed.

Lemma to_values_sound d l :
  Forall (sound d) l → ∀ vs, to_values l = Some vs →
  Forall (decoded_form (λ _, True)) vs
  ∧ Forall (λ x, d + vdepth x ≤ maxNestingDepth) vs.
Proof.
  induction 1 as [|t l Ht Hl IH]; intros vs H; simpl in H.
  - simplify_eq. by split.
  - destruct (to_value t) as [v|] eqn:Hv; [|done].
    destruct (to_values l) as [vs'|] eqn:Hvs; [|done]. simplify_eq.
    destruct (Ht v Hv) as [H1 H2]. destruct (IH vs' eq_refl) as [H3 H4].
    split; by constructor.
Qed.

Lemma to_members_sound d m :
  Forall (sound_member d) m → ∀ acc vs,
  sound_map d acc → to_members m acc = Some vs → sound_map d vs.
Proof.
  induction 1 as [|[k t] m [Hk Ht] Hm IH]; intros acc vs Hacc H; simpl in H.
  - by simplify_eq.
  - destruct (to_value t) as [v|] eqn:Hv; [|done].
    destruct (Ht v Hv) as [H1 H2]. destruct Hacc as [Hs Hall].
    eapply IH; [|exact H]. split.
    + by apply map_store_sorted.
    + by apply map_store_Forall.
Qed.

Lemma sound_array d l :
  d + 1 ≤ maxNestingDepth → Forall (sound (d + 1)) l → sound d (JArray l).
Proof.
  intros Hd Hl x Hx. rewrite to_value_array in Hx.
  destruct (to_values l) as [vs|] eqn:Hvs; [|done]. simplify_eq.
  destruct (to_values_sound _ _ Hl vs Hvs) as [H1 H2].
  split; [by apply decoded_form_slice|].
  rewrite vdepth_slice.
  assert (vdepths vs ≤ maxNestingDepth - (d + 1)); [|lia].
  apply vdepths_le; [lia|]. eapply Forall_impl; [exact H2|]. simpl. intros; lia.
Qed.

Lemma sound_object d m :
  d + 1 ≤ maxNestingDepth → Forall (sound_member (d + 1)) m → sound d (JObject m).
Proof.
  intros Hd Hm x Hx. rewrite to_value_object in Hx.
  destruct (to_members m []) as [vs|] eqn:Hvs; [|done]. simplify_eq.
  assert (H0 : sound_map (d + 1) []) by (split; constructor).
  destruct (to_members_sound _ _ Hm [] vs H0 Hvs) as [H1 H2].
  split.
  - apply decoded_form_map. split; [done|].
    eapply Forall_impl; [exact H2|]. simpl. tauto.
  - rewrite vdepth_map.
    assert (vdepths (List.map snd vs) ≤ maxNestingDepth - (d + 1)); [|lia].
    apply vdepths_le; [lia|]. apply Forall_forall. intros x Hx.
    change (List.map snd vs) with (snd <$> vs) in Hx.
    apply list_elem_of_fmap in Hx as ([k v] & -> & Hin).
    apply (proj1 (Forall_forall _ _) H2) in Hin. simpl in *. lia.
Qed.

Lemma sound_leaf d t :
  d ≤ maxNestingDepth →
  match t with
  | JNull | JBool _ | JNumber _ => True
  | JString s => clean s
  | _ => False
  end → sound d t.
Proof.
  intros Hd Ht x Hx. destruct t; try done; simpl in Hx.
  - simplify_eq. by split; simpl; [|lia].
  - simplify_eq. by split; simpl; [|lia].
  - destruct (strconv.ParseFloat n); [|done]. simplify_eq. by split; simpl; [|lia].
  - simplify_eq. by split; simpl; [|lia].
Qed.

Lemma scan_sound (fuel : nat) :
  (∀ d s t r, d ≤ maxNestingDepth → scan_value fuel d s = Some (t, r) → sound d t)
  ∧ (∀ d s acc l r, d ≤ maxNestingDepth → array_rest fuel d s acc = Some (l, r) →
       Forall (sound d) acc → Forall (sound d) l)
  ∧ (∀ d s acc m r, d ≤ maxNestingDepth → object_rest fuel d s acc = Some (m, r) →
       Forall (sound_member d) acc → Forall (sound_member d) m).
Proof.
  induction fuel as [|fuel (IHv & IHa & IHo)]; [by repeat split|].
  split; [|split].
  - intros d s t r Hd H. cbn [scan_value] in H.
    destruct (skip_ws s) as [|c s'] eqn:Hs; [done|].
    destruct (Ascii.eqb c "{").
    { destruct (maxNestingDepth <? d + 1) eqn:Hmax; [done|].
      apply Z.ltb_ge in Hmax.
      destruct (skip_ws s') as [|c' s''] eqn:Hs'.
      - destruct (object_rest fuel (d + 1) s' []) as [[m r']|] eqn:Ho; [|done].
        simplify_eq. apply sound_object; [done|]. by eapply IHo.
      - destruct (Ascii.eqb_spec c' "}") as [->|Hne].
        + simplify_eq. by apply sound_object.
        + assert (Hgo : match object_rest fuel (d + 1) s' [] with
                        | Some (m, r') => Some (JObject m, r')
                        | None => None
                        end = Some (t, r)).
          { destruct c' as [[] [] [] [] [] [] [] []]; done. }
          destruct (object_rest fuel (d + 1) s' []) as [[m r']|] eqn:Ho; [|done].
          simplify_eq. apply sound_object; [done|]. by eapply IHo. }
    destruct (Ascii.eqb c "[").
    { destruct (maxNestingDepth <? d + 1) eqn:Hmax; [done|].
      apply Z.ltb_ge in Hmax.
      assert (Hgo : (∃ r', t = JArray [] ∧ r = r')
                    ∨ match scan_value fuel (d + 1) s' with
                      | Some (v, r1) =>
                        match array_rest fuel (d + 1) r1 [v] with
                        | Some (l, r') => Some (JArray l, r')
                        | None => None
                        end
                      | None => None
                      end = Some (t, r)).
      { destruct (skip_ws s') as [|c' s'']; [by right|].
        destruct (Ascii.eqb_spec c' "]") as [->|Hne]; [left; simplify_eq; by eexists|].
        right. destruct c' as [[] [] [] [] [] [] [] []]; done. }
      destruct Hgo as [(r' & -> & _)|Hgo]; [by apply sound_array|].
      destruct (scan_value fuel (d + 1) s') as [[v r1]|] eqn:Hv; [|done].
      destruct (array_rest fuel (d + 1) r1 [v]) as [[l r']|] eqn:Ha; [|done].
      simplify_eq. apply sound_array; [done|].
      eapply IHa; [lia|exact Ha|]. constructor; [|done]. by eapply IHv. }
    destruct (Ascii.eqb c dquote).
    { destruct (scan_string (String.length s') s') as [[t' r']|] eqn:Hstr; [|done].
      simplify_eq. apply sound_leaf; [done|]. by eapply scan_string_clean. }
    destruct (Ascii.eqb c "-" || isDigit c).
    { destruct (scan_number (String c s')) as [[n r']|]; [|done].
      simplify_eq. by apply sound_leaf. }
    destruct (strip_prefix "true" (String c s')); [simplify_eq; by apply sound_leaf|].
    destruct (strip_prefix "false" (String c s')); [simplify_eq; by apply sound_leaf|].
    destruct (strip_prefix "null" (String c s')); [simplify_eq; by apply sound_leaf|].
    done.
  - intros d s acc l r Hd H Hacc. cbn [array_rest] in H.
    destruct (skip_ws s) as [|c s'] eqn:Hs; [done|].
    destruct (Ascii.eqb_spec c "]") as [->|Hne]; [by simplify_eq|].
    destruct (Ascii.eqb_spec c ",") as [->|Hne'].
    + destruct (scan_value fuel d s') as [[v r1]|] eqn:Hv; [|done].
      eapply IHa; [done|exact H|]. apply Forall_app. split; [done|].
      constructor; [|done]. by eapply IHv.
    + destruct c as [[] [] [] [] [] [] [] []]; done.
  - intros d s acc m r Hd H Hacc. cbn [object_rest] in H.
    destruct (skip_ws s) as [|c s'] eqn:Hs; [done|].
    destruct (Ascii.eqb c dquote); [|done]. simpl in H.
    destruct (scan_string (String.length s') s') as [[k r1]|] eqn:Hk; [|done].
    assert (Hck : clean k) by (by eapply scan_string_clean).
    destruct (skip_ws r1) as [|c1 r2] eqn:Hs1; [done|].
    destruct (Ascii.eqb_spec c1 ":") as [->|Hne];
      [|destruct c1 as [[] [] [] [] [] [] [] []]; done].
    destruct (scan_value fuel d r2) as [[v r3]|] eqn:Hv; [|done].
    assert (Hm : Forall (sound_member d) (acc ++ [(k, v)])).
    { apply Forall_app. split; [done|]. constructor; [|done].
      split; [done|]. by eapply IHv. }
    destruct (skip_ws r3) as [|c3 r4] eqn:Hs3; [done|].
    destruct (Ascii.eqb_spec c3 "}") as [->|Hne3]; [by simplify_eq|].
    destruct (Ascii.eqb_spec c3 ",") as [->|Hne4]; [by eapply IHo|].
    destruct c3 as [[] [] [] [] [] [] [] []]; done.
Qed.

(** *** Literals, numbers and strings read back *)

Ltac starts := eexists _, _; split; [reflexivity|]; by repeat split.

Lemma skip_ws_start (c : ascii) (r : string) :
  isSpace c = false → skip_ws (String c r) = String c r.
Proof. intros H. simpl. by rewrite H. Qed.

Lemma prefix_nil (s : string) : String.prefix "" s = true.
Proof. by destruct s. Qed.

Lemma scan_value_literal (fuel : nat) (d : Z) (c : ascii) (r : string) :
  isSpace c = false → Ascii.eqb c "{" = false → Ascii.eqb c "[" = false →
  Ascii.eqb c dquote = false → Ascii.eqb c "-" || isDigit c = false →
  scan_value (S fuel) d (String c r) =
  match strip_prefix "true" (String c r) with
  | Some r' => Some (JBool true, r')
  | None =>
    match strip_prefix "false" (String c r) with
    | Some r' => Some (JBool false, r')
    | None =>
      match strip_prefix "null" (String c r) with
      | Some r' => Some (JNull, r')
      | None => None
      end
    end
  end.
Proof.
  intros Hws H1 H2 H3 H4. cbn [scan_value].
  by rewrite (skip_ws_start _ _ Hws), H1, H2, H3, H4.
Qed.

Lemma reads_back_null d : reads_back d VNil "null".
Proof.
  split; [starts|].
  intros [|fuel] rest Hf _; [simpl in Hf; lia|].
  exists JNull. split; [|done].
  change ("null" ++ rest) with (String "n" (String "u" (String "l" (String "l" rest)))).
  rewrite scan_value_literal by done.
  unfold strip_prefix. simpl. by rewrite prefix_nil.
Qed.

Lemma reads_back_bool d b : reads_back d (VBool b) (if b then "true" else "false").
Proof.
  split; [destruct b; starts|].
  intros [|fuel] rest Hf _; [destruct b; simpl in Hf; lia|].
  exists (JBool b). split; [|done]. destruct b.
  - change ("true" ++ rest) with (String "t" (String "r" (String "u" (String "e" rest)))).
    rewrite scan_value_literal by done.
    unfold strip_prefix. simpl. by rewrite prefix_nil.
  - change ("false" ++ rest)
      with (String "f" (String "a" (String "l" (String "s" (String "e" rest))))).
    rewrite scan_value_literal by done.
    unfold strip_prefix. simpl. by rewrite prefix_nil.
Qed.

Lemma reads_back_float lib d f :
  float_ok lib f → reads_back d (VFloat f) (format_float lib f).
Proof.
  intros (n & Htext & Hparse). unfold number_text in Htext.
  destruct (scan_number (format_float lib f)) as [[n' [|? ?]]|] eqn:Hscan; [|done..].
  simplify_eq.
  destruct (format_float lib f) as [|c r] eqn:Hout; [done|].
  assert (Hc : Ascii.eqb c "-" || isDigit c = true).
  { unfold scan_number in Hscan.
    destruct (Ascii.eqb_spec c "-") as [->|Hne]; [done|]. simpl.
    assert (Hi : scan_int (String c r) ≠ None).
    { intros Hi. destruct c as [[] [] [] [] [] [] [] []]; try done;
        by rewrite Hi in Hscan. }
    unfold scan_int in Hi. by destruct (isDigit c). }
  split.
  - exists c, r. split; [done|].
    destruct c as [[] [] [] [] [] [] [] []]; try discriminate Hc; by repeat split.
  - intros [|fuel] rest Hf Hterm; [simpl in Hf; lia|].
    exists (JNumber n). split; [|by simpl; rewrite Hparse].
    pose proof (scan_number_app _ _ _ rest Hscan (terminated_stops _ Hterm)) as Happ.
    rewrite string_app_nil_l in Happ.
    rewrite string_app_cons in *. cbn [scan_value].
    assert (Hws : isSpace c = false).
    { destruct c as [[] [] [] [] [] [] [] []]; try discriminate Hc; done. }
    rewrite (skip_ws_start _ _ Hws).
    assert (H1 : Ascii.eqb c "{" = false).
    { destruct c as [[] [] [] [] [] [] [] []]; try discriminate Hc; done. }
    assert (H2 : Ascii.eqb c "[" = false).
    { destruct c as [[] [] [] [] [] [] [] []]; try discriminate Hc; done. }
    assert (H3 : Ascii.eqb c dquote = false).
    { destruct c as [[] [] [] [] [] [] [] []]; try discriminate Hc; done. }
    by rewrite H1, H2, H3, Hc, Happ.
Qed.

Lemma reads_back_string d s :
  clean s → reads_back d (VString s) (encodeString s).
Proof.
  intros Hs. split; [starts|].
  intros [|fuel] rest Hf Hterm; [simpl in Hf; lia|].
  exists (JString s). split; [|done].
  unfold encodeString. rewrite string_app_cons, string_app_assoc.
  rewrite string_app_cons, string_app_nil_l.
  cbn [scan_value]. rewrite skip_ws_start by done.
  replace (Ascii.eqb dquote "{") with false by done.
  replace (Ascii.eqb dquote "[") with false by done.
  rewrite Ascii.eqb_refl.
  rewrite scan_encodeBody; [done|done|lia|].
  rewrite string_app_length. simpl. lia.
Qed.

(** *** Unfolding the scanner at brackets, commas and keys *)

Lemma scan_value_array_empty fuel d r r' :
  (maxNestingDepth <? d + 1) = false → skip_ws r = String "]" r' →
  scan_value (S fuel) d (String "[" r) = Some (JArray [], r').
Proof. intros Hd Hr. cbn [scan_value]. simpl skip_ws. simpl. by rewrite Hd, Hr. Qed.

Lemma scan_value_array_cons fuel d r :
  (maxNestingDepth <? d + 1) = false → (∀ r', skip_ws r ≠ String "]" r') →
  scan_value (S fuel) d (String "[" r) =
  match scan_value fuel (d + 1) r with
  | Some (v, r1) =>
    match array_rest fuel (d + 1) r1 [v] with
    | Some (l, r') => Some (JArray l, r')
    | None => None
    end
  | None => None
  end.
Proof.
  intros Hd Hr. cbn [scan_value]. simpl skip_ws. simpl. rewrite Hd.
  destruct (skip_ws r) as [|c r'] eqn:Hs; [done|].
  destruct (Ascii.eqb_spec c "]") as [->|Hne]; [by destruct (Hr r')|].
  destruct c as [[] [] [] [] [] [] [] []]; done.
Qed.

Lemma scan_value_object_empty fuel d r r' :
  (maxNestingDepth <? d + 1) = false → skip_ws r = String "}" r' →
  scan_value (S fuel) d (String "{" r) = Some (JObject [], r').
Proof. intros Hd Hr. cbn [scan_value]. simpl skip_ws. simpl. by rewrite Hd, Hr. Qed.

Lemma scan_value_object_cons fuel d r :
  (maxNestingDepth <? d + 1) = false → (∀ r', skip_ws r ≠ String "}" r') →
  scan_value (S fuel) d (String "{" r) =
  match object_rest fuel (d + 1) r [] with
  | Some (m, r') => Some (JObject m, r')
  | None => None
  end.
Proof.
  intros Hd Hr. cbn [scan_value]. simpl skip_ws. simpl. rewrite Hd.
  destruct (skip_ws r) as [|c r'] eqn:Hs; [done|].
  destruct (Ascii.eqb_spec c "}") as [->|Hne]; [by destruct (Hr r')|].
  destruct c as [[] [] [] [] [] [] [] []]; done.
Qed.

Lemma array_rest_close fuel d r acc :
  array_rest (S fuel) d (String "]" r) acc = Some (acc, r).
Proof. reflexivity. Qed.

Lemma array_rest_comma fuel d r acc :
  array_rest (S fuel) d (String "," r) acc =
  match scan_value fuel d r with
  | Some (v, r1) => array_rest fuel d r1 (acc ++ [v])%list
  | None => None
  end.
Proof. reflexivity. Qed.

Lemma object_rest_key fuel d r acc :
  object_rest (S fuel) d (String dquote r) acc =
  match scan_string (String.length r) r with
  | Some (k, r1) =>
    match skip_ws r1 with
    | String ":" r2 =>
      match scan_value fuel d r2 with
      | Some (v, r3) =>
        match skip_ws r3 with
        | String "}" r' => Some ((acc ++ [(k, v)])%list, r')
        | String "," r4 => object_rest fuel d r4 (acc ++ [(k, v)])%list
        | _ => None
        end
      | None => None
      end
    | _ => None
    end
  | None => None
  end.
Proof. reflexivity. Qed.

(** *** Lists of texts *)

Lemma concat_cons (x : string) (l : list string) :
  String.concat "" (x :: l) = x ++ String.concat "" l.
Proof.
  destruct l as [|y l]; simpl; [by rewrite string_app_nil_r|done].
Qed.

Lemma all_some_Forall2 {A B} (f : A → option B) (l : list A) (outs : list B) :
  all_some (List.map f l) = Some outs ↔ Forall2 (λ x o, f x = Some o) l outs.
Proof.
  revert outs. induction l as [|x l IH]; intros outs; simpl.
  - split; [intros [= <-]; constructor|by inversion 1].
  - destruct (f x) as [o|] eqn:Hx.
    + destruct (all_some (List.map f l)) as [os|] eqn:Hl.
      * split.
        -- intros [= <-]. constructor; [done|]. by apply IH.
        -- inversion 1 as [|? o' ? os' Ho Hos]; simplify_eq.
           apply IH in Hos. by simplify_eq.
      * split; [done|]. inversion 1 as [|? o' ? os' Ho Hos]; simplify_eq.
        by apply IH in Hos.
    + split; [done|]. inversion 1; simplify_eq.
Qed.

Lemma terminated_comma (r : string) : terminated (String "," r).
Proof. by left. Qed.

Lemma terminated_bracket (r : string) : terminated (String "]" r).
Proof. right. by left. Qed.

Lemma terminated_brace (r : string) : terminated (String "}" r).
Proof. right. by right. Qed.

(** The text after an element: the elements that follow, each after a
    comma, and the closing bracket. *)
Lemma terminated_tail (outs : list string) (close : ascii) (rest : string) :
  close = "]"%char ∨ close = "}"%char →
  terminated (String.concat "" (List.map (λ o, "," ++ o) outs) ++ String close rest).
Proof.
  intros Hc. destruct outs as [|o outs].
  - cbn [List.map String.concat]. rewrite string_app_nil_l.
    destruct Hc as [-> | ->]; [right; by left|right; by right].
  - cbn [List.map]. rewrite concat_cons, !string_app_assoc. by left.
Qed.

Lemma array_rest_elements (d : Z) (xs : list value) (outs : list string) :
  Forall2 (reads_back d) xs outs →
  ∀ fuel acc rest,
    (String.length (String.concat "" (List.map (λ o, "," ++ o) outs)) < fuel)%nat →
    ∃ ts,
      array_rest fuel d
        (String.concat "" (List.map (λ o, "," ++ o) outs) ++ String "]" rest) acc
      = Some ((acc ++ ts)%list, rest)
      ∧ to_values ts = Some xs.
Proof.
  induction 1 as [|x o xs outs [_ Hx] Hxs IH]; intros fuel acc rest Hf.
  - destruct fuel as [|fuel]; [simpl in Hf; lia|].
    exists []. cbn [List.map String.concat to_values]. rewrite string_app_nil_l, array_rest_close.
    by rewrite app_nil_r.
  - cbn [List.map] in *. rewrite concat_cons in *.
    rewrite !string_app_length in Hf. simpl in Hf.
    destruct fuel as [|fuel]; [lia|].
    rewrite !string_app_assoc. rewrite string_app_cons, string_app_nil_l.
    rewrite array_rest_comma.
    destruct (Hx fuel (String.concat "" (List.map (λ o, "," ++ o) outs) ++ String "]" rest))
      as (t & Ht & Hxt); [lia|by apply terminated_tail; left|].
    rewrite Ht.
    destruct (IH fuel (acc ++ [t])%list rest) as (ts & Hts & Hxts); [lia|].
    exists (t :: ts). rewrite Hts. split; [by rewrite <- app_assoc|].
    simpl. by rewrite Hxt, Hxts.
Qed.

Ltac norm_app :=
  repeat (rewrite string_app_assoc || rewrite string_app_cons || rewrite string_app_nil_l).

Lemma encodeString_length (k : string) :
  String.length (encodeString k) = (2 + String.length (encodeBody (String.length k) k))%nat.
Proof. unfold encodeString. simpl. rewrite string_app_length. simpl. lia. Qed.

Lemma member_length (kv : string * value) (o : string) :
  String.length (member kv o) =
  (3 + String.length (encodeBody (String.length kv.1) kv.1) + String.length o)%nat.
Proof.
  unfold member. rewrite !string_app_length, encodeString_length. simpl. lia.
Qed.

Lemma object_rest_members (d : Z) (m : list (string * value)) (outs : list string) :
  Forall2 (λ kv o, clean kv.1 ∧ reads_back d kv.2 o) m outs →
  ∀ kv0 o0 fuel acc rest,
    clean kv0.1 → reads_back d kv0.2 o0 →
    (String.length
       (member kv0 o0
        ++ String.concat "" (List.map (λ o, "," ++ o) (zip_with member m outs)))
     < fuel)%nat →
    ∃ kts,
      object_rest fuel d
        (member kv0 o0
         ++ String.concat "" (List.map (λ o, "," ++ o) (zip_with member m outs))
         ++ String "}" rest) acc
      = Some ((acc ++ kts)%list, rest)
      ∧ Forall2 (λ kt kv, kt.1 = kv.1 ∧ to_value kt.2 = Some kv.2) kts (kv0 :: m).
Proof.
  induction 1 as [|kv1 o1 m outs [Hk1 Hx1] Hm IH];
    intros [k0 x0] o0 fuel acc rest Hk0 [_ Hx0] Hf; simpl in Hk0, Hx0.
  - cbn [zip_with List.map String.concat] in *.
    rewrite string_app_nil_r in Hf. rewrite member_length in Hf. simpl in Hf.
    destruct fuel as [|fuel]; [lia|].
    unfold member, encodeString. simpl fst. norm_app.
    rewrite object_rest_key.
    rewrite scan_encodeBody; [|done|lia|rewrite string_app_length; simpl; lia].
    rewrite skip_ws_start by done.
    destruct (Hx0 fuel (String "}" rest)) as (t & Ht & Hxt);
      [lia|apply terminated_brace|].
    rewrite Ht. rewrite skip_ws_start by done.
    exists [(k0, t)]. split; [done|]. by repeat constructor.
  - cbn [zip_with List.map] in *. rewrite concat_cons in *.
    rewrite !string_app_length, !member_length in Hf. simpl in Hf.
    destruct fuel as [|fuel]; [lia|].
    set (tail := String.concat "" (List.map (λ o, "," ++ o) (zip_with member m outs))) in *.
    assert (Htext :
      member (k0, x0) o0 ++ (("," ++ member kv1 o1) ++ tail) ++ String "}" rest
      = String dquote (encodeBody (String.length k0) k0
          ++ String dquote (String ":" (o0 ++ String ","
               (member kv1 o1 ++ tail ++ String "}" rest))))).
    { unfold member at 1. unfold encodeString. simpl fst. by norm_app. }
    rewrite Htext, object_rest_key.
    rewrite scan_encodeBody; [|done|lia|rewrite string_app_length; simpl; lia].
    rewrite skip_ws_start by done.
    destruct (Hx0 fuel (String "," (member kv1 o1 ++ tail ++ String "}" rest)))
      as (t & Ht & Hxt); [lia|apply terminated_comma|].
    rewrite Ht. rewrite skip_ws_start by done.
    destruct (IH kv1 o1 fuel (acc ++ [(k0, t)])%list rest Hk1 Hx1) as (kts & Hkts & Hall).
    { rewrite string_app_length, member_length. lia. }
    fold tail in Hkts. rewrite Hkts.
    exists ((k0, t) :: kts). split; [by rewrite <- app_assoc|].
    by constructor.
Qed.

(** Members with ascending keys are stored one after the other. *)
Lemma to_members_ascending (kts : list (string * jtree)) (m : list (string * value)) :
  Forall2 (λ kt kv, kt.1 = kv.1 ∧ to_value kt.2 = Some kv.2) kts m →
  ∀ acc, StronglySorted key_lt (List.map fst (acc ++ m)) →
         to_members kts acc = Some (acc ++ m)%list.
Proof.
  induction 1 as [|[k t] [k' v] kts m [Hk Hv] Hm IH]; intros acc Hs; simpl in *.
  - by rewrite app_nil_r.
  - subst k'. rewrite Hv.
    rewrite map_store_last.
    + rewrite IH; [by rewrite <- app_assoc|].
      by rewrite <- app_assoc.
    + rewrite List.map_app in Hs. simpl in Hs.
      apply Forall_forall. intros k' Hk'.
      eapply StronglySorted_app_1_elem_of in Hs; [exact Hs|done|by left].
Qed.

(** *** Sorting the members of a map *)

Global Instance key_le_trans : Transitive key_le.
Proof. intros x y z. unfold key_le. apply transitivity. Qed.

Global Instance key_le_total : Total key_le.
Proof. intros x y. unfold key_le. apply total, _. Qed.

Lemma sorted_keys_inj {A} (l : list (string * A)) (x1 x2 : string * A) :
  StronglySorted key_lt (List.map fst l) → x1 ∈ l → x2 ∈ l → x1.1 = x2.1 → x1 = x2.
Proof.
  induction l as [|y l IH]; simpl; intros Hs H1 H2 Heq.
  - by apply elem_of_nil in H1.
  - apply StronglySorted_inv in Hs as [Hs Hall].
    assert (Hy : ∀ x, x ∈ l → key_lt y.1 x.1).
    { intros x Hx. apply (proj1 (Forall_forall _ _) Hall).
      change (List.map fst l) with (fst <$> l). apply list_elem_of_fmap. by exists x. }
    apply elem_of_cons in H1 as [->|H1]; apply elem_of_cons in H2 as [->|H2].
    + done.
    + apply Hy in H2. rewrite Heq in H2. by destruct (irreflexivity key_lt x2.1).
    + apply Hy in H1. rewrite <- Heq in H1. by destruct (irreflexivity key_lt x1.1).
    + by apply IH.
Qed.

Lemma sorted_keys_le (l : list (string * option string)) :
  StronglySorted key_lt (List.map fst l) → StronglySorted key_le l.
Proof.
  induction l as [|y l IH]; simpl; intros Hs; [constructor|].
  apply StronglySorted_inv in Hs as [Hs Hall].
  constructor; [by apply IH|].
  apply Forall_forall. intros x Hx. unfold key_le.
  apply strict_include. apply (proj1 (Forall_forall _ _) Hall).
  change (List.map fst l) with (fst <$> l). apply list_elem_of_fmap. by exists x.
Qed.

Lemma merge_sort_sorted (enc : list (string * option string)) :
  StronglySorted key_lt (List.map fst enc) → merge_sort key_le enc = enc.
Proof.
  intros Hs. apply (StronglySorted_unique_strong key_le).
  - intros x1 x2 H1 H2 H12 H21.
    rewrite merge_sort_Permutation in H1.
    apply (sorted_keys_inj enc); [done..|].
    unfold key_le in *. by apply (anti_symm String.le).
  - apply StronglySorted_merge_sort; apply _.
  - by apply sorted_keys_le.
  - apply merge_sort_Permutation.
Qed.

(** *** The encoder on slices and maps *)

Lemma Marshal_slice lib l :
  Marshal lib (VSlice l) =
  match all_some (List.map (Marshal lib) l) with
  | Some xs => Some ("[" ++ join "," xs ++ "]")
  | None => None
  end.
Proof. reflexivity. Qed.

Lemma Marshal_map lib m :
  Marshal lib (VMap m) =
  let enc := List.map (λ kv : string * value, (kv.1, Marshal lib kv.2)) m in
  let sorted := merge_sort key_le enc in
  match all_some (List.map snd sorted) with
  | Some xs =>
    Some ("{" ++ join ","
            (List.map (λ kx : string * string, encodeString kx.1 ++ ":" ++ kx.2)
               (zip (List.map fst sorted) xs)) ++ "}")
  | None => None
  end.
Proof. reflexivity. Qed.

Lemma zip_member (m : list (string * value)) (outs : list string) :
  List.map (λ kx : string * string, encodeString kx.1 ++ ":" ++ kx.2)
    (zip (List.map fst m) outs)
  = zip_with member m outs.
Proof.
  revert outs. induction m as [|kv m IH]; intros [|o outs]; simpl; try done.
  by rewrite IH.
Qed.

Lemma Marshal_map_sorted lib m outs :
  StronglySorted key_lt (List.map fst m) →
  Forall2 (λ kv o, Marshal lib kv.2 = Some o) m outs →
  Marshal lib (VMap m) = Some ("{" ++ join "," (zip_with member m outs) ++ "}").
Proof.
  intros Hs Houts. rewrite Marshal_map. cbv zeta.
  rewrite merge_sort_sorted by (by rewrite List.map_map, (List.map_ext _ fst)).
  rewrite !List.map_map.
  rewrite (List.map_ext _ (λ kv : string * value, Marshal lib kv.2)) by done.
  rewrite (List.map_ext (λ x : string * value, (x.1, Marshal lib x.2).1) fst) by done.
  apply (all_some_Forall2 (λ kv : string * value, Marshal lib kv.2)) in Houts.
  rewrite Houts. by rewrite zip_member.
Qed.

(** *** The encoder and the decoder *)

Theorem Marshal_reads_back (lib : golib) (x : value) :
  decoded_form (float_ok lib) x →
  ∀ d, 0 ≤ d → d + vdepth x ≤ maxNestingDepth →
  ∃ out, Marshal lib x = Some out ∧ reads_back d x out.
Proof.
  induction x as [ |b|n|f|s|e|l IH|m IH|o] using value_ind';
    intros Hdec d Hd Hdepth; try done.
  - exists "null". split; [done|apply reads_back_null].
  - exists (if b then "true" else "false").
    split; [by destruct b|apply reads_back_bool].
  - exists (format_float lib f). split; [done|by apply reads_back_float].
  - exists (encodeString s). split; [done|by apply reads_back_string].
  - (* a slice *)
    apply decoded_form_slice in Hdec. rewrite vdepth_slice in Hdepth.
    pose proof (vdepths_nonneg l) as Hnn.
    assert (Hmax : (maxNestingDepth <? d + 1) = false) by (apply Z.ltb_ge; lia).
    assert (Houts : ∃ outs, Forall2 (λ x o, Marshal lib x = Some o) l outs
                            ∧ Forall2 (reads_back (d + 1)) l outs).
    { assert (Hdl : Forall (λ x, vdepth x ≤ maxNestingDepth - (d + 1)) l).
      { apply vdepths_le; lia. }
      clear Hdepth Hnn. induction l as [|x l IHl]; [by exists []|].
      apply Forall_cons in IH as [IHx IH]. apply Forall_cons in Hdec as [Hx Hdec].
      apply Forall_cons in Hdl as [Hdx Hdl].
      destruct (IHl IH Hdec Hdl) as (outs & H1 & H2).
      destruct (IHx Hx (d + 1)) as (o & Ho & Hrb); [lia|lia|].
      exists (o :: outs). split; by constructor. }
    destruct Houts as (outs & Hm & Hrb).
    exists ("[" ++ join "," outs ++ "]"). split.
    { rewrite Marshal_slice. apply all_some_Forall2 in Hm. by rewrite Hm. }
    split; [starts|].
    intros fuel rest Hf Hterm.
    destruct fuel as [|fuel]; [simpl in Hf; lia|].
    destruct Hrb as [|x1 o1 xs os [Hs1 Hx1] Hrb].
    + exists (JArray []). split; [|done].
      change (("[" ++ join "," [] ++ "]") ++ rest) with (String "[" (String "]" rest)).
      by apply scan_value_array_empty.
    + rewrite join_cons in *.
      rewrite !string_app_length in Hf. simpl in Hf.
      set (tail := String.concat "" (List.map (λ y, "," ++ y) os)) in *.
      assert (Htext : ("[" ++ (o1 ++ tail) ++ "]") ++ rest
                      = String "[" (o1 ++ tail ++ String "]" rest)).
      { by norm_app. }
      rewrite Htext. rewrite scan_value_array_cons; [|done|].
      2:{ destruct Hs1 as (c & r & -> & Hws & Hc & _). intros r'.
          rewrite string_app_cons, skip_ws_start by done. congruence. }
      destruct (Hx1 fuel (tail ++ String "]" rest)) as (t1 & Ht1 & Hxt1);
        [lia|by apply terminated_tail; left|].
      rewrite Ht1.
      destruct (array_rest_elements (d + 1) xs os Hrb fuel [t1] rest)
        as (ts & Hts & Hxts); [fold tail; lia|].
      fold tail in Hts. rewrite Hts.
      exists (JArray (t1 :: ts)). split; [done|].
      rewrite to_value_array. simpl. by rewrite Hxt1, Hxts.
  - (* a map *)
    apply decoded_form_map in Hdec as [Hsorted Hdec]. rewrite vdepth_map in Hdepth.
    pose proof (vdepths_nonneg (List.map snd m)) as Hnn.
    assert (Hmax : (maxNestingDepth <? d + 1) = false) by (apply Z.ltb_ge; lia).
    assert (Houts : ∃ outs, Forall2 (λ kv o, Marshal lib kv.2 = Some o) m outs
                ∧ Forall2 (λ kv o, clean kv.1 ∧ reads_back (d + 1) kv.2 o) m outs).
    { assert (Hdl : Forall (λ x, vdepth x ≤ maxNestingDepth - (d + 1)) (List.map snd m)).
      { apply vdepths_le; lia. }
      clear Hdepth Hnn Hsorted. induction m as [|kv m IHm]; [by exists []|].
      apply Forall_cons in IH as [IHx IH]. apply Forall_cons in Hdec as [[Hk Hx] Hdec].
      simpl in Hdl. apply Forall_cons in Hdl as [Hdx Hdl].
      destruct (IHm IH Hdec Hdl) as (outs & H1 & H2).
      destruct (IHx Hx (d + 1)) as (o & Ho & Hrb); [lia|lia|].
      exists (o :: outs). split; by constructor. }
    destruct Houts as (outs & Hm & Hrb).
    exists ("{" ++ join "," (zip_with member m outs) ++ "}"). split.
    { by apply Marshal_map_sorted. }
    split; [starts|].
    intros fuel rest Hf Hterm.
    destruct fuel as [|fuel]; [simpl in Hf; lia|].
    destruct Hrb as [|kv0 o0 m' os [Hk0 Hx0] Hrb].
    + exists (JObject []). split; [|done].
      change (("{" ++ join "," (zip_with member [] []) ++ "}") ++ rest)
        with (String "{" (String "}" rest)).
      by apply scan_value_object_empty.
    + cbn [zip_with] in *. rewrite join_cons in *.
      rewrite !string_app_length in Hf.
      change (String.length "{") with 1%nat in Hf.
      change (String.length "}") with 1%nat in Hf.
      set (tail := String.concat "" (List.map (λ y, "," ++ y) (zip_with member m' os))) in *.
      assert (Htext : ("{" ++ (member kv0 o0 ++ tail) ++ "}") ++ rest
                      = String "{" (member kv0 o0 ++ tail ++ String "}" rest)).
      { by norm_app. }
      rewrite Htext. rewrite scan_value_object_cons; [|done|].
      2:{ intros r'. unfold member, encodeString.
          rewrite !string_app_cons, skip_ws_start by done. by intros [=]. }
      destruct (object_rest_members (d + 1) m' os Hrb kv0 o0 fuel [] rest Hk0 Hx0)
        as (kts & Hkts & Hall); [fold tail; rewrite string_app_length; lia|].
      fold tail in Hkts. rewrite Hkts.
      exists (JObject kts). split; [done|].
      rewrite to_value_object.
      by rewrite (to_members_ascending kts (kv0 :: m') Hall []).
Qed.

(** *** The round trip *)

Lemma floats_slice l : floats (VSlice l) = concat (List.map floats l).
Proof. simpl. induction l as [|x l IH]; [done|]. simpl. by rewrite IH. Qed.

Lemma floats_map m : floats (VMap m) = concat (List.map (λ kv, floats kv.2) m).
Proof. simpl. induction m as [|x m IH]; [done|]. simpl. by rewrite IH. Qed.

Lemma decoded_form_floats (okf : float64 → Prop) (x : value) :
  decoded_form (λ _, True) x → Forall okf (floats x) → decoded_form okf x.
Proof.
  induction x as [ |b|n|f|s|e|l IH|m IH|o] using value_ind'; intros Hd Hf; try done.
  - simpl in *. by inversion Hf.
  - apply decoded_form_slice. apply decoded_form_slice in Hd.
    rewrite floats_slice in Hf.
    induction l as [|x l IHl]; [constructor|].
    apply Forall_cons in IH as [IHx IH]. apply Forall_cons in Hd as [Hx Hd].
    simpl in Hf. apply Forall_app in Hf as [Hfx Hf].
    constructor; [by apply IHx|by apply IHl].
  - apply decoded_form_map. apply decoded_form_map in Hd as [Hs Hd].
    split; [done|]. rewrite floats_map in Hf.
    induction m as [|kv m IHm]; [constructor|].
    apply Forall_cons in IH as [IHx IH]. apply Forall_cons in Hd as [[Hk Hx] Hd].
    simpl in Hf. apply Forall_app in Hf as [Hfx Hf].
    simpl in Hs. apply StronglySorted_inv in Hs as [Hs _].
    constructor; [split; [done|by apply IHx]|by apply IHm].
Qed.

(** What [json.Unmarshal] decodes, [json.Marshal] encodes to a text that
    [json.Unmarshal] decodes to the same value, provided the text written
    for each [float64] in it is a number literal that parses back to it. *)
Theorem Unmarshal_Marshal (lib : golib) (s : string) (x : value) :
  Unmarshal s = Some x → Forall (float_ok lib) (floats x) →
  ∃ out, Marshal lib x = Some out ∧ Valid out = true ∧ Unmarshal out = Some x.
Proof.
  intros Hu Hf. unfold Unmarshal, parse in Hu.
  destruct (scan_value (S (String.length s)) 0 s) as [[t rest]|] eqn:Hscan; [|done].
  destruct (String.eqb (skip_ws rest) ""); [|done].
  destruct (scan_sound (S (String.length s))) as (Hsound & _ & _).
  destruct (Hsound 0 s t rest ltac:(done) Hscan x Hu) as [Hd Hdepth].
  destruct (Marshal_reads_back lib x (decoded_form_floats _ _ Hd Hf) 0 ltac:(done) Hdepth)
    as (out & Hm & _ & Hrb).
  exists out. split; [done|].
  destruct (Hrb (S (String.length out)) "" ltac:(lia) I) as (t' & Ht' & Hx).
  rewrite string_app_nil_r in Ht'.
  unfold Valid, Unmarshal, parse. by rewrite Ht'.
Qed.

(** ** JSON texts as message and field values *)

Lemma pairingInput_not_jsonText (rest : list value) (v : value) :
  v ∈ pairingInput rest → jsonText v = false.
Proof.
  unfold pairingInput. rewrite splitData_kv.
  set (kv := List.filter (λ v, negb (jsonText v)) rest).
  assert (Hkv : ∀ v, v ∈ kv → jsonText v = false).
  { intros v' Hv'. apply list_elem_of_In, filter_In in Hv' as [_ Hv'].
    by apply negb_true_iff. }
  unfold trailingError.
  destruct (last kv) as [[ | | | | |e| | | ]|] eqn:Hlast; simpl; try apply Hkv.
  destruct (Nat.odd (length kv)); simpl; [|apply Hkv].
  apply last_Some in Hlast as [l' Hl']. rewrite Hl', removelast_last.
  intros Hin. apply Hkv. rewrite Hl'. apply elem_of_app. by left.
Qed.

(** A field whose value is a JSON text comes from the single-map shortcut,
    where there is neither data nor leftovers. *)
Lemma jsonText_field (args : list value) (k : string) (v : value) :
  fields (parseArgs args) !! k = Some v → jsonText v = true →
  dataJSON (parseArgs args) = [] ∧ extra (parseArgs args) = [].
Proof.
  intros Hf Hj. destruct args as [|m rest]; [done|].
  destruct (isSingleMap rest) eqn:Hsingle.
  - destruct rest as [|[] [|]]; try discriminate Hsingle. done.
  - rewrite (parseArgs_general _ _ Hsingle) in Hf. simpl in Hf.
    apply pairKV_lookup in Hf as [Hf|(i & key & _ & Hv & _)];
      [by rewrite lookup_empty in Hf|].
    apply list_elem_of_lookup_2, pairingInput_not_jsonText in Hv. congruence.
Qed.

Lemma parseJSONIfString_decoded (s : string) (x : value) :
  Unmarshal (TrimSpace s) = Some x → parseJSONIfString (VString s) = x.
Proof.
  intros Hu. unfold parseJSONIfString, mustUnmarshalAny. rewrite Hu.
  unfold Unmarshal in Hu. unfold Valid.
  by destruct (parse (TrimSpace s)).
Qed.

Lemma parseJSONIfString_fallback (s : string) :
  Unmarshal (TrimSpace s) = None →
  parseJSONIfString (VString s) = VString (TrimSpace s).
Proof.
  intros Hu. unfold parseJSONIfString, mustUnmarshalAny. rewrite Hu.
  by destruct (Valid (TrimSpace s)).
Qed.

Lemma entryPairs_msg (e : orderedEntry) : ("msg", Msg e) ∈ entryPairs e.
Proof. unfold entryPairs. apply elem_of_app. left. set_solver. Qed.

Lemma entryPairs_field ts lv caller args k s :
  let p := parseArgs args in
  let e := buildJSONEntry ts lv caller args in
  fields p !! k = Some (VString s) → reserved k = false →
  Valid (TrimSpace s) = true →
  (k, parseJSONIfString (VString s)) ∈ entryPairs e.
Proof.
  intros p e Hf Hres Hvalid.
  destruct (jsonText_field args k (VString s) Hf Hvalid) as [Hdata Hextra].
  assert (Hin : k ∈ extraKeys e).
  { apply buildJSONEntry_keys. split; [done|]. left. by eexists. }
  assert (Hval : Extra e !! k = Some (parseJSONIfString (VString s))).
  { unfold e. rewrite buildJSONEntry_Extra. fold p.
    rewrite decide_False by (intros [_ ?]; done).
    rewrite decide_False by (intros [_ ?]; done).
    by rewrite Hf. }
  unfold entryPairs. apply elem_of_app. right. apply elem_of_app. left.
  change (List.map (λ k0, (k0, default VNil (Extra e !! k0))) (extraKeys e))
    with ((λ k0, (k0, default VNil (Extra e !! k0))) <$> extraKeys e).
  apply list_elem_of_fmap. exists k. split; [by rewrite Hval|done].
Qed.

Lemma MarshalJSON_position lib e line k x out :
  MarshalJSON lib e = inl line → (k, x) ∈ entryPairs e → Marshal lib x = Some out →
  ∃ vs i, line = "{" ++ join "," (zip_with member (entryPairs e) vs) ++ "}"
          ∧ entryPairs e !! i = Some (k, x) ∧ vs !! i = Some out.
Proof.
  intros Hline Hin Hout.
  apply MarshalJSON_text in Hline as (vs & Hall & ->).
  apply list_elem_of_lookup in Hin as [i Hi].
  destruct (Forall2_lookup_l _ _ _ _ _ Hall Hi) as (vv & Hvv & Hm).
  simpl in Hm. exists vs, i. split; [done|]. split; [done|]. congruence.
Qed.

(** C9, as stated, fails at two places.  The text [1e400] is syntactically
    valid JSON, but the decoder rejects the number as out of range, so
    [mustUnmarshalAny] keeps the string and the renderer writes it as a
    quoted string.  And a field under a reserved key is not written at
    all, whatever its value. *)
Lemma C9_unpromoted_counterexample :
  let args := [VString " 1e400 "] in
  let e := buildJSONEntry "t" INFO "c" args in
  let args' := [VString "m"; VMap [("err", VString "[true]")]] in
  let e' := buildJSONEntry "t" INFO "c" args' in
  (msg (parseArgs args) = VString " 1e400 "
   ∧ Valid (TrimSpace " 1e400 ") = true
   ∧ Unmarshal (TrimSpace " 1e400 ") = None
   ∧ Msg e = VString "1e400"
   ∧ Marshal sample_lib (Msg e) = Some (q ++ "1e400" ++ q))
  ∧ (fields (parseArgs args') !! "err" = Some (VString "[true]")
     ∧ Valid (TrimSpace "[true]") = true
     ∧ "err" ∉ List.map fst (entryPairs e')).
Proof.
  repeat split; try (vm_compute; reflexivity).
  apply (bool_decide_unpack _). by vm_compute.
Qed.

(* ===================================================================== *)
(** * Further properties of the package                                  *)
(* ===================================================================== *)

(** ** The format setter *)

(** X1. [SetLogFmt] reads its argument trimmed and in lower case.  The
    empty text and [json] select the JSON format, [text] and [plain] select
    the text format, each without an error.  Any other text leaves the
    logger as it is and returns the error [unknown log fmt: ] followed by the
    quoted argument. *)
Theorem SetLogFmt_names (lib : golib) (fmtStr : string) (l : Logger) :
  let u := strings.ToLower lib (strings.TrimSpace fmtStr) in
  (u = "" ∨ u = "json" → SetLogFmt lib fmtStr l = (set_fmt JSON l, None))
  ∧ (u = "text" ∨ u = "plain" → SetLogFmt lib fmtStr l = (set_fmt TEXT l, None))
  ∧ (u ∉ [""; "json"; "text"; "plain"] →
     SetLogFmt lib fmtStr l
     = (l, Some ("unknown log fmt: " ++ strconv_Quote lib fmtStr))).
Proof.
  intros u. unfold SetLogFmt, parseFormat. fold u.
  split; [|split].
  - by intros [-> | ->].
  - by intros [-> | ->].
  - intros Hnot.
    assert (Hne : ∀ n, n ∈ [""; "json"; "text"; "plain"] → String.eqb u n = false).
    { intros n Hn. apply String.eqb_neq. by intros ->. }
    rewrite !Hne; [done|set_solver..].
Qed.

Lemma SetLogFmt_names_witness :
  (strings.ToLower sample_lib (strings.TrimSpace " Plain ") = "plain"
   ∧ SetLogFmt sample_lib " Plain " initial = (set_fmt TEXT initial, None))
  ∧ (strings.ToLower sample_lib (strings.TrimSpace "") = ""
     ∧ SetLogFmt sample_lib "" (set_fmt TEXT initial) = (set_fmt JSON initial, None))
  ∧ ((strings.ToLower sample_lib (strings.TrimSpace "xml") ∉ [""; "json"; "text"; "plain"])
     ∧ SetLogFmt sample_lib "xml" initial
       = (initial, Some ("unknown log fmt: " ++ strconv_Quote sample_lib "xml"))).
Proof.
  assert (Hnot : strings.ToLower sample_lib (strings.TrimSpace "xml")
                 ∉ [""; "json"; "text"; "plain"]).
  { intros H. repeat (apply elem_of_cons in H as [H|H]; [discriminate|]).
    by apply elem_of_nil in H. }
  split; [|split].
  - split; [reflexivity|].
    apply (SetLogFmt_names sample_lib " Plain " initial). by right.
  - split; [reflexivity|].
    apply (SetLogFmt_names sample_lib "" (set_fmt TEXT initial)). by left.
  - split; [exact Hnot|].
    by apply (SetLogFmt_names sample_lib "xml" initial).
Defined.

(** ** Level names *)

Lemma parseLevel_error (lib : golib) (s : string) (lv : Level) (e : string) :
  parseLevel lib s = (lv, Some e) →
  lv = INFO ∧ e = "unknown log level: " ++ strconv_Quote lib s.
Proof.
  unfold parseLevel.
  repeat (destruct (_ : bool); [intros [= <- ?]; done|]).
  by intros [= <- <-].
Qed.

Lemma parseFormat_error (lib : golib) (s : string) (fm : Format) (e : string) :
  parseFormat lib s = (fm, Some e) →
  fm = JSON ∧ e = "unknown log fmt: " ++ strconv_Quote lib s.
Proof.
  unfold parseFormat.
  repeat (destruct (_ : bool); [intros [= <- ?]; done|]).
  by intros [= <- <-].
Qed.

(** X2. [Log] called with the name of a level, as [String] writes it, is
    the call at that level.  Called with a name that [parseLevel] rejects,
    it is the call [Info]: the error is dropped and the line is written at
    level INFO. *)
Theorem Log_level_name (lib : golib) (env : callEnv) (l : Logger) (args : list value) :
  (∀ lv, parseLevel lib (Level_String lv) = (lv, None)
         ∧ Log lib env l (Level_String lv) args = logWithCaller lib env l lv args)
  ∧ (∀ s lv e, parseLevel lib s = (lv, Some e) →
       Log lib env l s args = Info lib env l args).
Proof.
  split.
  - intros lv. unfold Log. by destruct lv.
  - intros s lv e H. unfold Log. by rewrite H.
Qed.

Lemma Log_level_name_witness :
  parseLevel sample_lib "verbose"
  = (INFO, Some ("unknown log level: " ++ strconv_Quote sample_lib "verbose"))
  ∧ Log sample_lib sample_env initial "verbose" [VString "m"]
    = Info sample_lib sample_env initial [VString "m"].
Proof.
  split; [reflexivity|].
  apply (Log_level_name sample_lib sample_env initial [VString "m"]) with
    (lv := INFO) (e := "unknown log level: " ++ strconv_Quote sample_lib "verbose").
  reflexivity.
Defined.

(** ** The parts of an output specification *)

Lemma selected_insert_eq (out : gmap outputDest bool) (d : outputDest) :
  selected (<[d := true]> out) d = true.
Proof. unfold selected. by rewrite lookup_insert_eq. Qed.

Lemma selected_insert_ne (out : gmap outputDest bool) (d d' : outputDest) (b : bool) :
  d ≠ d' → selected (<[d := b]> out) d' = selected out d'.
Proof. intros H. unfold selected. by rewrite lookup_insert_ne. Qed.

Lemma selected_insert (out : gmap outputDest bool) (d d' : outputDest) :
  selected (<[d := true]> out) d' = true ↔ d = d' ∨ selected out d' = true.
Proof.
  destruct (decide (d = d')) as [->|Hne].
  - rewrite selected_insert_eq. split; [by left|done].
  - rewrite selected_insert_ne by done. split; [by right|by intros [?|?]].
Qed.

Lemma dest_name_inj (d d' : outputDest) : dest_name d = dest_name d' → d = d'.
Proof. by destruct d, d'. Qed.

(** The loop over the parts, when every part is known. *)
Lemma parseOutput_parts_known (lib : golib) (parts : list string) :
  ∀ out, Forall (λ p, known_part lib p = true) parts →
    ∃ m, parseOutput_parts lib parts out = inl m
         ∧ ∀ d, selected m d = true ↔
                selected out d = true
                ∨ ∃ p, p ∈ parts ∧ strings.ToLower lib (strings.TrimSpace p) = dest_name d.
Proof.
  induction parts as [|p parts IH]; intros out Hall.
  - exists out. split; [done|]. intros d. split; [by left|].
    intros [H|(p & Hp & _)]; [done|]. by apply elem_of_nil in Hp.
  - apply Forall_cons in Hall as [Hp Hall]. simpl.
    unfold known_part in Hp.
    set (t := strings.ToLower lib (strings.TrimSpace p)) in *.
    assert (Hstep : ∀ d0, t = dest_name d0 →
      ∃ m, parseOutput_parts lib parts (<[d0 := true]> out) = inl m
           ∧ ∀ d, selected m d = true ↔
                  selected out d = true
                  ∨ ∃ p0, p0 ∈ p :: parts
                          ∧ strings.ToLower lib (strings.TrimSpace p0) = dest_name d).
    { intros d0 Ht. destruct (IH (<[d0 := true]> out) Hall) as (m & Hm & Hsel).
      exists m. split; [done|]. intros d. rewrite Hsel, selected_insert. split.
      - intros [[->|H]|(p0 & Hp0 & Hn)].
        + right. exists p. split; [left|done].
        + by left.
        + right. exists p0. split; [by right|done].
      - intros [H|(p0 & Hp0 & Hn)]; [left; by right|].
        apply elem_of_cons in Hp0 as [->|Hp0].
        + left. left. apply dest_name_inj. fold t in Hn. congruence.
        + right. by exists p0. }
    destruct (String.eqb_spec t "stdout") as [E1|N1]; [by apply (Hstep outStdout)|].
    destruct (String.eqb_spec t "stderr") as [E2|N2]; [by apply (Hstep outStderr)|].
    destruct (String.eqb_spec t "file") as [E3|N3]; [by apply (Hstep outFile)|].
    destruct (String.eqb_spec t "") as [E4|N4]; [|done].
    destruct (IH out Hall) as (m & Hm & Hsel).
    exists m. split; [done|]. intros d. rewrite Hsel. split.
    + intros [H|(p0 & Hp0 & Hn)]; [by left|].
      right. exists p0. split; [by right|done].
    + intros [H|(p0 & Hp0 & Hn)]; [by left|].
      apply elem_of_cons in Hp0 as [->|Hp0].
      * fold t in Hn. rewrite E4 in Hn. by destruct d.
      * right. by exists p0.
Qed.

(** The loop over the parts, up to the first part that is not known. *)
Lemma parseOutput_parts_unknown (lib : golib) (pre : list string) (p : string)
      (post : list string) :
  ∀ out, Forall (λ p, known_part lib p = true) pre → known_part lib p = false →
    parseOutput_parts lib (pre ++ p :: post) out
    = inr ({[ outStderr := true ]},
           Some ("unknown GOLOG_OUTPUT part: " ++ strconv_Quote lib p)).
Proof.
  induction pre as [|p0 pre IH]; intros out Hall Hp.
  - simpl. unfold known_part in Hp.
    repeat (apply orb_false_iff in Hp as [Hp ?]). by rewrite Hp, H1, H0, H.
  - apply Forall_cons in Hall as [Hp0 Hall]. simpl.
    unfold known_part in Hp0.
    by repeat (destruct (String.eqb _ _); [by apply IH|]).
Qed.

(** A list of parts is all known, or splits at its first unknown part. *)
Lemma parts_known_or_split (lib : golib) (parts : list string) :
  Forall (λ p, known_part lib p = true) parts
  ∨ ∃ pre p post, parts = (pre ++ p :: post)%list
                  ∧ Forall (λ p, known_part lib p = true) pre
                  ∧ known_part lib p = false.
Proof.
  induction parts as [|p parts IH]; [by left|].
  destruct (known_part lib p) eqn:Hp.
  - destruct IH as [IH|(pre & p' & post & -> & Hpre & Hp')].
    + left. by constructor.
    + right. exists (p :: pre), p', post. split; [done|]. split; [by constructor|done].
  - right. by exists [], p, parts.
Qed.

(** X3. A destination specification that is not blank is split at [+].
    When every part, trimmed and in lower case, is [stdout], [stderr],
    [file] or empty, the destinations selected are exactly those that some
    part names, and the only possible error is the one for [file] selected
    with a blank path.  At the first part that is none of these,
    [parseOutput] returns stderr alone, with the error that quotes this part
    as it was written. *)
Theorem parseOutput_destinations (lib : golib) (spec fileEnv : string) :
  strings.TrimSpace spec ≠ "" →
  let parts := strings.Split (strings.TrimSpace spec) "+" in
  (Forall (λ p, known_part lib p = true) parts →
   ∃ out, parseOutput lib spec fileEnv
          = (out, if selected out outFile && String.eqb (strings.TrimSpace fileEnv) ""
                  then Some "GOLOG_OUTPUT includes 'file' but GOLOG_FILE is empty"
                  else None)
          ∧ ∀ d, selected out d = true ↔
                 ∃ p, p ∈ parts
                      ∧ strings.ToLower lib (strings.TrimSpace p) = dest_name d)
  ∧ (∀ pre p post, parts = (pre ++ p :: post)%list →
       Forall (λ p, known_part lib p = true) pre → known_part lib p = false →
       parseOutput lib spec fileEnv
       = ({[ outStderr := true ]},
          Some ("unknown GOLOG_OUTPUT part: " ++ strconv_Quote lib p))).
Proof.
  intros Hspec parts. apply String.eqb_neq in Hspec.
  unfold parseOutput. rewrite Hspec. fold parts. split.
  - intros Hall.
    destruct (parseOutput_parts_known lib parts ∅ Hall) as (m & -> & Hsel).
    exists m. split; [by destruct (_ && _)|].
    intros d. rewrite Hsel. split; [|by right].
    intros [H|H]; [|done]. unfold selected in H. by rewrite lookup_empty in H.
  - intros pre p post -> Hpre Hp.
    by rewrite (parseOutput_parts_unknown lib pre p post ∅ Hpre Hp).
Qed.

Lemma parseOutput_destinations_witness :
  strings.TrimSpace " File + stderr+ " ≠ ""
  ∧ Forall (λ p, known_part sample_lib p = true)
      (strings.Split (strings.TrimSpace " File + stderr+ ") "+")
  ∧ (∃ out, parseOutput sample_lib " File + stderr+ " "/var/log/app.log" = (out, None)
            ∧ selected out outFile = true ∧ selected out outStderr = true
            ∧ selected out outStdout = false)
  ∧ (strings.TrimSpace "stdout+syslog+file" ≠ ""
     ∧ strings.Split (strings.TrimSpace "stdout+syslog+file") "+"
       = (["stdout"] ++ "syslog" :: ["file"])%list
     ∧ Forall (λ p, known_part sample_lib p = true) ["stdout"]
     ∧ known_part sample_lib "syslog" = false
     ∧ parseOutput sample_lib "stdout+syslog+file" "/var/log/app.log"
       = ({[ outStderr := true ]},
          Some ("unknown GOLOG_OUTPUT part: " ++ strconv_Quote sample_lib "syslog"))).
Proof.
  assert (H1 : strings.TrimSpace " File + stderr+ " ≠ "") by (vm_compute; discriminate).
  assert (H2 : Forall (λ p, known_part sample_lib p = true)
                 (strings.Split (strings.TrimSpace " File + stderr+ ") "+")).
  { replace (strings.Split (strings.TrimSpace " File + stderr+ ") "+")
      with ["File "; " stderr"; ""] by (vm_compute; reflexivity).
    repeat (constructor; [vm_compute; reflexivity|]). constructor. }
  assert (H3 : strings.TrimSpace "stdout+syslog+file" ≠ "") by (vm_compute; discriminate).
  assert (H4 : Forall (λ p, known_part sample_lib p = true) ["stdout"]).
  { repeat (constructor; [vm_compute; reflexivity|]). constructor. }
  assert (H5 : strings.Split (strings.TrimSpace "stdout+syslog+file") "+"
               = (["stdout"] ++ "syslog" :: ["file"])%list) by (vm_compute; reflexivity).
  assert (H6 : known_part sample_lib "syslog" = false) by (vm_compute; reflexivity).
  split; [exact H1|]. split; [exact H2|]. split.
  - destruct (proj1 (parseOutput_destinations sample_lib " File + stderr+ "
                       "/var/log/app.log" H1) H2) as (out & Hout & Hsel).
    assert (Hfile : selected out outFile = true).
    { apply Hsel. exists "File ". split; [|vm_compute; reflexivity].
      replace (strings.Split (strings.TrimSpace " File + stderr+ ") "+")
        with ["File "; " stderr"; ""] by (vm_compute; reflexivity).
      by left. }
    assert (Hstderr : selected out outStderr = true).
    { apply Hsel. exists " stderr". split; [|vm_compute; reflexivity].
      replace (strings.Split (strings.TrimSpace " File + stderr+ ") "+")
        with ["File "; " stderr"; ""] by (vm_compute; reflexivity).
      right. by left. }
    assert (Hstdout : selected out outStdout = false).
    { destruct (selected out outStdout) eqn:E; [|done].
      apply Hsel in E as (p & Hp & Hn). exfalso.
      replace (strings.Split (strings.TrimSpace " File + stderr+ ") "+")
        with ["File "; " stderr"; ""] in Hp by (vm_compute; reflexivity).
      repeat (apply elem_of_cons in Hp as [->|Hp]; [by vm_compute in Hn|]).
      by apply elem_of_nil in Hp. }
    exists out. split; [|done]. rewrite Hout, Hfile.
    replace (String.eqb (strings.TrimSpace "/var/log/app.log") "") with false
      by (vm_compute; reflexivity).
    reflexivity.
  - split; [exact H3|]. split; [exact H5|]. split; [exact H4|].
    split; [exact H6|].
    exact (proj2 (parseOutput_destinations sample_lib "stdout+syslog+file"
                    "/var/log/app.log" H3) ["stdout"] "syslog" ["file"] H5 H4 H6).
Defined.

Lemma parseOutput_parts_true (lib : golib) (parts : list string) :
  ∀ out m, (∀ d b, out !! d = Some b → b = true) →
    parseOutput_parts lib parts out = inl m →
    ∀ d b, m !! d = Some b → b = true.
Proof.
  induction parts as [|p parts IH]; intros out m Hout; simpl.
  - by intros [= <-].
  - assert (Hins : ∀ d0 d b, <[d0 := true]> out !! d = Some b → b = true).
    { intros d0 d b. destruct (decide (d0 = d)) as [->|Hne].
      - rewrite lookup_insert_eq. by intros [= <-].
      - rewrite lookup_insert_ne by done. apply Hout. }
    repeat (destruct (String.eqb _ _);
            [intros Hm; exact (IH _ _ (Hins _) Hm)|]).
    destruct (String.eqb _ _); [intros Hm; exact (IH _ _ Hout Hm)|done].
Qed.

(** X4. Whatever [parseOutput] returns: without an error, [file] is
    selected only when the path is not blank; an error is either the one for
    an unknown part, with stderr as the only destination, or the one for an
    empty path, with [file] still selected; and no entry of the map returned
    is [false]. *)
Theorem parseOutput_errors (lib : golib) (spec fileEnv : string)
        (out : gmap outputDest bool) (err : error) :
  parseOutput lib spec fileEnv = (out, err) →
  (err = None → selected out outFile = true → strings.TrimSpace fileEnv ≠ "")
  ∧ (∀ e, err = Some e →
       (out = {[ outStderr := true ]}
        ∧ ∃ p, p ∈ strings.Split (strings.TrimSpace spec) "+"
               ∧ known_part lib p = false
               ∧ e = "unknown GOLOG_OUTPUT part: " ++ strconv_Quote lib p)
       ∨ (selected out outFile = true ∧ strings.TrimSpace fileEnv = ""
          ∧ e = "GOLOG_OUTPUT includes 'file' but GOLOG_FILE is empty"))
  ∧ (∀ d b, out !! d = Some b → b = true).
Proof.
  intros Hparse. unfold parseOutput in Hparse.
  destruct (String.eqb_spec (strings.TrimSpace spec) "") as [Hblank|Hspec].
  - destruct (String.eqb_spec (strings.TrimSpace fileEnv) "") as [Hf|Hf];
      simpl in Hparse; injection Hparse as <- <-.
    + split; [intros _ H; by vm_compute in H|]. split; [done|].
      intros d b H. apply lookup_singleton_Some in H as [_ <-]. done.
    + split; [done|]. split; [done|].
      intros d b H. apply lookup_singleton_Some in H as [_ <-]. done.
  - destruct (parseOutput_parts lib _ ∅) as [m|r] eqn:Hparts.
    + assert (Htrue : ∀ d b, m !! d = Some b → b = true).
      { refine (parseOutput_parts_true lib _ ∅ m _ Hparts).
        intros d b H. by rewrite lookup_empty in H. }
      destruct (selected m outFile) eqn:Hfile;
        destruct (String.eqb_spec (strings.TrimSpace fileEnv) "") as [Hf|Hf];
        simpl in Hparse; injection Hparse as <- <-.
      * split; [done|]. split; [|done]. intros e [= <-]. by right.
      * done.
      * split; [by rewrite Hfile|done].
      * done.
    + destruct (parts_known_or_split lib (strings.Split (strings.TrimSpace spec) "+"))
        as [Hall|(pre & p & post & Heq & Hpre & Hp)].
      * destruct (parseOutput_parts_known lib _ ∅ Hall) as (m & Hm & _). congruence.
      * rewrite Heq, (parseOutput_parts_unknown lib pre p post ∅ Hpre Hp) in Hparts.
        injection Hparts as <-. injection Hparse as <- <-.
        split; [done|]. split.
        -- intros e [= <-]. left. split; [done|]. exists p. split; [|done].
           rewrite Heq. apply elem_of_app. right. by left.
        -- intros d b H. apply lookup_singleton_Some in H as [_ <-]. done.
Qed.

Lemma parseOutput_errors_witness :
  parseOutput sample_lib "stdout+file" " "
  = ({[ outStdout := true; outFile := true ]},
     Some "GOLOG_OUTPUT includes 'file' but GOLOG_FILE is empty")
  ∧ selected {[ outStdout := true; outFile := true ]} outFile = true
  ∧ strings.TrimSpace " " = ""
  ∧ parseOutput sample_lib "file" "app.log" = ({[ outFile := true ]}, None)
  ∧ selected {[ outFile := true ]} outFile = true
  ∧ strings.TrimSpace "app.log" ≠ "".
Proof.
  assert (H1 : parseOutput sample_lib "stdout+file" " "
               = ({[ outStdout := true; outFile := true ]},
                  Some "GOLOG_OUTPUT includes 'file' but GOLOG_FILE is empty"))
    by (vm_compute; reflexivity).
  assert (H2 : parseOutput sample_lib "file" "app.log" = ({[ outFile := true ]}, None))
    by (vm_compute; reflexivity).
  pose proof (parseOutput_errors sample_lib "stdout+file" " " _ _ H1) as (_ & Ha & _).
  pose proof (parseOutput_errors sample_lib "file" "app.log" _ _ H2) as (Hb & _ & _).
  split; [exact H1|].
  destruct (Ha _ eq_refl) as [[Hbad _]|(Hf & Ht & _)].
  - exfalso. by vm_compute in Hbad.
  - split; [exact Hf|]. split; [exact Ht|]. split; [exact H2|].
    split; [vm_compute; reflexivity|]. apply Hb; [reflexivity|vm_compute; reflexivity].
Defined.

(** ** The writers after a rebuild *)

Lemma usableWriters_eq (fs : string → bool) (c : config) :
  usableWriters fs c =
  (((if selected (output c) outStdout then [Stdout] else [])
    ++ (if selected (output c) outStderr then [Stderr] else [])
    ++ (if fileUsable fs c then [File (file c)] else []))%list,
   if fileUsable fs c then Some (file c) else None).
Proof.
  unfold usableWriters, fileUsable.
  destruct (selected (output c) outStdout), (selected (output c) outStderr),
    (selected (output c) outFile), (negb _), (fs (file c)); reflexivity.
Qed.

Ltac mem := rewrite ?elem_of_cons, ?elem_of_nil; intuition congruence.

(** X5. After [rebuildWriterLocked] the writer holds stdout exactly when
    stdout is selected; the file exactly when it is selected, its path is
    not blank and it could be opened; stderr exactly when it is selected or
    when neither stdout nor the file is written to.  No writer occurs twice,
    and the closer is set exactly when the file is among the writers. *)
Theorem rebuild_destinations (fs : string → bool) (l : Logger) :
  let c := cfg l in
  let c' := cfg (rebuildWriterLocked fs l) in
  (Stdout ∈ writer c' ↔ selected (output c) outStdout = true)
  ∧ (∀ p, File p ∈ writer c' ↔ p = file c ∧ fileUsable fs c = true)
  ∧ (Stderr ∈ writer c' ↔
     selected (output c) outStderr = true
     ∨ (selected (output c) outStdout = false ∧ fileUsable fs c = false))
  ∧ NoDup (writer c')
  ∧ closer c' = (if fileUsable fs c then Some (file c) else None)
  ∧ (∀ p, closer c' = Some p ↔ File p ∈ writer c').
Proof.
  intros c c'. unfold c', rebuildWriterLocked. fold c.
  rewrite usableWriters_eq.
  destruct (selected (output c) outStdout), (selected (output c) outStderr),
    (fileUsable fs c); simpl;
    (split; [mem|]); (split; [intros p; mem|]); (split; [mem|]);
    (split; [repeat constructor; mem|]); (split; [done|]); intros p; mem.
Qed.

(** The result of a rebuild depends on the level, the format, the
    destinations and the file path only. *)
Lemma rebuild_ext (fs : string → bool) (l1 l2 : Logger) :
  level (cfg l1) = level (cfg l2) → fmt (cfg l1) = fmt (cfg l2) →
  output (cfg l1) = output (cfg l2) → file (cfg l1) = file (cfg l2) →
  rebuildWriterLocked fs l1 = rebuildWriterLocked fs l2.
Proof.
  intros H1 H2 H3 H4. unfold rebuildWriterLocked, usableWriters.
  rewrite H1, H2, H3, H4. reflexivity.
Qed.

Lemma parseLevel_blank (lib : golib) (s : string) :
  strings.TrimSpace s = "" → parseLevel lib s = (INFO, None).
Proof. intros H. unfold parseLevel. by rewrite H. Qed.

Lemma parseFormat_blank (lib : golib) (s : string) :
  strings.TrimSpace s = "" → parseFormat lib s = (JSON, None).
Proof. intros H. unfold parseFormat. by rewrite H. Qed.

(** ** Construction and reload *)

(** X6. [New] with the options (level, format, output, file) builds the
    logger that [ReloadFromEnv] sets up from the same four texts read from
    the environment, whatever the logger was before.  One returns an error
    exactly when the other does, and the errors are equal whenever the level
    or the output specification is accepted. *)
Theorem New_ReloadFromEnv (lib : golib) (fs : string → bool)
        (lvl fmtStr out path : string) (l : Logger) :
  let n := New lib fs (MkOptions lvl fmtStr out path) in
  let r := ReloadFromEnv lib fs lvl fmtStr out path l in
  n.1 = r.1
  ∧ (n.2 = None ↔ r.2 = None)
  ∧ ((parseLevel lib lvl).2 = None ∨ (parseOutput lib out path).2 = None → n.2 = r.2).
Proof.
  unfold New, ReloadFromEnv. simpl.
  assert (HL : parseLevel lib (if String.eqb (strings.TrimSpace lvl) "" then "INFO" else lvl)
               = parseLevel lib lvl).
  { destruct (String.eqb_spec (strings.TrimSpace lvl) "") as [H|H]; [|done].
    by rewrite (parseLevel_blank lib lvl H). }
  assert (HF : parseFormat lib (if String.eqb (strings.TrimSpace fmtStr) "" then "json"
                                else fmtStr)
               = parseFormat lib fmtStr).
  { destruct (String.eqb_spec (strings.TrimSpace fmtStr) "") as [H|H]; [|done].
    by rewrite (parseFormat_blank lib fmtStr H). }
  rewrite HL, HF.
  destruct (parseLevel lib lvl) as [lv e1] eqn:E1,
    (parseFormat lib fmtStr) as [fm e2] eqn:E2,
    (parseOutput lib out path) as [outs e3] eqn:E3.
  simpl.
  assert (Hlv : (if e1 is Some _ then INFO else lv) = lv).
  { destruct e1 as [e|]; [|done]. by destruct (parseLevel_error lib lvl lv e E1) as [-> _]. }
  assert (Hfm : (if e2 is Some _ then JSON else fm) = fm).
  { destruct e2 as [e|]; [|done]. by destruct (parseFormat_error lib fmtStr fm e E2) as [-> _]. }
  rewrite Hlv, Hfm. split; [by apply rebuild_ext|].
  split.
  - by destruct e1, e2, e3.
  - intros [->| ->]; [done|by destruct e1, e2].
Qed.

Lemma New_ReloadFromEnv_witness :
  (parseLevel sample_lib "debug").2 = None
  ∧ New sample_lib (λ _, true) (MkOptions "debug" "text" "stdout+file" "app.log")
    = ReloadFromEnv sample_lib (λ _, true) "debug" "text" "stdout+file" "app.log" initial
  ∧ writer (cfg (New sample_lib (λ _, true)
                   (MkOptions "debug" "text" "stdout+file" "app.log")).1)
    = [Stdout; File "app.log"].
Proof.
  assert (H : (parseLevel sample_lib "debug").2 = None) by (vm_compute; reflexivity).
  pose proof (New_ReloadFromEnv sample_lib (λ _, true) "debug" "text" "stdout+file"
                "app.log" initial) as (H1 & _ & H3).
  split; [exact H|]. split.
  - apply injective_projections; [exact H1|exact (H3 (or_introl H))].
  - vm_compute. reflexivity.
Defined.

(** X7. With the four environment values empty or blank, [ReloadFromEnv]
    sets level INFO, format JSON, stderr as the only destination and the
    only writer, an empty path and no closer, and returns no error, whatever
    the logger was before. *)
Theorem ReloadFromEnv_defaults (lib : golib) (fs : string → bool)
        (lvl fmtStr out path : string) (l : Logger) :
  strings.TrimSpace lvl = "" → strings.TrimSpace fmtStr = "" →
  strings.TrimSpace out = "" → strings.TrimSpace path = "" →
  ReloadFromEnv lib fs lvl fmtStr out path l
  = ({| cfg := {| level := INFO; fmt := JSON; output := {[ outStderr := true ]};
                  file := ""; writer := [Stderr]; closer := None |};
        lg := [Stderr] |}, None).
Proof.
  intros H1 H2 H3 H4. unfold ReloadFromEnv.
  rewrite (parseLevel_blank lib lvl H1), (parseFormat_blank lib fmtStr H2).
  assert (Hout : parseOutput lib out path = ({[ outStderr := true ]}, None)).
  { unfold parseOutput. by rewrite H3, H4. }
  rewrite Hout, H4. reflexivity.
Qed.

Lemma ReloadFromEnv_defaults_witness :
  strings.TrimSpace "" = "" ∧ strings.TrimSpace "  " = ""
  ∧ ReloadFromEnv sample_lib (λ _, true) "" "  " "" "  "
      (New sample_lib (λ _, true) (MkOptions "debug" "text" "stdout+file" "app.log")).1
    = (rebuildWriterLocked (λ _, true) initial, None).
Proof.
  assert (H1 : strings.TrimSpace "" = "") by (vm_compute; reflexivity).
  assert (H2 : strings.TrimSpace "  " = "") by (vm_compute; reflexivity).
  split; [exact H1|]. split; [exact H2|].
  rewrite (ReloadFromEnv_defaults sample_lib (λ _, true) "" "  " "" "  " _ H1 H2 H1 H2).
  vm_compute. reflexivity.
Defined.

(** ** The setters of the destinations and of the file path *)

Lemma parseOutput_map_path (lib : golib) (spec f1 f2 : string) :
  strings.TrimSpace spec ≠ "" →
  (parseOutput lib spec f1).1 = (parseOutput lib spec f2).1.
Proof.
  intros Hspec. apply String.eqb_neq in Hspec.
  unfold parseOutput. rewrite Hspec.
  destruct (parseOutput_parts lib _ ∅) as [m|r]; [|done].
  by destruct (_ && _), (_ && _).
Qed.

Lemma rebuild_ext_fs (fs fs' : string → bool) (l1 l2 : Logger) :
  level (cfg l1) = level (cfg l2) → fmt (cfg l1) = fmt (cfg l2) →
  output (cfg l1) = output (cfg l2) → file (cfg l1) = file (cfg l2) →
  fs (file (cfg l1)) = fs' (file (cfg l2)) →
  rebuildWriterLocked fs l1 = rebuildWriterLocked fs' l2.
Proof.
  intros H1 H2 H3 H4 H5. unfold rebuildWriterLocked, usableWriters.
  rewrite H5, H1, H2, H3, H4. reflexivity.
Qed.

Lemma SetLogFile_logger (fs : string → bool) (path : string) (l : Logger) :
  (SetLogFile fs path l).1 = rebuildWriterLocked fs (set_file (strings.TrimSpace path) l).
Proof. unfold SetLogFile. by destruct (_ && _). Qed.

Lemma SetOutput_logger (lib : golib) (fs : string → bool) (spec : string) (l : Logger) :
  (SetOutput lib fs spec l).1
  = rebuildWriterLocked fs (set_output (parseOutput lib spec (file (cfg l))).1 l).
Proof. unfold SetOutput. by destruct (parseOutput lib spec (file (cfg l))). Qed.

(** X8. Setting the destinations, with a specification that is not blank,
    and setting the file path lead to the same level, format, destinations
    and path in either order, whatever the file system answers at each of
    the four rebuilds.  The writers, and with them the whole logger, are the
    same as soon as the attempt to open the file has the same outcome at the
    last rebuild of either order; the outcome of the earlier rebuilds does
    not matter. *)
Theorem SetOutput_SetLogFile_order (lib : golib) (fs1 fs2 fs3 fs4 : string → bool)
        (spec path : string) (l : Logger) :
  strings.TrimSpace spec ≠ "" →
  let a := (SetOutput lib fs2 spec (SetLogFile fs1 path l).1).1 in
  let b := (SetLogFile fs4 path (SetOutput lib fs3 spec l).1).1 in
  level (cfg a) = level (cfg b) ∧ fmt (cfg a) = fmt (cfg b)
  ∧ output (cfg a) = output (cfg b)
  ∧ file (cfg a) = strings.TrimSpace path ∧ file (cfg b) = strings.TrimSpace path
  ∧ (fs2 (strings.TrimSpace path) = fs4 (strings.TrimSpace path) → a = b).
Proof.
  intros Hspec a b. unfold a, b.
  rewrite !SetOutput_logger, !SetLogFile_logger.
  set (p := strings.TrimSpace path).
  pose proof (rebuild_keeps fs1 (set_file p l)) as (K1 & K2 & K3 & K4).
  simpl in K1, K2, K3, K4. rewrite K4.
  rewrite (parseOutput_map_path lib spec p (file (cfg l)) Hspec).
  set (o := (parseOutput lib spec (file (cfg l))).1).
  pose proof (rebuild_keeps fs3 (set_output o l)) as (J1 & J2 & J3 & J4).
  pose proof (rebuild_keeps fs2 (set_output o (rebuildWriterLocked fs1 (set_file p l))))
    as (A1 & A2 & A3 & A4).
  pose proof (rebuild_keeps fs4 (set_file p (rebuildWriterLocked fs3 (set_output o l))))
    as (B1 & B2 & B3 & B4).
  simpl in J1, J2, J3, J4, A1, A2, A3, A4, B1, B2, B3, B4.
  split; [congruence|]. split; [congruence|]. split; [congruence|].
  split; [congruence|]. split; [congruence|].
  intros Hfs. apply rebuild_ext_fs; simpl; congruence.
Qed.

Lemma SetOutput_SetLogFile_order_witness :
  let once := λ ok : bool, λ _ : string, ok in
  strings.TrimSpace "file" ≠ ""
  ∧ (SetOutput sample_lib (once true) "file" (SetLogFile (once false) "app.log" initial).1).1
    = (SetLogFile (once true) "app.log" (SetOutput sample_lib (once true) "file" initial).1).1
  ∧ lg (SetOutput sample_lib (once true) "file"
          (SetLogFile (once false) "app.log" initial).1).1 = [File "app.log"]
  ∧ lg (SetLogFile (once false) "app.log"
          (SetOutput sample_lib (once true) "file" initial).1).1 = [Stderr]
  ∧ output (cfg (SetLogFile (once false) "app.log"
                   (SetOutput sample_lib (once true) "file" initial).1).1)
    = {[ outFile := true ]}.
Proof.
  intros once.
  assert (H : strings.TrimSpace "file" ≠ "") by (vm_compute; discriminate).
  split; [exact H|].
  split; [exact (proj2 (proj2 (proj2 (proj2 (proj2
            (SetOutput_SetLogFile_order sample_lib (once false) (once true) (once true)
               (once true) "file" "app.log" initial H))))) eq_refl)|].
  repeat split; vm_compute; reflexivity.
Defined.

(** ** The debug level *)

Lemma logWithCaller_one_line (lib : golib) (env : callEnv) (l : Logger) (lv : Level)
      (args : list value) :
  length (printed (logWithCaller lib env l lv args)) = 1%nat
  ↔ enabled lv (level (cfg l)) = true.
Proof.
  split.
  - destruct (enabled lv (level (cfg l))) eqn:E; [done|].
    by rewrite (logWithCaller_disabled _ _ _ _ _ E).
  - intros H. destruct (logWithCaller_enabled lib env l lv args H)
      as (pre & line & -> & _ & Hpre).
    unfold printed in *. by rewrite omap_app, Hpre.
Qed.

(** X9. [IsDebug] is true exactly when a [Debug] call writes a line, and
    false exactly when a [Debug] call does nothing at all.  When it is true,
    a call at any level writes one line. *)
Theorem IsDebug_Debug (lib : golib) (env : callEnv) (l : Logger) (args : list value) :
  (IsDebug l = true ↔ length (printed (Debug lib env l args)) = 1%nat)
  ∧ (IsDebug l = false ↔ Debug lib env l args = [])
  ∧ (IsDebug l = true →
     ∀ lv, length (printed (logWithCaller lib env l lv args)) = 1%nat).
Proof.
  assert (Hd : IsDebug l = enabled DEBUG (level (cfg l))).
  { unfold IsDebug, enabled. by destruct (level (cfg l)). }
  rewrite Hd. unfold Debug. split; [|split].
  - by rewrite logWithCaller_one_line.
  - split; [apply logWithCaller_disabled|].
    destruct (enabled DEBUG (level (cfg l))) eqn:E; [|done].
    intros H. apply (logWithCaller_one_line lib env l DEBUG args) in E.
    by rewrite H in E.
  - intros H lv. apply logWithCaller_one_line.
    unfold enabled in *. destruct (level (cfg l)); try done. by destruct lv.
Qed.

Lemma IsDebug_Debug_witness :
  IsDebug (set_level DEBUG initial) = true
  ∧ length (printed (logWithCaller sample_lib sample_env (set_level DEBUG initial)
                       DEBUG [VString "m"])) = 1%nat
  ∧ IsDebug initial = false
  ∧ Debug sample_lib sample_env initial [VString "m"] = [].
Proof.
  pose proof (IsDebug_Debug sample_lib sample_env (set_level DEBUG initial) [VString "m"])
    as (_ & _ & H3).
  pose proof (IsDebug_Debug sample_lib sample_env initial [VString "m"]) as (_ & H2 & _).
  split; [reflexivity|]. split; [by apply H3|]. split; [reflexivity|]. by apply H2.
Defined.

(** ** The error level *)

(** X10. [Error] writes exactly one line under every configuration; and
    when a call at some level writes a line, the same call at any level of
    higher or equal rank writes one too. *)
Theorem Error_never_filtered (lib : golib) (env : callEnv) (l : Logger)
        (args : list value) :
  length (printed (Error lib env l args)) = 1%nat
  ∧ (∀ lv lv', rank lv ≤ rank lv' →
       length (printed (logWithCaller lib env l lv args)) = 1%nat →
       length (printed (logWithCaller lib env l lv' args)) = 1%nat).
Proof.
  split.
  - apply logWithCaller_one_line, enabled_rank. by destruct (level (cfg l)).
  - intros lv lv' Hle. rewrite !logWithCaller_one_line, !enabled_rank. lia.
Qed.

Lemma Error_never_filtered_witness :
  length (printed (Error sample_lib sample_env (set_level ERROR initial) [VString "m"]))
  = 1%nat
  ∧ rank INFO ≤ rank WARN
  ∧ length (printed (logWithCaller sample_lib sample_env initial INFO [VString "m"]))
    = 1%nat
  ∧ length (printed (logWithCaller sample_lib sample_env initial WARN [VString "m"]))
    = 1%nat.
Proof.
  pose proof (Error_never_filtered sample_lib sample_env (set_level ERROR initial)
                [VString "m"]) as [H1 _].
  pose proof (Error_never_filtered sample_lib sample_env initial [VString "m"]) as [_ H2].
  assert (Hle : rank INFO ≤ rank WARN) by (vm_compute; discriminate).
  assert (Hinfo : length (printed (logWithCaller sample_lib sample_env initial INFO
                                     [VString "m"])) = 1%nat) by (vm_compute; reflexivity).
  split; [exact H1|]. split; [exact Hle|]. split; [exact Hinfo|].
  exact (H2 INFO WARN Hle Hinfo).
Defined.

(** ** Classification: JSON texts, leftovers, repeated keys *)

Lemma pairKV_extra_elem (kv : list value) :
  ∀ (f : gmap string value) (x : list value) (v : value),
    v ∈ (pairKV kv f x).2 → v ∈ x ∨ v ∈ kv.
Proof.
  induction kv as [|y|k v0 kv IH] using list_pair_ind; intros f x v; simpl.
  - by left.
  - by left.
  - rewrite !elem_of_cons.
    destruct k; intros H; apply IH in H as [H|H]; auto;
      rewrite elem_of_app, !elem_of_cons, elem_of_nil in H; intuition auto.
Qed.

Lemma last_elem_of {A} (l : list A) (x : A) : last l = Some x → x ∈ l.
Proof.
  intros H. apply last_Some in H as [l' ->]. apply elem_of_app. right. by left.
Qed.

Lemma extra_elem_pairingInput (m : value) (rest : list value) (v : value) :
  isSingleMap rest = false → v ∈ extra (parseArgs (m :: rest)) → v ∈ pairingInput rest.
Proof.
  intros Hs. rewrite (parseArgs_general m rest Hs). simpl.
  destruct (Nat.odd _).
  - intros H. apply elem_of_app in H as [H|H].
    + apply pairKV_extra_elem in H as [H|H]; [by apply elem_of_nil in H|done].
    + destruct (last (pairingInput rest)) as [y|] eqn:E; simpl in H.
      * rewrite elem_of_cons, elem_of_nil in H. destruct H as [->|[]].
        by apply last_elem_of.
      * by apply elem_of_nil in H.
  - intros H. apply pairKV_extra_elem in H as [H|H]; [by apply elem_of_nil in H|done].
Qed.

Lemma splitData_valid (rest : list value) :
  length (splitData rest).1 = length (List.filter jsonText rest)
  ∧ Forall (λ d, json.Valid d = true) (splitData rest).1.
Proof.
  induction rest as [|v rest [IH1 IH2]]; [by split|].
  simpl. destruct (splitData rest) as [data kv].
  destruct v; try (by split).
  simpl in *. destruct (json.Valid (strings.TrimSpace s)) eqn:E; simpl.
  - split; [by rewrite IH1|by constructor].
  - by split.
Qed.

(** X11. Outside the single-map branch the message is the first argument.
    The raw data are the trimmed texts of the string arguments after the
    message whose trimmed text is valid JSON, in call order, one for each
    such argument, and each is valid JSON.  No such string is stored as the
    value of a field or left among the leftovers. *)
Theorem json_texts_go_to_data (m : value) (rest : list value) :
  isSingleMap rest = false →
  let p := parseArgs (m :: rest) in
  msg p = m
  ∧ dataJSON p
    = omap (λ v, match v with
                 | VString s => if jsonText v then Some (strings.TrimSpace s) else None
                 | _ => None
                 end) rest
  ∧ length (dataJSON p) = length (List.filter jsonText rest)
  ∧ Forall (λ d, json.Valid d = true) (dataJSON p)
  ∧ (∀ k v, fields p !! k = Some v → jsonText v = false)
  ∧ Forall (λ v, jsonText v = false) (extra p).
Proof.
  intros Hs p.
  assert (Hdata : dataJSON p = (splitData rest).1).
  { unfold p. by rewrite (parseArgs_general m rest Hs). }
  split; [unfold p; by rewrite (parseArgs_general m rest Hs)|].
  split; [by rewrite Hdata, splitData_data|].
  split; [rewrite Hdata; apply splitData_valid|].
  split; [rewrite Hdata; apply splitData_valid|].
  split.
  - intros k v Hf. destruct (jsonText v) eqn:E; [|done].
    unfold p in Hf. rewrite (parseArgs_general m rest Hs) in Hf. simpl in Hf.
    apply pairKV_lookup in Hf as [Hf|(i & key & _ & Hv & _)];
      [by rewrite lookup_empty in Hf|].
    apply list_elem_of_lookup_2, pairingInput_not_jsonText in Hv. congruence.
  - apply Forall_forall. intros v Hv.
    apply (extra_elem_pairingInput m rest v Hs) in Hv.
    by apply pairingInput_not_jsonText in Hv.
Qed.

Lemma json_texts_go_to_data_witness :
  let rest := [VString "count"; VString " 5 "; VInt 7; VString "{}"] in
  let p := parseArgs (VString "m" :: rest) in
  isSingleMap rest = false
  ∧ dataJSON p = ["5"; "{}"]
  ∧ fields p = {[ "count" := VInt 7 ]}
  ∧ extra p = [].
Proof.
  intros rest p.
  pose proof (json_texts_go_to_data (VString "m") rest eq_refl) as (_ & H & _).
  split; [reflexivity|]. split; [|split; vm_compute; reflexivity].
  etrans; [exact H|]. vm_compute. reflexivity.
Defined.

(** X12. In a call with a message, a string key and a string value, where
    the value is a JSON text and the key is not, the value is taken out as
    raw data before the pairing, so that the key stays alone: no field is
    stored, the key lands in the leftovers, and the entry has the keys ts,
    lv, caller, msg, args and data. *)
Theorem json_value_orphans_key (ts : string) (lv : Level) (caller : string)
        (m : value) (k s : string) :
  jsonText (VString k) = false → jsonText (VString s) = true →
  let args := [m; VString k; VString s] in
  parseArgs args
  = {| msg := m; fields := ∅; dataJSON := [strings.TrimSpace s];
       errField := None; extra := [VString k] |}
  ∧ List.map fst (entryPairs (buildJSONEntry ts lv caller args))
    = ["ts"; "lv"; "caller"; "msg"; "args"; "data"]
  ∧ Extra (buildJSONEntry ts lv caller args)
    = {[ "args" := VSlice [VString k];
         "data" := mustUnmarshalAny (strings.TrimSpace s) ]}.
Proof.
  intros Hk Hs args. simpl in Hk, Hs.
  assert (Hp : parseArgs args
               = {| msg := m; fields := ∅; dataJSON := [strings.TrimSpace s];
                    errField := None; extra := [VString k] |}).
  { unfold args, parseArgs. simpl. by rewrite Hs, Hk. }
  split; [exact Hp|].
  assert (HE : Extra (buildJSONEntry ts lv caller args)
               = {[ "args" := VSlice [VString k];
                    "data" := mustUnmarshalAny (strings.TrimSpace s) ]}).
  { unfold buildJSONEntry. rewrite Hp. simpl. by rewrite fmap_empty. }
  split; [|exact HE].
  assert (Herr : Err (buildJSONEntry ts lv caller args) = None).
  { unfold buildJSONEntry. by rewrite Hp. }
  rewrite entryPairs_keys, Herr. unfold extraKeys. rewrite HE.
  generalize (mustUnmarshalAny (strings.TrimSpace s)). intros x.
  vm_compute. reflexivity.
Qed.

Lemma json_value_orphans_key_witness :
  jsonText (VString "count") = false ∧ jsonText (VString "5") = true
  ∧ parseArgs [VString "m"; VString "count"; VString "5"]
    = {| msg := VString "m"; fields := ∅; dataJSON := ["5"];
         errField := None; extra := [VString "count"] |}
  ∧ MarshalJSON sample_lib
      (buildJSONEntry "t" INFO "c" [VString "m"; VString "count"; VString "5"])
    = inl ("{" ++ q ++ "ts" ++ q ++ ":" ++ q ++ "t" ++ q ++ ","
           ++ q ++ "lv" ++ q ++ ":" ++ q ++ "INFO" ++ q ++ ","
           ++ q ++ "caller" ++ q ++ ":" ++ q ++ "c" ++ q ++ ","
           ++ q ++ "msg" ++ q ++ ":" ++ q ++ "m" ++ q ++ ","
           ++ q ++ "args" ++ q ++ ":[" ++ q ++ "count" ++ q ++ "],"
           ++ q ++ "data" ++ q ++ ":5}").
Proof.
  assert (H1 : jsonText (VString "count") = false) by (vm_compute; reflexivity).
  assert (H2 : jsonText (VString "5") = true) by (vm_compute; reflexivity).
  split; [exact H1|]. split; [exact H2|].
  split; [|vm_compute; reflexivity].
  exact (proj1 (json_value_orphans_key "t" INFO "c" (VString "m") "count" "5" H1 H2)).
Defined.

(** The pairing loop on a list of even length followed by one more pair. *)
Lemma pairKV_app_pair (kv : list value) (a b : value) :
  Nat.even (length kv) = true →
  ∀ (f : gmap string value) (x : list value),
    pairKV (kv ++ [a; b]) f x
    = pairKV [a; b] (pairKV kv f x).1 (pairKV kv f x).2.
Proof.
  induction kv as [|y|k v kv IH] using list_pair_ind; intros Hev f x.
  - reflexivity.
  - discriminate Hev.
  - change ((k :: v :: kv) ++ [a; b])%list with (k :: v :: (kv ++ [a; b]))%list.
    assert (Hev' : Nat.even (length kv) = true) by exact Hev.
    destruct k; cbn [pairKV]; by rewrite (IH Hev').
Qed.

Lemma filter_not_jsonText_all (l : list value) :
  Forall (λ v, jsonText v = false) l → List.filter (λ v, negb (jsonText v)) l = l.
Proof.
  induction 1 as [|v l Hv _ IH]; [done|]. simpl. by rewrite Hv, IH.
Qed.

Lemma even_odd_false (n : nat) : Nat.even n = true → Nat.odd n = false.
Proof. intros H. unfold Nat.odd. by rewrite H. Qed.

(** X13. When no argument after the message is a JSON text and an even
    number of arguments precedes a last pair of a string key [k] and a value
    [v], the fields hold [v] under the normalised [k], whatever earlier
    pairs stored under that key; there is no trailing error and no raw
    data. *)
Theorem last_pair_wins (m : value) (rest : list value) (k : string) (v : value) :
  Forall (λ v, jsonText v = false) rest →
  jsonText (VString k) = false → jsonText v = false →
  Nat.even (length rest) = true →
  let p := parseArgs (m :: rest ++ [VString k; v]) in
  fields p !! normalizeKey k = Some v
  ∧ errField p = None ∧ dataJSON p = [].
Proof.
  intros Hrest Hk Hv Hev p.
  assert (Hs : isSingleMap (rest ++ [VString k; v]) = false).
  { destruct rest as [|y [|y' rest]]; try done. simpl. by destruct y. }
  assert (Hall : Forall (λ v, jsonText v = false) (rest ++ [VString k; v])).
  { apply Forall_app. split; [done|]. by repeat constructor. }
  assert (Hlen : Nat.odd (length (rest ++ [VString k; v])) = false).
  { apply even_odd_false. rewrite length_app. simpl.
    rewrite Nat.add_comm. simpl. exact Hev. }
  assert (Hkv : pairingInput (rest ++ [VString k; v]) = (rest ++ [VString k; v])%list).
  { unfold pairingInput. rewrite splitData_kv, (filter_not_jsonText_all _ Hall).
    rewrite trailingError_kept; [done|by left]. }
  unfold p. rewrite (parseArgs_general m _ Hs). simpl.
  rewrite Hkv, (pairKV_app_pair rest (VString k) v Hev).
  split; [simpl; by rewrite lookup_insert_eq|].
  rewrite splitData_kv, (filter_not_jsonText_all _ Hall).
  split.
  - rewrite trailingError_kept; [done|by left].
  - rewrite splitData_data. clear -Hall.
    induction Hall as [|y l Hy _ IH]; [done|].
    cbn [omap list_omap]. destruct y; try exact IH. by rewrite Hy.
Qed.

Lemma last_pair_wins_witness :
  let rest := [VString "id"; VInt 1; VString " id: "; VInt 2] in
  Forall (λ v, jsonText v = false) rest
  ∧ jsonText (VString "id:") = false ∧ jsonText (VInt 3) = false
  ∧ Nat.even (length rest) = true
  ∧ normalizeKey "id:" = "id"
  ∧ fields (parseArgs (VString "m" :: rest ++ [VString "id:"; VInt 3]))
    = {[ "id" := VInt 3 ]}.
Proof.
  intros rest.
  assert (H1 : Forall (λ v, jsonText v = false) rest).
  { repeat (constructor; [vm_compute; reflexivity|]). constructor. }
  assert (H2 : jsonText (VString "id:") = false) by (vm_compute; reflexivity).
  pose proof (last_pair_wins (VString "m") rest "id:" (VInt 3) H1 H2 eq_refl eq_refl)
    as (H & _ & _).
  split; [exact H1|]. split; [exact H2|]. split; [reflexivity|]. split; [reflexivity|].
  split; [vm_compute; reflexivity|]. vm_compute. reflexivity.
Defined.

(** The leftovers of the pairing loop, with the odd last element, are a
    subsequence of its input. *)
Lemma pairKV_extra_sublist (kv : list value) :
  ∀ (f : gmap string value) (x : list value),
    ∃ sub, ((pairKV kv f x).2
            ++ (if Nat.odd (length kv) then option_list (last kv) else []))%list
           = (x ++ sub)%list
           ∧ sublist sub kv.
Proof.
  induction kv as [|y|k v kv IH] using list_pair_ind; intros f x.
  - exists []. by rewrite !app_nil_r.
  - exists [y]. done.
  - assert (Hodd : Nat.odd (length (k :: v :: kv)) = Nat.odd (length kv)) by done.
    assert (Hlast : Nat.odd (length kv) = true → last (k :: v :: kv) = last kv).
    { destruct kv as [|z kv]; [done|]. done. }
    assert (Htail : (if Nat.odd (length (k :: v :: kv))
                     then option_list (last (k :: v :: kv)) else [])
                    = (if Nat.odd (length kv) then option_list (last kv) else [])).
    { rewrite Hodd. destruct (Nat.odd (length kv)) eqn:E; [|done]. by rewrite Hlast. }
    rewrite Htail.
    destruct (IH f (x ++ [k; v])%list) as (sub1 & Heq1 & Hsub1).
    assert (Hother : ∃ sub,
              ((pairKV kv f (x ++ [k; v])).2
               ++ (if Nat.odd (length kv) then option_list (last kv) else []))%list
              = (x ++ sub)%list ∧ sublist sub (k :: v :: kv)).
    { exists (k :: v :: sub1). rewrite Heq1, <- app_assoc.
      split; [done|by do 2 apply sublist_skip]. }
    destruct k as [|b|n|fl|key|e|sl|mm|tag]; try exact Hother.
    cbn [pairKV]. destruct (IH (<[normalizeKey key := v]> f) x) as (sub & Heq & Hsub).
    exists sub. split; [done|]. by do 2 apply sublist_cons.
Qed.

Lemma removelast_sublist {A} (l : list A) : sublist (removelast l) l.
Proof.
  induction l as [|a [|b l] IH]; [done|by apply sublist_cons|].
  change (removelast (a :: b :: l)) with (a :: removelast (b :: l)).
  by apply sublist_skip.
Qed.

Lemma List_filter_sublist {A} (f : A → bool) (l : list A) : sublist (List.filter f l) l.
Proof.
  induction l as [|a l IH]; [done|]. simpl.
  destruct (f a); [by apply sublist_skip|by apply sublist_cons].
Qed.

Lemma pairingInput_sublist (rest : list value) : sublist (pairingInput rest) rest.
Proof.
  unfold pairingInput. rewrite splitData_kv. unfold trailingError.
  set (kv := List.filter _ rest).
  assert (H : sublist kv rest) by apply List_filter_sublist.
  destruct (last kv) as [[]|]; simpl; try done.
  destruct (Nat.odd _); simpl; [|done].
  etrans; [apply removelast_sublist|done].
Qed.

Lemma pairKV_extra_even (kv : list value) :
  ∀ (f : gmap string value) (x : list value),
    Nat.even (length (pairKV kv f x).2) = Nat.even (length x).
Proof.
  induction kv as [|y|k v kv IH] using list_pair_ind; intros f x; try done.
  destruct k; cbn [pairKV]; rewrite IH; try done.
  all: rewrite length_app, Nat.add_comm; done.
Qed.

(** X14. Outside the single-map branch the leftovers are a subsequence of
    the arguments after the message, in call order.  Their number is odd
    exactly when the number of arguments given to the pairing loop is odd,
    and then the last leftover is the last of those arguments. *)
Theorem leftovers_subsequence (m : value) (rest : list value) :
  isSingleMap rest = false →
  let p := parseArgs (m :: rest) in
  sublist (extra p) rest
  ∧ Nat.odd (length (extra p)) = Nat.odd (length (pairingInput rest))
  ∧ (Nat.odd (length (pairingInput rest)) = true →
     last (extra p) = last (pairingInput rest)).
Proof.
  intros Hs p. unfold p. rewrite (parseArgs_general m rest Hs). simpl.
  set (kv := pairingInput rest).
  destruct (pairKV_extra_sublist kv ∅ []) as (sub & Heq & Hsub). simpl in Heq.
  pose proof (pairKV_extra_even kv ∅ []) as Hev. simpl in Hev.
  destruct (Nat.odd (length kv)) eqn:Hodd.
  - rewrite Heq. split; [etrans; [exact Hsub|apply pairingInput_sublist]|].
    assert (Hne : ∃ y, last kv = Some y).
    { destruct kv as [|z kv']; [done|]. apply last_is_Some. done. }
    destruct Hne as [y Hy]. rewrite Hy in Heq. simpl in Heq.
    rewrite <- Heq. split.
    + rewrite length_app, Nat.add_comm. simpl. unfold Nat.odd.
      rewrite Nat.even_succ. unfold Nat.odd. by rewrite Hev.
    + intros _. by rewrite last_snoc.
  - rewrite app_nil_r in Heq. rewrite Heq.
    split; [etrans; [exact Hsub|apply pairingInput_sublist]|].
    split; [|done]. rewrite <- Heq. unfold Nat.odd. by rewrite Hev.
Qed.

Lemma leftovers_subsequence_witness :
  let rest := [VInt 1; VString "a"; VString "{}"; VString "k"; VBool true; VNil] in
  isSingleMap rest = false
  ∧ extra (parseArgs (VString "m" :: rest)) = [VInt 1; VString "a"; VNil]
  ∧ sublist (extra (parseArgs (VString "m" :: rest))) rest
  ∧ Nat.odd (length (pairingInput rest)) = true
  ∧ last (extra (parseArgs (VString "m" :: rest))) = last (pairingInput rest).
Proof.
  intros rest.
  pose proof (leftovers_subsequence (VString "m") rest eq_refl) as (H1 & _ & H3).
  assert (Hodd : Nat.odd (length (pairingInput rest)) = true) by (vm_compute; reflexivity).
  split; [reflexivity|]. split; [vm_compute; reflexivity|].
  split; [exact H1|]. split; [exact Hodd|]. exact (H3 Hodd).
Defined.

(** ** The caller *)

Lemma prefix_app (p s : string) :
  String.prefix p s = true ↔ ∃ post, s = p ++ post.
Proof.
  revert s. induction p as [|a p IH]; intros s.
  - split; [intros _; by exists s|]. by destruct s.
  - destruct s as [|b s]; simpl.
    + split; [done|]. by intros [post H].
    + destruct (ascii_dec a b) as [->|Hne].
      * rewrite IH. split; intros [post H]; exists post; [by rewrite H|].
        by injection H.
      * split; [done|]. intros [post H]. by injection H.
Qed.

Lemma Contains_app (s sub : string) :
  Contains s sub = true ↔ ∃ pre post, s = pre ++ sub ++ post.
Proof.
  induction s as [|a s IH].
  - cbn [Contains]. rewrite orb_false_r, prefix_app. split.
    + intros [post H]. by exists "", post.
    + intros (pre & post & H). destruct pre; [by exists post|done].
  - cbn [Contains]. rewrite orb_true_iff, prefix_app, IH. split.
    + intros [[post H]|(pre & post & H)].
      * by exists "", post.
      * exists (String a pre), post. by rewrite H.
    + intros (pre & post & H). destruct pre as [|b pre].
      * left. by exists post.
      * right. exists pre, post. by injection H.
Qed.

Lemma drop_length_app (pre suf : string) :
  drop (String.length pre) (pre ++ suf) = suf.
Proof. induction pre as [|a pre IH]; [done|]. exact IH. Qed.

Lemma HasSuffix_app (s suf : string) :
  HasSuffix s suf = true → ∃ pre, s = pre ++ suf.
Proof.
  unfold HasSuffix. intros H. apply andb_true_iff in H as [Hlen Heq].
  apply Nat.leb_le in Hlen. apply String.eqb_eq in Heq.
  revert Hlen Heq. generalize (String.length suf) as n. intros n.
  set (k := (String.length s - n)%nat). intros Hlen.
  assert (Hk : (k ≤ String.length s)%nat) by lia. clearbody k. clear Hlen.
  revert k Hk. induction s as [|a s IH]; intros k Hk Heq.
  - exists "". by destruct k.
  - destruct k as [|k].
    + exists "". simpl in Heq. by rewrite <- Heq.
    + simpl in Hk. destruct (IH k ltac:(lia) Heq) as [pre ->].
      by exists (String a pre).
Qed.

Lemma skippedFrame_inLogging (fn : string) : skippedFrame fn = inLogging fn.
Proof.
  unfold skippedFrame, inLogging.
  destruct (HasPrefix fn "runtime." || HasPrefix fn "log."); [done|]. simpl.
  destruct (Contains fn "/logging.") eqn:E; [by rewrite orb_true_r|].
  rewrite orb_false_r. apply not_true_iff_false. intros H.
  apply not_true_iff_false in E. apply E. apply Contains_app.
  apply orb_true_iff in H as [H|H].
  - apply Contains_app in H as (pre & post & ->).
    exists (pre ++ "github.com/Brian44913"), post.
    rewrite (string_app_assoc pre). reflexivity.
  - apply HasSuffix_app in H as [pre ->].
    exists pre, "Info". reflexivity.
Qed.

Lemma resolveCaller_loop_find (base : string → string) (frames : list Frame) :
  ∀ fuel, frames ≠ [] → (length frames ≤ fuel)%nat →
    resolveCaller_loop base fuel frames
    = match List.find (λ f, negb (inLogging (fr_Function f))) frames with
      | Some f => base (fr_File f) ++ ":" ++ strconv.Itoa (fr_Line f)
      | None => "???:0"
      end.
Proof.
  induction frames as [|f frames IH]; intros fuel Hne Hlen; [done|].
  destruct fuel as [|fuel]; [simpl in Hlen; lia|].
  cbn [resolveCaller_loop Frames_Next List.find].
  rewrite skippedFrame_inLogging.
  destruct (inLogging (fr_Function f)); simpl; [|done].
  destruct frames as [|f' frames]; [done|].
  apply IH; [done|simpl in *; lia].
Qed.

(** X15. [resolveCaller] returns the base name of the file and the line of
    the first frame whose function name neither starts with [runtime.] or
    [log.] nor contains [/logging.], and [???:0] when every frame is
    skipped.  On an empty stack the zero frame is taken: the base name of
    the empty path and line 0. *)
Theorem resolveCaller_first_outside (base : string → string) (frames : list Frame) :
  resolveCaller base frames
  = match frames with
    | [] => base "" ++ ":0"
    | _ =>
      match List.find (λ f, negb (inLogging (fr_Function f))) frames with
      | Some f => base (fr_File f) ++ ":" ++ strconv.Itoa (fr_Line f)
      | None => "???:0"
      end
    end.
Proof.
  destruct frames as [|f frames]; [reflexivity|].
  unfold resolveCaller. apply resolveCaller_loop_find; [done|lia].
Qed.

(** ** When the entry cannot be encoded *)

(** The run of [writeKV] calls stops at the first value the encoder
    rejects. *)
Lemma writeKVs_stops (lib : golib) (pre : list (string * value)) (kv : string * value)
      (post : list (string * value)) :
  Forall (λ kv, is_Some (Marshal lib kv.2)) pre → Marshal lib kv.2 = None →
  ∀ first b, writeKVs lib (pre ++ kv :: post) first b = inr (marshal_error_text lib kv.2).
Proof.
  induction 1 as [|[k v] pre [vv Hv] _ IH]; intros Hkv first b.
  - destruct kv as [k v]. simpl in *. by rewrite Hkv.
  - simpl in *. rewrite Hv. by apply IH.
Qed.

Lemma writeKVs_all (lib : golib) (kvs : list (string * value)) :
  Forall (λ kv, is_Some (Marshal lib kv.2)) kvs →
  ∀ first b, ∃ out, writeKVs lib kvs first b = inl out.
Proof.
  induction 1 as [|[k v] kvs [vv Hv] _ IH]; intros first b.
  - by exists b.
  - simpl in *. rewrite Hv. apply IH.
Qed.

Lemma first_rejected (lib : golib) (kvs : list (string * value)) :
  Forall (λ kv, is_Some (Marshal lib kv.2)) kvs
  ∨ ∃ pre kv post, kvs = (pre ++ kv :: post)%list
                   ∧ Forall (λ kv, is_Some (Marshal lib kv.2)) pre
                   ∧ Marshal lib kv.2 = None.
Proof.
  induction kvs as [|kv kvs IH]; [by left|].
  destruct (Marshal lib kv.2) as [vv|] eqn:Hv.
  - destruct IH as [IH|(pre & kv' & post & -> & Hpre & Hkv')].
    + left. constructor; [by rewrite Hv|done].
    + right. exists (kv :: pre), kv', post.
      split; [done|]. split; [|done]. constructor; [by rewrite Hv|done].
  - right. by exists [], kv, kvs.
Qed.

(** X16. [MarshalJSON] returns a line exactly when every value it writes
    can be encoded.  At the first value that cannot, it returns the error of
    that value, and a call in JSON format that passes the level filter
    prints one line: the failure line, which carries this error after the
    prefix of [json.Marshal] for an error of [MarshalJSON]. *)
Theorem marshal_failure_line (lib : golib) (env : callEnv) (l : Logger) (lv : Level)
        (args : list value) :
  let e := buildJSONEntry (env_now env) lv (env_caller env) args in
  ((∃ line, MarshalJSON lib e = inl line)
   ↔ ∀ kv, kv ∈ entryPairs e → is_Some (Marshal lib kv.2))
  ∧ (∀ pre kv post, entryPairs e = (pre ++ kv :: post)%list →
       Forall (λ kv, is_Some (Marshal lib kv.2)) pre → Marshal lib kv.2 = None →
       MarshalJSON lib e = inr (marshal_error_text lib kv.2)
       ∧ (fmt (cfg l) = JSON → enabled lv (level (cfg l)) = true →
          printed (logWithCaller lib env l lv args)
          = [failureLine env (env_caller env)
               ("json: error calling MarshalJSON for type logging.orderedEntry: "
                ++ marshal_error_text lib kv.2)])).
Proof.
  intros e. split.
  - split.
    + intros [line Hline] kv Hkv.
      apply MarshalJSON_text in Hline as (vs & Hall & _).
      apply list_elem_of_lookup in Hkv as [i Hi].
      destruct (Forall2_lookup_l _ _ _ _ _ Hall Hi) as (vv & _ & Hvv).
      by rewrite Hvv.
    + intros Hall. unfold MarshalJSON.
      destruct (writeKVs_all lib (entryPairs e) (proj2 (Forall_forall _ _) Hall) true "{")
        as [out ->].
      by eexists.
  - intros pre kv post Heq Hpre Hkv.
    assert (Hfail : MarshalJSON lib e = inr (marshal_error_text lib kv.2)).
    { unfold MarshalJSON. by rewrite Heq, (writeKVs_stops lib pre kv post Hpre Hkv). }
    split; [exact Hfail|].
    intros Hfmt Hen. unfold logWithCaller. rewrite Hen, Hfmt. simpl.
    fold e. by rewrite Hfail.
Qed.

Lemma marshal_failure_line_witness :
  let lib := {| unicode_upper := id; unicode_lower := id;
                strconv_Quote := λ s, s; fmt_Sprint := λ _, "";
                format_float := sample_format_float;
                marshal_other := λ _, None;
                marshal_error_text := λ _, "json: unsupported type: chan int";
                map_range := map_to_list |} in
  let args := [VString "m"; VString "ch"; VOther "chan int"] in
  let e := buildJSONEntry (env_now sample_env) DEBUG (env_caller sample_env) args in
  entryPairs e
  = ([("ts", VString (env_now sample_env)); ("lv", VString "DEBUG");
      ("caller", VString (env_caller sample_env)); ("msg", VString "m")]
     ++ ("ch", VOther "chan int") :: [])%list
  ∧ MarshalJSON lib e = inr "json: unsupported type: chan int"
  ∧ printed (logWithCaller lib sample_env (set_level DEBUG initial) DEBUG args)
    = [failureLine sample_env (env_caller sample_env)
         ("json: error calling MarshalJSON for type logging.orderedEntry: "
          ++ "json: unsupported type: chan int")].
Proof.
  intros lib args e.
  assert (Heq : entryPairs e
    = ([("ts", VString (env_now sample_env)); ("lv", VString "DEBUG");
        ("caller", VString (env_caller sample_env)); ("msg", VString "m")]
       ++ ("ch", VOther "chan int") :: [])%list) by (vm_compute; reflexivity).
  assert (Hpre : Forall (λ kv, is_Some (Marshal lib kv.2))
                   [("ts", VString (env_now sample_env)); ("lv", VString "DEBUG");
                    ("caller", VString (env_caller sample_env)); ("msg", VString "m")]).
  { repeat (constructor; [by eexists|]). constructor. }
  destruct (proj2 (marshal_failure_line lib sample_env (set_level DEBUG initial) DEBUG args)
              _ _ _ Heq Hpre eq_refl) as [H1 H2].
  split; [exact Heq|]. split; [exact H1|]. exact (H2 eq_refl eq_refl).
Defined.

(** ** Reading a line back *)

Lemma sorted_keys_above {A} (k : string) (m : list (string * A)) (kv : string * A) :
  Forall (key_lt k) (List.map fst m) → kv ∈ m → kv.1 ≠ k.
Proof.
  intros Hall Hkv Heq.
  assert (Hin : kv.1 ∈ List.map fst m).
  { apply list_elem_of_In, in_map, list_elem_of_In, Hkv. }
  pose proof (proj1 (Forall_forall _ _) Hall _ Hin) as Hlt.
  rewrite Heq in Hlt. by destruct (irreflexivity key_lt k).
Qed.

Lemma sorted_keys_NoDup (l : list string) : StronglySorted key_lt l → NoDup l.
Proof.
  induction 1 as [|k l _ IH Hall]; constructor; [|done].
  intros Hin. pose proof (proj1 (Forall_forall _ _) Hall _ Hin) as Hlt.
  by destruct (irreflexivity key_lt k).
Qed.

(** The members of a map after a store. *)
Lemma map_store_elem (k : string) (v : value) (m : list (string * value))
      (kv : string * value) :
  StronglySorted key_lt (List.map fst m) →
  kv ∈ map_store k v m ↔ kv = (k, v) ∨ (kv ∈ m ∧ kv.1 ≠ k).
Proof.
  induction m as [|[k' v'] m IH]; simpl; intros Hs.
  - rewrite elem_of_cons, elem_of_nil. split; [intros [?|[]]; by left|].
    intros [?|[[] _]]. by left.
  - apply StronglySorted_inv in Hs as [Hs Hall].
    destruct (String.eqb_spec k k') as [->|Hne].
    + rewrite !elem_of_cons. split.
      * intros [?|Hkv]; [by left|]. right. split; [by right|].
        by apply (sorted_keys_above k' m kv).
      * intros [?|[[->|Hkv] Hk]]; [by left|done|by right].
    + destruct (String.ltb k k') eqn:Hlt.
      * apply ltb_key_lt in Hlt. rewrite !elem_of_cons. split.
        -- intros [?|[->|Hkv]]; [by left|right; split; [by left|]|right; split; [by right|]].
           ++ simpl. by apply not_eq_sym.
           ++ apply (sorted_keys_above k m kv); [|done].
              eapply Forall_impl; [exact Hall|]. intros y Hy. by etrans.
        -- intros [?|[[->|Hkv] _]]; [by left|right; by left|right; by right].
      * rewrite !elem_of_cons, (IH Hs). split.
        -- intros [->|[?|[Hkv Hk]]]; [right; split; [by left|by apply not_eq_sym]|by left|].
           right. split; [by right|done].
        -- intros [?|[[->|Hkv] Hk]]; [right; by left|by left|right; right; by split].
Qed.

(** Members with pairwise distinct keys are all stored. *)
Lemma to_members_distinct (kts : list (string * jtree)) (m : list (string * value)) :
  Forall2 (λ kt kv, kt.1 = kv.1 ∧ to_value kt.2 = Some kv.2) kts m →
  ∀ acc, StronglySorted key_lt (List.map fst acc) →
    NoDup (List.map fst (acc ++ m)) →
    ∃ res, to_members kts acc = Some res
           ∧ StronglySorted key_lt (List.map fst res)
           ∧ ∀ kv, kv ∈ res ↔ kv ∈ acc ∨ kv ∈ m.
Proof.
  induction 1 as [|[k t] [k' v] kts m [Hk Hv] _ IH]; intros acc Hs Hnd.
  - exists acc. split; [done|]. split; [done|].
    intros kv. rewrite elem_of_nil. tauto.
  - simpl in Hk, Hv. subst k'. cbn [to_members]. simpl. rewrite Hv.
    rewrite map_app in Hnd. apply NoDup_app in Hnd as (Hnd1 & Hdisj & Hnd2).
    simpl in Hnd2. apply NoDup_cons in Hnd2 as [Hk Hnd2].
    assert (Hkacc : k ∉ List.map fst acc).
    { intros Hin. apply (Hdisj k Hin). by left. }
    destruct (IH (map_store k v acc)) as (res & Hres & Hsorted & Helem).
    + by apply map_store_sorted.
    + rewrite map_app. apply NoDup_app. split; [|split; [|done]].
      * by apply sorted_keys_NoDup, map_store_sorted.
      * intros x Hx Hx'. apply map_store_keys in Hx as [->|Hx]; [done|].
        apply (Hdisj x Hx). by right.
    + exists res. split; [done|]. split; [done|].
      intros kv. rewrite Helem, (map_store_elem k v acc kv Hs), elem_of_cons. split.
      * intros [[?|[? _]]|?]; auto.
      * intros [Hkv|[?|?]]; auto. left. right. split; [done|].
        intros Heq. apply Hkacc. rewrite <- Heq.
        apply list_elem_of_In, in_map, list_elem_of_In, Hkv.
Qed.

Lemma entryPairs_NoDup (e : orderedEntry) : NoDup (List.map fst (entryPairs e)).
Proof.
  rewrite entryPairs_keys.
  assert (Hres : ∀ k, k ∈ extraKeys e → reserved k = false).
  { intros k Hk. by apply extraKeys_elem_of in Hk as [_ ?]. }
  apply NoDup_app. split; [|split].
  - repeat (constructor; [rewrite ?elem_of_cons, elem_of_nil; intuition discriminate|]).
    constructor.
  - intros k Hk Hk'. apply elem_of_app in Hk' as [Hk'|Hk'].
    + apply Hres in Hk'.
      repeat (apply elem_of_cons in Hk as [->|Hk]; [discriminate|]).
      by apply elem_of_nil in Hk.
    + destruct (Err e); [|by apply elem_of_nil in Hk'].
      apply elem_of_cons in Hk' as [->|Hk']; [|by apply elem_of_nil in Hk'].
      repeat (apply elem_of_cons in Hk as [Hk|Hk]; [discriminate|]).
      by apply elem_of_nil in Hk.
  - apply NoDup_app. split; [apply extraKeys_NoDup|]. split.
    + intros k Hk Hk'. apply Hres in Hk.
      destruct (Err e); [|by apply elem_of_nil in Hk'].
      apply elem_of_cons in Hk' as [->|Hk']; [done|by apply elem_of_nil in Hk'].
    + destruct (Err e); [|constructor]. apply NoDup_singleton.
Qed.

(** X17. When the keys written are valid UTF-8 and the values are in the
    form the decoder produces, nested within the limit of the scanner and
    with floats that the library writes back exactly, [MarshalJSON] returns
    a line that is valid JSON and decodes to an object whose members, in
    ascending key order, are exactly the pairs of the entry. *)
Theorem JSON_line_round_trip (lib : golib) (e : orderedEntry) :
  (∀ kv, kv ∈ entryPairs e →
     clean kv.1 ∧ decoded_form (float_ok lib) kv.2
     ∧ 1 + vdepth kv.2 ≤ maxNestingDepth) →
  ∃ line m,
    MarshalJSON lib e = inl line
    ∧ Valid line = true
    ∧ Unmarshal line = Some (VMap m)
    ∧ StronglySorted key_lt (List.map fst m)
    ∧ ∀ kv, kv ∈ m ↔ kv ∈ entryPairs e.
Proof.
  intros Hall.
  assert (Hback : ∀ kv, kv ∈ entryPairs e →
            ∃ out, Marshal lib kv.2 = Some out ∧ reads_back 1 kv.2 out).
  { intros kv Hkv. destruct (Hall kv Hkv) as (_ & Hd & Hdepth).
    by apply Marshal_reads_back. }
  assert (Hsome : ∀ kv, kv ∈ entryPairs e → is_Some (Marshal lib kv.2)).
  { intros kv Hkv. destruct (Hback kv Hkv) as (out & -> & _). by eexists. }
  destruct (writeKVs_all lib (entryPairs e) (proj2 (Forall_forall _ _) Hsome) true "{")
    as [b Hb].
  assert (Hline : MarshalJSON lib e = inl (b ++ "}")).
  { unfold MarshalJSON. by rewrite Hb. }
  destruct (MarshalJSON_text lib e _ Hline) as (vs & Hvs & Htext).
  exists (b ++ "}"). rewrite Htext in *. clear Hb Htext b.
  pose proof (entryPairs_NoDup e) as Hnd.
  assert (Hpairs : Forall2 (λ kv o, clean kv.1 ∧ reads_back 1 kv.2 o) (entryPairs e) vs).
  { clear Hline Hnd Hsome. revert Hall Hback Hvs. generalize (entryPairs e) as l.
    intros l Hall Hback Hvs. induction Hvs as [|kv o l vs Ho _ IH]; [constructor|].
    constructor.
    - split; [apply Hall; by left|].
      destruct (Hback kv) as (out & Hout & Hrb); [by left|]. congruence.
    - apply IH; intros kv' Hkv'; [apply Hall|apply Hback]; by right. }
  assert (Hfour : ∃ kv0 m, entryPairs e = kv0 :: m) by (by eexists _, _).
  destruct Hfour as (kv0 & m & Heq). rewrite Heq in *.
  apply Forall2_cons_inv_l in Hpairs as (o0 & outs & [Hk0 Hrb0] & Hpairs & ->).
  change (zip_with member (kv0 :: m) (o0 :: outs))
    with (member kv0 o0 :: zip_with member m outs) in *.
  rewrite join_cons in *.
  set (tail := String.concat "" (List.map (λ o, "," ++ o) (zip_with member m outs))).
  set (line := "{" ++ (member kv0 o0 ++ tail) ++ "}").
  assert (Hshape : line = String "{" (member kv0 o0 ++ tail ++ String "}" "")).
  { unfold line. by rewrite string_app_cons, string_app_nil_l, string_app_assoc. }
  assert (Hlen : String.length line = S (String.length (member kv0 o0 ++ tail) + 1)).
  { rewrite Hshape. simpl. f_equal.
    rewrite !string_app_length. simpl. lia. }
  assert (Hfuel : (String.length (member kv0 o0 ++ tail) < String.length line)%nat) by lia.
  destruct (object_rest_members 1 m outs Hpairs kv0 o0 (String.length line) [] ""
              Hk0 Hrb0 Hfuel) as (kts & Hscan & Hkts).
  fold tail in Hscan.
  assert (Hparse : parse line = Some (JObject kts)).
  { unfold parse. rewrite Hshape at 2.
    rewrite scan_value_object_cons; [change (0 + 1) with 1; by rewrite Hscan| done |].
    intros r'. unfold member, encodeString. rewrite !string_app_cons.
    rewrite skip_ws_start by done. discriminate. }
  destruct (to_members_distinct kts (kv0 :: m) Hkts [] ltac:(constructor) Hnd)
    as (res & Hres & Hsorted & Helem).
  exists res. split; [done|].
  split; [unfold Valid; by rewrite Hparse|].
  split; [unfold Unmarshal; by rewrite Hparse, to_value_object, Hres|].
  split; [done|]. intros kv. rewrite Helem, elem_of_nil. tauto.
Qed.

Lemma clean_allASCII (s : string) : allASCII s = true → clean s.
Proof.
  induction s as [|c s IH]; [constructor|].
  simpl. intros [Hc Hs]%andb_true_iff. by apply clean_ascii, IH.
Qed.

Lemma JSON_line_round_trip_witness :
  let args := [VString "hello"; VString "name"; VString "Jack"; VString " [1, true] "] in
  let e := buildJSONEntry "2026-01-01 00:00:00" INFO "main.go:10" args in
  (∀ kv, kv ∈ entryPairs e →
     clean kv.1 ∧ decoded_form (float_ok sample_lib) kv.2
     ∧ 1 + vdepth kv.2 ≤ maxNestingDepth)
  ∧ ∃ line m,
      MarshalJSON sample_lib e = inl line
      ∧ Valid line = true
      ∧ Unmarshal line = Some (VMap m)
      ∧ ("msg", VString "hello") ∈ m
      ∧ ("name", VString "Jack") ∈ m
      ∧ ("data", VSlice [VFloat (Float64 false 4503599627370496 (-52)); VBool true]) ∈ m.
Proof.
  intros args e.
  assert (Hpairs : entryPairs e
    = [("ts", VString "2026-01-01 00:00:00"); ("lv", VString "INFO");
       ("caller", VString "main.go:10"); ("msg", VString "hello");
       ("data", VSlice [VFloat (Float64 false 4503599627370496 (-52)); VBool true]);
       ("name", VString "Jack")]) by (vm_compute; reflexivity).
  assert (Hstr : ∀ k s, allASCII k = true → allASCII s = true →
            clean (k, VString s).1 ∧ decoded_form (float_ok sample_lib) (k, VString s).2
            ∧ 1 + vdepth (k, VString s).2 ≤ maxNestingDepth).
  { intros k s Hk Hs. split; [by apply clean_allASCII|].
    split; [by apply clean_allASCII|]. by vm_compute. }
  assert (Hall : ∀ kv, kv ∈ entryPairs e →
            clean kv.1 ∧ decoded_form (float_ok sample_lib) kv.2
            ∧ 1 + vdepth kv.2 ≤ maxNestingDepth).
  { intros kv Hkv. rewrite Hpairs in Hkv.
    apply elem_of_cons in Hkv as [Hx|Hkv].
    { subst kv. exact (Hstr "ts" "2026-01-01 00:00:00" eq_refl eq_refl). }
    apply elem_of_cons in Hkv as [Hx|Hkv].
    { subst kv. exact (Hstr "lv" "INFO" eq_refl eq_refl). }
    apply elem_of_cons in Hkv as [Hx|Hkv].
    { subst kv. exact (Hstr "caller" "main.go:10" eq_refl eq_refl). }
    apply elem_of_cons in Hkv as [Hx|Hkv].
    { subst kv. exact (Hstr "msg" "hello" eq_refl eq_refl). }
    apply elem_of_cons in Hkv as [Hx|Hkv].
    { subst kv. split; [apply clean_allASCII; reflexivity|].
      split; [|vm_compute; discriminate].
      apply decoded_form_slice. constructor; [|constructor; [exact I|constructor]].
      exists (Number false 1 0). split; vm_compute; reflexivity. }
    apply elem_of_cons in Hkv as [Hx|Hkv].
    { subst kv. exact (Hstr "name" "Jack" eq_refl eq_refl). }
    apply elem_of_nil in Hkv. destruct Hkv. }
  split; [exact Hall|].
  destruct (JSON_line_round_trip sample_lib e Hall) as (line & m & H1 & H2 & H3 & _ & H5).
  exists line, m. split; [exact H1|]. split; [exact H2|]. split; [exact H3|].
  rewrite Hpairs in H5.
  split; [apply H5; do 3 right; left|].
  split; [apply H5; do 5 right; left|].
  apply H5. do 4 right. left.
Defined.

(** ** Quoting a string of any bytes *)

Lemma cont_high (c : ascii) : utf8.cont c = true → (128 <=? code c)%N = true.
Proof. unfold utf8.cont. by intros [H _]%andb_true_iff. Qed.

Lemma between_high (lo hi : N) (c : ascii) :
  (128 ≤ lo)%N → utf8.between lo hi c = true → (128 <=? code c)%N = true.
Proof.
  unfold utf8.between. intros Hlo [H _]%andb_true_iff.
  apply N.leb_le in H. apply N.leb_le. lia.
Qed.

(** A rune of several bytes is decoded from its own bytes, whatever
    follows them. *)
Lemma DecodeRune_multibyte (s : string) (rr : N) (size : nat) :
  utf8.DecodeRune s = (rr, size) → (2 ≤ size)%nat →
  ∃ c0 p, s = String c0 p ++ drop size s
          ∧ String.length (String c0 p) = size
          ∧ (128 ≤ code c0)%N ∧ highs p = true
          ∧ ∀ t, utf8.DecodeRune (String c0 p ++ t) = (rr, size).
Proof.
  unfold utf8.DecodeRune. destruct s as [|c0 r]; [intros [= <- <-]; lia|].
  cbv beta iota zeta.
  destruct (code c0 <? 128)%N eqn:E1; [intros [= <- <-]; lia|].
  destruct (code c0 <? 194)%N eqn:E2; [intros [= <- <-]; lia|].
  assert (H128 : (128 ≤ code c0)%N) by (by apply N.ltb_ge).
  destruct (code c0 <? 224)%N eqn:E3.
  { destruct r as [|c1 r1]; [intros [= <- <-]; lia|].
    destruct (utf8.cont c1) eqn:Ec; [|intros [= <- <-]; lia].
    intros [= <- <-] _. exists c0, (String c1 "").
    split; [done|]. split; [done|]. split; [done|].
    split; [simpl; by rewrite (cont_high _ Ec)|].
    intros t. change (String c0 (String c1 "") ++ t) with (String c0 (String c1 t)).
    cbv beta iota zeta. by rewrite E1, E2, E3, Ec. }
  destruct (code c0 <? 240)%N eqn:E4.
  { destruct r as [|c1 [|c2 r2]]; [intros [= <- <-]; lia..|].
    destruct (utf8.between _ _ c1) eqn:Eb; [|intros [= <- <-]; lia].
    destruct (utf8.cont c2) eqn:Ec; [|intros [= <- <-]; lia].
    intros [= <- <-] _. exists c0, (String c1 (String c2 "")).
    split; [done|]. split; [done|]. split; [done|].
    assert (Hlo : (128 ≤ (if (code c0 =? 224)%N then 160 else 128))%N)
      by (destruct (code c0 =? 224)%N; lia).
    split; [simpl; by rewrite (cont_high _ Ec), (between_high _ _ _ Hlo Eb)|].
    intros t. change (String c0 (String c1 (String c2 "")) ++ t)
      with (String c0 (String c1 (String c2 t))).
    cbv beta iota zeta. by rewrite E1, E2, E3, E4, Eb, Ec. }
  destruct (code c0 <? 245)%N eqn:E5; [|intros [= <- <-]; lia].
  destruct r as [|c1 [|c2 [|c3 r3]]]; [intros [= <- <-]; lia..|].
  destruct (utf8.between _ _ c1) eqn:Eb; [|intros [= <- <-]; lia].
  destruct (utf8.cont c2) eqn:Ec2; [|intros [= <- <-]; lia].
  destruct (utf8.cont c3) eqn:Ec3; [|intros [= <- <-]; lia].
  intros [= <- <-] _. exists c0, (String c1 (String c2 (String c3 ""))).
  split; [done|]. split; [done|]. split; [done|].
  assert (Hlo : (128 ≤ (if (code c0 =? 240)%N then 144 else 128))%N)
    by (destruct (code c0 =? 240)%N; lia).
  split; [simpl; by rewrite (cont_high _ Ec2), (cont_high _ Ec3),
                    (between_high _ _ _ Hlo Eb)|].
  intros t. change (String c0 (String c1 (String c2 (String c3 ""))) ++ t)
    with (String c0 (String c1 (String c2 (String c3 t)))).
  cbv beta iota zeta. by rewrite E1, E2, E3, E4, E5, Eb, Ec2, Ec3.
Qed.

(** The decoder returns the width 1 with [RuneError], or a width of 2 to 4,
    for a string that starts with a byte outside ASCII. *)
Lemma DecodeRune_width (c0 : ascii) (r : string) (rr : N) (size : nat) :
  (128 ≤ code c0)%N → utf8.DecodeRune (String c0 r) = (rr, size) →
  (rr = utf8.RuneError ∧ size = 1%nat) ∨ (2 ≤ size ≤ 4)%nat.
Proof.
  intros H128. unfold utf8.DecodeRune. cbv beta iota zeta.
  assert (E1 : (code c0 <? 128)%N = false) by (by apply N.ltb_ge).
  rewrite E1.
  repeat match goal with
         | |- context [if ?b then _ else _] => destruct b
         | |- context [match ?x with "" => _ | String _ _ => _ end] => destruct x
         end; intros [= <- <-]; (by left) || (right; lia).
Qed.

Lemma drop_length (k : nat) (s : string) :
  String.length (drop k s) = (String.length s - k)%nat.
Proof.
  revert s. induction k as [|k IH]; intros s; [simpl; lia|].
  destruct s as [|a s]; [done|]. simpl. apply IH.
Qed.

Lemma not_ascii_scan (c0 : ascii) :
  (128 ≤ code c0)%N →
  Ascii.eqb c0 dquote = false ∧ Ascii.eqb c0 "\" = false
  ∧ (code c0 <? 32)%N = false ∧ (code c0 <? 128)%N = false.
Proof.
  intros H. repeat split.
  - apply Ascii.eqb_neq. intros ->. vm_compute in H. done.
  - apply Ascii.eqb_neq. intros ->. vm_compute in H. done.
  - apply N.ltb_ge. lia.
  - apply N.ltb_ge. lia.
Qed.

(** The scanner on the text the encoder writes for any string. *)
Lemma scan_encodeBody_any (n : nat) :
  ∀ s fuel rest,
    (String.length s ≤ n)%nat →
    (String.length (encodeBody n s) < fuel)%nat →
    ∃ t, scan_string fuel (encodeBody n s ++ String dquote rest) = Some (t, rest).
Proof.
  induction n as [|n IH]; intros s fuel rest Hn Hfuel.
  { destruct s; [|simpl in Hn; lia]. destruct fuel as [|fuel]; [simpl in Hfuel; lia|].
    by exists "". }
  destruct s as [|c r].
  { destruct fuel as [|fuel]; [simpl in Hfuel; lia|]. by exists "". }
  cbn [encodeBody] in *. simpl in Hn.
  destruct (code c <? 128)%N eqn:Ec.
  - (* an ASCII byte *)
    pose proof (escapeByte_length c).
    rewrite string_app_length in Hfuel.
    destruct fuel as [|fuel]; [lia|].
    rewrite string_app_assoc, scan_escapeByte by done.
    destruct (IH r fuel rest) as [t Ht]; [lia|lia|].
    rewrite Ht. by eexists.
  - apply N.ltb_ge in Ec.
    destruct (utf8.DecodeRune (String c r)) as [rr size] eqn:Hdec.
    destruct (DecodeRune_width c r rr size Ec Hdec) as [[-> ->]|Hsize].
    + (* a byte that starts no rune *)
      replace ((utf8.RuneError =? utf8.RuneError)%N && (1 =? 1)%nat) with true in * by done.
      change (drop 1 (String c r)) with r in *.
      rewrite string_app_length in Hfuel. simpl in Hfuel.
      destruct fuel as [|fuel]; [lia|].
      destruct (IH r fuel rest) as [t Ht]; [lia|lia|].
      exists (utf8.EncodeRune utf8.RuneError ++ t).
      rewrite string_app_assoc.
      change (scan_string (S fuel) ("\ufffd" ++ encodeBody n r ++ String dquote rest))
        with (match scan_string fuel (encodeBody n r ++ String dquote rest) with
              | Some (t, r0) => Some (utf8.EncodeRune utf8.RuneError ++ t, r0)
              | None => None
              end).
      by rewrite Ht.
    + destruct (DecodeRune_multibyte _ rr size Hdec ltac:(lia)) as (c0 & p & Heq & Hlen & H128 & _ & Hany).
      assert (Hne : ((rr =? utf8.RuneError)%N && (size =? 1)%nat) = false).
      { apply andb_false_iff. right. apply Nat.eqb_neq. lia. }
      rewrite Hne in *.
      assert (Hdrop : (String.length (drop size (String c r)) ≤ n)%nat).
      { rewrite drop_length. simpl. lia. }
      destruct fuel as [|fuel]; [lia|].
      destruct ((rr =? 8232)%N || (rr =? 8233)%N) eqn:Hsep.
      * (* U+2028 and U+2029 are written as escapes *)
        assert (Hr : rr = 8232%N ∨ rr = 8233%N).
        { apply orb_true_iff in Hsep as [?%N.eqb_eq|?%N.eqb_eq]; auto. }
        rewrite !string_app_length in Hfuel.
        destruct (IH (drop size (String c r)) fuel rest Hdrop) as [t Ht].
        { destruct Hr as [-> | ->]; simpl in Hfuel; lia. }
        exists (utf8.EncodeRune rr ++ t). rewrite !string_app_assoc.
        destruct Hr as [-> | ->].
        -- change (scan_string (S fuel)
                     ("\u202" ++ String (hexDigit (8232 mod 16)) ""
                      ++ encodeBody n (drop size (String c r)) ++ String dquote rest))
             with (match scan_string fuel
                           (encodeBody n (drop size (String c r)) ++ String dquote rest) with
                   | Some (t, r0) => Some (utf8.EncodeRune 8232 ++ t, r0)
                   | None => None
                   end).
           by rewrite Ht.
        -- change (scan_string (S fuel)
                     ("\u202" ++ String (hexDigit (8233 mod 16)) ""
                      ++ encodeBody n (drop size (String c r)) ++ String dquote rest))
             with (match scan_string fuel
                           (encodeBody n (drop size (String c r)) ++ String dquote rest) with
                   | Some (t, r0) => Some (utf8.EncodeRune 8233 ++ t, r0)
                   | None => None
                   end).
           by rewrite Ht.
      * (* the bytes of the rune are copied *)
        assert (Hsub : String.substring 0 size (String c r) = String c0 p).
        { rewrite Heq at 1. rewrite <- Hlen. apply substring_app_length. }
        rewrite Hsub in *. rewrite string_app_length in Hfuel.
        destruct (IH (drop size (String c r)) fuel rest Hdrop) as [t Ht].
        { rewrite Hlen in Hfuel. lia. }
        exists (utf8.EncodeRune rr ++ t). rewrite string_app_assoc.
        destruct (not_ascii_scan c0 H128) as (Hq & Hb & H32 & H128').
        rewrite string_app_cons. cbn [scan_string].
        rewrite Hq, Hb, H32, H128'. rewrite <- string_app_cons, Hany.
        assert (Hd : ∀ tail, drop size (String c0 p ++ tail) = tail).
        { intros tail. rewrite <- Hlen. apply drop_app_length. }
        rewrite Hd. by rewrite Ht.
Qed.

(** The scanner reads the text of a quoted string as one string. *)
Lemma scan_value_encodeString (s : string) (d : Z) (fuel : nat) (rest : string) :
  ∃ t, scan_value (S fuel) d (encodeString s ++ rest) = Some (JString t, rest)
       ∧ clean t ∧ (clean s → t = s).
Proof.
  unfold encodeString. rewrite string_app_cons, string_app_assoc.
  rewrite string_app_cons, string_app_nil_l.
  cbn [scan_value]. rewrite skip_ws_start by done.
  replace (Ascii.eqb dquote "{") with false by done.
  replace (Ascii.eqb dquote "[") with false by done.
  rewrite Ascii.eqb_refl.
  set (body := encodeBody (String.length s) s).
  destruct (scan_encodeBody_any (String.length s) s
              (String.length (body ++ String dquote rest)) rest) as [t Ht]; [lia| |].
  { rewrite string_app_length. simpl. fold body. lia. }
  fold body in Ht. rewrite Ht. exists t. split; [done|].
  split; [by apply scan_string_clean in Ht|].
  intros Hs. unfold body in Ht. rewrite scan_encodeBody in Ht; [congruence|done|lia|].
  rewrite string_app_length. simpl. lia.
Qed.

Lemma Unmarshal_encodeString (s : string) :
  ∃ t, Unmarshal (encodeString s) = Some (VString t) ∧ clean t ∧ (clean s → t = s).
Proof.
  destruct (scan_value_encodeString s 0 (String.length (encodeString s)) "")
    as (t & Ht & Hc & Hs).
  rewrite string_app_nil_r in Ht.
  exists t. split; [|done]. unfold Unmarshal, parse. by rewrite Ht.
Qed.

(** ** Trimming a quoted string *)

Lemma rev_app_app (s t u : string) :
  String.rev_app (s ++ t) u = String.rev_app t (String.rev_app s u).
Proof.
  revert u. induction s as [|a s IH]; intros u; [done|].
  rewrite string_app_cons. simpl. apply IH.
Qed.

Lemma rev_app_rev_app (s t u : string) :
  String.rev_app (String.rev_app s t) u = String.rev_app t (s ++ u).
Proof.
  revert t. induction s as [|a s IH]; intros t; [done|].
  simpl. rewrite IH. by rewrite string_app_cons.
Qed.

Lemma rev_involutive (s : string) : String.rev (String.rev s) = s.
Proof. unfold String.rev. by rewrite rev_app_rev_app, string_app_nil_r. Qed.

Lemma rev_snoc (s : string) (c : ascii) :
  String.rev (s ++ String c "") = String c (String.rev s).
Proof. unfold String.rev. by rewrite rev_app_app. Qed.

Lemma spaceWidth_quote (r : string) : spaceWidth (String dquote r) = 0%nat.
Proof. reflexivity. Qed.

Lemma spaceWidth_two_quote (d1 : ascii) :
  (spaceWidth (String d1 (String dquote "")) =? 2)%nat = false.
Proof. destruct d1 as [[] [] [] [] [] [] [] []]; reflexivity. Qed.

Lemma spaceWidth_three_quote (d0 d1 : ascii) :
  (spaceWidth (String d0 (String d1 (String dquote ""))) =? 3)%nat = false.
Proof.
  destruct d0 as [[] [] [] [] [] [] [] []]; try reflexivity;
    destruct d1 as [[] [] [] [] [] [] [] []]; reflexivity.
Qed.

Lemma spaceWidthRev_quote (r : string) : spaceWidthRev (String dquote r) = 0%nat.
Proof.
  unfold spaceWidthRev.
  replace (asciiSpace dquote) with false by done.
  destruct r as [|d1 [|d0 r]]; [done| |].
  - by rewrite spaceWidth_two_quote.
  - by rewrite spaceWidth_two_quote, spaceWidth_three_quote.
Qed.

(** White space is trimmed from neither end of a text that starts and
    ends with a double quote. *)
Lemma TrimSpace_quoted (body : string) :
  strings.TrimSpace (String dquote (body ++ String dquote ""))
  = String dquote (body ++ String dquote "").
Proof.
  unfold strings.TrimSpace.
  assert (HL : strings.TrimLeft (String dquote (body ++ String dquote ""))
               = String dquote (body ++ String dquote "")).
  { unfold strings.TrimLeft. simpl String.length. cbn [trimLeft_go].
    by rewrite spaceWidth_quote. }
  rewrite HL. unfold strings.TrimRight.
  rewrite <- string_app_cons, rev_snoc.
  rewrite string_app_length. rewrite Nat.add_comm. simpl String.length.
  cbn [Nat.add trimRight_go]. rewrite spaceWidthRev_quote.
  by rewrite <- rev_snoc, rev_involutive.
Qed.

Lemma TrimSpace_encodeString (s : string) :
  strings.TrimSpace (encodeString s) = encodeString s.
Proof. apply TrimSpace_quoted. Qed.

Lemma Valid_encodeString (s : string) : Valid (encodeString s) = true.
Proof.
  destruct (Unmarshal_encodeString s) as (t & Ht & _).
  unfold Unmarshal in Ht. unfold Valid. by destruct (parse (encodeString s)).
Qed.

(** X18. [mustQuote] always gives a valid JSON text that decodes to a
    string of valid UTF-8, and [parseJSONIfString] turns the quoted text
    into that string.  When the argument is valid UTF-8 the string decoded
    is the argument itself. *)
Theorem mustQuote_round_trip (s : string) :
  Valid (mustQuote s) = true
  ∧ (∃ t, Unmarshal (mustQuote s) = Some (VString t) ∧ clean t
          ∧ parseJSONIfString (VString (mustQuote s)) = VString t)
  ∧ (clean s →
     Unmarshal (mustQuote s) = Some (VString s)
     ∧ parseJSONIfString (VString (mustQuote s)) = VString s).
Proof.
  unfold mustQuote.
  assert (Hp : ∀ t, Unmarshal (encodeString s) = Some (VString t) →
               parseJSONIfString (VString (encodeString s)) = VString t).
  { intros t Ht. unfold parseJSONIfString, mustUnmarshalAny.
    by rewrite TrimSpace_encodeString, Valid_encodeString, Ht. }
  destruct (Unmarshal_encodeString s) as (t & Ht & Hc & Hs).
  split; [apply Valid_encodeString|]. split.
  - exists t. split; [done|]. split; [done|]. by apply Hp.
  - intros Hclean. rewrite (Hs Hclean) in Ht. split; [done|]. by apply Hp.
Qed.

Lemma mustQuote_round_trip_witness :
  clean "say <hi>"
  ∧ mustQuote "say <hi>" = q ++ "say \u003chi\u003e" ++ q
  ∧ Unmarshal (mustQuote "say <hi>") = Some (VString "say <hi>")
  ∧ parseJSONIfString (VString (mustQuote "say <hi>")) = VString "say <hi>".
Proof.
  assert (H : clean "say <hi>") by (apply clean_allASCII; reflexivity).
  destruct (mustQuote_round_trip "say <hi>") as (_ & _ & H3).
  split; [exact H|]. split; [vm_compute; reflexivity|]. exact (H3 H).
Defined.

(** ** Values in a text line *)

(** X19. [formatTextValue] writes a string as it is when its trimmed text is
    valid JSON, and quoted otherwise.  The quoted text is valid JSON; a
    string written as it is need not be, since [strings.TrimSpace] removes
    white space that JSON does not know, such as a vertical tab: only its
    trimmed text is valid JSON.  Formatting the result again changes
    nothing.  In a text line the trailing error is formatted as a string, so
    an error whose text is valid JSON is written without quotes. *)
Theorem formatTextValue_string (lib : golib) (x : string) :
  let out := formatTextValue lib (VString x) in
  Valid (strings.TrimSpace out) = true
  ∧ formatTextValue lib (VString out) = out
  ∧ (Valid (strings.TrimSpace x) = true → out = x)
  ∧ (Valid (strings.TrimSpace x) = false → out = mustQuote x ∧ Valid out = true)
  ∧ (map_range lib ∅ = [] →
     ∀ ts lv caller m,
       buildTextLine lib ts lv caller [m; VError x]
       = ts ++ " " ++ Level_String lv ++ " " ++ caller ++ " " ++ fmt_Sprint lib m
         ++ " err=" ++ out).
Proof.
  intros out. unfold out. cbn [formatTextValue].
  assert (Hline : map_range lib ∅ = [] →
     ∀ ts lv caller m,
       buildTextLine lib ts lv caller [m; VError x]
       = ts ++ " " ++ Level_String lv ++ " " ++ caller ++ " " ++ fmt_Sprint lib m
         ++ " err=" ++ formatTextValue lib (VString x)).
  { intros Hrange ts lv caller m. unfold buildTextLine.
    change (parseArgs [m; VError x])
      with {| msg := m; fields := ∅; dataJSON := []; errField := Some x; extra := [] |}.
    cbn [msg fields dataJSON errField extra]. rewrite Hrange.
    cbn [List.map String.concat]. by rewrite !string_app_nil_r, string_app_nil_l. }
  cbn [formatTextValue] in Hline.
  destruct (Valid (strings.TrimSpace x)) eqn:Hx.
  - rewrite Hx. by repeat split.
  - unfold mustQuote in *. rewrite TrimSpace_encodeString, Valid_encodeString.
    by repeat split.
Qed.

Lemma formatTextValue_string_witness :
  let vt := String (byte 11) "{}" in
  (Valid (strings.TrimSpace vt) = true
   ∧ formatTextValue sample_lib (VString vt) = vt
   ∧ Valid vt = false)
  ∧ (Valid (strings.TrimSpace "a b") = false
     ∧ formatTextValue sample_lib (VString "a b") = mustQuote "a b"
     ∧ Valid (mustQuote "a b") = true)
  ∧ (map_range sample_lib ∅ = []
     ∧ buildTextLine sample_lib "t" ERROR "main.go:1" [VString "m"; VError "404"]
       = "t ERROR main.go:1 " ++ fmt_Sprint sample_lib (VString "m") ++ " err=404").
Proof.
  intros vt.
  assert (H1 : Valid (strings.TrimSpace vt) = true) by (vm_compute; reflexivity).
  assert (H2 : Valid (strings.TrimSpace "a b") = false) by (vm_compute; reflexivity).
  assert (H3 : Valid (strings.TrimSpace "404") = true) by (vm_compute; reflexivity).
  assert (H4 : map_range sample_lib ∅ = []) by reflexivity.
  destruct (formatTextValue_string sample_lib vt) as (_ & _ & Ha & _).
  destruct (formatTextValue_string sample_lib "a b") as (_ & _ & _ & Hb & _).
  destruct (formatTextValue_string sample_lib "404") as (_ & _ & Hc & _ & Hd).
  split; [split; [exact H1|split; [exact (Ha H1)|vm_compute; reflexivity]]|].
  split; [split; [exact H2|exact (Hb H2)]|].
  split; [exact H4|].
  rewrite (Hd H4 "t" ERROR "main.go:1" (VString "m")), (Hc H3). reflexivity.
Defined.

(** ** Lines that are valid JSON *)

Lemma encodable_slice lib l :
  encodable lib (VSlice l) ↔ Forall (encodable lib) l.
Proof.
  simpl. induction l as [|x l IH].
  { split; [constructor|done]. }
  rewrite Forall_cons, <- IH. done.
Qed.

Lemma encodable_map lib m :
  encodable lib (VMap m) ↔ Forall (λ kv, encodable lib kv.2) m.
Proof.
  simpl. induction m as [|x m IH].
  { split; [constructor|done]. }
  rewrite Forall_cons, <- IH. done.
Qed.

Lemma reads_back_scans d x out : reads_back d x out → scans d out.
Proof.
  intros [Hs H]. split; [done|]. intros fuel rest Hf Ht.
  destruct (H fuel rest Hf Ht) as (t & Hscan & _). by exists t.
Qed.

Lemma scans_string d s : scans d (encodeString s).
Proof.
  split; [starts|]. intros [|fuel] rest Hf _; [simpl in Hf; lia|].
  destruct (scan_value_encodeString s d fuel rest) as (t & Ht & _). by exists (JString t).
Qed.

(** A number literal is scanned as a number. *)
Lemma scans_number d out n : number_text out = Some n → scans d out.
Proof.
  intros Htext. unfold number_text in Htext.
  destruct (scan_number out) as [[n' [|? ?]]|] eqn:Hscan; [|done..].
  simplify_eq.
  destruct out as [|c r]; [done|].
  assert (Hc : Ascii.eqb c "-" || isDigit c = true).
  { unfold scan_number in Hscan.
    destruct (Ascii.eqb_spec c "-") as [->|Hne]; [done|]. simpl.
    assert (Hi : scan_int (String c r) ≠ None).
    { intros Hi. destruct c as [[] [] [] [] [] [] [] []]; try done;
        by rewrite Hi in Hscan. }
    unfold scan_int in Hi. by destruct (isDigit c). }
  split.
  - exists c, r. split; [done|].
    destruct c as [[] [] [] [] [] [] [] []]; try discriminate Hc; by repeat split.
  - intros [|fuel] rest Hf Hterm; [simpl in Hf; lia|].
    exists (JNumber n).
    pose proof (scan_number_app _ _ _ rest Hscan (terminated_stops _ Hterm)) as Happ.
    rewrite string_app_nil_l in Happ.
    rewrite string_app_cons in *. cbn [scan_value].
    assert (Hws : isSpace c = false).
    { destruct c as [[] [] [] [] [] [] [] []]; try discriminate Hc; done. }
    rewrite (skip_ws_start _ _ Hws).
    assert (H1 : Ascii.eqb c "{" = false).
    { destruct c as [[] [] [] [] [] [] [] []]; try discriminate Hc; done. }
    assert (H2 : Ascii.eqb c "[" = false).
    { destruct c as [[] [] [] [] [] [] [] []]; try discriminate Hc; done. }
    assert (H3 : Ascii.eqb c dquote = false).
    { destruct c as [[] [] [] [] [] [] [] []]; try discriminate Hc; done. }
    by rewrite H1, H2, H3, Hc, Happ.
Qed.

(** *** Integers *)

Lemma nzhead_not_D0 (d u : Decimal.uint) : Decimal.nzhead d ≠ Decimal.D0 u.
Proof. induction d; simpl; try discriminate. exact IHd. Qed.

Lemma to_uint_unorm (p : positive) : Decimal.unorm (Pos.to_uint p) = Pos.to_uint p.
Proof.
  rewrite <- (DecimalPos.Unsigned.to_of (Pos.to_uint p)).
  by rewrite DecimalPos.Unsigned.of_to.
Qed.

Lemma to_uint_head (p : positive) :
  ∃ c r, DecimalString.NilEmpty.string_of_uint (Pos.to_uint p) = String c r
         ∧ isDigit c = true ∧ Ascii.eqb c "0" = false.
Proof.
  pose proof (to_uint_unorm p) as Hn.
  pose proof (DecimalPos.Unsigned.to_uint_nonnil p) as Hnil.
  pose proof (DecimalPos.Unsigned.to_uint_nonzero p) as Hzero.
  destruct (Pos.to_uint p) as [|d|d|d|d|d|d|d|d|d|d]; [done| |by eexists _, _..].
  exfalso. unfold Decimal.unorm in Hn. simpl in Hn.
  destruct (Decimal.nzhead d) eqn:E; try discriminate Hn.
  - injection Hn as <-. done.
  - by apply nzhead_not_D0 in E.
Qed.

Lemma digits_string_of_uint (d : Decimal.uint) :
  ∀ acc k, ∃ a k', digits (DecimalString.NilEmpty.string_of_uint d) acc k = (a, k', "").
Proof.
  induction d; intros acc k; simpl; try apply IHd. by eexists _, _.
Qed.

Lemma scan_number_to_uint (p : positive) :
  ∃ a, scan_number (DecimalString.NilEmpty.string_of_uint (Pos.to_uint p))
       = Some (Number false a 0, "")
       ∧ scan_number (String "-" (DecimalString.NilEmpty.string_of_uint (Pos.to_uint p)))
         = Some (Number true a 0, "").
Proof.
  destruct (to_uint_head p) as (c & r & Heq & Hd & Hz).
  destruct (digits_string_of_uint (Pos.to_uint p) 0 0) as (a & k & Hdig).
  rewrite Heq in *.
  assert (Hint : scan_int (String c r) = Some (a, "")).
  { unfold scan_int. by rewrite Hd, Hz, Hdig. }
  assert (Hminus : Ascii.eqb c "-" = false).
  { destruct c as [[] [] [] [] [] [] [] []]; try discriminate Hd; done. }
  exists a. split.
  - unfold scan_number.
    assert (Hs : match String c r with
                 | String "-" r0 => (true, r0)
                 | _ => (false, String c r)
                 end = (false, String c r)).
    { destruct c as [[] [] [] [] [] [] [] []]; try discriminate Hminus; done. }
    rewrite Hs, Hint. reflexivity.
  - unfold scan_number. cbv iota beta. rewrite Hint. reflexivity.
Qed.

Lemma string_of_uint_pos (p : positive) :
  DecimalString.NilZero.string_of_uint (Pos.to_uint p)
  = DecimalString.NilEmpty.string_of_uint (Pos.to_uint p).
Proof.
  pose proof (DecimalPos.Unsigned.to_uint_nonnil p) as Hnil.
  by destruct (Pos.to_uint p).
Qed.

Lemma number_text_Itoa (n : Z) : is_Some (number_text (strconv.Itoa n)).
Proof.
  unfold number_text, strconv.Itoa. destruct n as [|p|p].
  - by eexists.
  - destruct (scan_number_to_uint p) as (a & Ha & _).
    change (DecimalString.NilZero.string_of_int (Z.to_int (Z.pos p)))
      with (DecimalString.NilZero.string_of_uint (Pos.to_uint p)).
    rewrite string_of_uint_pos, Ha. by eexists.
  - destruct (scan_number_to_uint p) as (a & _ & Ha).
    change (DecimalString.NilZero.string_of_int (Z.to_int (Z.neg p)))
      with (String "-" (DecimalString.NilZero.string_of_uint (Pos.to_uint p))).
    rewrite string_of_uint_pos, Ha. by eexists.
Qed.

(** *** Arrays and objects *)

Lemma array_rest_scans (d : Z) (outs : list string) :
  Forall (scans d) outs →
  ∀ fuel acc rest,
    (String.length (String.concat "" (List.map (λ o, "," ++ o) outs)) < fuel)%nat →
    ∃ ts,
      array_rest fuel d
        (String.concat "" (List.map (λ o, "," ++ o) outs) ++ String "]" rest) acc
      = Some (ts, rest).
Proof.
  induction 1 as [|o outs [_ Hx] Hxs IH]; intros fuel acc rest Hf.
  - destruct fuel as [|fuel]; [simpl in Hf; lia|].
    exists acc. cbn [List.map String.concat]. by rewrite string_app_nil_l, array_rest_close.
  - cbn [List.map] in *. rewrite concat_cons in *.
    rewrite !string_app_length in Hf. simpl in Hf.
    destruct fuel as [|fuel]; [lia|].
    rewrite !string_app_assoc. rewrite string_app_cons, string_app_nil_l.
    rewrite array_rest_comma.
    destruct (Hx fuel (String.concat "" (List.map (λ o, "," ++ o) outs) ++ String "]" rest))
      as (t & Ht); [lia|by apply terminated_tail; left|].
    rewrite Ht. apply IH. lia.
Qed.

Lemma memberText_length (ko : string * string) :
  String.length (memberText ko) =
  (3 + String.length (encodeBody (String.length ko.1) ko.1) + String.length ko.2)%nat.
Proof.
  unfold memberText. rewrite !string_app_length, encodeString_length. simpl. lia.
Qed.

Lemma scan_key (k tail : string) :
  ∃ t, scan_string (String.length (encodeBody (String.length k) k ++ String dquote tail))
         (encodeBody (String.length k) k ++ String dquote tail) = Some (t, tail).
Proof.
  apply scan_encodeBody_any; [lia|]. rewrite string_app_length. simpl. lia.
Qed.

Lemma object_rest_scans (d : Z) (kos : list (string * string)) :
  Forall (λ ko, scans d ko.2) kos →
  ∀ ko0 fuel acc rest,
    scans d ko0.2 →
    (String.length
       (memberText ko0
        ++ String.concat "" (List.map (λ o, "," ++ o) (List.map memberText kos)))
     < fuel)%nat →
    ∃ kts,
      object_rest fuel d
        (memberText ko0
         ++ String.concat "" (List.map (λ o, "," ++ o) (List.map memberText kos))
         ++ String "}" rest) acc
      = Some (kts, rest).
Proof.
  induction 1 as [|ko1 kos Hx1 Hm IH];
    intros [k0 o0] fuel acc rest [_ Hx0] Hf; simpl in Hx0.
  - cbn [List.map String.concat] in *.
    rewrite string_app_nil_r in Hf. rewrite memberText_length in Hf. simpl in Hf.
    destruct fuel as [|fuel]; [lia|].
    unfold memberText, encodeString. simpl fst. simpl snd. norm_app.
    rewrite object_rest_key.
    destruct (scan_key k0 (String ":" (o0 ++ String "}" rest))) as [t0 Hk]. rewrite Hk.
    rewrite skip_ws_start by done.
    destruct (Hx0 fuel (String "}" rest)) as (t & Ht);
      [lia|apply terminated_brace|].
    rewrite Ht. rewrite skip_ws_start by done. by eexists.
  - cbn [List.map] in *. rewrite concat_cons in *.
    rewrite !string_app_length, !memberText_length in Hf. simpl in Hf.
    destruct fuel as [|fuel]; [lia|].
    set (tail := String.concat "" (List.map (λ o, "," ++ o) (List.map memberText kos))) in *.
    assert (Htext :
      memberText (k0, o0) ++ (("," ++ memberText ko1) ++ tail) ++ String "}" rest
      = String dquote (encodeBody (String.length k0) k0
          ++ String dquote (String ":" (o0 ++ String ","
               (memberText ko1 ++ tail ++ String "}" rest))))).
    { unfold memberText at 1. unfold encodeString. simpl fst. simpl snd. by norm_app. }
    rewrite Htext, object_rest_key.
    destruct (scan_key k0 (String ":" (o0 ++ String ","
                (memberText ko1 ++ tail ++ String "}" rest)))) as [t0 Hk].
    rewrite Hk. rewrite skip_ws_start by done.
    destruct (Hx0 fuel (String "," (memberText ko1 ++ tail ++ String "}" rest)))
      as (t & Ht); [lia|apply terminated_comma|].
    rewrite Ht. rewrite skip_ws_start by done.
    apply IH; [done|]. rewrite string_app_length, memberText_length. fold tail. lia.
Qed.

(** The text of an array from the texts of its elements. *)
Lemma scans_array (d : Z) (outs : list string) :
  (maxNestingDepth <? d + 1) = false → Forall (scans (d + 1)) outs →
  scans d ("[" ++ join "," outs ++ "]").
Proof.
  intros Hmax Hall. split; [starts|].
  intros fuel rest Hf Hterm.
  destruct fuel as [|fuel]; [simpl in Hf; lia|].
  destruct Hall as [|o1 os [Hs1 Hx1] Hall].
  - exists (JArray []).
    change (("[" ++ join "," [] ++ "]") ++ rest) with (String "[" (String "]" rest)).
    by apply scan_value_array_empty.
  - rewrite join_cons in *.
    rewrite !string_app_length in Hf. simpl in Hf.
    set (tail := String.concat "" (List.map (λ y, "," ++ y) os)) in *.
    assert (Htext : ("[" ++ (o1 ++ tail) ++ "]") ++ rest
                    = String "[" (o1 ++ tail ++ String "]" rest)).
    { by norm_app. }
    rewrite Htext. rewrite scan_value_array_cons; [|done|].
    2:{ destruct Hs1 as (c & r & -> & Hws & Hc & _). intros r'.
        rewrite string_app_cons, skip_ws_start by done. congruence. }
    destruct (Hx1 fuel (tail ++ String "]" rest)) as (t1 & Ht1);
      [lia|by apply terminated_tail; left|].
    rewrite Ht1.
    destruct (array_rest_scans (d + 1) os Hall fuel [t1] rest) as (ts & Hts);
      [fold tail; lia|].
    fold tail in Hts. rewrite Hts. by eexists.
Qed.

(** The text of an object from its keys and the texts of its values. *)
Lemma scans_object (d : Z) (kos : list (string * string)) :
  (maxNestingDepth <? d + 1) = false → Forall (λ ko, scans (d + 1) ko.2) kos →
  scans d ("{" ++ join "," (List.map memberText kos) ++ "}").
Proof.
  intros Hmax Hall. split; [starts|].
  intros fuel rest Hf Hterm.
  destruct fuel as [|fuel]; [simpl in Hf; lia|].
  destruct Hall as [|ko0 kos Hx0 Hall].
  - exists (JObject []).
    change (("{" ++ join "," (List.map memberText []) ++ "}") ++ rest)
      with (String "{" (String "}" rest)).
    by apply scan_value_object_empty.
  - cbn [List.map] in *. rewrite join_cons in *.
    rewrite !string_app_length in Hf.
    change (String.length "{") with 1%nat in Hf.
    change (String.length "}") with 1%nat in Hf.
    set (tail := String.concat "" (List.map (λ y, "," ++ y) (List.map memberText kos))) in *.
    assert (Htext : ("{" ++ (memberText ko0 ++ tail) ++ "}") ++ rest
                    = String "{" (memberText ko0 ++ tail ++ String "}" rest)).
    { by norm_app. }
    rewrite Htext. rewrite scan_value_object_cons; [|done|].
    2:{ intros r'. unfold memberText, encodeString.
        rewrite !string_app_cons, skip_ws_start by done. by intros [=]. }
    destruct (object_rest_scans (d + 1) kos Hall ko0 fuel [] rest Hx0) as (kts & Hkts);
      [fold tail; rewrite string_app_length; lia|].
    fold tail in Hkts. rewrite Hkts. by eexists.
Qed.

(** *** The encoder *)

Lemma all_some_ok {A} (P : A → Prop) (l : list (option A)) :
  Forall (λ o, ∃ x, o = Some x ∧ P x) l →
  ∃ xs, all_some l = Some xs ∧ Forall P xs ∧ length xs = length l.
Proof.
  induction 1 as [|o l (x & -> & Hx) _ (xs & Hxs & HP & Hlen)].
  - by exists [].
  - exists (x :: xs). simpl. rewrite Hxs. split; [done|].
    split; [by constructor|]. by rewrite Hlen.
Qed.

Lemma Marshal_scans (lib : golib) (x : value) :
  encodable lib x →
  ∀ d, 0 ≤ d → d + vdepth x ≤ maxNestingDepth →
  ∃ out, Marshal lib x = Some out ∧ scans d out.
Proof.
  induction x as [ |b|n|f|s|e|l IH|m IH|o] using value_ind';
    intros Henc d Hd Hdepth; try done.
  - exists "null". split; [done|]. apply (reads_back_scans d VNil), reads_back_null.
  - exists (if b then "true" else "false").
    split; [by destruct b|]. apply (reads_back_scans d (VBool b)), reads_back_bool.
  - exists (strconv.Itoa n). split; [done|].
    destruct (number_text_Itoa n) as [num Hnum]. by apply (scans_number d _ num).
  - exists (format_float lib f). split; [done|].
    destruct Henc as [num Hnum]. by apply (scans_number d _ num).
  - exists (encodeString s). split; [done|apply scans_string].
  - (* a slice *)
    apply encodable_slice in Henc. rewrite vdepth_slice in Hdepth.
    pose proof (vdepths_nonneg l) as Hnn.
    assert (Hmax : (maxNestingDepth <? d + 1) = false) by (apply Z.ltb_ge; lia).
    assert (Houts : ∃ outs, Forall2 (λ x o, Marshal lib x = Some o) l outs
                            ∧ Forall (scans (d + 1)) outs).
    { assert (Hdl : Forall (λ x, vdepth x ≤ maxNestingDepth - (d + 1)) l).
      { apply vdepths_le; lia. }
      clear Hdepth Hnn. induction l as [|x l IHl]; [by exists []|].
      apply Forall_cons in IH as [IHx IH]. apply Forall_cons in Henc as [Hx Henc].
      apply Forall_cons in Hdl as [Hdx Hdl].
      destruct (IHl IH Henc Hdl) as (outs & H1 & H2).
      destruct (IHx Hx (d + 1)) as (o & Ho & Hrb); [lia|lia|].
      exists (o :: outs). split; by constructor. }
    destruct Houts as (outs & Hm & Hrb).
    exists ("[" ++ join "," outs ++ "]"). split.
    { rewrite Marshal_slice. apply all_some_Forall2 in Hm. by rewrite Hm. }
    by apply scans_array.
  - (* a map *)
    apply encodable_map in Henc. rewrite vdepth_map in Hdepth.
    pose proof (vdepths_nonneg (List.map snd m)) as Hnn.
    assert (Hmax : (maxNestingDepth <? d + 1) = false) by (apply Z.ltb_ge; lia).
    set (enc := List.map (λ kv : string * value, (kv.1, Marshal lib kv.2)) m).
    assert (Henc' : Forall (λ ko : string * option string,
                              ∃ x, ko.2 = Some x ∧ scans (d + 1) x) enc).
    { assert (Hdl : Forall (λ x, vdepth x ≤ maxNestingDepth - (d + 1)) (List.map snd m)).
      { apply vdepths_le; lia. }
      unfold enc. clear Hdepth Hnn enc. induction m as [|kv m IHm]; [constructor|].
      apply Forall_cons in IH as [IHx IH]. apply Forall_cons in Henc as [Hx Henc].
      simpl in Hdl. apply Forall_cons in Hdl as [Hdx Hdl].
      simpl. constructor; [|by apply IHm].
      destruct (IHx Hx (d + 1)) as (o & Ho & Hrb); [lia|lia|]. by exists o. }
    set (sorted := merge_sort key_le enc).
    assert (Hsorted : Forall (λ ko : string * option string,
                                ∃ x, ko.2 = Some x ∧ scans (d + 1) x) sorted).
    { apply Forall_forall. intros ko Hko.
      apply (proj1 (Forall_forall _ _) Henc').
      unfold sorted in Hko. by rewrite merge_sort_Permutation in Hko. }
    destruct (all_some_ok (scans (d + 1)) (List.map snd sorted)) as (xs & Hxs & Hall & _).
    { apply Forall_forall. intros o Ho.
      apply list_elem_of_fmap in Ho as (ko & -> & Hko).
      by apply (proj1 (Forall_forall _ _) Hsorted). }
    exists ("{" ++ join "," (List.map memberText (zip (List.map fst sorted) xs)) ++ "}").
    split.
    { rewrite Marshal_map. fold enc. cbv zeta. fold sorted. by rewrite Hxs. }
    apply scans_object; [done|].
    apply Forall_forall. intros [k x] Hkx.
    apply elem_of_zip_r in Hkx.
    by apply (proj1 (Forall_forall _ _) Hall).
Qed.

(** X20. When every value written is nil, a boolean, an integer, a string
    of any bytes, a float whose text is a number literal, or a slice or map
    of such values, nested within the limit of the scanner, [MarshalJSON]
    returns a line that is valid JSON, and a call in JSON format that passes
    the level filter prints exactly this line. *)
Theorem JSON_line_valid (lib : golib) (e : orderedEntry) :
  (∀ kv, kv ∈ entryPairs e →
     encodable lib kv.2 ∧ 1 + vdepth kv.2 ≤ maxNestingDepth) →
  ∃ line,
    MarshalJSON lib e = inl line
    ∧ Valid line = true
    ∧ ∀ env l lv args,
        e = buildJSONEntry (env_now env) lv (env_caller env) args →
        fmt (cfg l) = JSON → enabled lv (level (cfg l)) = true →
        printed (logWithCaller lib env l lv args) = [line].
Proof.
  intros Hall.
  assert (Hout : ∀ kv, kv ∈ entryPairs e →
            ∃ out, Marshal lib kv.2 = Some out ∧ scans 1 out).
  { intros kv Hkv. destruct (Hall kv Hkv) as [Henc Hdepth].
    by apply Marshal_scans. }
  assert (Hsome : ∀ kv, kv ∈ entryPairs e → is_Some (Marshal lib kv.2)).
  { intros kv Hkv. destruct (Hout kv Hkv) as (out & -> & _). by eexists. }
  destruct (writeKVs_all lib (entryPairs e) (proj2 (Forall_forall _ _) Hsome) true "{")
    as [b Hb].
  assert (Hline : MarshalJSON lib e = inl (b ++ "}")).
  { unfold MarshalJSON. by rewrite Hb. }
  destruct (MarshalJSON_text lib e _ Hline) as (vs & Hvs & Htext).
  exists (b ++ "}"). split; [done|]. split.
  - rewrite Htext, <- zip_member.
    assert (Hscans : Forall (λ ko : string * string, scans 1 ko.2)
                       (zip (List.map fst (entryPairs e)) vs)).
    { apply Forall_forall. intros [k o] Hko. simpl.
      apply elem_of_zip_r in Hko.
      apply list_elem_of_lookup in Hko as [i Hi].
      destruct (Forall2_lookup_r _ _ _ _ _ Hvs Hi) as (kv & Hkv & Hm).
      destruct (Hout kv) as (out & Ho & Hs); [by eapply list_elem_of_lookup_2|].
      congruence. }
    destruct (scans_object 0 _ eq_refl Hscans) as [_ Hscan].
    set (line := "{" ++ join "," (List.map memberText
                   (zip (List.map fst (entryPairs e)) vs)) ++ "}") in *.
    destruct (Hscan (S (String.length line)) "") as [t Ht]; [lia|done|].
    rewrite string_app_nil_r in Ht. change (Valid line = true).
    unfold Valid, parse. by rewrite Ht.
  - intros env l lv args -> Hfmt Hen.
    unfold logWithCaller. rewrite Hen, Hfmt. simpl. by rewrite Hline.
Qed.

Lemma JSON_line_valid_witness :
  let args := [VString "m"; VString "age"; VInt 18; VString "raw";
               VString (String (byte 255) "!"); VSlice [VNil; VBool true]] in
  let e := buildJSONEntry (env_now sample_env) INFO (env_caller sample_env) args in
  (∀ kv, kv ∈ entryPairs e →
     encodable sample_lib kv.2 ∧ 1 + vdepth kv.2 ≤ maxNestingDepth)
  ∧ ∃ line,
      printed (logWithCaller sample_lib sample_env initial INFO args) = [line]
      ∧ Valid line = true.
Proof.
  intros args e.
  assert (Hpairs : entryPairs e
    = [("ts", VString (env_now sample_env)); ("lv", VString "INFO");
       ("caller", VString (env_caller sample_env)); ("msg", VString "m");
       ("age", VInt 18); ("args", VSlice [VSlice [VNil; VBool true]]);
       ("raw", VString (String (byte 255) "!"))]) by (vm_compute; reflexivity).
  assert (Hall : ∀ kv, kv ∈ entryPairs e →
            encodable sample_lib kv.2 ∧ 1 + vdepth kv.2 ≤ maxNestingDepth).
  { intros kv Hkv. rewrite Hpairs in Hkv.
    repeat (apply elem_of_cons in Hkv as [Hx|Hkv];
            [subst kv; split; [simpl; tauto|vm_compute; discriminate]|]).
    apply elem_of_nil in Hkv. destruct Hkv. }
  split; [exact Hall|].
  destruct (JSON_line_valid sample_lib e Hall) as (line & _ & Hvalid & Hcall).
  exists line. split; [|exact Hvalid].
  exact (Hcall sample_env initial INFO args eq_refl eq_refl eq_refl).
Defined.

(** ** The line written when encoding fails *)

(** The bytes that follow the first byte of a rune of several bytes are
    outside ASCII. *)
Lemma DecodeRune_cont (c0 : ascii) (u : string) (rr : N) (size : nat) :
  utf8.DecodeRune (String c0 u) = (rr, size) → (2 ≤ size)%nat →
  ∃ p, u = p ++ drop (size - 1) u ∧ String.length p = (size - 1)%nat ∧ highs p = true.
Proof.
  intros Hdec Hsize.
  destruct (DecodeRune_multibyte _ rr size Hdec Hsize) as (c & p & Heq & Hlen & _ & Hp & _).
  exists p. destruct size as [|k]; [lia|].
  rewrite string_app_cons in Heq. injection Heq as _ Heq.
  simpl in Hlen. split; [|split; [lia|done]].
  replace (S k - 1)%nat with k by lia. exact Heq.
Qed.

Lemma highs_prefix (p : string) :
  highs p = true → ∀ tl r rest, p ++ tl = r ++ String dquote rest →
  ∃ r', r = p ++ r' ∧ tl = r' ++ String dquote rest.
Proof.
  induction p as [|c p IH]; intros Hp tl r rest Heq.
  - by exists r.
  - simpl in Hp. apply andb_true_iff in Hp as [Hc Hp].
    destruct r as [|c' r].
    + rewrite string_app_cons, string_app_nil_l in Heq. injection Heq as -> _.
      by vm_compute in Hc.
    + rewrite !string_app_cons in Heq. injection Heq as -> Heq.
      destruct (IH Hp tl r rest Heq) as (r' & -> & ->). by exists r'.
Qed.

Lemma plain_app (s t : string) : plain (s ++ t) = plain s && plain t.
Proof.
  induction s as [|c s IH]; [done|].
  rewrite string_app_cons. simpl. by rewrite IH, andb_assoc.
Qed.

(** The scanner on a string literal whose contents are plain bytes. *)
Lemma scan_plain (n : nat) :
  ∀ s fuel rest,
    (String.length s ≤ n)%nat → plain s = true → (String.length s < fuel)%nat →
    ∃ t, scan_string fuel (s ++ String dquote rest) = Some (t, rest).
Proof.
  induction n as [|n IH]; intros s fuel rest Hn Hp Hfuel.
  { destruct s; [|simpl in Hn; lia]. destruct fuel as [|fuel]; [simpl in Hfuel; lia|].
    by exists "". }
  destruct s as [|c r].
  { destruct fuel as [|fuel]; [simpl in Hfuel; lia|]. by exists "". }
  simpl in Hn, Hfuel, Hp. apply andb_true_iff in Hp as [Hc Hp].
  unfold plainByte in Hc.
  apply andb_true_iff in Hc as [[H32 Hq]%andb_true_iff Hb].
  apply negb_true_iff in H32, Hq, Hb.
  destruct fuel as [|fuel]; [lia|].
  rewrite string_app_cons. cbn [scan_string]. rewrite Hq, Hb, H32.
  destruct (code c <? 128)%N eqn:E128.
  - destruct (IH r fuel rest) as [t Ht]; [lia|done|lia|].
    rewrite Ht. by eexists.
  - apply N.ltb_ge in E128.
    destruct (utf8.DecodeRune (String c (r ++ String dquote rest))) as [rr size] eqn:Hdec.
    destruct (DecodeRune_width c _ rr size E128 Hdec) as [[-> ->]|Hsize].
    + change (drop 1 (String c (r ++ String dquote rest))) with (r ++ String dquote rest).
      destruct (IH r fuel rest) as [t Ht]; [lia|done|lia|].
      rewrite Ht. by eexists.
    + destruct (DecodeRune_cont c _ rr size Hdec ltac:(lia)) as (p & Heq & Hlen & Hhigh).
      destruct (highs_prefix p Hhigh _ r rest (eq_sym Heq)) as (r' & -> & Htl).
      assert (Hdrop : drop size (String c ((p ++ r') ++ String dquote rest))
                      = r' ++ String dquote rest).
      { destruct size as [|k]; [lia|]. cbn [drop].
        replace k with (String.length p) by lia.
        rewrite string_app_assoc. apply drop_app_length. }
      rewrite Hdrop. rewrite plain_app in Hp. apply andb_true_iff in Hp as [_ Hp].
      rewrite string_app_length in Hn, Hfuel.
      destruct (IH r' fuel rest) as [t Ht]; [lia|done|lia|].
      rewrite Ht. by eexists.
Qed.

(** A quoted string of plain bytes is scanned as a string. *)
Lemma scans_plain (d : Z) (s : string) :
  plain s = true → scans d (String dquote (s ++ String dquote "")).
Proof.
  intros Hp. split; [starts|].
  intros [|fuel] rest Hf _; [simpl in Hf; lia|].
  rewrite string_app_cons, string_app_assoc, string_app_cons, string_app_nil_l.
  cbn [scan_value]. rewrite skip_ws_start by done.
  replace (Ascii.eqb dquote "{") with false by done.
  replace (Ascii.eqb dquote "[") with false by done.
  rewrite Ascii.eqb_refl.
  destruct (scan_plain (String.length s) s
              (String.length (s ++ String dquote rest)) rest) as [t Ht]; [lia|done| |].
  { rewrite string_app_length. simpl. lia. }
  rewrite Ht. by eexists.
Qed.

(** X21. The line written when encoding fails is valid JSON whenever the
    time stamp and the caller, which are written between quotes as they are,
    hold no control character, double quote or backslash; the text of the
    error may hold any bytes. *)
Theorem failureLine_valid (env : callEnv) (caller err : string) :
  plain (env_now_failure env) = true → plain caller = true →
  Valid (failureLine env caller err) = true.
Proof.
  intros Hnow Hcaller.
  set (kos := [("ts", String dquote (env_now_failure env ++ String dquote ""));
               ("lv", String dquote ("ERROR" ++ String dquote ""));
               ("caller", String dquote (caller ++ String dquote ""));
               ("msg", String dquote ("marshal log failed" ++ String dquote ""));
               ("err", mustQuote err)]).
  assert (Hline : failureLine env caller err
                  = "{" ++ join "," (List.map memberText kos) ++ "}").
  { unfold failureLine, kos, memberText, q. cbn [List.map join fst snd].
    replace (encodeString "ts") with (String dquote ("ts" ++ String dquote "")) by done.
    replace (encodeString "lv") with (String dquote ("lv" ++ String dquote "")) by done.
    replace (encodeString "caller") with (String dquote ("caller" ++ String dquote ""))
      by done.
    replace (encodeString "msg") with (String dquote ("msg" ++ String dquote "")) by done.
    replace (encodeString "err") with (String dquote ("err" ++ String dquote "")) by done.
    by norm_app. }
  assert (Hscans : Forall (λ ko : string * string, scans 1 ko.2) kos).
  { unfold kos.
    do 4 (apply Forall_cons; split; [by apply scans_plain|]).
    apply Forall_cons. split; [apply scans_string|constructor]. }
  destruct (scans_object 0 kos eq_refl Hscans) as [_ Hscan].
  rewrite Hline.
  set (line := "{" ++ join "," (List.map memberText kos) ++ "}") in *.
  destruct (Hscan (S (String.length line)) "") as [t Ht]; [lia|done|].
  rewrite string_app_nil_r in Ht. unfold Valid, parse. by rewrite Ht.
Qed.

Lemma failureLine_valid_witness :
  plain (env_now_failure sample_env) = true ∧ plain (env_caller sample_env) = true
  ∧ Valid (failureLine sample_env (env_caller sample_env)
             ("json: error calling MarshalJSON for type logging.orderedEntry: "
              ++ "json: unsupported type: chan int")) = true.
Proof.
  split; [reflexivity|]. split; [reflexivity|].
  exact (failureLine_valid sample_env (env_caller sample_env) _ eq_refl eq_refl).
Defined.

(** ** Closing a logger *)




(** ** Errors of the setters of the file path and of the destinations *)

(** X23. [SetLogFile] returns an error exactly when the file is among the
    destinations and the trimmed path is empty.  In every case the path is
    stored trimmed and the destinations, the level and the format are kept;
    with the error, no file is among the writers and no closer is kept. *)
Theorem SetLogFile_error (fs : string → bool) (path : string) (l : Logger) :
  let r := SetLogFile fs path l in
  (is_Some r.2 ↔
   selected (output (cfg l)) outFile = true ∧ strings.TrimSpace path = "")
  ∧ file (cfg r.1) = strings.TrimSpace path
  ∧ output (cfg r.1) = output (cfg l)
  ∧ level (cfg r.1) = level (cfg l) ∧ fmt (cfg r.1) = fmt (cfg l)
  ∧ (is_Some r.2 → closer (cfg r.1) = None ∧ ∀ p, File p ∉ lg r.1).
Proof.
  intros r. unfold r, SetLogFile.
  pose proof (rebuild_keeps fs (set_file (strings.TrimSpace path) l)) as (K1 & K2 & K3 & K4).
  simpl in K1, K2, K3, K4.
  change (output (cfg (set_file (strings.TrimSpace path) l))) with (output (cfg l)).
  change (file (cfg (set_file (strings.TrimSpace path) l))) with (strings.TrimSpace path).
  destruct (selected (output (cfg l)) outFile) eqn:Hsel;
    destruct (String.eqb_spec (strings.TrimSpace path) "") as [Hp|Hp]; simpl.
  - split; [split; [done|by eexists]|]. do 4 (split; [done|]).
    intros _. unfold rebuildWriterLocked. rewrite usableWriters_eq.
    assert (Hu : fileUsable fs (cfg (set_file (strings.TrimSpace path) l)) = false).
    { unfold fileUsable. simpl. by rewrite Hp, Hsel. }
    rewrite Hu.
    destruct (selected _ outStdout), (selected _ outStderr); simpl;
      (split; [done|intros p; mem]).
  - split; [split; [by intros [? [=]]|by intros [_ ?]]|]. do 4 (split; [done|]).
    by intros [? [=]].
  - split; [split; [by intros [? [=]]|by intros [? _]]|]. do 4 (split; [done|]).
    by intros [? [=]].
  - split; [split; [by intros [? [=]]|by intros [? _]]|]. do 4 (split; [done|]).
    by intros [? [=]].
Qed.

Lemma SetLogFile_error_witness :
  let l := (SetOutput sample_lib (λ _, true) "stdout+file"
              (SetLogFile (λ _, true) "app.log" initial).1).1 in
  lg l = [Stdout; File "app.log"]
  ∧ selected (output (cfg l)) outFile = true ∧ strings.TrimSpace "  " = ""
  ∧ is_Some (SetLogFile (λ _, true) "  " l).2
  ∧ lg (SetLogFile (λ _, true) "  " l).1 = [Stdout]
  ∧ closer (cfg (SetLogFile (λ _, true) "  " l).1) = None.
Proof.
  intros l.
  assert (H1 : selected (output (cfg l)) outFile = true) by (vm_compute; reflexivity).
  assert (H2 : strings.TrimSpace "  " = "") by (vm_compute; reflexivity).
  destruct (SetLogFile_error (λ _, true) "  " l) as (He & _ & _ & _ & _ & Hc).
  assert (Herr : is_Some (SetLogFile (λ _, true) "  " l).2) by (apply He; by split).
  split; [vm_compute; reflexivity|]. split; [exact H1|]. split; [exact H2|].
  split; [exact Herr|]. split; [vm_compute; reflexivity|]. exact (proj1 (Hc Herr)).
Defined.

(** X24. [SetOutput] with a specification whose first unknown part is [p]
    returns the error that quotes [p], and replaces the destinations all the
    same: the logger is left writing to stderr alone, without a closer,
    while level, format and file path are kept. *)
Theorem SetOutput_unknown_part (lib : golib) (fs : string → bool) (spec : string)
        (l : Logger) (pre : list string) (p : string) (post : list string) :
  strings.TrimSpace spec ≠ "" →
  strings.Split (strings.TrimSpace spec) "+" = (pre ++ p :: post)%list →
  Forall (λ p, known_part lib p = true) pre → known_part lib p = false →
  let r := SetOutput lib fs spec l in
  r.2 = Some ("unknown GOLOG_OUTPUT part: " ++ strconv_Quote lib p)
  ∧ output (cfg r.1) = {[ outStderr := true ]}
  ∧ lg r.1 = [Stderr] ∧ writer (cfg r.1) = [Stderr] ∧ closer (cfg r.1) = None
  ∧ level (cfg r.1) = level (cfg l) ∧ fmt (cfg r.1) = fmt (cfg l)
  ∧ file (cfg r.1) = file (cfg l).
Proof.
  intros Hspec Hparts Hpre Hp r. unfold r, SetOutput.
  assert (Hparse : parseOutput lib spec (file (cfg l))
                   = ({[ outStderr := true ]},
                      Some ("unknown GOLOG_OUTPUT part: " ++ strconv_Quote lib p))).
  { apply String.eqb_neq in Hspec. unfold parseOutput.
    by rewrite Hspec, Hparts, (parseOutput_parts_unknown lib pre p post ∅ Hpre Hp). }
  rewrite Hparse. simpl. split; [done|].
  unfold rebuildWriterLocked. rewrite usableWriters_eq.
  assert (Hu : fileUsable fs (cfg (set_output {[outStderr := true]} l)) = false) by done.
  rewrite Hu. simpl.
  replace (selected {[outStderr := true]} outStdout) with false by done.
  replace (selected {[outStderr := true]} outStderr) with true by done.
  done.
Qed.

Lemma SetOutput_unknown_part_witness :
  let l := (SetOutput sample_lib (λ _, true) "stdout+file"
              (SetLogFile (λ _, true) "app.log" initial).1).1 in
  lg l = [Stdout; File "app.log"]
  ∧ strings.TrimSpace "stdout+flie" ≠ ""
  ∧ strings.Split (strings.TrimSpace "stdout+flie") "+" = (["stdout"] ++ "flie" :: [])%list
  ∧ Forall (λ p, known_part sample_lib p = true) ["stdout"]
  ∧ known_part sample_lib "flie" = false
  ∧ (SetOutput sample_lib (λ _, true) "stdout+flie" l).2
    = Some ("unknown GOLOG_OUTPUT part: " ++ strconv_Quote sample_lib "flie")
  ∧ lg (SetOutput sample_lib (λ _, true) "stdout+flie" l).1 = [Stderr].
Proof.
  intros l.
  assert (H1 : strings.TrimSpace "stdout+flie" ≠ "") by (vm_compute; discriminate).
  assert (H2 : strings.Split (strings.TrimSpace "stdout+flie") "+"
               = (["stdout"] ++ "flie" :: [])%list) by (vm_compute; reflexivity).
  assert (H3 : Forall (λ p, known_part sample_lib p = true) ["stdout"]).
  { repeat (constructor; [vm_compute; reflexivity|]). constructor. }
  assert (H4 : known_part sample_lib "flie" = false) by (vm_compute; reflexivity).
  destruct (SetOutput_unknown_part sample_lib (λ _, true) "stdout+flie" l
              ["stdout"] "flie" [] H1 H2 H3 H4) as (Ha & _ & Hb & _).
  split; [vm_compute; reflexivity|]. split; [exact H1|]. split; [exact H2|].
  split; [exact H3|]. split; [exact H4|]. split; [exact Ha|exact Hb].
Defined.

(** ** One entry, one line *)

Lemma oneLine_slice lib l : oneLine lib (VSlice l) ↔ Forall (oneLine lib) l.
Proof.
  simpl. induction l as [|x l IH].
  { split; [constructor|done]. }
  rewrite Forall_cons, <- IH. done.
Qed.

Lemma oneLine_map lib m : oneLine lib (VMap m) ↔ Forall (λ kv, oneLine lib kv.2) m.
Proof.
  simpl. induction m as [|x m IH].
  { split; [constructor|done]. }
  rewrite Forall_cons, <- IH. done.
Qed.

Lemma printable_app (s t : string) : printable (s ++ t) = printable s && printable t.
Proof.
  induction s as [|c s IH]; [done|].
  rewrite string_app_cons. simpl. by rewrite IH, andb_assoc.
Qed.

Lemma printable_wrap (a x b : string) :
  printable a = true → printable b = true → printable x = true →
  printable (a ++ x ++ b) = true.
Proof. intros Ha Hb Hx. by rewrite !printable_app, Ha, Hb, Hx. Qed.

Lemma printable_highs (p : string) : highs p = true → printable p = true.
Proof.
  induction p as [|c p IH]; [done|]. simpl.
  intros [Hc Hp]%andb_true_iff. rewrite (IH Hp), andb_true_r.
  apply N.leb_le in Hc. apply N.leb_le. lia.
Qed.

Lemma printable_escapeByte (c : ascii) : printable (escapeByte c) = true.
Proof. by destruct c as [[] [] [] [] [] [] [] []]. Qed.

Lemma printable_encodeBody (n : nat) :
  ∀ s, printable (encodeBody n s) = true.
Proof.
  induction n as [|n IH]; intros s; [done|].
  destruct s as [|c r]; [done|]. cbn [encodeBody].
  destruct (code c <? 128)%N eqn:Hc.
  { by rewrite printable_app, printable_escapeByte, IH. }
  destruct (utf8.DecodeRune (String c r)) as [rr size] eqn:Hdec.
  destruct ((rr =? utf8.RuneError)%N && (size =? 1)%nat) eqn:Herr.
  { by rewrite printable_app, IH. }
  destruct (rr =? 8232)%N eqn:H1.
  { apply N.eqb_eq in H1 as ->. cbn [orb]. by rewrite !printable_app, IH. }
  destruct (rr =? 8233)%N eqn:H2.
  { apply N.eqb_eq in H2 as ->. cbn [orb]. by rewrite !printable_app, IH. }
  cbn [orb]. rewrite printable_app, IH, andb_true_r.
  apply N.ltb_ge in Hc.
  destruct (DecodeRune_width _ _ _ _ Hc Hdec) as [[-> ->]|[Hw _]]; [done|].
  destruct (DecodeRune_multibyte _ _ _ Hdec Hw) as (c0 & p & Heq & Hlen & H128 & Hp & _).
  rewrite Heq at 1. rewrite <- Hlen.
  replace (substring 0 (String.length (String c0 p))
             (String c0 p ++ drop (String.length (String c0 p)) (String c r)))
    with (String c0 p).
  { simpl. rewrite (printable_highs _ Hp), andb_true_r. apply N.leb_le. lia. }
  clear. generalize (String c0 p) (drop (String.length (String c0 p)) (String c r)).
  intros a b. induction a as [|x a IH]; simpl; [by destruct b|by rewrite <- IH].
Qed.

Lemma printable_encodeString (s : string) : printable (encodeString s) = true.
Proof.
  unfold encodeString.
  change (String dquote (encodeBody (String.length s) s ++ String dquote ""))
    with (String dquote "" ++ encodeBody (String.length s) s ++ String dquote "").
  by rewrite !printable_app, printable_encodeBody.
Qed.

Lemma printable_member (k o : string) :
  printable o = true → printable (encodeString k ++ ":" ++ o) = true.
Proof. intros Ho. by rewrite !printable_app, printable_encodeString, Ho. Qed.

Lemma printable_string_of_uint (d : Decimal.uint) :
  printable (DecimalString.NilEmpty.string_of_uint d) = true.
Proof. induction d; simpl; done. Qed.

Lemma printable_Itoa (n : Z) : printable (strconv.Itoa n) = true.
Proof.
  unfold strconv.Itoa. destruct n as [|p|p].
  - done.
  - change (DecimalString.NilZero.string_of_int (Z.to_int (Z.pos p)))
      with (DecimalString.NilZero.string_of_uint (Pos.to_uint p)).
    by rewrite string_of_uint_pos, printable_string_of_uint.
  - change (DecimalString.NilZero.string_of_int (Z.to_int (Z.neg p)))
      with (String "-" (DecimalString.NilZero.string_of_uint (Pos.to_uint p))).
    rewrite string_of_uint_pos. simpl. by rewrite printable_string_of_uint.
Qed.

Lemma printable_concat (l : list string) :
  Forall (λ x, printable x = true) l → printable (String.concat "" l) = true.
Proof.
  induction 1 as [|x l Hx _ IH]; [done|].
  by rewrite concat_cons, printable_app, Hx, IH.
Qed.

Lemma printable_join (l : list string) :
  Forall (λ x, printable x = true) l → printable (join "," l) = true.
Proof.
  destruct 1 as [|x l Hx Hl]; [done|].
  rewrite join_cons, printable_app, Hx. apply printable_concat.
  apply Forall_forall. intros y (z & -> & Hz)%list_elem_of_fmap.
  rewrite printable_app. by rewrite (proj1 (Forall_forall _ _) Hl z Hz).
Qed.

Lemma all_some_elem {A} (l : list (option A)) (xs : list A) :
  all_some l = Some xs → ∀ x, x ∈ xs → Some x ∈ l.
Proof.
  revert xs. induction l as [|[a|] l IH]; intros xs H x Hx; simpl in H.
  - simplify_eq. by apply elem_of_nil in Hx.
  - destruct (all_some l) as [ys|]; [|done]. simplify_eq.
    apply elem_of_cons in Hx as [->|Hx]; [left|right; by eapply IH].
  - done.
Qed.

Lemma printable_Marshal (lib : golib) (x : value) :
  oneLine lib x → ∀ out, Marshal lib x = Some out → printable out = true.
Proof.
  induction x as [ |b|n|f|s|e|l IH|m IH|o] using value_ind'; intros Hx out Hout.
  - by injection Hout as <-.
  - destruct b; by injection Hout as <-.
  - injection Hout as <-. apply printable_Itoa.
  - injection Hout as <-. exact Hx.
  - injection Hout as <-. apply printable_encodeString.
  - by apply Hx.
  - apply oneLine_slice in Hx. rewrite Marshal_slice in Hout.
    destruct (all_some (List.map (Marshal lib) l)) as [xs|] eqn:Hxs; [|done].
    injection Hout as <-. apply printable_wrap; [done..|].
    apply printable_join, Forall_forall. intros o Ho.
    apply (all_some_elem _ _ Hxs) in Ho.
    apply list_elem_of_fmap in Ho as (v & Hv & Hin).
    exact (proj1 (Forall_forall _ _) IH v Hin (proj1 (Forall_forall _ _) Hx v Hin) o
             (eq_sym Hv)).
  - apply oneLine_map in Hx. rewrite Marshal_map in Hout. cbv zeta in Hout.
    set (enc := List.map (λ kv : string * value, (kv.1, Marshal lib kv.2)) m) in *.
    set (sorted := merge_sort key_le enc) in *.
    destruct (all_some (List.map snd sorted)) as [xs|] eqn:Hxs; [|done].
    injection Hout as <-. apply printable_wrap; [done..|].
    apply printable_join, Forall_forall.
    intros y ([k o] & -> & Hko)%list_elem_of_fmap. cbn [fst snd].
    apply printable_member.
    apply elem_of_zip_r in Hko. apply (all_some_elem _ _ Hxs) in Hko.
    apply list_elem_of_fmap in Hko as (ko & Hsnd & Hin).
    unfold sorted in Hin. rewrite merge_sort_Permutation in Hin.
    apply list_elem_of_fmap in Hin as (kv & -> & Hin). simpl in Hsnd.
    exact (proj1 (Forall_forall _ _) IH kv Hin (proj1 (Forall_forall _ _) Hx kv Hin) o
             (eq_sym Hsnd)).
  - by apply Hx.
Qed.

(** X25. The line [MarshalJSON] returns holds no control character, hence
    no line break, whatever bytes the strings and the keys of the entry
    hold, provided the texts the library writes for floats and for values of
    other types hold none: one entry is one line. *)
Theorem JSON_line_no_line_break (lib : golib) (e : orderedEntry) (line : string) :
  (∀ kv, kv ∈ entryPairs e → oneLine lib kv.2) →
  MarshalJSON lib e = inl line →
  printable line = true.
Proof.
  intros Hall Hline.
  destruct (MarshalJSON_text lib e _ Hline) as (vs & Hvs & ->).
  apply printable_wrap; [done..|].
  apply printable_join, Forall_forall. intros y Hy.
  apply list_elem_of_lookup in Hy as [i Hi].
  apply lookup_zip_with_Some in Hi as (kv & o & -> & Hkv & Ho).
  apply printable_member.
  pose proof (Forall2_lookup_lr _ _ _ _ _ _ Hvs Hkv Ho) as Hm.
  apply (printable_Marshal lib kv.2); [|done].
  apply Hall. by eapply list_elem_of_lookup_2.
Qed.

Lemma JSON_line_no_line_break_witness :
  let nl := String (byte 10) "" in
  let args := [VString ("first" ++ nl ++ "{}"); VString ("k" ++ nl); VInt (-7);
               VString "list"; VSlice [VString nl; VNil]] in
  let e := buildJSONEntry (env_now sample_env) INFO (env_caller sample_env) args in
  (∀ kv, kv ∈ entryPairs e → oneLine sample_lib kv.2)
  ∧ ∃ line, MarshalJSON sample_lib e = inl line ∧ printable line = true.
Proof.
  intros nl args e.
  assert (Hpairs : entryPairs e
    = [("ts", VString (env_now sample_env)); ("lv", VString "INFO");
       ("caller", VString (env_caller sample_env));
       ("msg", VString ("first" ++ nl ++ "{}"));
       ("k", VInt (-7)); ("list", VSlice [VString nl; VNil])])
    by (vm_compute; reflexivity).
  assert (Hall : ∀ kv, kv ∈ entryPairs e → oneLine sample_lib kv.2).
  { intros kv Hkv. rewrite Hpairs in Hkv.
    repeat (apply elem_of_cons in Hkv as [Hx|Hkv]; [subst kv; simpl; tauto|]).
    apply elem_of_nil in Hkv. destruct Hkv. }
  split; [exact Hall|].
  destruct (MarshalJSON sample_lib e) as [line|err] eqn:Hm.
  - exists line. split; [reflexivity|].
    exact (JSON_line_no_line_break sample_lib e line Hall Hm).
  - vm_compute in Hm. discriminate Hm.
Defined.

(** ** When the decoder rejects a valid text *)

Lemma jtree_ind' (P : jtree → Prop) :
  P JNull → (∀ b, P (JBool b)) → (∀ n, P (JNumber n)) → (∀ s, P (JString s)) →
  (∀ l, Forall P l → P (JArray l)) →
  (∀ m, Forall (λ kt, P kt.2) m → P (JObject m)) →
  ∀ t, P t.
Proof.
  intros Hnull Hbool Hnum Hstr Harr Hobj.
  fix IH 1. intros [ |b|n|s|l|m].
  - exact Hnull.
  - apply Hbool.
  - apply Hnum.
  - apply Hstr.
  - apply Harr. induction l as [|x l IHl]; constructor; [apply IH|exact IHl].
  - apply Hobj. induction m as [|[k x] m IHm]; constructor; [apply IH|exact IHm].
Qed.

Lemma elem_of_concat {A} (x : A) (ls : list (list A)) :
  x ∈ concat ls ↔ ∃ l, x ∈ l ∧ l ∈ ls.
Proof.
  induction ls as [|l ls IH]; simpl.
  - split; [by intros ?%elem_of_nil|]. by intros (l & _ & ?%elem_of_nil).
  - rewrite elem_of_app, IH. split.
    + intros [H|(l' & H1 & H2)]; [exists l; split; [done|left]|].
      exists l'. split; [done|by right].
    + intros (l' & H1 & [->|H2]%elem_of_cons); [by left|]. right. by exists l'.
Qed.

Lemma numbers_array (l : list jtree) :
  numbers (JArray l) = concat (List.map numbers l).
Proof. simpl. induction l as [|t l IH]; [done|]. simpl. by rewrite IH. Qed.

Lemma numbers_object (m : list (string * jtree)) :
  numbers (JObject m) = concat (List.map (λ kt, numbers kt.2) m).
Proof. simpl. induction m as [|t m IH]; [done|]. simpl. by rewrite IH. Qed.

Lemma to_members_None (m : list (string * jtree)) :
  ∀ acc, to_members m acc = None ↔ Exists (λ kt, to_value kt.2 = None) m.
Proof.
  induction m as [|[k t] m IH]; intros acc; simpl.
  - split; [done|]. by intros H%Exists_nil.
  - rewrite Exists_cons. simpl. destruct (to_value t) as [v|].
    + rewrite IH. split; [by right|]. by intros [|].
    + split; [by left|done].
Qed.

Lemma to_values_None (l : list jtree) :
  to_values l = None ↔ Exists (λ t, to_value t = None) l.
Proof.
  induction l as [|t l IH]; simpl.
  - split; [done|]. by intros H%Exists_nil.
  - rewrite Exists_cons, <- IH. destruct (to_value t) as [v|].
    + destruct (to_values l).
      * split; [done|]. by intros [|].
      * split; [by right|done].
    + split; [by left|done].
Qed.

(** The decoder rejects a syntax tree exactly when one of its numbers is out
    of range. *)
Lemma to_value_None (t : jtree) :
  to_value t = None ↔ ∃ n, n ∈ numbers t ∧ strconv.ParseFloat n = None.
Proof.
  induction t as [ |b|n|s|l IH|m IH] using jtree_ind'.
  - split; [done|]. intros (n & Hn & _). by apply elem_of_nil in Hn.
  - split; [done|]. intros (n & Hn & _). by apply elem_of_nil in Hn.
  - simpl. split.
    + destruct (strconv.ParseFloat n) eqn:E; [done|]. intros _. exists n. split; [left|done].
    + intros (n' & Hn & Hp). apply list_elem_of_singleton in Hn as ->. by rewrite Hp.
  - split; [done|]. intros (n & Hn & _). by apply elem_of_nil in Hn.
  - rewrite to_value_array, numbers_array.
    transitivity (to_values l = None).
    { destruct (to_values l); split; done. }
    rewrite to_values_None, Exists_exists. split.
    + intros (t & Ht & Hnone).
      apply (proj1 (Forall_forall _ _) IH t Ht) in Hnone as (n & Hn & Hp).
      exists n. split; [|done]. apply elem_of_concat. exists (numbers t).
      split; [done|]. apply list_elem_of_fmap. by exists t.
    + intros (n & Hn & Hp). apply elem_of_concat in Hn as (ns & Hn & Hns).
      apply list_elem_of_fmap in Hns as (t & -> & Ht). exists t. split; [done|].
      apply (proj1 (Forall_forall _ _) IH t Ht). by exists n.
  - rewrite to_value_object, numbers_object.
    transitivity (to_members m [] = None).
    { destruct (to_members m []); split; done. }
    rewrite to_members_None, Exists_exists. split.
    + intros (kt & Ht & Hnone).
      apply (proj1 (Forall_forall _ _) IH kt Ht) in Hnone as (n & Hn & Hp).
      exists n. split; [|done]. apply elem_of_concat. exists (numbers kt.2).
      split; [done|]. apply list_elem_of_fmap. by exists kt.
    + intros (n & Hn & Hp). apply elem_of_concat in Hn as (ns & Hn & Hns).
      apply list_elem_of_fmap in Hns as (kt & -> & Ht). exists kt. split; [done|].
      apply (proj1 (Forall_forall _ _) IH kt Ht). by exists n.
Qed.

(** *** The range of [float64] *)

Lemma roundFloat64_None (n d : Z) :
  0 < d → strconv.roundFloat64 n d = None → d * 2 ^ 1023 ≤ n.
Proof.
  intros Hd. unfold strconv.roundFloat64.
  destruct (n =? 0) eqn:Hn0; [done|].
  set (e0 := Z.log2 n - Z.log2 d).
  set (ge := if 0 <=? e0 then d * 2 ^ e0 <=? n else d <=? n * 2 ^ (- e0)).
  set (e := if ge then e0 else e0 - 1).
  set (q := Z.max (e - 52) (-1074)).
  cbv zeta.
  set (num := if q <? 0 then n * 2 ^ (- q) else n).
  set (den := if q <? 0 then d else d * 2 ^ q).
  set (m := if (den <? 2 * (num mod den)) || ((2 * (num mod den) =? den) && Z.odd (num / den))
            then num / den + 1 else num / den).
  intros Hnone.
  assert (Hq : 971 ≤ q).
  { destruct (m =? 2 ^ 53).
    - destruct (971 <? q + 1) eqn:E; [|done]. apply Z.ltb_lt in E. lia.
    - destruct (971 <? q) eqn:E; [|done]. apply Z.ltb_lt in E. lia. }
  assert (He : 1023 ≤ e) by (unfold q in Hq; lia).
  clear Hnone Hq m num den q.
  assert (Hpow : ∀ k, 1023 ≤ k → 2 ^ 1023 ≤ 2 ^ k).
  { intros k Hk. apply Z.pow_le_mono_r; lia. }
  destruct ge eqn:Hge; unfold e in He.
  - unfold ge in Hge. destruct (0 <=? e0) eqn:H0; [|apply Z.leb_gt in H0; lia].
    apply Z.leb_le in Hge. specialize (Hpow e0 He).
    transitivity (d * 2 ^ e0); [|done]. apply Z.mul_le_mono_nonneg_l; lia.
  - assert (Hlogn : 0 < Z.log2 n).
    { pose proof (Z.log2_nonneg d). unfold e0 in He. lia. }
    assert (Hn : 0 < n).
    { destruct (Z.le_gt_cases n 0) as [Hle|Hgt]; [|lia].
      rewrite (Z.log2_nonpos n Hle) in Hlogn. lia. }
    destruct (Z.log2_spec n Hn) as [Hn1 _].
    destruct (Z.log2_spec d Hd) as [_ Hd2].
    pose proof (Z.log2_nonneg d) as Hld.
    replace (Z.log2 n) with ((e0 - 1) + Z.succ (Z.log2 d)) in Hn1 by (unfold e0; lia).
    rewrite Z.pow_add_r in Hn1 by lia.
    specialize (Hpow (e0 - 1) He).
    assert (0 < 2 ^ (e0 - 1)) by (apply Z.pow_pos_nonneg; lia).
    transitivity (d * 2 ^ (e0 - 1)); [apply Z.mul_le_mono_nonneg_l; lia|].
    transitivity (2 ^ (e0 - 1) * 2 ^ Z.succ (Z.log2 d)); [|done].
    rewrite (Z.mul_comm d). apply Z.mul_le_mono_nonneg_l; lia.
Qed.

(** A number of magnitude below [2 ^ 1023] is in range. *)
Lemma ParseFloat_below (x : number) :
  below_2_1023 x → is_Some (strconv.ParseFloat x).
Proof.
  unfold below_2_1023, strconv.ParseFloat.
  destruct (0 <=? n_exp10 x) eqn:He; intros Hb.
  - destruct (strconv.roundFloat64 (n_digits x * 10 ^ n_exp10 x) 1) as [[m q]|] eqn:Hr;
      [by eexists|].
    apply roundFloat64_None in Hr; lia.
  - destruct (strconv.roundFloat64 (n_digits x) (10 ^ (- n_exp10 x))) as [[m q]|] eqn:Hr;
      [by eexists|].
    apply Z.leb_gt in He.
    apply roundFloat64_None in Hr; [lia|]. apply Z.pow_pos_nonneg; lia.
Qed.

(** X26. For a text that the scanner accepts, the decoder fails exactly
    when one of the number literals of the text is out of the range of
    [float64].  When every number of the text has a magnitude below
    [2 ^ 1023], [mustUnmarshalAny] returns the value decoded. *)
Theorem decoder_rejects_range_only (s : string) (t : jtree) :
  parse s = Some t →
  (Unmarshal s = None ↔ ∃ n, n ∈ numbers t ∧ strconv.ParseFloat n = None)
  ∧ ((∀ n, n ∈ numbers t → below_2_1023 n) →
     ∃ x, Unmarshal s = Some x ∧ mustUnmarshalAny s = x).
Proof.
  intros Hparse.
  assert (Hu : Unmarshal s = to_value t) by (unfold Unmarshal; by rewrite Hparse).
  split.
  - rewrite Hu. apply to_value_None.
  - intros Hsmall. unfold mustUnmarshalAny. rewrite Hu.
    destruct (to_value t) as [x|] eqn:Hx; [by exists x|].
    apply to_value_None in Hx as (n & Hn & Hp).
    destruct (ParseFloat_below n (Hsmall n Hn)) as [f Hf]. congruence.
Qed.

Lemma decoder_rejects_range_only_witness :
  let s := "{" ++ q ++ "a" ++ q ++ ":[1,-25e-1,1e400]}" in
  let t := JObject [("a", JArray [JNumber (Number false 1 0);
                                  JNumber (Number true 25 (-1));
                                  JNumber (Number false 1 400)])] in
  parse s = Some t
  ∧ Unmarshal s = None
  ∧ mustUnmarshalAny s = VString s.
Proof.
  intros s t.
  assert (Hparse : parse s = Some t) by (vm_compute; reflexivity).
  split; [exact Hparse|].
  destruct (decoder_rejects_range_only s t Hparse) as [[_ Hnone] _].
  assert (Hu : Unmarshal s = None).
  { apply Hnone. exists (Number false 1 400). split.
    - simpl. right. right. left.
    - vm_compute. reflexivity. }
  split; [exact Hu|]. unfold mustUnmarshalAny. rewrite Hu. reflexivity.
Defined.

(* ===================================================================== *)
(** * The text of a float, and JSON texts in the entry                   *)
(* ===================================================================== *)

Import Reals Lra.
Import strconv.

(** ** Rounding to the nearest [float64] *)

(** *** Powers, as real numbers *)

Lemma IZR_pow (b k : Z) : 0 ≤ k → IZR (b ^ k) = powerRZ (IZR b) k.
Proof.
  intros Hk. rewrite <- (Z2Nat.id k Hk) at 1.
  rewrite <- pow_IZR. rewrite pow_powerRZ. by rewrite Z2Nat.id.
Qed.

Lemma powerRZ_pos (b : R) (z : Z) : (0 < b)%R → (0 < powerRZ b z)%R.
Proof. apply powerRZ_lt. Qed.

Lemma powerRZ_opp (b : R) (z : Z) : (0 < b)%R → powerRZ b (- z) = (/ powerRZ b z)%R.
Proof.
  intros Hb. apply Rmult_eq_reg_l with (powerRZ b z);
    [|apply Rgt_not_eq, powerRZ_lt, Hb].
  rewrite <- powerRZ_add by lra. rewrite Z.add_opp_diag_r.
  rewrite Rinv_r; [done|]. apply Rgt_not_eq, powerRZ_lt, Hb.
Qed.

Lemma powerRZ_succ (b : R) (z : Z) : (0 < b)%R → powerRZ b (z + 1) = (powerRZ b z * b)%R.
Proof. intros Hb. rewrite powerRZ_add by lra. by rewrite powerRZ_1. Qed.

Lemma powerRZ_pred (b : R) (z : Z) : (0 < b)%R → powerRZ b (z - 1) = (powerRZ b z / b)%R.
Proof.
  intros Hb. replace (z - 1) with (z + - 1) by lia.
  rewrite powerRZ_add by lra. change (powerRZ b (-1)) with (/ (b * 1))%R.
  field. lra.
Qed.

Lemma powerRZ_mono (b : R) (x y : Z) : (1 <= b)%R → x ≤ y → (powerRZ b x <= powerRZ b y)%R.
Proof.
  intros Hb Hxy. replace y with (x + (y - x)) by lia.
  rewrite powerRZ_add by lra.
  assert (H0 : (0 < powerRZ b x)%R) by (apply powerRZ_lt; lra).
  assert (H1 : (1 <= powerRZ b (y - x))%R).
  { rewrite <- (Z2Nat.id (y - x)) by lia. rewrite <- pow_powerRZ.
    by apply pow_R1_Rle. }
  nra.
Qed.

(** The quotient of the two powers with exponents [max z 0] and
    [max (- z) 0]. *)
Lemma pow_max_quot (b z : Z) :
  0 < b →
  IZR (b ^ Z.max z 0) = (powerRZ (IZR b) z * IZR (b ^ Z.max (- z) 0))%R
  ∧ (0 < IZR (b ^ Z.max z 0))%R ∧ (0 < IZR (b ^ Z.max (- z) 0))%R.
Proof.
  intros Hb.
  assert (HbR : (0 < IZR b)%R) by (by apply IZR_lt).
  assert (Hp : ∀ k, 0 ≤ k → (0 < IZR (b ^ k))%R).
  { intros k Hk. apply IZR_lt. by apply Z.pow_pos_nonneg. }
  split; [|split; apply Hp; lia].
  destruct (Z.le_gt_cases 0 z) as [Hz|Hz].
  - rewrite (Z.max_l z 0), (Z.max_r (- z) 0) by lia.
    rewrite Z.pow_0_r, IZR_pow by done. lra.
  - rewrite (Z.max_r z 0), (Z.max_l (- z) 0) by lia.
    rewrite Z.pow_0_r, IZR_pow by lia. rewrite powerRZ_opp by done.
    rewrite Rinv_r; [done|]. apply Rgt_not_eq, powerRZ_lt, HbR.
Qed.

Lemma log2_bracket (n : Z) :
  0 < n → (powerRZ 2 (Z.log2 n) <= IZR n < powerRZ 2 (Z.log2 n + 1))%R.
Proof.
  intros Hn. destruct (Z.log2_spec n Hn) as [H1 H2].
  pose proof (Z.log2_nonneg n) as Hnn.
  rewrite <- !IZR_pow by lia. split; [by apply IZR_le|by apply IZR_lt].
Qed.

(** *** What [roundFloat64] computes *)

(** For a positive fraction [n / d], [roundFloat64] takes the exponent [q]
    that puts [n / d / 2^q] between [2^52] and [2^53], or [-1074] if that is
    larger, and an integer [m1] next to [n / d / 2^q]. *)
Lemma roundFloat64_spec (n d : Z) :
  0 < n → 0 < d →
  ∃ q m1 : Z,
    -1074 ≤ q
    ∧ (-1074 < q → (powerRZ 2 52 * powerRZ 2 q * IZR d <= IZR n)%R)
    ∧ (IZR n < powerRZ 2 53 * powerRZ 2 q * IZR d)%R
    ∧ (Rabs (IZR n - IZR m1 * powerRZ 2 q * IZR d) <= powerRZ 2 q * IZR d / 2)%R
    ∧ strconv.roundFloat64 n d
      = if m1 =? 2 ^ 53
        then (if 971 <? q + 1 then None else Some (2 ^ 52, q + 1))
        else (if 971 <? q then None else Some (m1, q)).
Proof.
  intros Hn Hd.
  assert (HnR : (0 < IZR n)%R) by (by apply IZR_lt).
  assert (HdR : (0 < IZR d)%R) by (by apply IZR_lt).
  destruct (log2_bracket n Hn) as [Hn1 Hn2].
  destruct (log2_bracket d Hd) as [Hd1 Hd2].
  assert (H2 : ∀ z, (0 < powerRZ 2 z)%R) by (intros z; apply powerRZ_lt; lra).
  unfold strconv.roundFloat64.
  assert (Hn0 : (n =? 0) = false) by (apply Z.eqb_neq; lia). rewrite Hn0.
  set (e0 := Z.log2 n - Z.log2 d).
  set (ge := if 0 <=? e0 then d * 2 ^ e0 <=? n else d <=? n * 2 ^ (- e0)).
  set (e := if ge then e0 else e0 - 1).
  set (q := Z.max (e - 52) (-1074)).
  cbv zeta.
  set (num := if q <? 0 then n * 2 ^ (- q) else n).
  set (den := if q <? 0 then d else d * 2 ^ q).
  set (m1 := if (den <? 2 * (num mod den)) || ((2 * (num mod den) =? den) && Z.odd (num / den))
             then num / den + 1 else num / den).
  exists q, m1.
  (* the exponent [e] *)
  assert (Hup : (IZR n < powerRZ 2 (e0 + 1) * IZR d)%R).
  { replace (Z.log2 n + 1) with ((e0 + 1) + Z.log2 d) in Hn2 by (unfold e0; lia).
    rewrite powerRZ_add in Hn2 by lra.
    eapply Rlt_le_trans; [exact Hn2|].
    apply Rmult_le_compat_l; [apply Rlt_le, H2|exact Hd1]. }
  assert (Hlo : (powerRZ 2 (e0 - 1) * IZR d <= IZR n)%R).
  { replace (Z.log2 n) with ((e0 - 1) + (Z.log2 d + 1)) in Hn1 by (unfold e0; lia).
    rewrite powerRZ_add in Hn1 by lra.
    eapply Rle_trans; [|exact Hn1].
    apply Rmult_le_compat_l; [apply Rlt_le, H2|apply Rlt_le, Hd2]. }
  assert (Hge : ge = true ↔ (powerRZ 2 e0 * IZR d <= IZR n)%R).
  { unfold ge. destruct (0 <=? e0) eqn:He0.
    - apply Z.leb_le in He0. rewrite Z.leb_le. rewrite <- IZR_pow by done.
      rewrite <- mult_IZR, (Z.mul_comm (2 ^ e0)). split; [apply IZR_le|apply le_IZR].
    - apply Z.leb_gt in He0. rewrite Z.leb_le.
      assert (Hinv : powerRZ 2 e0 = (/ IZR (2 ^ (- e0)))%R).
      { rewrite IZR_pow by lia. rewrite powerRZ_opp by lra. rewrite Rinv_inv. done. }
      assert (Hp : (0 < IZR (2 ^ (- e0)))%R).
      { apply IZR_lt. apply Z.pow_pos_nonneg; lia. }
      rewrite Hinv. split.
      + intros H. apply IZR_le in H. rewrite mult_IZR in H.
        apply Rmult_le_reg_r with (IZR (2 ^ (- e0))); [done|].
        rewrite Rmult_assoc, (Rmult_comm (IZR d)), <- Rmult_assoc.
        rewrite Rinv_l by lra. lra.
      + intros H. apply le_IZR. rewrite mult_IZR.
        apply Rmult_le_compat_r with (r := IZR (2 ^ (- e0))) in H; [|lra].
        rewrite Rmult_assoc, (Rmult_comm (IZR d)), <- Rmult_assoc in H.
        rewrite Rinv_l in H by lra. lra. }
  assert (He : (powerRZ 2 e * IZR d <= IZR n < powerRZ 2 (e + 1) * IZR d)%R).
  { unfold e. destruct ge.
    - split; [by apply Hge|done].
    - split; [done|]. replace (e0 - 1 + 1) with e0 by lia.
      apply Rnot_le_lt. intros H. apply Hge in H. done. }
  clearbody e. clear Hge Hup Hlo ge e0 Hn1 Hn2 Hd1 Hd2.
  set (u := powerRZ 2 q). assert (Hu : (0 < u)%R) by apply H2.
  (* the fraction [num / den] *)
  assert (Hden : 0 < den).
  { unfold den. destruct (q <? 0) eqn:Hq; [done|]. apply Z.ltb_ge in Hq.
    apply Z.mul_pos_pos; [done|]. apply Z.pow_pos_nonneg; lia. }
  assert (HdenR : (0 < IZR den)%R) by (by apply IZR_lt).
  assert (Hfrac : (IZR num * u * IZR d = IZR n * IZR den)%R).
  { unfold num, den, u. destruct (q <? 0) eqn:Hq.
    - apply Z.ltb_lt in Hq. rewrite mult_IZR, IZR_pow by lia.
      rewrite powerRZ_opp by lra. field. apply Rgt_not_eq, H2.
    - apply Z.ltb_ge in Hq. rewrite mult_IZR, IZR_pow by lia. ring. }
  split; [unfold q; lia|].
  split; [|split; [|split]].
  - intros Hq. assert (Hqe : q = e - 52) by (unfold q in *; lia).
    unfold u. rewrite Hqe, <- powerRZ_add by lra.
    replace (52 + (e - 52)) with e by lia. apply He.
  - assert (Hqe : e + 1 ≤ 53 + q) by (unfold q; lia).
    unfold u. rewrite <- powerRZ_add by lra.
    pose proof (powerRZ_mono 2 _ _ ltac:(lra) Hqe). nra.
  - (* the rounding *)
    pose proof (Z.div_mod num den ltac:(lia)) as Hdm.
    pose proof (Z.mod_pos_bound num den Hden) as Hr.
    set (m0 := num / den) in *. set (r := num mod den) in *.
    assert (Hm1 : 2 * Z.abs (num - m1 * den) ≤ den).
    { unfold m1. destruct (den <? 2 * r) eqn:E1; simpl.
      - apply Z.ltb_lt in E1. nia.
      - apply Z.ltb_ge in E1. destruct (2 * r =? den) eqn:E2; simpl.
        + apply Z.eqb_eq in E2. destruct (Z.odd m0); nia.
        + nia. }
    clearbody m1.
    assert (Ht : (Rabs (IZR num - IZR m1 * IZR den) <= IZR den / 2)%R).
    { rewrite <- mult_IZR, <- minus_IZR, <- abs_IZR.
      apply IZR_le in Hm1. rewrite mult_IZR in Hm1. lra. }
    assert (Heq : ((IZR n - IZR m1 * u * IZR d) * IZR den
                   = u * IZR d * (IZR num - IZR m1 * IZR den))%R).
    { transitivity (IZR n * IZR den - IZR m1 * u * IZR d * IZR den)%R; [ring|].
      rewrite <- Hfrac. ring. }
    apply Rmult_le_reg_r with (IZR den); [done|].
    rewrite <- (Rabs_pos_eq (IZR den)) at 1 by lra.
    rewrite <- Rabs_mult, Heq, Rabs_mult.
    rewrite (Rabs_pos_eq (u * IZR d)) by nra.
    assert (Hud : (0 < u * IZR d)%R) by nra.
    pose proof (Rabs_pos (IZR num - IZR m1 * IZR den)). nra.
  - by destruct (m1 =? 2 ^ 53).
Qed.

Lemma roundFloat64_spec_x (n d : Z) (x : R) :
  0 < n → 0 < d → IZR n = (x * IZR d)%R →
  ∃ q m1 : Z,
    -1074 ≤ q
    ∧ (-1074 < q → (IZR (2 ^ 52) * powerRZ 2 q <= x)%R)
    ∧ (x < IZR (2 ^ 53) * powerRZ 2 q)%R
    ∧ (Rabs (x - IZR m1 * powerRZ 2 q) <= powerRZ 2 q / 2)%R
    ∧ strconv.roundFloat64 n d
      = if m1 =? 2 ^ 53
        then (if 971 <? q + 1 then None else Some (2 ^ 52, q + 1))
        else (if 971 <? q then None else Some (m1, q)).
Proof.
  intros Hn Hd Hx.
  assert (HdR : (0 < IZR d)%R) by (by apply IZR_lt).
  destruct (roundFloat64_spec n d Hn Hd) as (q & m1 & Hq & Hlo & Hhi & Habs & Hres).
  exists q, m1. rewrite !IZR_pow by lia. rewrite Hx in Hlo, Hhi, Habs.
  split; [done|]. split; [|split; [|split; [|done]]].
  - intros Hq'. specialize (Hlo Hq').
    apply Rmult_le_reg_r with (IZR d); [done|exact Hlo].
  - apply Rmult_lt_reg_r with (IZR d); [done|exact Hhi].
  - apply Rmult_le_reg_r with (IZR d); [done|].
    rewrite <- (Rabs_pos_eq (IZR d)) at 1 by lra. rewrite <- Rabs_mult.
    replace ((x - IZR m1 * powerRZ 2 q) * IZR d)%R
      with (x * IZR d - IZR m1 * powerRZ 2 q * IZR d)%R by ring.
    lra.
Qed.

Lemma Rabs_le_inv (a b : R) : (Rabs a <= b)%R → (- b <= a <= b)%R.
Proof.
  intros H. pose proof (Rle_abs a). pose proof (Rle_abs (- a)) as H'.
  rewrite Rabs_Ropp in H'. lra.
Qed.

Lemma powerRZ_2_ge (k : Z) : 1 ≤ k → (2 <= powerRZ 2 k)%R.
Proof.
  intros Hk. pose proof (powerRZ_mono 2 1 k ltac:(lra) Hk) as H.
  by rewrite powerRZ_1 in H.
Qed.

Lemma powerRZ_4_ge (k : Z) : 2 ≤ k → (4 <= powerRZ 2 k)%R.
Proof.
  intros Hk. pose proof (powerRZ_mono 2 2 k ltac:(lra) Hk) as H.
  simpl in H. lra.
Qed.

(** A fraction nearer to [m * 2^q] than to the neighbouring floats is
    rounded to [m * 2^q]. *)
Lemma roundFloat64_near (n d m q : Z) (x : R) :
  0 < n → 0 < d → IZR n = (x * IZR d)%R →
  0 < m < 2 ^ 53 → -1074 ≤ q ≤ 971 → (-1074 < q → 2 ^ 52 ≤ m) →
  (x - IZR m * powerRZ 2 q < powerRZ 2 q / 2)%R →
  (IZR m * powerRZ 2 q - x
   < if (m =? 2 ^ 52) && (-1074 <? q) then powerRZ 2 q / 4 else powerRZ 2 q / 2)%R →
  strconv.roundFloat64 n d = Some (m, q).
Proof.
  intros Hn Hd Hx Hm Hq Hnorm Hup Hdown.
  destruct (roundFloat64_spec_x n d x Hn Hd Hx) as (q' & m1 & Hq' & Hlo & Hhi & Habs & ->).
  set (u := powerRZ 2 q) in *. set (u' := powerRZ 2 q') in *.
  assert (Hu : (0 < u)%R) by (apply powerRZ_lt; lra).
  assert (Hu' : (0 < u')%R) by (apply powerRZ_lt; lra).
  change (2 ^ 52) with 4503599627370496 in *.
  change (2 ^ 53) with 9007199254740992 in *.
  apply Rabs_le_inv in Habs as [Ha1 Ha2].
  assert (Hmlt : (IZR m <= 9007199254740991)%R) by (apply IZR_le; lia).
  assert (Hdown' : (IZR m * u - x < u / 2)%R).
  { destruct (_ && _); lra. }
  assert (Hmu : (IZR m * u <= 9007199254740991 * u)%R).
  { apply Rmult_le_compat_r; lra. }
  destruct (Z.lt_trichotomy q' q) as [Hlt|[->|Hgt]].
  - (* the exponent taken is smaller: [x] is just below a power of two *)
    assert (Hmge : (4503599627370496 <= IZR m)%R) by (apply IZR_le; lia).
    assert (Huu : u = (u' * powerRZ 2 (q - q'))%R).
    { unfold u, u'. rewrite <- powerRZ_add by lra. f_equal. lia. }
    pose proof (powerRZ_2_ge (q - q') ltac:(lia)) as H2.
    assert (Hu2 : (2 * u' <= u)%R).
    { rewrite Huu. rewrite (Rmult_comm u'). apply Rmult_le_compat_r; lra. }
    assert (Hm52 : m = 4503599627370496).
    { destruct (Z.eq_dec m 4503599627370496) as [|Hne]; [done|].
      assert (Hm' : (4503599627370497 <= IZR m)%R) by (apply IZR_le; lia).
      assert (Hmu' : (4503599627370497 * u <= IZR m * u)%R).
      { apply Rmult_le_compat_r; lra. }
      exfalso. lra. }
    subst m. replace (-1074 <? q) with true in Hdown by (symmetry; apply Z.ltb_lt; lia).
    simpl in Hdown.
    assert (Hk : q - q' = 1).
    { destruct (Z.eq_dec (q - q') 1) as [|Hne]; [done|].
      pose proof (powerRZ_4_ge (q - q') ltac:(lia)) as H4.
      assert (Hu4 : (4 * u' <= u)%R).
      { rewrite Huu. rewrite (Rmult_comm u'). apply Rmult_le_compat_r; lra. }
      exfalso. lra. }
    rewrite Hk, powerRZ_1 in Huu.
    assert (Hm1 : m1 = 9007199254740992).
    { assert (H1 : (9007199254740991 < IZR m1)%R).
      { apply Rmult_lt_reg_r with u'; [done|]. lra. }
      assert (H2' : (IZR m1 < 9007199254740993)%R).
      { apply Rmult_lt_reg_r with u'; [done|]. lra. }
      apply lt_IZR in H1, H2'. lia. }
    subst m1. simpl. replace (q' + 1) with q by lia.
    replace (971 <? q) with false by (symmetry; apply Z.ltb_ge; lia). done.
  - (* the same exponent *)
    assert (Hm1 : m1 = m).
    { assert (H1 : (IZR m1 - IZR m < 1)%R).
      { apply Rmult_lt_reg_r with u; [done|]. unfold u' in *. fold u in Ha1, Ha2. lra. }
      assert (H2' : (-1 < IZR m1 - IZR m)%R).
      { apply Rmult_lt_reg_r with u; [done|]. unfold u' in *. fold u in Ha1, Ha2. lra. }
      rewrite <- minus_IZR in H1, H2'. apply lt_IZR in H1, H2'. lia. }
    subst m1. replace (m =? 9007199254740992) with false
      by (symmetry; apply Z.eqb_neq; lia).
    replace (971 <? q) with false by (symmetry; apply Z.ltb_ge; lia). done.
  - (* a larger exponent is impossible *)
    assert (Huu : u' = (u * powerRZ 2 (q' - q))%R).
    { unfold u, u'. rewrite <- powerRZ_add by lra. f_equal. lia. }
    pose proof (powerRZ_2_ge (q' - q) ltac:(lia)) as H2.
    assert (Hu2 : (2 * u <= u')%R).
    { rewrite Huu. rewrite (Rmult_comm u). apply Rmult_le_compat_r; lra. }
    specialize (Hlo ltac:(lia)). exfalso. lra.
Qed.

(** *** The floats that [strconv.ParseFloat] returns *)

Lemma roundFloat64_canonical (n d m q : Z) :
  0 ≤ n → 0 < d → strconv.roundFloat64 n d = Some (m, q) →
  canonical (Float64 false m q).
Proof.
  intros Hn Hd. destruct (Z.eq_dec n 0) as [->|Hne].
  { unfold strconv.roundFloat64. simpl. intros [= <- <-]. by repeat split. }
  destruct (roundFloat64_spec_x n d (IZR n / IZR d) ltac:(lia) Hd)
    as (q' & m1 & Hq' & Hlo & Hhi & Habs & ->).
  { field. apply Rgt_not_eq, IZR_lt. lia. }
  set (x := (IZR n / IZR d)%R) in *. set (u := powerRZ 2 q') in *.
  assert (Hu : (0 < u)%R) by (apply powerRZ_lt; lra).
  assert (Hx : (0 < x)%R).
  { unfold x. apply Rdiv_lt_0_compat; apply IZR_lt; lia. }
  change (2 ^ 52) with 4503599627370496 in *.
  change (2 ^ 53) with 9007199254740992 in *.
  apply Rabs_le_inv in Habs as [Ha1 Ha2].
  assert (Hm1hi : m1 ≤ 9007199254740992).
  { assert (H : (IZR m1 < 9007199254740993)%R).
    { apply Rmult_lt_reg_r with u; [done|]. lra. }
    apply lt_IZR in H. lia. }
  assert (Hm1lo : 0 ≤ m1).
  { assert (H : (-1 < IZR m1)%R).
    { apply Rmult_lt_reg_r with u; [done|]. lra. }
    apply lt_IZR in H. lia. }
  assert (Hm1n : -1074 < q' → 4503599627370496 ≤ m1).
  { intros Hq. specialize (Hlo Hq).
    assert (H : (4503599627370495 < IZR m1)%R).
    { apply Rmult_lt_reg_r with u; [done|]. lra. }
    apply lt_IZR in H. lia. }
  unfold canonical. simpl.
  destruct (m1 =? 9007199254740992) eqn:E.
  - destruct (971 <? q' + 1) eqn:E'; [done|]. apply Z.ltb_ge in E'.
    intros [= <- <-]. lia.
  - apply Z.eqb_neq in E. destruct (971 <? q') eqn:E'; [done|]. apply Z.ltb_ge in E'.
    intros [= <- <-]. lia.
Qed.

Lemma ParseFloat_canonical (x : number) (f : float64) :
  0 ≤ n_digits x → strconv.ParseFloat x = Some f → canonical f.
Proof.
  intros Hx. unfold strconv.ParseFloat.
  destruct (0 <=? n_exp10 x) eqn:He.
  - apply Z.leb_le in He.
    destruct (strconv.roundFloat64 _ 1) as [[m q]|] eqn:Hr; [|done].
    intros [= <-]. eapply (roundFloat64_canonical _ 1); [|done|exact Hr].
    apply Z.mul_nonneg_nonneg; [done|]. apply Z.pow_nonneg. lia.
  - apply Z.leb_gt in He.
    destruct (strconv.roundFloat64 _ _) as [[m q]|] eqn:Hr; [|done].
    intros [= <-]. eapply roundFloat64_canonical; [done| |exact Hr].
    apply Z.pow_pos_nonneg; lia.
Qed.

(** *** The shortest decimal *)

Lemma scaled_spec (m q e : Z) :
  let '(num, den) := scaled m q e in
  0 < den ∧ (IZR num * powerRZ 10 e = IZR m * powerRZ 2 q * IZR den)%R.
Proof.
  unfold scaled.
  destruct (pow_max_quot 2 q ltac:(lia)) as (H2 & H2a & H2b).
  destruct (pow_max_quot 10 e ltac:(lia)) as (H10 & H10a & H10b).
  split.
  - apply Z.mul_pos_pos; apply Z.pow_pos_nonneg; lia.
  - rewrite !mult_IZR. rewrite H2, H10. ring.
Qed.

Lemma ParseFloat_fraction (neg : bool) (c e : Z) :
  ∃ n d, 0 < d ∧ IZR n = (IZR c * powerRZ 10 e * IZR d)%R
    ∧ (0 < c → 0 < n)
    ∧ strconv.ParseFloat (Number neg c e)
      = match strconv.roundFloat64 n d with
        | Some (m, q) => Some (Float64 neg m q)
        | None => None
        end.
Proof.
  unfold strconv.ParseFloat. simpl.
  destruct (0 <=? e) eqn:He.
  - apply Z.leb_le in He. exists (c * 10 ^ e), 1. split; [done|].
    split; [rewrite mult_IZR, IZR_pow by done; simpl; ring|].
    split; [|done]. intros Hc. apply Z.mul_pos_pos; [done|].
    apply Z.pow_pos_nonneg; lia.
  - apply Z.leb_gt in He. exists c, (10 ^ (- e)).
    split; [apply Z.pow_pos_nonneg; lia|].
    split; [|done].
    rewrite IZR_pow by lia. rewrite powerRZ_opp by lra.
    field. apply Rgt_not_eq, powerRZ_lt. lra.
Qed.

(** The decimal [c * 10^e] is read as the float it is nearest to. *)
Lemma ParseFloat_near (neg : bool) (c e m q : Z) :
  0 < c → 0 < m < 2 ^ 53 → -1074 ≤ q ≤ 971 → (-1074 < q → 2 ^ 52 ≤ m) →
  (IZR c * powerRZ 10 e - IZR m * powerRZ 2 q < powerRZ 2 q / 2)%R →
  (IZR m * powerRZ 2 q - IZR c * powerRZ 10 e
   < if (m =? 2 ^ 52) && (-1074 <? q) then powerRZ 2 q / 4 else powerRZ 2 q / 2)%R →
  strconv.ParseFloat (Number neg c e) = Some (Float64 neg m q).
Proof.
  intros Hc Hm Hq Hnorm Hup Hdown.
  destruct (ParseFloat_fraction neg c e) as (n & d & Hd & Hn & Hpos & ->).
  by rewrite (roundFloat64_near n d m q _ (Hpos Hc) Hd Hn Hm Hq Hnorm Hup Hdown).
Qed.

Lemma float_eqb_eq (f g : float64) : float_eqb f g = true → f = g.
Proof.
  destruct f as [a m q], g as [b m' q']. unfold float_eqb. simpl.
  intros [[H1 H2]%andb_true_iff H3]%andb_true_iff.
  apply Bool.eqb_prop in H1. apply Z.eqb_eq in H2, H3. by subst.
Qed.

Lemma parsesTo_spec (f : float64) (ce : Z * Z) :
  parsesTo f ce = true → strconv.ParseFloat (Number (f_neg f) ce.1 ce.2) = Some f.
Proof.
  unfold parsesTo. destruct (strconv.ParseFloat _) as [g|]; [|done].
  by intros ->%float_eqb_eq.
Qed.

Lemma trimZeros_spec (fuel : nat) :
  ∀ c e, 0 < c →
    let ce := trimZeros fuel c e in
    0 < ce.1 ≤ c ∧ e ≤ ce.2 ≤ e + Z.of_nat fuel
    ∧ (IZR ce.1 * powerRZ 10 ce.2 = IZR c * powerRZ 10 e)%R.
Proof.
  induction fuel as [|fuel IH]; intros c e Hc.
  { simpl. split; [lia|]. split; [lia|done]. }
  cbn [trimZeros]. replace (0 <? c) with true by (symmetry; by apply Z.ltb_lt).
  cbn [andb]. destruct (c mod 10 =? 0) eqn:E.
  - apply Z.eqb_eq in E.
    pose proof (Z.div_mod c 10 ltac:(lia)) as Hdm. rewrite E, Z.add_0_r in Hdm.
    assert (Hc' : 0 < c / 10) by lia.
    destruct (IH (c / 10) (e + 1) Hc') as (H1 & H2 & H3).
    split; [lia|]. split; [lia|]. rewrite H3.
    rewrite powerRZ_succ by lra. rewrite Hdm at 2. rewrite mult_IZR. ring.
  - simpl. split; [lia|]. split; [lia|done].
Qed.

Lemma pow10_le_2_1074 : 2 ^ 1074 ≤ 10 ^ 324.
Proof. apply Z.leb_le. by vm_compute. Qed.

Lemma pow2_1024_le_10 : 2 ^ 1024 ≤ 10 ^ 309.
Proof. apply Z.leb_le. by vm_compute. Qed.

(** The range of the positive floats. *)
Lemma float_range (m q : Z) :
  0 < m < 2 ^ 53 → -1074 ≤ q ≤ 971 →
  (powerRZ 10 (-324) <= IZR m * powerRZ 2 q < powerRZ 10 309)%R.
Proof.
  intros Hm Hq.
  assert (H1 : (1 <= IZR m)%R) by (apply IZR_le; lia).
  assert (H2 : (IZR m < powerRZ 2 53)%R).
  { rewrite <- IZR_pow by lia. apply IZR_lt. lia. }
  assert (Hu : (0 < powerRZ 2 q)%R) by (apply powerRZ_lt; lra).
  split.
  - apply Rle_trans with (powerRZ 2 (-1074)).
    + change (-324) with (- (324)). change (-1074) with (- (1074)).
      rewrite !powerRZ_opp by lra. rewrite <- !IZR_pow by lia.
      apply Rinv_le_contravar; [apply IZR_lt; by apply Z.pow_pos_nonneg|].
      apply IZR_le, pow10_le_2_1074.
    + pose proof (powerRZ_mono 2 (-1074) q ltac:(lra) ltac:(lia)). nra.
  - apply Rlt_le_trans with (powerRZ 2 1024).
    + replace 1024 with (53 + 971) by lia. rewrite powerRZ_add by lra.
      pose proof (powerRZ_mono 2 q 971 ltac:(lra) ltac:(lia)).
      assert (0 < powerRZ 2 971)%R by (apply powerRZ_lt; lra). nra.
    + rewrite <- !IZR_pow by lia. apply IZR_le, pow2_1024_le_10.
Qed.

Lemma decimalPoint_from_spec (m q : Z) (fuel : nat) :
  ∀ k, (powerRZ 10 (k - 1) <= IZR m * powerRZ 2 q)%R →
       (IZR m * powerRZ 2 q < powerRZ 10 (k + Z.of_nat fuel))%R →
       let k' := decimalPoint_from fuel m q k in
       k ≤ k' ≤ k + Z.of_nat fuel
       ∧ (powerRZ 10 (k' - 1) <= IZR m * powerRZ 2 q < powerRZ 10 k')%R.
Proof.
  induction fuel as [|fuel IH]; intros k Hlo Hhi.
  { simpl in *. rewrite Z.add_0_r in Hhi. split; [lia|done]. }
  cbn [decimalPoint_from].
  pose proof (scaled_spec m q k) as Hs. destruct (scaled m q k) as [num den].
  destruct Hs as [Hden Hs].
  assert (HdenR : (0 < IZR den)%R) by (by apply IZR_lt).
  assert (H10 : (0 < powerRZ 10 k)%R) by (apply powerRZ_lt; lra).
  destruct (num <? den) eqn:E.
  - apply Z.ltb_lt in E. split; [lia|]. split; [done|].
    apply IZR_lt in E. apply Rmult_lt_reg_r with (IZR den); [done|].
    rewrite <- Hs. rewrite (Rmult_comm (powerRZ 10 k)).
    apply Rmult_lt_compat_r; done.
  - apply Z.ltb_ge in E.
    destruct (IH (k + 1)) as [H1 H2].
    + replace (k + 1 - 1) with k by lia. apply IZR_le in E.
      apply Rmult_le_reg_r with (IZR den); [done|].
      rewrite <- Hs. rewrite (Rmult_comm (powerRZ 10 k)).
      apply Rmult_le_compat_r; [lra|done].
    + replace (k + 1 + Z.of_nat fuel) with (k + Z.of_nat (S fuel)) by lia. done.
    + split; [lia|done].
Qed.

Lemma decimalPoint_spec (m q : Z) :
  0 < m < 2 ^ 53 → -1074 ≤ q ≤ 971 →
  let k := decimalPoint m q in
  -323 ≤ k ≤ 317
  ∧ (powerRZ 10 (k - 1) <= IZR m * powerRZ 2 q < powerRZ 10 k)%R.
Proof.
  intros Hm Hq. destruct (float_range m q Hm Hq) as [Hlo Hhi].
  destruct (decimalPoint_from_spec m q 640 (-323)) as [H1 H2]; [done| |].
  - eapply Rlt_le_trans; [exact Hhi|]. apply powerRZ_mono; [lra|lia].
  - split; [|done]. unfold decimalPoint. lia.
Qed.

Lemma nearest_quotient (num den : Z) :
  0 < den →
  let lo := num / den in
  let r := num mod den in
  let up := (den <? 2 * r) || ((2 * r =? den) && Z.odd lo) in
  2 * Z.abs (num - (if up then lo + 1 else lo) * den) ≤ den.
Proof.
  intros Hden lo r up.
  pose proof (Z.div_mod num den ltac:(lia)) as Hdm.
  pose proof (Z.mod_pos_bound num den Hden) as Hr.
  fold lo r in Hdm, Hr. unfold up.
  destruct (den <? 2 * r) eqn:E1; simpl.
  - apply Z.ltb_lt in E1. nia.
  - apply Z.ltb_ge in E1. destruct (2 * r =? den) eqn:E2; simpl.
    + apply Z.eqb_eq in E2. destruct (Z.odd lo); nia.
    + nia.
Qed.

(** The two decimals of [n] digits next to a float. *)
Lemma roundedTo_spec (m q k n : Z) :
  0 < m → 1 ≤ n →
  (powerRZ 10 (k - 1) <= IZR m * powerRZ 2 q < powerRZ 10 k)%R →
  let '(near, other) := roundedTo m q k n in
  (0 < near.1 ≤ 10 ^ n ∧ k - n ≤ near.2 ≤ k - n + 18
   ∧ (Rabs (IZR m * powerRZ 2 q - IZR near.1 * powerRZ 10 near.2)
      <= powerRZ 10 (k - n) / 2)%R)
  ∧ (0 < other.1 ≤ 10 ^ n ∧ k - n ≤ other.2 ≤ k - n + 18).
Proof.
  intros Hm Hn [Hlo Hhi]. unfold roundedTo.
  pose proof (scaled_spec m q (k - n)) as Hs.
  destruct (scaled m q (k - n)) as [num den]. destruct Hs as [Hden Hs].
  set (e := k - n) in *.
  assert (HdenR : (0 < IZR den)%R) by (by apply IZR_lt).
  assert (He : (0 < powerRZ 10 e)%R) by (apply powerRZ_lt; lra).
  set (x := (IZR m * powerRZ 2 q)%R) in *.
  assert (Hp1 : 0 < 10 ^ (n - 1)) by (apply Z.pow_pos_nonneg; lia).
  assert (Hpn : 10 ^ n = 10 * 10 ^ (n - 1)).
  { rewrite <- Z.pow_succ_r by lia. f_equal. lia. }
  (* the quotient has [n] digits *)
  assert (Hq1 : 10 ^ (n - 1) * den ≤ num).
  { apply le_IZR. rewrite mult_IZR, IZR_pow by lia.
    apply Rmult_le_reg_r with (powerRZ 10 e); [done|]. rewrite Hs.
    replace (powerRZ (IZR 10) (n - 1) * IZR den * powerRZ 10 e)%R
      with (powerRZ 10 (n - 1) * powerRZ 10 e * IZR den)%R by ring.
    rewrite <- powerRZ_add by lra. replace (n - 1 + e) with (k - 1) by (unfold e; lia).
    apply Rmult_le_compat_r; [lra|done]. }
  assert (Hq2 : num < 10 ^ n * den).
  { apply lt_IZR. rewrite mult_IZR, IZR_pow by lia.
    apply Rmult_lt_reg_r with (powerRZ 10 e); [done|]. rewrite Hs.
    replace (powerRZ (IZR 10) n * IZR den * powerRZ 10 e)%R
      with (powerRZ 10 n * powerRZ 10 e * IZR den)%R by ring.
    rewrite <- powerRZ_add by lra. replace (n + e) with k by (unfold e; lia).
    apply Rmult_lt_compat_r; done. }
  assert (Hlo1 : 10 ^ (n - 1) ≤ num / den).
  { apply Z.div_le_lower_bound; [done|]. lia. }
  assert (Hlo2 : num / den < 10 ^ n).
  { apply Z.div_lt_upper_bound; [done|]. lia. }
  pose proof (nearest_quotient num den Hden) as Hnear. cbv zeta in Hnear.
  set (lo := num / den) in *.
  set (up := (den <? 2 * (num mod den)) || ((2 * (num mod den) =? den) && Z.odd lo)) in *.
  set (c := if up then lo + 1 else lo) in *.
  set (c' := if up then lo else lo + 1).
  assert (Hc : 0 < c ≤ 10 ^ n) by (unfold c; destruct up; lia).
  assert (Hc' : 0 < c' ≤ 10 ^ n) by (unfold c'; destruct up; lia).
  destruct (trimZeros_spec 18 c e ltac:(lia)) as (T1 & T2 & T3).
  destruct (trimZeros_spec 18 c' e ltac:(lia)) as (T1' & T2' & _).
  split; [|split; [lia|lia]].
  split; [lia|]. split; [lia|]. rewrite T3.
  (* the distance *)
  apply IZR_le in Hnear. rewrite mult_IZR, abs_IZR, minus_IZR, mult_IZR in Hnear.
  apply Rmult_le_reg_r with (IZR den); [done|].
  rewrite <- (Rabs_pos_eq (IZR den)) at 1 by lra. rewrite <- Rabs_mult.
  replace ((x - IZR c * powerRZ 10 e) * IZR den)%R
    with ((IZR num - IZR c * IZR den) * powerRZ 10 e)%R by (rewrite Rmult_minus_distr_r, Hs; ring).
  rewrite Rabs_mult, (Rabs_pos_eq (powerRZ 10 e)) by lra.
  pose proof (Rabs_pos (IZR num - IZR c * IZR den)). nra.
Qed.

Lemma shortest_from_spec (f : float64) (k : Z) (fuel : nat) :
  0 < f_mant f < 2 ^ 53 → -1074 ≤ f_exp f ≤ 971 → (-1074 < f_exp f → 2 ^ 52 ≤ f_mant f) →
  (powerRZ 10 (k - 1) <= IZR (f_mant f) * powerRZ 2 (f_exp f) < powerRZ 10 k)%R →
  ∀ n, 1 ≤ n → n + Z.of_nat fuel = 17 →
    let ce := shortest_from fuel f k n in
    strconv.ParseFloat (Number (f_neg f) ce.1 ce.2) = Some f
    ∧ 0 < ce.1 ≤ 10 ^ 17 ∧ k - 17 ≤ ce.2 ≤ k + 18.
Proof.
  intros Hm Hq Hnorm Hk. destruct f as [neg m q]. simpl in *.
  induction fuel as [|fuel IH]; intros n Hn Hfuel.
  - (* seventeen digits *)
    assert (n = 17) as -> by lia. cbn [shortest_from f_mant f_exp].
    pose proof (roundedTo_spec m q k 17 ltac:(lia) ltac:(lia) Hk) as Hr.
    destruct (roundedTo m q k 17) as [[c e] other].
    destruct Hr as [(Hc & He & Hdist) _]. simpl in *.
    split; [|split; [lia|lia]].
    apply Rabs_le_inv in Hdist as [Hd1 Hd2].
    set (u := powerRZ 2 q) in *. set (t := powerRZ 10 (k - 17)) in *.
    assert (Hu : (0 < u)%R) by (apply powerRZ_lt; lra).
    assert (Ht : (10000000000000000 * t <= IZR m * u)%R).
    { destruct Hk as [Hk _]. replace (k - 1) with (16 + (k - 17)) in Hk by lia.
      rewrite powerRZ_add in Hk by lra. rewrite <- (IZR_pow 10 16) in Hk by lia.
      exact Hk. }
    assert (Hmu : (IZR m * u <= 9007199254740991 * u)%R).
    { apply Rmult_le_compat_r; [lra|]. apply IZR_le. lia. }
    apply ParseFloat_near; [lia|lia|lia|done| |].
    + fold u. lra.
    + fold u. destruct ((m =? 2 ^ 52) && (-1074 <? q)) eqn:E; [|lra].
      apply andb_true_iff in E as [E _]. apply Z.eqb_eq in E. subst m.
      change (2 ^ 52) with 4503599627370496 in *. lra.
  - cbn [shortest_from f_mant f_exp].
    pose proof (roundedTo_spec m q k n ltac:(lia) Hn Hk) as Hr.
    destruct (roundedTo m q k n) as [near other].
    destruct Hr as [(Hc & He & _) (Hc' & He')].
    assert (Hpow : 10 ^ n ≤ 10 ^ 17) by (apply Z.pow_le_mono_r; lia).
    destruct (parsesTo (Float64 neg m q) near) eqn:E1.
    { split; [by apply (parsesTo_spec (Float64 neg m q))|]. lia. }
    destruct (parsesTo (Float64 neg m q) other) eqn:E2.
    { split; [by apply (parsesTo_spec (Float64 neg m q))|]. lia. }
    apply IH; lia.
Qed.

(** The decimal that [shortest] returns for a float other than zero is read
    back as that float. *)
Lemma shortest_spec (f : float64) :
  canonical f → f_mant f ≠ 0 →
  let ce := shortest f in
  strconv.ParseFloat (Number (f_neg f) ce.1 ce.2) = Some f
  ∧ 0 < ce.1 ≤ 10 ^ 17 ∧ -340 ≤ ce.2 ≤ 335.
Proof.
  intros (Hm & Hq & Hnorm & _) Hnz. unfold shortest.
  replace (f_mant f =? 0) with false by (symmetry; by apply Z.eqb_neq).
  destruct (decimalPoint_spec (f_mant f) (f_exp f) ltac:(lia) Hq) as [Hk Hk'].
  destruct (shortest_from_spec f _ 16 ltac:(lia) Hq Hnorm Hk' 1 ltac:(lia) ltac:(lia))
    as (H1 & H2 & H3).
  split; [done|]. split; [done|lia].
Qed.

(** ** The text of a float *)

(** *** Runs of digits *)

Lemma digitChar_spec (d : Z) :
  0 ≤ d ≤ 9 →
  isDigit (digitChar d) = true ∧ digitVal (digitChar d) = d
  ∧ Ascii.eqb (digitChar d) "0" = (d =? 0)
  ∧ Ascii.eqb (digitChar d) "e" = false.
Proof.
  intros Hd.
  assert (H : d = 0 ∨ d = 1 ∨ d = 2 ∨ d = 3 ∨ d = 4 ∨ d = 5 ∨ d = 6 ∨ d = 7 ∨ d = 8 ∨ d = 9)
    by lia.
  destruct H as [->|[->|[->|[->|[->|[->|[->|[->|[->| ->]]]]]]]]]; by vm_compute.
Qed.

Lemma allDigits_app (s t : string) : allDigits (s ++ t) = allDigits s && allDigits t.
Proof.
  induction s as [|c s IH]; [done|].
  rewrite string_app_cons. simpl. by rewrite IH, andb_assoc.
Qed.

Lemma dval_app (s t : string) : ∀ acc, dval acc (s ++ t) = dval (dval acc s) t.
Proof.
  induction s as [|c s IH]; intros acc; [done|].
  rewrite string_app_cons. simpl. apply IH.
Qed.

Lemma digits_run (s rest : string) :
  allDigits s = true → noDigitAhead rest →
  ∀ acc k, digits (s ++ rest) acc k = (dval acc s, k + Z.of_nat (String.length s), rest).
Proof.
  intros Hs Hrest. induction s as [|c s IH]; intros acc k.
  - rewrite string_app_nil_l. simpl. rewrite Z.add_0_r.
    destruct rest as [|c r]; [done|]. simpl in *. by rewrite Hrest.
  - simpl in Hs. apply andb_true_iff in Hs as [Hc Hs].
    rewrite string_app_cons. cbn [digits dval String.length]. rewrite Hc, (IH Hs).
    f_equal. f_equal. lia.
Qed.

Lemma zeros_length (n : nat) : String.length (zeros n) = n.
Proof. induction n as [|n IH]; simpl; [done|by rewrite IH]. Qed.

Lemma zeros_allDigits (n : nat) : allDigits (zeros n) = true.
Proof. induction n as [|n IH]; [done|]. simpl. exact IH. Qed.

Lemma zeros_dval (n : nat) : ∀ acc, dval acc (zeros n) = acc * 10 ^ Z.of_nat n.
Proof.
  induction n as [|n IH]; intros acc; [simpl; lia|].
  cbn [zeros dval]. rewrite IH. change (digitVal "0") with 0.
  rewrite Nat2Z.inj_succ, Z.pow_succ_r by lia. ring.
Qed.

Lemma digitsOf_allDigits (fuel : nat) : ∀ c, allDigits (digitsOf fuel c) = true.
Proof.
  induction fuel as [|fuel IH]; intros c; [done|].
  cbn [digitsOf]. destruct (c <=? 0) eqn:E; [done|]. apply Z.leb_gt in E.
  rewrite allDigits_app, IH. simpl.
  destruct (digitChar_spec (c mod 10)) as [-> _]; [|done].
  pose proof (Z.mod_pos_bound c 10). lia.
Qed.

Lemma digitsOf_dval (fuel : nat) :
  ∀ c acc, 0 ≤ c < 2 ^ Z.of_nat fuel →
    dval acc (digitsOf fuel c) = acc * 10 ^ Z.of_nat (String.length (digitsOf fuel c)) + c.
Proof.
  induction fuel as [|fuel IH]; intros c acc Hc.
  { simpl in *. lia. }
  cbn [digitsOf]. destruct (c <=? 0) eqn:E.
  { apply Z.leb_le in E. simpl. lia. }
  apply Z.leb_gt in E.
  pose proof (Z.div_mod c 10 ltac:(lia)) as Hdm.
  pose proof (Z.mod_pos_bound c 10 ltac:(lia)) as Hmod.
  rewrite Nat2Z.inj_succ, Z.pow_succ_r in Hc by lia.
  assert (Hc' : 0 ≤ c / 10 < 2 ^ Z.of_nat fuel).
  { split; [apply Z.div_pos; lia|]. apply Z.div_lt_upper_bound; lia. }
  rewrite dval_app, (IH _ _ Hc'). cbn [dval].
  destruct (digitChar_spec (c mod 10) ltac:(lia)) as (_ & -> & _).
  rewrite string_app_length. cbn [String.length].
  rewrite Nat2Z.inj_add. change (Z.of_nat 1) with 1.
  rewrite Z.pow_add_r by lia. lia.
Qed.

(** The digits of a positive integer start with a digit other than zero. *)
Lemma digitsOf_head (fuel : nat) :
  ∀ c, 0 < c < 2 ^ Z.of_nat fuel →
    ∃ d r, digitsOf fuel c = String d r ∧ isDigit d = true ∧ Ascii.eqb d "0" = false.
Proof.
  induction fuel as [|fuel IH]; intros c Hc.
  { simpl in *. lia. }
  cbn [digitsOf]. replace (c <=? 0) with false by (symmetry; apply Z.leb_gt; lia).
  pose proof (Z.div_mod c 10 ltac:(lia)) as Hdm.
  pose proof (Z.mod_pos_bound c 10 ltac:(lia)) as Hmod.
  rewrite Nat2Z.inj_succ, Z.pow_succ_r in Hc by lia.
  destruct (Z.eq_dec (c / 10) 0) as [H0|Hne].
  - rewrite H0. replace (digitsOf fuel 0) with "" by (by destruct fuel).
    rewrite string_app_nil_l. eexists _, _. split; [done|].
    destruct (digitChar_spec (c mod 10) ltac:(lia)) as (-> & _ & -> & _).
    split; [done|]. apply Z.eqb_neq. lia.
  - assert (Hc' : 0 < c / 10 < 2 ^ Z.of_nat fuel).
    { split; [pose proof (Z.div_pos c 10); lia|]. apply Z.div_lt_upper_bound; lia. }
    destruct (IH _ Hc') as (d & r & -> & Hd & Hz).
    rewrite string_app_cons. by eexists _, _.
Qed.

Lemma decimalDigits_fuel (c : Z) : 0 < c → 0 < c < 2 ^ Z.of_nat (S (Z.to_nat (Z.log2 c))).
Proof.
  intros Hc. split; [done|].
  pose proof (Z.log2_nonneg c) as Hnn. destruct (Z.log2_spec c Hc) as [_ H].
  rewrite Nat2Z.inj_succ, Z2Nat.id by lia. exact H.
Qed.

Lemma decimalDigits_spec (c : Z) :
  0 < c →
  let ds := decimalDigits c in
  allDigits ds = true
  ∧ (∀ acc, dval acc ds = acc * 10 ^ Z.of_nat (String.length ds) + c)
  ∧ (∃ d r, ds = String d r ∧ isDigit d = true ∧ Ascii.eqb d "0" = false)
  ∧ Z.of_nat (String.length ds) ≤ Z.log2 c + 1.
Proof.
  intros Hc ds. pose proof (decimalDigits_fuel c Hc) as Hf.
  split; [apply digitsOf_allDigits|].
  split; [intros acc; apply digitsOf_dval; lia|].
  split; [by apply digitsOf_head|].
  unfold ds, decimalDigits. pose proof (Z.log2_nonneg c).
  assert (Hlen : ∀ fuel x, (String.length (digitsOf fuel x) ≤ fuel)%nat).
  { induction fuel as [|fuel IH]; intros x; [done|]. cbn [digitsOf].
    destruct (x <=? 0); [simpl; lia|]. rewrite string_app_length. simpl.
    specialize (IH (x / 10)). lia. }
  specialize (Hlen (S (Z.to_nat (Z.log2 c))) c). lia.
Qed.

(** *** The parts of a number literal *)

Lemma substring_drop (k : nat) :
  ∀ s, (k ≤ String.length s)%nat → String.substring 0 k s ++ drop k s = s.
Proof.
  induction k as [|k IH]; intros s Hk.
  - simpl. by destruct s.
  - destruct s as [|a s]; [simpl in Hk; lia|]. simpl in *.
    rewrite string_app_cons. f_equal. apply IH. lia.
Qed.

Lemma substring_length (k : nat) :
  ∀ s, (k ≤ String.length s)%nat → String.length (String.substring 0 k s) = k.
Proof.
  induction k as [|k IH]; intros s Hk.
  - by destruct s.
  - destruct s as [|a s]; [simpl in Hk; lia|]. simpl in *. f_equal. apply IH. lia.
Qed.

Lemma substring_full (s : string) : String.substring 0 (String.length s) s = s.
Proof.
  pose proof (substring_app_length s "") as H. by rewrite string_app_nil_r in H.
Qed.

Lemma scan_int_zero (rest : string) : scan_int (String "0" rest) = Some (0, rest).
Proof. reflexivity. Qed.

Lemma scan_int_run (ip rest : string) :
  allDigits ip = true →
  (∃ d r, ip = String d r ∧ Ascii.eqb d "0" = false) →
  noDigitAhead rest →
  scan_int (ip ++ rest) = Some (dval 0 ip, rest).
Proof.
  intros Hall (d & r & -> & Hz) Hrest.
  pose proof (digits_run (String d r) rest Hall Hrest 0 0) as Hrun.
  rewrite string_app_cons in *. unfold scan_int.
  simpl in Hall. apply andb_true_iff in Hall as [Hd _].
  rewrite Hd, Hz, Hrun. reflexivity.
Qed.

Lemma scan_frac_run (ip : Z) (fp rest : string) :
  allDigits fp = true → fp ≠ "" → noDigitAhead rest →
  scan_frac ip (String "." (fp ++ rest))
  = Some (dval ip fp, Z.of_nat (String.length fp), rest).
Proof.
  intros Hall Hne Hrest. cbn [scan_frac].
  rewrite (digits_run fp rest Hall Hrest ip 0). simpl.
  destruct fp as [|c fp]; [done|]. cbn [String.length].
  replace (Z.of_nat (S (String.length fp)) =? 0) with false; [done|].
  symmetry. apply Z.eqb_neq. lia.
Qed.

Lemma scan_int_end (ip : string) :
  allDigits ip = true →
  (∃ d r, ip = String d r ∧ Ascii.eqb d "0" = false) →
  scan_int ip = Some (dval 0 ip, "").
Proof.
  intros Hall Hhead. pose proof (scan_int_run ip "" Hall Hhead I) as H.
  by rewrite string_app_nil_r in H.
Qed.

Lemma scan_frac_end (ip : Z) (fp : string) :
  allDigits fp = true → fp ≠ "" →
  scan_frac ip (String "." fp) = Some (dval ip fp, Z.of_nat (String.length fp), "").
Proof.
  intros Hall Hne. pose proof (scan_frac_run ip fp "" Hall Hne I) as H.
  by rewrite string_app_nil_r in H.
Qed.

Lemma scan_frac_nil (ip : Z) : scan_frac ip "" = Some (ip, 0, "").
Proof. reflexivity. Qed.

Lemma scan_frac_e (ip : Z) (r : string) : scan_frac ip (String "e" r) = Some (ip, 0, String "e" r).
Proof. reflexivity. Qed.

(** The sign in front of a text that starts with a digit. *)
Lemma scan_number_signed (neg : bool) (body : string) :
  (∃ d r, body = String d r ∧ isDigit d = true) →
  scan_number ((if neg then "-" else "") ++ body)
  = match scan_int body with
    | None => None
    | Some (ip, s2) =>
      match scan_frac ip s2 with
      | None => None
      | Some (d, nfrac, s3) =>
        match scan_exp s3 with
        | None => None
        | Some (e, rest) => Some (Number neg d (e - nfrac), rest)
        end
      end
    end.
Proof.
  intros (d & r & -> & Hd). destruct neg.
  - reflexivity.
  - rewrite string_app_nil_l. unfold scan_number.
    destruct d as [[] [] [] [] [] [] [] []]; try discriminate Hd; reflexivity.
Qed.

Lemma ParseFloat_zeros (neg : bool) (c e : Z) :
  0 ≤ e →
  strconv.ParseFloat (Number neg (c * 10 ^ e) 0) = strconv.ParseFloat (Number neg c e).
Proof.
  intros He. unfold strconv.ParseFloat. simpl.
  replace (0 <=? e) with true by (symmetry; by apply Z.leb_le).
  by rewrite Z.mul_1_r.
Qed.

(** *** The format [%f] *)

Lemma fmtF_reads (neg : bool) (c e : Z) :
  0 < c →
  let ds := decimalDigits c in
  let dp := Z.of_nat (String.length ds) + e in
  ∃ num, number_text (fmtF neg ds dp) = Some num
         ∧ strconv.ParseFloat num = strconv.ParseFloat (Number neg c e).
Proof.
  intros Hc ds dp.
  destruct (decimalDigits_spec c Hc) as (Hall & Hval & (d & r & Hds & Hd & Hz) & _).
  fold ds in Hall, Hval, Hds.
  set (nd := Z.of_nat (String.length ds)) in *.
  assert (Hnd : 1 ≤ nd) by (unfold nd; rewrite Hds; simpl; lia).
  unfold fmtF, number_text. fold nd.
  destruct (0 <? dp) eqn:E1.
  - apply Z.ltb_lt in E1. destruct (dp <? nd) eqn:E2.
    + (* digits on both sides of the point *)
      apply Z.ltb_lt in E2.
      rewrite Z.min_r by lia.
      replace (Z.to_nat (dp - nd)) with O by lia.
      replace (Z.to_nat (- dp)) with O by lia.
      cbn [zeros]. rewrite string_app_nil_r, string_app_nil_l.
      set (k := Z.to_nat dp).
      assert (Hk : (k ≤ String.length ds)%nat) by (unfold k, nd in *; lia).
      pose proof (substring_drop k ds Hk) as Hsplit.
      pose proof (substring_length k ds Hk) as Hlen1.
      pose proof (drop_length k ds) as Hlen2.
      set (ip := String.substring 0 k ds) in *. set (fp := drop k ds) in *.
      assert (Hallp : allDigits ip = true ∧ allDigits fp = true).
      { rewrite <- Hsplit, allDigits_app in Hall. by apply andb_true_iff in Hall. }
      destruct Hallp as [Hip Hfp].
      assert (Hhead : ∃ d' r', ip = String d' r' ∧ Ascii.eqb d' "0" = false).
      { destruct ip as [|d' r'] eqn:Hipx; [simpl in Hlen1; unfold k in *; lia|].
        exists d', r'. split; [done|]. rewrite Hds in Hsplit.
        rewrite string_app_cons in Hsplit. by injection Hsplit as -> _. }
      assert (Hfpne : fp ≠ "").
      { intros Hnil. rewrite Hnil in Hlen2. simpl in Hlen2. unfold k, nd in *. lia. }
      rewrite scan_number_signed.
      2:{ destruct Hhead as (d' & r' & -> & _). rewrite string_app_cons.
          exists d', (r' ++ "." ++ fp). split; [done|].
          simpl in Hip. by apply andb_true_iff in Hip as [? _]. }
      rewrite (scan_int_run ip ("." ++ fp) Hip Hhead) by done.
      change ("." ++ fp) with (String "." fp).
      rewrite (scan_frac_end _ fp Hfp Hfpne).
      simpl. eexists. split; [reflexivity|].
      f_equal. f_equal.
      * rewrite <- dval_app, Hsplit, Hval. lia.
      * unfold dp, k, nd in *. lia.
    + (* no fraction *)
      apply Z.ltb_ge in E2. rewrite Z.min_l by lia.
      unfold nd at 1. rewrite Nat2Z.id, substring_full, string_app_nil_r.
      set (zs := zeros (Z.to_nat (dp - nd))).
      assert (Hallz : allDigits (ds ++ zs) = true).
      { unfold zs. by rewrite allDigits_app, Hall, zeros_allDigits. }
      rewrite scan_number_signed.
      2:{ rewrite Hds, string_app_cons. by eexists _, _. }
      rewrite (scan_int_end (ds ++ zs) Hallz);
        [|rewrite Hds, string_app_cons; by eexists _, _].
      simpl. eexists. split; [reflexivity|].
      rewrite dval_app. unfold zs. rewrite zeros_dval, Hval. rewrite Z2Nat.id by lia.
      replace (dp - nd) with e by (unfold dp; lia).
      rewrite Z.mul_0_l, Z.add_0_l, Z.sub_0_r.
      apply ParseFloat_zeros. unfold dp in E2. lia.
  - (* the digits follow zeros after the point *)
    apply Z.ltb_ge in E1.
    replace (dp <? nd) with true by (symmetry; apply Z.ltb_lt; lia).
    replace (Z.to_nat dp) with O by lia. cbn [drop].
    set (zs := zeros (Z.to_nat (- dp))).
    assert (Hallz : allDigits (zs ++ ds) = true).
    { unfold zs. by rewrite allDigits_app, Hall, zeros_allDigits. }
    rewrite scan_number_signed by (by eexists _, _).
    change ("0" ++ "." ++ zs ++ ds) with (String "0" (String "." (zs ++ ds))).
    rewrite scan_int_zero.
    rewrite (scan_frac_end 0 (zs ++ ds) Hallz); [|rewrite Hds; by destruct zs].
    simpl. eexists. split; [reflexivity|].
    f_equal. f_equal.
    + rewrite dval_app. unfold zs. rewrite zeros_dval, Hval. lia.
    + rewrite string_app_length. unfold zs. rewrite zeros_length.
      rewrite Nat2Z.inj_add, Z2Nat.id by lia. unfold dp, nd in *. lia.
Qed.

(** *** The format [%e] and the clean-up of its exponent *)

Lemma cleanExp_cons (c : ascii) (r : string) :
  Ascii.eqb c "e" = false → cleanExp (String c r) = String c (cleanExp r).
Proof.
  intros Hc. destruct c as [[] [] [] [] [] [] [] []]; try discriminate Hc; reflexivity.
Qed.

Lemma cleanExp_noE (s : string) : noE s = true → cleanExp s = s.
Proof.
  induction s as [|c s IH]; [done|]. cbn [noE].
  intros [Hc Hs]%andb_true_iff. apply negb_true_iff in Hc.
  by rewrite (cleanExp_cons _ _ Hc), (IH Hs).
Qed.

Lemma cleanExp_app (pre t : string) : noE pre = true → cleanExp (pre ++ t) = pre ++ cleanExp t.
Proof.
  induction pre as [|c s IH]; [done|]. cbn [noE].
  intros [Hc Hs]%andb_true_iff. apply negb_true_iff in Hc.
  rewrite !string_app_cons. by rewrite (cleanExp_cons _ _ Hc), (IH Hs).
Qed.

Lemma cleanExp_keep (sg z : ascii) (rest : string) :
  Ascii.eqb z "0" = false →
  cleanExp (String "e" (String sg (String z rest)))
  = String "e" (cleanExp (String sg (String z rest))).
Proof.
  intros Hz. destruct z as [[] [] [] [] [] [] [] []]; try discriminate Hz; reflexivity.
Qed.

Lemma cleanExp_zero (minus : bool) (d : ascii) :
  let sg : ascii := if minus then "-"%char else "+"%char in
  cleanExp (String "e" (String sg (String "0" (String d ""))))
  = String "e" (String sg (String d "")).
Proof. by destruct minus. Qed.

Lemma allDigits_noE (s : string) : allDigits s = true → noE s = true.
Proof.
  induction s as [|c s IH]; [done|]. simpl.
  intros [Hc Hs]%andb_true_iff. rewrite (IH Hs), andb_true_r.
  destruct c as [[] [] [] [] [] [] [] []]; try discriminate Hc; reflexivity.
Qed.

Lemma expText_scan (a : Z) :
  0 ≤ a < 1000 →
  ∃ k, expDigits (expText a) 0 0 = (a, k, "") ∧ k ≠ 0.
Proof.
  intros Ha. unfold expText.
  pose proof (Z.div_mod a 10 ltac:(lia)) as H10.
  pose proof (Z.mod_pos_bound a 10 ltac:(lia)) as Hm10.
  destruct (a <? 10) eqn:E1.
  - apply Z.ltb_lt in E1. exists 1. split; [|done]. cbn [expDigits].
    destruct (digitChar_spec a ltac:(lia)) as (-> & -> & _). simpl. f_equal.
  - apply Z.ltb_ge in E1. destruct (a <? 100) eqn:E2.
    + apply Z.ltb_lt in E2. exists 2. split; [|done]. cbn [expDigits].
      assert (Hd : 0 ≤ a / 10 ≤ 9).
      { split; [apply Z.div_pos; lia|]. apply Z.lt_succ_r, Z.div_lt_upper_bound; lia. }
      destruct (digitChar_spec (a / 10) Hd) as (-> & -> & _).
      destruct (digitChar_spec (a mod 10) ltac:(lia)) as (-> & -> & _).
      change (0 <? 10000) with true. cbv iota.
      replace (0 * 10 + a / 10 <? 10000) with true by (symmetry; apply Z.ltb_lt; lia).
      f_equal. f_equal. lia.
    + apply Z.ltb_ge in E2. exists 3. split; [|done]. cbn [expDigits].
      pose proof (Z.div_mod a 100 ltac:(lia)) as H100.
      pose proof (Z.mod_pos_bound a 100 ltac:(lia)) as Hm100.
      assert (Hd : 0 ≤ a / 100 ≤ 9).
      { split; [apply Z.div_pos; lia|]. apply Z.lt_succ_r, Z.div_lt_upper_bound; lia. }
      pose proof (Z.div_mod (a / 10) 10 ltac:(lia)) as H10'.
      pose proof (Z.mod_pos_bound (a / 10) 10 ltac:(lia)) as Hm10'.
      assert (Hdd : a / 10 / 10 = a / 100) by (rewrite Z.div_div by lia; done).
      destruct (digitChar_spec (a / 100) Hd) as (-> & -> & _).
      destruct (digitChar_spec (a / 10 mod 10) ltac:(lia)) as (-> & -> & _).
      destruct (digitChar_spec (a mod 10) ltac:(lia)) as (-> & -> & _).
      change (0 <? 10000) with true. cbv iota.
      replace (0 * 10 + a / 100 <? 10000) with true by (symmetry; apply Z.ltb_lt; lia).
      replace ((0 * 10 + a / 100) * 10 + a / 10 mod 10 <? 10000) with true
        by (symmetry; apply Z.ltb_lt; lia).
      f_equal. f_equal. lia.
Qed.

Lemma expText_noE (a : Z) : 0 ≤ a < 1000 → noE (expText a) = true.
Proof.
  intros Ha. unfold expText.
  pose proof (Z.mod_pos_bound a 10 ltac:(lia)) as Hm10.
  pose proof (Z.mod_pos_bound (a / 10) 10 ltac:(lia)) as Hm10'.
  assert (H1 : 0 ≤ a / 10) by (apply Z.div_pos; lia).
  assert (H2 : 0 ≤ a / 100) by (apply Z.div_pos; lia).
  assert (H3 : a / 100 ≤ 9) by (apply Z.lt_succ_r, Z.div_lt_upper_bound; lia).
  destruct (a <? 10) eqn:E1; [|destruct (a <? 100) eqn:E2].
  - apply Z.ltb_lt in E1. simpl.
    by destruct (digitChar_spec a ltac:(lia)) as (_ & _ & _ & ->).
  - apply Z.ltb_lt in E2.
    assert (H4 : a / 10 ≤ 9) by (apply Z.lt_succ_r, Z.div_lt_upper_bound; lia).
    simpl.
    destruct (digitChar_spec (a / 10) ltac:(lia)) as (_ & _ & _ & ->).
    by destruct (digitChar_spec (a mod 10) ltac:(lia)) as (_ & _ & _ & ->).
  - simpl.
    destruct (digitChar_spec (a / 100) ltac:(lia)) as (_ & _ & _ & ->).
    destruct (digitChar_spec (a / 10 mod 10) ltac:(lia)) as (_ & _ & _ & ->).
    by destruct (digitChar_spec (a mod 10) ltac:(lia)) as (_ & _ & _ & ->).
Qed.

(** The exponent that [fmtE] writes, after the clean-up. *)
Lemma cleanExp_exponent (minus : bool) (a : Z) :
  0 ≤ a < 1000 →
  let sg : ascii := if minus then "-"%char else "+"%char in
  cleanExp
    (String "e" (String sg
       (if a <? 10 then String "0" (String (digitChar a) "")
        else if a <? 100
        then String (digitChar (a / 10)) (String (digitChar (a mod 10)) "")
        else String (digitChar (a / 100))
               (String (digitChar (a / 10 mod 10)) (String (digitChar (a mod 10)) "")))))
  = String "e" (String sg (expText a)).
Proof.
  intros Ha sg. pose proof (expText_noE a Ha) as HnoE. unfold expText in *.
  assert (Hsg : Ascii.eqb sg "e" = false) by (by destruct minus).
  destruct (a <? 10) eqn:E1; [apply cleanExp_zero|].
  apply Z.ltb_ge in E1.
  assert (Hkeep : ∀ z rest, Ascii.eqb z "0" = false → noE (String z rest) = true →
            cleanExp (String "e" (String sg (String z rest)))
            = String "e" (String sg (String z rest))).
  { intros z rest Hz Hn. rewrite (cleanExp_keep sg z rest Hz).
    rewrite (cleanExp_cons sg _ Hsg). by rewrite (cleanExp_noE _ Hn). }
  destruct (a <? 100) eqn:E2.
  - apply Z.ltb_lt in E2. apply Hkeep; [|done].
    assert (Hd : 0 ≤ a / 10 ≤ 9).
    { split; [apply Z.div_pos; lia|]. apply Z.lt_succ_r, Z.div_lt_upper_bound; lia. }
    destruct (digitChar_spec (a / 10) Hd) as (_ & _ & -> & _).
    apply Z.eqb_neq. intros H0.
    pose proof (Z.div_mod a 10 ltac:(lia)). pose proof (Z.mod_pos_bound a 10 ltac:(lia)). lia.
  - apply Z.ltb_ge in E2. apply Hkeep; [|done].
    assert (Hd : 0 ≤ a / 100 ≤ 9).
    { split; [apply Z.div_pos; lia|]. apply Z.lt_succ_r, Z.div_lt_upper_bound; lia. }
    destruct (digitChar_spec (a / 100) Hd) as (_ & _ & -> & _).
    apply Z.eqb_neq. intros H0.
    pose proof (Z.div_mod a 100 ltac:(lia)). pose proof (Z.mod_pos_bound a 100 ltac:(lia)).
    lia.
Qed.

Lemma noE_app (s t : string) : noE (s ++ t) = noE s && noE t.
Proof.
  induction s as [|c s IH]; [done|].
  rewrite string_app_cons. simpl. by rewrite IH, andb_assoc.
Qed.

Lemma scan_exp_text (minus : bool) (a : Z) :
  0 ≤ a < 1000 →
  let sg : ascii := if minus then "-"%char else "+"%char in
  scan_exp (String "e" (String sg (expText a)))
  = Some ((if minus then -1 else 1) * a, "").
Proof.
  intros Ha sg. destruct (expText_scan a Ha) as (k & Hk & Hk0).
  unfold scan_exp. cbn [Ascii.eqb Bool.eqb orb]. unfold sg.
  apply Z.eqb_neq in Hk0. destruct minus; by rewrite Hk, Hk0.
Qed.

Lemma fmtE_reads (neg : bool) (c e : Z) :
  0 < c →
  let ds := decimalDigits c in
  let dp := Z.of_nat (String.length ds) + e in
  -1000 < dp - 1 < 1000 →
  number_text (cleanExp (fmtE neg ds dp)) = Some (Number neg c e).
Proof.
  intros Hc ds dp Hdp.
  destruct (decimalDigits_spec c Hc) as (Hall & Hval & (d & r & Hds & Hd & Hz) & _).
  fold ds in Hall, Hval, Hds.
  assert (Hnd : Z.of_nat (String.length ds) = 1 + Z.of_nat (String.length r)).
  { rewrite Hds. cbn [String.length]. lia. }
  set (x := dp - 1) in *. set (a := Z.abs x).
  assert (Ha : 0 ≤ a < 1000) by (unfold a; lia).
  set (minus := x <? 0).
  set (sg := if minus then "-"%char else "+"%char : ascii).
  set (mant := match r with "" => String d "" | _ => String d ("." ++ r) end).
  assert (Htext : fmtE neg ds dp
    = ((if neg then "-" else "") ++ mant)
      ++ String "e" (String sg
           (if a <? 10 then String "0" (String (digitChar a) "")
            else if a <? 100
            then String (digitChar (a / 10)) (String (digitChar (a mod 10)) "")
            else String (digitChar (a / 100))
                   (String (digitChar (a / 10 mod 10))
                      (String (digitChar (a mod 10)) ""))))).
  { unfold fmtE. rewrite Hds. fold x a minus.
    rewrite <- string_app_assoc. unfold mant, sg. by destruct minus. }
  assert (Hr : allDigits r = true).
  { rewrite Hds in Hall. simpl in Hall. by apply andb_true_iff in Hall as [_ ?]. }
  assert (Hde : Ascii.eqb d "e" = false).
  { destruct d as [[] [] [] [] [] [] [] []]; try discriminate Hd; reflexivity. }
  assert (HnoE : noE ((if neg then "-" else "") ++ mant) = true).
  { rewrite noE_app. apply andb_true_iff. split; [by destruct neg|].
    unfold mant. destruct r as [|c' r']; simpl; rewrite Hde; [done|].
    simpl. apply (allDigits_noE (String c' r') Hr). }
  pose proof (cleanExp_exponent minus a Ha) as Hclean. cbv zeta in Hclean.
  fold sg in Hclean.
  rewrite Htext, (cleanExp_app _ _ HnoE), Hclean.
  unfold number_text. rewrite string_app_assoc.
  rewrite scan_number_signed.
  2:{ unfold mant. destruct r; rewrite string_app_cons; by eexists _, _. }
  assert (Hexp : scan_exp (String "e" (String sg (expText a)))
                 = Some (x, "")).
  { pose proof (scan_exp_text minus a Ha) as Hse. cbv zeta in Hse. fold sg in Hse.
    rewrite Hse. f_equal. f_equal.
    unfold minus, a. destruct (x <? 0) eqn:E; [apply Z.ltb_lt in E|apply Z.ltb_ge in E]; lia. }
  assert (Hhead : ∃ d' r', String d "" = String d' r' ∧ Ascii.eqb d' "0" = false)
    by (by eexists _, _).
  assert (Hd1 : allDigits (String d "") = true) by (simpl; by rewrite Hd).
  unfold mant. destruct r as [|c' r'] eqn:Hreq.
  - (* one digit *)
    rewrite (scan_int_run (String d "") _ Hd1 Hhead) by done.
    rewrite scan_frac_e, Hexp. f_equal. f_equal.
    + specialize (Hval 0). rewrite Hds in Hval. rewrite Hval. simpl. lia.
    + unfold x, dp. rewrite Hnd. simpl. lia.
  - (* a point and more digits *)
    change (String d ("." ++ String c' r') ++ String "e" (String sg (expText a)))
      with (String d "" ++ String "." (String c' r' ++ String "e" (String sg (expText a)))).
    rewrite (scan_int_run (String d "") _ Hd1 Hhead) by done.
    rewrite (scan_frac_run _ (String c' r') _ Hr) by done.
    rewrite Hexp. f_equal. f_equal.
    + rewrite <- dval_app. change (String d "" ++ String c' r') with (String d (String c' r')).
      rewrite <- Hds, Hval. lia.
    + unfold x, dp. rewrite Hnd. lia.
Qed.

(** *** The text of a float reads back as the float *)

Lemma floatText_reads_back (f : float64) :
  canonical f →
  ∃ n, number_text (floatText f) = Some n ∧ strconv.ParseFloat n = Some f.
Proof.
  intros Hcan. destruct (Z.eq_dec (f_mant f) 0) as [H0|Hnz].
  - (* zero *)
    destruct Hcan as (_ & _ & _ & Hq). specialize (Hq H0).
    destruct f as [neg m q]. simpl in *. subst m q.
    exists (Number neg 0 0). by destruct neg.
  - destruct (shortest_spec f Hcan Hnz) as (Hparse & Hc & He).
    unfold floatText. destruct (shortest f) as [c e]. simpl in Hparse, Hc, He.
    destruct (decimalDigits_spec c ltac:(lia)) as (_ & _ & (d & r & Hds & _) & Hlen).
    assert (Hlog : Z.log2 c < 57).
    { apply Z.log2_lt_pow2; [lia|]. change (2 ^ 57) with 144115188075855872.
      change (10 ^ 17) with 100000000000000000 in Hc. lia. }
    assert (Hlen1 : 1 ≤ Z.of_nat (String.length (decimalDigits c))).
    { rewrite Hds. simpl. lia. }
    destruct (negb (f_mant f =? 0) && _).
    + exists (Number (f_neg f) c e). split; [|done].
      apply fmtE_reads; lia.
    + destruct (fmtF_reads (f_neg f) c e ltac:(lia)) as (num & Hnum & Hpf).
      exists num. split; [done|]. by rewrite Hpf.
Qed.

(** *** The floats of a decoded value *)

Lemma digits_nonneg (s : string) :
  ∀ acc k, 0 ≤ acc → 0 ≤ (digits s acc k).1.1.
Proof.
  induction s as [|c s IH]; intros acc k Hacc; [done|].
  simpl. destruct (isDigit c) eqn:Hc; [|done].
  apply IH. unfold isDigit in Hc. apply andb_true_iff in Hc as [Hc _].
  apply N.leb_le in Hc. unfold digitVal. lia.
Qed.

Lemma scan_number_nonneg (s : string) (n : number) (r : string) :
  scan_number s = Some (n, r) → 0 ≤ n_digits n.
Proof.
  unfold scan_number.
  assert (Hgo : ∀ neg s1,
    match scan_int s1 with
    | None => None
    | Some (ip, s2) =>
      match scan_frac ip s2 with
      | None => None
      | Some (d, nfrac, s3) =>
        match scan_exp s3 with
        | None => None
        | Some (e, rest) => Some (Number neg d (e - nfrac), rest)
        end
      end
    end = Some (n, r) → 0 ≤ n_digits n).
  { intros neg s1 H.
    destruct (scan_int s1) as [[ip s2]|] eqn:Hint; [|done].
    assert (Hip : 0 ≤ ip).
    { unfold scan_int in Hint. destruct s1 as [|c r1]; [done|].
      destruct (isDigit c); [|done]. destruct (Ascii.eqb c "0"); [by simplify_eq|].
      pose proof (digits_nonneg (String c r1) 0 0 ltac:(lia)) as Hd.
      destruct (digits (String c r1) 0 0) as [[a k] s']. by simplify_eq. }
    destruct (scan_frac ip s2) as [[[d nfrac] s3]|] eqn:Hfrac; [|done].
    assert (Hd : 0 ≤ d).
    { unfold scan_frac in Hfrac. destruct s2 as [|c r2]; [by simplify_eq|].
      destruct (Ascii.eqb_spec c ".") as [->|Hne].
      - pose proof (digits_nonneg r2 ip 0 Hip) as Hd.
        destruct (digits r2 ip 0) as [[a k] s']. destruct (k =? 0); by simplify_eq.
      - destruct c as [[] [] [] [] [] [] [] []]; by simplify_eq. }
    destruct (scan_exp s3) as [[e rest]|]; [|done]. by simplify_eq. }
  destruct s as [|c s']; [apply (Hgo false)|].
  destruct (Ascii.eqb_spec c "-") as [->|Hne]; [apply (Hgo true)|].
  intros H. apply (Hgo false (String c s')).
  destruct c as [[] [] [] [] [] [] [] []]; done.
Qed.

Lemma natural_array (l : list jtree) :
  Forall natural_numbers l → natural_numbers (JArray l).
Proof.
  intros H. unfold natural_numbers. rewrite numbers_array.
  apply Forall_forall. intros n (ns & Hn & (t & -> & Ht)%list_elem_of_fmap)%elem_of_concat.
  exact (proj1 (Forall_forall _ _) (proj1 (Forall_forall _ _) H t Ht) n Hn).
Qed.

Lemma natural_object (m : list (string * jtree)) :
  Forall (λ kt, natural_numbers kt.2) m → natural_numbers (JObject m).
Proof.
  intros H. unfold natural_numbers. rewrite numbers_object.
  apply Forall_forall. intros n (ns & Hn & (t & -> & Ht)%list_elem_of_fmap)%elem_of_concat.
  exact (proj1 (Forall_forall _ _) (proj1 (Forall_forall _ _) H t Ht) n Hn).
Qed.

Lemma scan_natural (fuel : nat) :
  (∀ d s t r, scan_value fuel d s = Some (t, r) → natural_numbers t)
  ∧ (∀ d s acc l r, array_rest fuel d s acc = Some (l, r) →
       Forall natural_numbers acc → Forall natural_numbers l)
  ∧ (∀ d s acc m r, object_rest fuel d s acc = Some (m, r) →
       Forall (λ kt, natural_numbers kt.2) acc → Forall (λ kt, natural_numbers kt.2) m).
Proof.
  induction fuel as [|fuel (IHv & IHa & IHo)]; [by repeat split|].
  assert (Hleaf : ∀ t, numbers t = [] → natural_numbers t).
  { intros t Ht. unfold natural_numbers. rewrite Ht. constructor. }
  split; [|split].
  - intros d s t r H. cbn [scan_value] in H.
    destruct (skip_ws s) as [|c s'] eqn:Hs; [done|].
    destruct (Ascii.eqb c "{").
    { destruct (maxNestingDepth <? d + 1) eqn:Hmax; [done|].
      destruct (skip_ws s') as [|c' s''] eqn:Hs'.
      - destruct (object_rest fuel (d + 1) s' []) as [[m r']|] eqn:Ho; [|done].
        simplify_eq. apply natural_object. by eapply IHo.
      - destruct (Ascii.eqb_spec c' "}") as [->|Hne].
        + simplify_eq. by apply Hleaf.
        + assert (Hgo : match object_rest fuel (d + 1) s' [] with
                        | Some (m, r') => Some (JObject m, r')
                        | None => None
                        end = Some (t, r)).
          { destruct c' as [[] [] [] [] [] [] [] []]; done. }
          destruct (object_rest fuel (d + 1) s' []) as [[m r']|] eqn:Ho; [|done].
          simplify_eq. apply natural_object. by eapply IHo. }
    destruct (Ascii.eqb c "[").
    { destruct (maxNestingDepth <? d + 1) eqn:Hmax; [done|].
      assert (Hgo : (∃ r', t = JArray [] ∧ r = r')
                    ∨ match scan_value fuel (d + 1) s' with
                      | Some (v, r1) =>
                        match array_rest fuel (d + 1) r1 [v] with
                        | Some (l, r') => Some (JArray l, r')
                        | None => None
                        end
                      | None => None
                      end = Some (t, r)).
      { destruct (skip_ws s') as [|c' s'']; [by right|].
        destruct (Ascii.eqb_spec c' "]") as [->|Hne]; [left; simplify_eq; by eexists|].
        right. destruct c' as [[] [] [] [] [] [] [] []]; done. }
      destruct Hgo as [(r' & -> & _)|Hgo]; [by apply Hleaf|].
      destruct (scan_value fuel (d + 1) s') as [[v r1]|] eqn:Hv; [|done].
      destruct (array_rest fuel (d + 1) r1 [v]) as [[l r']|] eqn:Ha; [|done].
      simplify_eq. apply natural_array.
      eapply IHa; [exact Ha|]. constructor; [|done]. by eapply IHv. }
    destruct (Ascii.eqb c dquote).
    { destruct (scan_string (String.length s') s') as [[t' r']|] eqn:Hstr; [|done].
      simplify_eq. by apply Hleaf. }
    destruct (Ascii.eqb c "-" || isDigit c).
    { destruct (scan_number (String c s')) as [[n r']|] eqn:Hn; [|done].
      simplify_eq. unfold natural_numbers. simpl. constructor; [|done].
      by eapply scan_number_nonneg. }
    destruct (strip_prefix "true" (String c s')); [simplify_eq; by apply Hleaf|].
    destruct (strip_prefix "false" (String c s')); [simplify_eq; by apply Hleaf|].
    destruct (strip_prefix "null" (String c s')); [simplify_eq; by apply Hleaf|].
    done.
  - intros d s acc l r H Hacc. cbn [array_rest] in H.
    destruct (skip_ws s) as [|c s'] eqn:Hs; [done|].
    destruct (Ascii.eqb_spec c "]") as [->|Hne]; [by simplify_eq|].
    destruct (Ascii.eqb_spec c ",") as [->|Hne'].
    + destruct (scan_value fuel d s') as [[v r1]|] eqn:Hv; [|done].
      eapply IHa; [exact H|]. apply Forall_app. split; [done|].
      constructor; [|done]. by eapply IHv.
    + destruct c as [[] [] [] [] [] [] [] []]; done.
  - intros d s acc m r H Hacc. cbn [object_rest] in H.
    destruct (skip_ws s) as [|c s'] eqn:Hs; [done|].
    destruct (Ascii.eqb c dquote); [|done]. simpl in H.
    destruct (scan_string (String.length s') s') as [[k r1]|] eqn:Hk; [|done].
    destruct (skip_ws r1) as [|c1 r2] eqn:Hs1; [done|].
    destruct (Ascii.eqb_spec c1 ":") as [->|Hne];
      [|destruct c1 as [[] [] [] [] [] [] [] []]; done].
    destruct (scan_value fuel d r2) as [[v r3]|] eqn:Hv; [|done].
    assert (Hm : Forall (λ kt : string * jtree, natural_numbers kt.2) (acc ++ [(k, v)])).
    { apply Forall_app. split; [done|]. constructor; [|done]. by eapply IHv. }
    destruct (skip_ws r3) as [|c3 r4] eqn:Hs3; [done|].
    destruct (Ascii.eqb_spec c3 "}") as [->|Hne3]; [by simplify_eq|].
    destruct (Ascii.eqb_spec c3 ",") as [->|Hne4].
    + by eapply IHo.
    + destruct c3 as [[] [] [] [] [] [] [] []]; done.
Qed.

Lemma to_value_canonical (t : jtree) :
  natural_numbers t → ∀ x, to_value t = Some x → Forall canonical (floats x).
Proof.
  induction t as [ |b|n|s|l IH|m IH] using jtree_ind'; intros Hnat x Hx.
  - simpl in Hx. simplify_eq. constructor.
  - simpl in Hx. simplify_eq. constructor.
  - simpl in Hx. destruct (strconv.ParseFloat n) as [f|] eqn:Hf; [|done].
    simplify_eq. simpl. constructor; [|done].
    apply (ParseFloat_canonical n); [|done].
    unfold natural_numbers in Hnat. simpl in Hnat. by inversion Hnat.
  - simpl in Hx. simplify_eq. constructor.
  - rewrite to_value_array in Hx.
    destruct (to_values l) as [vs|] eqn:Hvs; [|done]. simplify_eq.
    rewrite floats_slice.
    assert (Hnl : Forall natural_numbers l).
    { apply Forall_forall. intros t Ht. unfold natural_numbers in *.
      rewrite numbers_array in Hnat. apply Forall_forall. intros n Hn.
      apply (proj1 (Forall_forall _ _) Hnat). apply elem_of_concat.
      exists (numbers t). split; [done|]. apply list_elem_of_fmap. by exists t. }
    clear Hnat. revert vs Hvs.
    induction l as [|t l IHl]; intros vs Hvs; simpl in Hvs.
    { simplify_eq. constructor. }
    apply Forall_cons in IH as [IHt IH]. apply Forall_cons in Hnl as [Ht Hnl].
    destruct (to_value t) as [v|] eqn:Hv; [|done].
    destruct (to_values l) as [vs'|] eqn:Hvs'; [|done]. simplify_eq.
    simpl. apply Forall_app. split; [by apply IHt|by apply IHl].
  - rewrite to_value_object in Hx.
    destruct (to_members m []) as [vs|] eqn:Hvs; [|done]. simplify_eq.
    rewrite floats_map.
    assert (Hnl : Forall (λ kt : string * jtree, natural_numbers kt.2) m).
    { apply Forall_forall. intros kt Ht. unfold natural_numbers in *.
      rewrite numbers_object in Hnat. apply Forall_forall. intros n Hn.
      apply (proj1 (Forall_forall _ _) Hnat). apply elem_of_concat.
      exists (numbers kt.2). split; [done|]. apply list_elem_of_fmap. by exists kt. }
    clear Hnat.
    assert (Hgo : ∀ acc vs,
      Forall (λ kv : string * value, Forall canonical (floats kv.2)) acc →
      to_members m acc = Some vs →
      Forall (λ kv : string * value, Forall canonical (floats kv.2)) vs).
    { clear Hvs. induction m as [|[k t] m IHm]; intros acc vs' Hacc H; simpl in H.
      { by simplify_eq. }
      apply Forall_cons in IH as [IHt IH]. apply Forall_cons in Hnl as [Ht Hnl].
      destruct (to_value t) as [v|] eqn:Hv; [|done].
      eapply (IHm IH Hnl); [|exact H].
      apply map_store_Forall; [|done]. simpl. by apply IHt. }
    specialize (Hgo [] vs ltac:(constructor) Hvs).
    apply Forall_forall. intros f (fs & Hf & (kv & -> & Hkv)%list_elem_of_fmap)%elem_of_concat.
    exact (proj1 (Forall_forall _ _) (proj1 (Forall_forall _ _) Hgo kv Hkv) f Hf).
Qed.

(** The floats of a decoded value are written as texts that read back as
    these floats. *)
Lemma Unmarshal_float_ok (lib : golib) (s : string) (x : value) :
  json_floats lib → Unmarshal s = Some x → Forall (float_ok lib) (floats x).
Proof.
  intros Hlib Hu. unfold Unmarshal, parse in Hu.
  destruct (scan_value (S (String.length s)) 0 s) as [[t rest]|] eqn:Hscan; [|done].
  destruct (String.eqb (skip_ws rest) ""); [|done].
  destruct (scan_natural (S (String.length s))) as (Hnat & _ & _).
  pose proof (to_value_canonical t (Hnat _ _ _ _ Hscan) x Hu) as Hcan.
  eapply Forall_impl; [exact Hcan|].
  intros f Hf. unfold float_ok. rewrite Hlib. by apply floatText_reads_back.
Qed.

(** A field whose value is a JSON text is an entry of the single map. *)
Lemma jsonText_field_single (args : list value) (k : string) (v : value) :
  fields (parseArgs args) !! k = Some v → jsonText v = true →
  ∃ m0 mm, args = [m0; VMap mm].
Proof.
  intros Hf Hj. destruct args as [|m rest]; [done|].
  destruct (isSingleMap rest) eqn:Hsingle.
  - destruct rest as [|[] [|]]; try discriminate Hsingle. by eexists _, _.
  - rewrite (parseArgs_general _ _ Hsingle) in Hf. simpl in Hf.
    apply pairKV_lookup in Hf as [Hf|(i & key & _ & Hv & _)];
      [by rewrite lookup_empty in Hf|].
    apply list_elem_of_lookup_2, pairingInput_not_jsonText in Hv. congruence.
Qed.

(** C9, amended.  Let a string [s] whose trimmed text is syntactically
    valid JSON be the message, or the value of a field whose key is not
    reserved; such a field is an entry of the one [map[string]any] passed
    after the message, since in the general branch these strings are taken
    out as raw data before the pairing.  When the decoder accepts the
    trimmed text, with the value [x], the entry holds [x] under that key,
    and the encoder writes [x] as a text [out] that decodes to [x] again;
    [out] is the text at the position of the key in the line [MarshalJSON]
    returns.  When the decoder rejects the trimmed text (a number out of
    range), the entry holds the trimmed string instead.  The floats are
    written as [encoding/json] writes them. *)
Theorem C9_json_text_embedded (lib : golib) (ts : string) (lv : Level)
        (caller : string) (args : list value) (k s : string) :
  let p := parseArgs args in
  let e := buildJSONEntry ts lv caller args in
  json_floats lib →
  (k = "msg" ∧ msg p = VString s)
  ∨ (reserved k = false ∧ fields p !! k = Some (VString s)) →
  Valid (TrimSpace s) = true →
  (fields p !! k = Some (VString s) → ∃ m0 mm, args = [m0; VMap mm])
  ∧ (∀ x, Unmarshal (TrimSpace s) = Some x →
       (k, x) ∈ entryPairs e
       ∧ ∃ out, Marshal lib x = Some out ∧ Unmarshal out = Some x
           ∧ ∀ line, MarshalJSON lib e = inl line →
               ∃ vs i, line = "{" ++ join "," (zip_with member (entryPairs e) vs) ++ "}"
                       ∧ entryPairs e !! i = Some (k, x) ∧ vs !! i = Some out)
  ∧ (Unmarshal (TrimSpace s) = None → (k, VString (TrimSpace s)) ∈ entryPairs e).
Proof.
  intros p e Hlib Hpos Hvalid.
  assert (Hin : (k, parseJSONIfString (VString s)) ∈ entryPairs e).
  { destruct Hpos as [[-> Hmsg]|[Hres Hf]].
    - replace (parseJSONIfString (VString s)) with (Msg e); [apply entryPairs_msg|].
      unfold e, buildJSONEntry. simpl. fold p. by rewrite Hmsg.
    - by apply entryPairs_field. }
  split; [|split].
  - intros Hf. by apply (jsonText_field_single args k (VString s)).
  - intros x Hx. rewrite (parseJSONIfString_decoded _ _ Hx) in Hin.
    split; [done|].
    pose proof (Unmarshal_float_ok lib _ x Hlib Hx) as Hfloats.
    destruct (Unmarshal_Marshal lib _ x Hx Hfloats) as (out & Hout & _ & Hback).
    exists out. split; [done|]. split; [done|].
    intros line Hline. by eapply MarshalJSON_position.
  - intros Hnone. by rewrite (parseJSONIfString_fallback _ Hnone) in Hin.
Qed.

Lemma C9_json_text_embedded_witness :
  let s := " {" ++ q ++ "a" ++ q ++ ":[18, -2.5e-7, 1e21, 0.1, true, null]} " in
  let args := [VString s; VMap [("req", VString s)]] in
  let p := parseArgs args in
  let e := buildJSONEntry "t" INFO "c" args in
  (json_floats json_lib
   ∧ msg p = VString s
   ∧ reserved "req" = false ∧ fields p !! "req" = Some (VString s)
   ∧ Valid (TrimSpace s) = true)
  ∧ ∃ x out line,
      Unmarshal (TrimSpace s) = Some x
      ∧ ("msg", x) ∈ entryPairs e
      ∧ ("req", x) ∈ entryPairs e
      ∧ Marshal json_lib x = Some out ∧ Unmarshal out = Some x
      ∧ out = "{" ++ q ++ "a" ++ q ++ ":[18,-2.5e-7,1e+21,0.1,true,null]}"
      ∧ MarshalJSON json_lib e = inl line
      ∧ ∃ vs i, line = "{" ++ join "," (zip_with member (entryPairs e) vs) ++ "}"
                ∧ entryPairs e !! i = Some ("req", x) ∧ vs !! i = Some out.
Proof.
  intros s args p e.
  assert (Hlib : json_floats json_lib) by (intros f; reflexivity).
  assert (Hmsg : msg p = VString s) by reflexivity.
  assert (Hres : reserved "req" = false) by reflexivity.
  assert (Hreq : fields p !! "req" = Some (VString s)) by reflexivity.
  assert (Hvalid : Valid (TrimSpace s) = true) by (vm_compute; reflexivity).
  split; [by repeat split|].
  destruct (Unmarshal (TrimSpace s)) as [x|] eqn:Hx; [|vm_compute in Hx; discriminate Hx].
  destruct (C9_json_text_embedded json_lib "t" INFO "c" args "msg" s Hlib
              (or_introl (conj eq_refl Hmsg)) Hvalid) as (_ & Hm & _).
  destruct (C9_json_text_embedded json_lib "t" INFO "c" args "req" s Hlib
              (or_intror (conj Hres Hreq)) Hvalid) as (_ & Hr & _).
  destruct (Hr x Hx) as (Hinr & out & Hout & Hback & Hline).
  destruct (MarshalJSON json_lib e) as [line|err] eqn:Hjson;
    [|vm_compute in Hjson; discriminate Hjson].
  exists x, out, line.
  split; [reflexivity|]. split; [exact (proj1 (Hm x Hx))|]. split; [exact Hinr|].
  split; [exact Hout|]. split; [exact Hback|].
  split.
  { assert (Hout' : Marshal json_lib x
                    = Some ("{" ++ q ++ "a" ++ q ++ ":[18,-2.5e-7,1e+21,0.1,true,null]}")).
    { vm_compute in Hx. injection Hx as <-. vm_compute. reflexivity. }
    rewrite Hout in Hout'. by injection Hout'. }
  split; [reflexivity|]. by apply Hline.
Defined.
